(** * Inverted-index search engine: tokenizer, stemmer, index builder and
      query engine

  A shallow embedding of the C++ sources [tokenizer.cpp], [stemmer.cpp],
  [index_builder.cpp] and [search_cli.cpp], followed by the properties of
  the specification that are stated about them and by further properties
  of the code.

  Modelling conventions.
  - A C string ([char*], NUL-terminated) is modelled by its contents, the
    list of bytes before the terminator: [list ascii].  Writing
    ['\0'] at position [k] of a string of length [n >= k] is therefore
    [take k].  A [std::string] and a buffer that may hold a NUL are lists
    of bytes; [c_str] gives the C string that a buffer holds.
  - [strlen] results and array indices that the code guards against
    underflow are natural numbers; 32-bit unsigned values whose arithmetic
    can wrap are integers ([Z]) with the wrap written out ([wrap32]), and
    so is a length that the code casts to [int] ([to_int]).
  - [malloc]/[realloc] are assumed to succeed; the failure paths of the
    code that only report an allocation failure are not modelled, nor are
    the sizes passed to the allocator.
  - A file is the list of its bytes, and every file opens.  [fwrite] and
    [fread] of an unsigned integer copy its object representation, the
    least significant byte first; [unsigned long] and [size_t] have 64
    bits.
  - A loop that is not structurally recursive runs on a fuel; a lemma
    shows that the fuel given by its caller is enough. *)

From Stdlib Require Import ZArith Ascii String Lia Sorted Permutation DecimalString.
From Stdlib Require DecimalN.
From stdpp Require Import base tactics option list strings.

Local Open Scope Z_scope.

(* ===================================================================== *)
(** * The C library functions used by the sources ("C" locale)           *)
(* ===================================================================== *)

Module CLib.

(** A C string, without its terminating NUL. *)
Abbreviation cstring := (list ascii).

(** String literals of the sources. *)
Definition lit (s : string) : cstring := list_ascii_of_string s.

(** [static_cast<unsigned char>(c)] as a number. *)
Definition uchar (c : ascii) : Z := Z.of_N (N_of_ascii c).

Definition isspace (c : ascii) : bool :=
  (uchar c =? 32) || ((9 <=? uchar c) && (uchar c <=? 13)).

Definition isdigit (c : ascii) : bool := (48 <=? uchar c) && (uchar c <=? 57).
Definition isupper (c : ascii) : bool := (65 <=? uchar c) && (uchar c <=? 90).
Definition islower (c : ascii) : bool := (97 <=? uchar c) && (uchar c <=? 122).
Definition isalnum (c : ascii) : bool := isdigit c || isupper c || islower c.

Definition tolower (c : ascii) : ascii :=
  if isupper c then ascii_of_N (Z.to_N (uchar c + 32)) else c.

(** [strcmp]: the difference of the first two bytes that differ, read as
    [unsigned char]; the end of a string reads as 0. *)
Fixpoint strcmp (a b : cstring) : Z :=
  match a, b with
  | [], [] => 0
  | [], y :: _ => 0 - uchar y
  | x :: _, [] => uchar x
  | x :: a', y :: b' =>
      if uchar x =? uchar y then strcmp a' b' else uchar x - uchar y
  end.

(** [memcmp(p, q, m) == 0] on two blocks of [m] bytes. *)
Definition mem_equal (p q : list ascii) : bool := bool_decide (p = q).

(** The value of an integer stored in 32 or 64 unsigned bits. *)
Definition wrap32 (x : Z) : Z := x mod 2 ^ 32.
Definition wrap64 (x : Z) : Z := Z.land x (Z.ones 64).

(** [static_cast<int>(n)] of a [size_t]: the value modulo [2^32], read
    as a signed 32-bit integer. *)
Definition to_int (n : Z) : Z := (n + 2 ^ 31) mod 2 ^ 32 - 2 ^ 31.

End CLib.

(* ===================================================================== *)
(** * stemmer.cpp                                                        *)
(* ===================================================================== *)

Module Stemmer.
Import CLib.

(** [ends_with(s, n, suffix)]: the [m] bytes of [s] that end at position
    [n] are those of [suffix], [m] being [strlen(suffix)] cast to [int].
    The callers pass an [n] with [0 < n <= strlen(s)]. *)
Definition ends_with (s : cstring) (n : Z) (suffix : cstring) : bool :=
  let m := to_int (Z.of_nat (length suffix)) in
  if n <? m then false
  else mem_equal (take (Z.to_nat m) (drop (Z.to_nat (n - m)) s)) suffix.

(** [stem_token(token)]: the token after the in-place edit.  [n] is
    [strlen(token)] cast to [int]; it is the length of the token only when
    that is below [2^31].  Past the first test [2 < n <= strlen(token)],
    so every position written or read is inside the string. *)
Definition stem_token (token : cstring) : cstring :=
  let n := to_int (Z.of_nat (length token)) in
  if n <=? 2 then token
  else if (5 <? n) && ends_with token n (lit "ingly")
       then take (Z.to_nat (n - 5)) token
  else if (4 <? n) && ends_with token n (lit "edly")
       then take (Z.to_nat (n - 4)) token
  else if (4 <? n) && ends_with token n (lit "ing")
       then take (Z.to_nat (n - 3)) token
  else if (3 <? n) && ends_with token n (lit "ed")
       then take (Z.to_nat (n - 2)) token
  else if (4 <? n) && ends_with token n (lit "ies")
       then take (Z.to_nat (n - 2)) (<[Z.to_nat (n - 3) := "y"%char]> token)
  else if (3 <? n) && ends_with token n (lit "es")
       then take (Z.to_nat (n - 2)) token
  else if (3 <? n) && ends_with token n (lit "ly")
       then take (Z.to_nat (n - 2)) token
  else if (3 <? n) && bool_decide (token !! Z.to_nat (n - 1) = Some "s"%char)
       then take (Z.to_nat (n - 1)) token
  else token.

(** The token loop of [main] over the body of one line.  The outer
    recursion is the loop over the body that skips white space; the inner
    one is the scan over the non-space bytes that delimits the token
    [start].  The token is stemmed in place and written
    out when [start[0] != 0]; the result lists the tokens written. *)
Fixpoint stem_body (p : list ascii) : list cstring :=
  match p with
  | [] => []
  | c :: p' =>
      if isspace c then stem_body p'
      else
        (fix scan (start : cstring) (q : list ascii) {struct q} : list cstring :=
           let emit :=
             let stemmed := stem_token start in
             if bool_decide (stemmed = []) then [] else [stemmed] in
           match q with
           | [] => emit
           | d :: q' =>
               if isspace d then emit ++ stem_body q
               else scan (start ++ [d]) q'
           end) [c] p'
  end.

End Stemmer.

(* ===================================================================== *)
(** * search_cli.cpp                                                     *)
(* ===================================================================== *)

Module SearchCli.
Import CLib.

Inductive TokenType : Set :=
| TOK_TERM | TOK_AND | TOK_OR | TOK_NOT | TOK_LPAREN | TOK_RPAREN.

#[global] Instance TokenType_eq_dec : EqDecision TokenType.
Proof. solve_decision. Defined.

Record LexEntry := {
  term : cstring;
  postings_offset : Z;
  postings_count : Z
}.

(** [title] and [url] are null ([None]) for a doc_id without a record. *)
Record DocMeta := {
  title : option cstring;
  url : option cstring
}.

(** The loaded index.  [term_count], [postings_total] and
    [universe_count] are the lengths of the arrays they count. *)
Record IndexData := {
  lexicon : list LexEntry;
  postings_data : list Z;
  metas_by_id : list DocMeta;
  max_doc_id : Z;
  universe_ids : list Z
}.

Definition term_count (idx : IndexData) : Z := Z.of_nat (length (lexicon idx)).
Definition postings_total (idx : IndexData) : Z :=
  Z.of_nat (length (postings_data idx)).

(** [text] is null ([None]) for every token but a [TOK_TERM]. *)
Record Token := {
  type : TokenType;
  text : option cstring
}.

(** [ids] with its [count], the length of the list. *)
Abbreviation PostingList := (list Z).

(** [ends_with] and [stem_term_inplace]: [n] and [m] are [strlen] results
    cast to [int]. *)
Definition ends_with (s : cstring) (n : Z) (suffix : cstring) : bool :=
  let m := to_int (Z.of_nat (length suffix)) in
  if n <? m then false
  else mem_equal (take (Z.to_nat m) (drop (Z.to_nat (n - m)) s)) suffix.

Definition stem_term_inplace (token : cstring) : cstring :=
  let n := to_int (Z.of_nat (length token)) in
  if n <=? 2 then token
  else if (5 <? n) && ends_with token n (lit "ingly")
       then take (Z.to_nat (n - 5)) token
  else if (4 <? n) && ends_with token n (lit "edly")
       then take (Z.to_nat (n - 4)) token
  else if (4 <? n) && ends_with token n (lit "ing")
       then take (Z.to_nat (n - 3)) token
  else if (3 <? n) && ends_with token n (lit "ed")
       then take (Z.to_nat (n - 2)) token
  else if (4 <? n) && ends_with token n (lit "ies")
       then take (Z.to_nat (n - 2)) (<[Z.to_nat (n - 3) := "y"%char]> token)
  else if (3 <? n) && ends_with token n (lit "es")
       then take (Z.to_nat (n - 2)) token
  else if (3 <? n) && ends_with token n (lit "ly")
       then take (Z.to_nat (n - 2)) token
  else if (3 <? n) && bool_decide (token !! Z.to_nat (n - 1) = Some "s"%char)
       then take (Z.to_nat (n - 1)) token
  else token.

(** ** Lexicon lookup *)

(** The binary search loop on [lo], [hi] (signed 64-bit; no wrap, both
    stay within [-1 .. term_count]).  [Some None] is [return 0]; the outer
    [None] is an exhausted fuel or an index outside the lexicon, neither
    of which occurs from the initial call (lemma [lexicon_find_returns]
    below). *)
Fixpoint lexicon_find_loop (fuel : nat) (lex : list LexEntry) (t : cstring)
    (lo hi : Z) : option (option (Z * Z)) :=
  match fuel with
  | O => None
  | S fuel' =>
      if lo <=? hi then
        let mid := Z.quot (lo + hi) 2 in
        match lex !! Z.to_nat mid with
        | None => None
        | Some e =>
            let cmp := strcmp t (term e) in
            if cmp =? 0 then Some (Some (postings_offset e, postings_count e))
            else if cmp <? 0 then lexicon_find_loop fuel' lex t lo (mid - 1)
            else lexicon_find_loop fuel' lex t (mid + 1) hi
        end
      else Some None
  end.

Definition lexicon_find (idx : IndexData) (t : cstring) : option (Z * Z) :=
  default None
    (lexicon_find_loop (S (length (lexicon idx))) (lexicon idx) t
       0 (term_count idx - 1)).

(** ** Query lexer *)

Definition is_operand_end (ty : TokenType) : bool :=
  bool_decide (ty = TOK_TERM) || bool_decide (ty = TOK_RPAREN).

Definition is_operand_start (ty : TokenType) : bool :=
  bool_decide (ty = TOK_TERM) || bool_decide (ty = TOK_LPAREN)
  || bool_decide (ty = TOK_NOT).

Definition op_token (ty : TokenType) : Token := {| type := ty; text := None |}.

(** The term token made from the bytes [query[start .. i)]: a copy,
    lowercased byte by byte, then stemmed in place. *)
Definition term_token (run : list ascii) : Token :=
  {| type := TOK_TERM; text := Some (stem_term_inplace (map tolower run)) |}.

(** [i + 1 < n && query[i + 1] == c], on the bytes after position [i]. *)
Definition next_is (rest : list ascii) (c : ascii) : bool :=
  match rest with
  | c2 :: _ => bool_decide (c2 = c)
  | [] => false
  end.

(** The first loop of [tokenize_query], over the bytes from position [i]
    on; the inner recursion is the scan of a run of [isalnum] bytes. *)
Fixpoint tokenize_raw (query : list ascii) : list Token :=
  match query with
  | [] => []
  | ch :: q1 =>
      if isspace ch then tokenize_raw q1
      else if bool_decide (ch = "&"%char) && next_is q1 "&"%char then
        match q1 with
        | _ :: q2 => op_token TOK_AND :: tokenize_raw q2
        | [] => []
        end
      else if bool_decide (ch = "|"%char) && next_is q1 "|"%char then
        match q1 with
        | _ :: q2 => op_token TOK_OR :: tokenize_raw q2
        | [] => []
        end
      else if bool_decide (ch = "!"%char) then op_token TOK_NOT :: tokenize_raw q1
      else if bool_decide (ch = "("%char) then op_token TOK_LPAREN :: tokenize_raw q1
      else if bool_decide (ch = ")"%char) then op_token TOK_RPAREN :: tokenize_raw q1
      else if isalnum ch then
        (fix scan (run : list ascii) (q : list ascii) {struct q} : list Token :=
           match q with
           | [] => [term_token run]
           | d :: q' =>
               if isalnum d then scan (run ++ [d]) q'
               else term_token run :: tokenize_raw q
           end) [ch] q1
      else tokenize_raw q1
  end.

(** The second loop of [tokenize_query], [for t in 0 .. raw_count), with
    [k] iterations left. *)
Fixpoint expand_loop (raw : list Token) (k : nat) (t : nat) : list Token :=
  match k with
  | O => []
  | S k' =>
      match raw !! t with
      | None => []
      | Some cur =>
          (if (0 <? t)%nat
              && from_option (fun prev => is_operand_end (type prev)) false
                   (raw !! (t - 1)%nat)
              && is_operand_start (type cur)
           then [op_token TOK_AND] else [])
          ++ cur :: expand_loop raw k' (S t)
      end
  end.

Definition expand (raw : list Token) : list Token :=
  expand_loop raw (length raw) 0.

Definition tokenize_query (query : list ascii) : list Token :=
  expand (tokenize_raw query).

(** ** Shunting-Yard *)

Definition precedence (t : TokenType) : Z :=
  if bool_decide (t = TOK_NOT) then 3
  else if bool_decide (t = TOK_AND) then 2
  else if bool_decide (t = TOK_OR) then 1
  else 0.

Definition is_right_assoc (t : TokenType) : bool := bool_decide (t = TOK_NOT).

Definition is_operator (t : TokenType) : bool :=
  bool_decide (t = TOK_AND) || bool_decide (t = TOK_OR)
  || bool_decide (t = TOK_NOT).

(** The operator stack [ops] is a list with its top at the head; the
    output [out] grows at its end. *)

(** [while (ops_n > 0)] on an operator token [t]. *)
Fixpoint pop_operators (t : Token) (out ops : list Token)
    : list Token * list Token :=
  match ops with
  | [] => (out, ops)
  | top :: ops' =>
      if negb (is_operator (type top)) then (out, ops)
      else
        let p_top := precedence (type top) in
        let p_cur := precedence (type t) in
        if (p_top >? p_cur) || ((p_top =? p_cur) && negb (is_right_assoc (type t)))
        then pop_operators t (out ++ [top]) ops'
        else (out, ops)
  end.

(** [while (ops_n > 0)] on a [TOK_RPAREN]; [None] is [!found_lparen]. *)
Fixpoint pop_to_lparen (out ops : list Token)
    : option (list Token * list Token) :=
  match ops with
  | [] => None
  | top :: ops' =>
      if bool_decide (type top = TOK_LPAREN) then Some (out, ops')
      else pop_to_lparen (out ++ [top]) ops'
  end.

(** The final [while (ops_n > 0)]. *)
Fixpoint drain_ops (out ops : list Token) : option (list Token) :=
  match ops with
  | [] => Some out
  | top :: ops' =>
      if bool_decide (type top = TOK_LPAREN) || bool_decide (type top = TOK_RPAREN)
      then None
      else drain_ops (out ++ [top]) ops'
  end.

Fixpoint to_rpn_loop (in_tokens out ops : list Token) : option (list Token) :=
  match in_tokens with
  | [] => drain_ops out ops
  | t :: rest =>
      if bool_decide (type t = TOK_TERM) then to_rpn_loop rest (out ++ [t]) ops
      else if is_operator (type t) then
        let '(out', ops') := pop_operators t out ops in
        to_rpn_loop rest out' (t :: ops')
      else if bool_decide (type t = TOK_LPAREN) then to_rpn_loop rest out (t :: ops)
      else if bool_decide (type t = TOK_RPAREN) then
        match pop_to_lparen out ops with
        | None => None
        | Some (out', ops') => to_rpn_loop rest out' ops'
        end
      else to_rpn_loop rest out ops
  end.

(** [None] is [return 0] (parse error). *)
Definition to_rpn (in_tokens : list Token) : option (list Token) :=
  to_rpn_loop in_tokens [] [].

(** ** Evaluator *)

(** The dual index walks.  The indexes [i] (outer recursion) and [j]
    (inner recursion) are the suffixes of the two arrays still to be read;
    ids are compared as unsigned 32-bit values. *)

Fixpoint op_and (a b : PostingList) : PostingList :=
  match a with
  | [] => []
  | x :: a' =>
      (fix walk (b : PostingList) : PostingList :=
         match b with
         | [] => []
         | y :: b' =>
             if x =? y then x :: op_and a' b'
             else if x <? y then op_and a' b
             else walk b'
         end) b
  end.

Fixpoint op_or (a b : PostingList) : PostingList :=
  match a with
  | [] => b
  | x :: a' =>
      (fix walk (b : PostingList) : PostingList :=
         match b with
         | [] => x :: a'
         | y :: b' =>
             if x =? y then x :: op_or a' b'
             else if x <? y then x :: op_or a' b
             else y :: walk b'
         end) b
  end.

(** [not_walk universe a]: the loop of [op_not] over the universe. *)
Fixpoint not_walk (u : list Z) (a : PostingList) : PostingList :=
  match u with
  | [] => []
  | x :: u' =>
      (fix walk (a : PostingList) : PostingList :=
         match a with
         | [] => x :: not_walk u' []
         | y :: a' =>
             if x =? y then not_walk u' a'
             else if x <? y then x :: not_walk u' a
             else walk a'
         end) a
  end.

Definition op_not (idx : IndexData) (a : PostingList) : PostingList :=
  not_walk (universe_ids idx) a.

(** [clone_postings(idx->postings_data + start, cnt)]. *)
Definition clone_postings (data : list Z) (start cnt : Z) : PostingList :=
  take (Z.to_nat cnt) (drop (Z.to_nat start) data).

(** The loop of [eval_rpn] over the tokens; the operand stack has its top
    at the head.  [None] is a [return] with [*ok == 0].  A [TOK_TERM]
    always carries its text; a null text is treated as a failure. *)
Fixpoint eval_loop (idx : IndexData) (rpn : list Token)
    (stack : list PostingList) : option (list PostingList) :=
  match rpn with
  | [] => Some stack
  | t :: rest =>
      if bool_decide (type t = TOK_TERM) then
        match text t with
        | None => None
        | Some txt =>
            match lexicon_find idx txt with
            | None => eval_loop idx rest ([] :: stack)
            | Some (offset, cnt) =>
                let start := offset / 4 in
                if start + cnt >? postings_total idx then None
                else eval_loop idx rest
                       (clone_postings (postings_data idx) start cnt :: stack)
            end
        end
      else if bool_decide (type t = TOK_NOT) then
        match stack with
        | a :: stack' => eval_loop idx rest (op_not idx a :: stack')
        | _ => None
        end
      else if bool_decide (type t = TOK_AND) || bool_decide (type t = TOK_OR) then
        match stack with
        | b :: a :: stack' =>
            let c := if bool_decide (type t = TOK_AND) then op_and a b
                     else op_or a b in
            eval_loop idx rest (c :: stack')
        | _ => None
        end
      else eval_loop idx rest stack
  end.

Definition eval_rpn (idx : IndexData) (rpn : list Token) : option PostingList :=
  match eval_loop idx rpn [] with
  | Some [out] => Some out
  | _ => None
  end.

(** ** Result presentation *)

(** The lines written to standard output:
    [TOTAL\t%u\n] and [DOC\t%u\t%s\t%s\n]. *)
Inductive OutLine :=
| TOTAL (count : Z)
| DOC (doc_id : Z) (title url : cstring).

Definition doc_line (idx : IndexData) (doc_id : Z) : OutLine :=
  match (if doc_id <=? max_doc_id idx
         then metas_by_id idx !! Z.to_nat doc_id else None) with
  | Some {| title := Some t; url := Some u |} => DOC doc_id t u
  | _ => DOC doc_id [] []
  end.

(** [for (i = offset; i < end; ++i)], with [k] iterations left. *)
Fixpoint doc_lines (idx : IndexData) (res : PostingList) (k : nat) (i : Z)
    : list OutLine :=
  match k with
  | O => []
  | S k' =>
      doc_line idx (default 0 (res !! Z.to_nat i))
        :: doc_lines idx res k' (i + 1)
  end.

(** [offset] and [limit] are unsigned 32-bit values; so is [end]. *)
Definition print_results (idx : IndexData) (res : PostingList)
    (offset limit : Z) : list OutLine :=
  let count := Z.of_nat (length res) in
  TOTAL count ::
    (if offset >=? count then []
     else
       let end0 := wrap32 (offset + limit) in
       let end1 := if end0 >? count then count else end0 in
       doc_lines idx res (Z.to_nat (end1 - offset)) offset).

(** The list handed to [print_results] by [run_single_query]; a query
    without tokens prints [TOTAL\t0] directly, which is the presentation
    of the empty list.  [None] is [return 0] (nothing on standard
    output). *)
Definition evaluate (idx : IndexData) (query : list ascii) : option PostingList :=
  let tokens := tokenize_query query in
  if (length tokens =? 0)%nat then Some []
  else
    match to_rpn tokens with
    | None => None
    | Some rpn => eval_rpn idx rpn
    end.

Definition run_single_query (idx : IndexData) (query : list ascii)
    (offset limit : Z) : option (list OutLine) :=
  let tokens := tokenize_query query in
  if (length tokens =? 0)%nat then Some [TOTAL 0]
  else
    match to_rpn tokens with
    | None => None
    | Some rpn =>
        match eval_rpn idx rpn with
        | None => None
        | Some result => Some (print_results idx result offset limit)
        end
    end.

(** The bytes of a line. *)
Definition decimal (n : Z) : cstring :=
  lit (NilZero.string_of_uint (N.to_uint (Z.to_N n))).

Definition tab : ascii := ascii_of_nat 9.
Definition newline : ascii := ascii_of_nat 10.

Definition render (l : OutLine) : cstring :=
  match l with
  | TOTAL count => lit "TOTAL" ++ [tab] ++ decimal count ++ [newline]
  | DOC doc_id t u =>
      lit "DOC" ++ [tab] ++ decimal doc_id ++ [tab] ++ t ++ [tab] ++ u ++ [newline]
  end.

End SearchCli.

(* ===================================================================== *)
(** * index_builder.cpp                                                  *)
(* ===================================================================== *)

Module IndexBuilder.
Import CLib.

(** A slot of the hash table.  [postings_count] is the length of
    [postings], the part of the buffer that has been written. *)
Record TermEntry := {
  term : cstring;
  postings : list Z;
  postings_cap : Z;
  last_doc_id : Z;
  postings_offset_bytes : Z;
  used : bool
}.

Definition postings_count (e : TermEntry) : Z := Z.of_nat (length (postings e)).

(** A slot as [calloc] leaves it. *)
Definition zero_entry : TermEntry :=
  {| term := []; postings := []; postings_cap := 0; last_doc_id := 0;
     postings_offset_bytes := 0; used := false |}.

Fixpoint djb2_loop (hash : Z) (s : cstring) : Z :=
  match s with
  | [] => hash
  | c :: s' =>
      djb2_loop (wrap64 (wrap64 (wrap64 (Z.shiftl hash 5) + hash) + uchar c)) s'
  end.

Definition djb2 (s : cstring) : Z := djb2_loop 5381 s.

(** [while (new_cap < need)] of [ensure_postings_cap].  The outer [None]
    is an exhausted fuel, [Some None] is [return 0]. *)
Fixpoint grow_cap (fuel : nat) (new_cap need : Z) : option (option Z) :=
  match fuel with
  | O => None
  | S fuel' =>
      if new_cap <? need then
        if new_cap >? 2147483647 then Some None
        else grow_cap fuel' (wrap32 (new_cap * 2)) need
      else Some (Some new_cap)
  end.

Definition set_cap (e : TermEntry) (cap : Z) : TermEntry :=
  {| term := term e; postings := postings e; postings_cap := cap;
     last_doc_id := last_doc_id e;
     postings_offset_bytes := postings_offset_bytes e; used := used e |}.

Definition ensure_postings_cap (entry : TermEntry) (need : Z) : option TermEntry :=
  if postings_cap entry >=? need then Some entry
  else
    let new_cap := if postings_cap entry =? 0 then 8 else postings_cap entry in
    match grow_cap 33 new_cap need with
    | Some (Some cap) => Some (set_cap entry cap)
    | _ => None
    end.

(** [entry->postings[entry->postings_count] = doc_id;
     entry->postings_count += 1; entry->last_doc_id = doc_id]. *)
Definition push_doc (e : TermEntry) (doc_id : Z) : TermEntry :=
  {| term := term e; postings := postings e ++ [doc_id];
     postings_cap := postings_cap e; last_doc_id := doc_id;
     postings_offset_bytes := postings_offset_bytes e; used := used e |}.

(** The table with its count of used slots ([unique_terms] of [main]). *)
Record Table := {
  slots : list TermEntry;
  used_terms : Z
}.

(** The tail of the loop body of [add_term_doc], once [entry] is the slot
    of the term. *)
Definition record_doc (tb : Table) (idx : nat) (entry : TermEntry)
    (doc_id : Z) : option Table :=
  if (postings_count entry =? 0) || negb (last_doc_id entry =? doc_id) then
    match ensure_postings_cap entry (wrap32 (postings_count entry + 1)) with
    | None => None
    | Some entry' =>
        Some {| slots := <[idx := push_doc entry' doc_id]> (slots tb);
                used_terms := used_terms tb |}
    end
  else Some {| slots := <[idx := entry]> (slots tb); used_terms := used_terms tb |}.

(** [for (step = 0; step < capacity; ++step)], with [steps] iterations
    left.  [None] is [return 0]. *)
Fixpoint add_term_doc_loop (steps : nat) (tb : Table) (capacity : nat)
    (t : cstring) (doc_id : Z) (idx : nat) : option Table :=
  match steps with
  | O => None
  | S steps' =>
      match slots tb !! idx with
      | None => None
      | Some entry =>
          if negb (used entry) then
            let fresh :=
              {| term := t; postings := []; postings_cap := 0;
                 last_doc_id := 0; postings_offset_bytes := 0; used := true |} in
            record_doc {| slots := slots tb; used_terms := used_terms tb + 1 |}
              idx fresh doc_id
          else if negb (strcmp (term entry) t =? 0) then
            add_term_doc_loop steps' tb capacity t doc_id ((idx + 1) mod capacity)%nat
          else record_doc tb idx entry doc_id
      end
  end.

Definition add_term_doc (tb : Table) (capacity : nat) (t : cstring)
    (doc_id : Z) : option Table :=
  let hash := djb2 t in
  let idx := Z.to_nat (hash mod Z.of_nat capacity) in
  add_term_doc_loop capacity tb capacity t doc_id idx.

(** A line of [stemmed.txt] that has a tab: [doc_id] is [parse_u32] of
    the bytes before it, [body] the bytes after it. *)
Record Line := {
  doc_id : Z;
  body : list ascii
}.

(** The token loop of [main] over the body of one line; the inner
    recursion delimits the token [start].  [None] is the exit with
    status 1 when [add_term_doc] fails. *)
Fixpoint index_body (tb : Table) (capacity : nat) (id : Z) (p : list ascii)
    : option Table :=
  match p with
  | [] => Some tb
  | c :: p' =>
      if isspace c then index_body tb capacity id p'
      else
        (fix scan (start : cstring) (q : list ascii) {struct q} : option Table :=
           match q with
           | [] => add_term_doc tb capacity start id
           | d :: q' =>
               if isspace d then
                 match add_term_doc tb capacity start id with
                 | None => None
                 | Some tb' => index_body tb' capacity id q
                 end
               else scan (start ++ [d]) q'
           end) [c] p'
  end.

Fixpoint index_lines (tb : Table) (capacity : nat) (lines : list Line)
    : option Table :=
  match lines with
  | [] => Some tb
  | l :: rest =>
      match index_body tb capacity (doc_id l) (body l) with
      | None => None
      | Some tb' => index_lines tb' capacity rest
      end
  end.

(** The table of [main] after the scan of [stemmed.txt]. *)
Definition build_table (capacity : nat) (lines : list Line) : option Table :=
  index_lines {| slots := replicate capacity zero_entry; used_terms := 0 |}
    capacity lines.

(** [cmp_term_ptrs]. *)
Definition cmp_term_ptrs (a b : TermEntry) : Z := strcmp (term a) (term b).

(** [qsort]: an insertion sort stands for the library function; the
    proofs use its contract only (the result is a permutation of the
    array, ordered by the comparison function). *)
Fixpoint qsort_insert {A} (cmp : A -> A -> Z) (x : A) (l : list A) : list A :=
  match l with
  | [] => [x]
  | y :: l' => if cmp x y <=? 0 then x :: l else y :: qsort_insert cmp x l'
  end.

Fixpoint qsort {A} (cmp : A -> A -> Z) (l : list A) : list A :=
  match l with
  | [] => []
  | x :: l' => qsort_insert cmp x (qsort cmp l')
  end.

(** [sorted_terms]: the used slots in table order, the first
    [unique_terms] of them sorted.  The array holds pointers to distinct
    slots; the model holds the slots they point to. *)
Definition sorted_terms (tb : Table) : list TermEntry :=
  qsort cmp_term_ptrs (take (Z.to_nat (used_terms tb)) (filter (fun e => used e = true) (slots tb))).

(** The loop that writes the posting lists and assigns the offsets:
    the entries with their offsets, and the ids written. *)
Fixpoint write_postings (sorted : list TermEntry) (offset : Z)
    : list TermEntry * list Z :=
  match sorted with
  | [] => ([], [])
  | e :: rest =>
      let e' :=
        {| term := term e; postings := postings e;
           postings_cap := postings_cap e; last_doc_id := last_doc_id e;
           postings_offset_bytes := offset; used := used e |} in
      let offset' :=
        if postings_count e >? 0 then wrap64 (offset + postings_count e * 4)
        else offset in
      let '(es, ids) := write_postings rest offset' in
      (e' :: es, postings e ++ ids)
  end.

(** [postings.bin]. *)
Record PostingsFile := {
  postings_magic : Z;
  postings_version : Z;
  total_postings : Z;
  posting_ids : list Z
}.

(** A record of [lexicon.bin]. *)
Record LexRecord := {
  term_len : Z;
  term_bytes : list ascii;
  lex_postings_offset_bytes : Z;
  lex_postings_count : Z
}.

Record LexiconFile := {
  lexicon_magic : Z;
  lexicon_version : Z;
  lexicon_term_count : Z;
  lexicon_records : list LexRecord
}.

Definition lexicon_record (e : TermEntry) : LexRecord :=
  let term_len0 := Z.of_nat (length (term e)) in
  let term_len1 := if term_len0 >? 65535 then 65535 else term_len0 in
  {| term_len := term_len1 mod 2 ^ 16;
     term_bytes := take (Z.to_nat term_len1) (term e);
     lex_postings_offset_bytes := postings_offset_bytes e;
     lex_postings_count := postings_count e |}.

(** The two files written from the table. *)
Definition write_index (tb : Table) : PostingsFile * LexiconFile :=
  let '(entries, ids) := write_postings (sorted_terms tb) 0 in
  ({| postings_magic := 0x504F5354; postings_version := 1;
      total_postings := wrap64 (Z.of_nat (length ids)); posting_ids := ids |},
   {| lexicon_magic := 0x4C455849; lexicon_version := 1;
      lexicon_term_count := wrap32 (used_terms tb);
      lexicon_records := map lexicon_record entries |}).

(** [main] up to the lexicon: [None] is the exit with status 1. *)
Definition build_index (capacity : nat) (lines : list Line)
    : option (PostingsFile * LexiconFile) :=
  match build_table capacity lines with
  | None => None
  | Some tb => Some (write_index tb)
  end.

End IndexBuilder.

(* ===================================================================== *)
(** * More of the C library, and [read_line]                             *)
(* ===================================================================== *)

Module CStd.
Import CLib.

(** The C string that a buffer holds: its bytes before the first NUL. *)
Fixpoint c_str (buf : list ascii) : cstring :=
  match buf with
  | [] => []
  | c :: buf' => if bool_decide (c = Ascii.zero) then [] else c :: c_str buf'
  end.

(** [strchr(s, c)] for a byte [c] that is not NUL: the position of the
    first [c] in the string; [None] is the null pointer. *)
Fixpoint strchr (s : cstring) (c : ascii) : option nat :=
  match s with
  | [] => None
  | x :: s' => if bool_decide (x = c) then Some 0%nat else S <$> strchr s' c
  end.

End CStd.

(** [read_line], the same function in stemmer.cpp, index_builder.cpp and
    term_stats.cpp (the null checks of the first copy never fire). *)
Module LineReader.
Import CLib CStd.

(** The loop of [read_line] on the input still to be read, [buffer]
    holding the [len] bytes read so far.  [None] is [return -1] at the end
    of the input; otherwise the bytes of the line (its newline included)
    and the input that remains. *)
Fixpoint read_line_loop (input buffer : list ascii)
    : option (list ascii * list ascii) :=
  match input with
  | [] => if (length buffer =? 0)%nat then None else Some (buffer, [])
  | c :: input' =>
      if bool_decide (c = "010"%char) then Some (buffer ++ [c], input')
      else read_line_loop input' (buffer ++ [c])
  end.

(** The value returned, the buffer and the input that remains. *)
Definition read_line (input : list ascii) : Z * list ascii * list ascii :=
  match read_line_loop input [] with
  | None => (-1, [], input)
  | Some (buffer, input') => (to_int (Z.of_nat (length buffer)), buffer, input')
  end.

End LineReader.

(** [strtoul] in base 10 and in the C locale, for an [unsigned long] of
    64 bits. *)
Module CParse.
Import CLib.

Definition ULONG_MAX : Z := 2 ^ 64 - 1.

(** The string after its leading white space. *)
Fixpoint skip_space (s : cstring) : cstring :=
  match s with
  | [] => []
  | c :: s' => if isspace c then skip_space s' else s
  end.

(** The value of the decimal digits at the start of [s], after the
    digits of value [acc]. *)
Fixpoint digits_value (acc : Z) (s : cstring) : Z :=
  match s with
  | [] => acc
  | c :: s' => if isdigit c then digits_value (acc * 10 + (uchar c - 48)) s' else acc
  end.

(** [strtoul(s, nullptr, 10)]: white space, an optional sign, digits.
    A value that an [unsigned long] cannot hold gives [ULONG_MAX]; a
    minus sign negates the value in the unsigned type; no digit gives 0. *)
Definition strtoul (s : cstring) : Z :=
  let s1 := skip_space s in
  let negative := match s1 with
                  | c :: _ => bool_decide (c = "-"%char)
                  | [] => false
                  end in
  let s2 := match s1 with
            | c :: rest =>
                if bool_decide (c = "-"%char) || bool_decide (c = "+"%char)
                then rest else s1
            | [] => []
            end in
  let value := digits_value 0 s2 in
  if value >? ULONG_MAX then ULONG_MAX
  else if negative then (- value) mod 2 ^ 64
  else value.

(** [parse_u32] of index_builder.cpp. *)
Definition parse_u32 (s : cstring) : Z := wrap32 (strtoul s).

End CParse.

(* ===================================================================== *)
(** * Binary files                                                       *)
(* ===================================================================== *)

(** [fwrite] and [fread] of unsigned integers copy their object
    representation: the least significant byte first, as on the machines
    that run the programs (the files are written and read on the same
    machine). *)
Module BinaryIO.
Import CLib.

(** The byte of a value below 256. *)
Definition byte_of (v : Z) : ascii := ascii_of_N (Z.to_N (v mod 256)).

(** The [n] bytes of an unsigned value of [n] bytes. *)
Fixpoint le_bytes (n : nat) (v : Z) : list ascii :=
  match n with
  | O => []
  | S n' => byte_of v :: le_bytes n' (v / 256)
  end.

(** The unsigned value that the bytes hold. *)
Fixpoint le_value (bs : list ascii) : Z :=
  match bs with
  | [] => 0
  | b :: bs' => uchar b + 256 * le_value bs'
  end.

(** [fread(ptr, 1, n, in) == n] on the bytes still to be read: the [n]
    bytes read and the bytes that remain; [None] is a short read. *)
Definition fread (n : Z) (input : list ascii) : option (list ascii * list ascii) :=
  if Z.of_nat (length input) <? n then None
  else Some (take (Z.to_nat n) input, drop (Z.to_nat n) input).

End BinaryIO.

(* ===================================================================== *)
(** * tokenizer.cpp                                                      *)
(* ===================================================================== *)

Module Tokenizer.
Import CLib.

(** A [std::string] is modelled by its bytes. *)

(** The position of the first byte [c] of [s], if any. *)
Fixpoint find_char (c : ascii) (s : list ascii) : option nat :=
  match s with
  | [] => None
  | x :: s' => if bool_decide (x = c) then Some 0%nat else S <$> find_char c s'
  end.

(** [line.find(c, pos)]; [None] is [std::string::npos]. *)
Definition find (line : list ascii) (c : ascii) (pos : nat) : option nat :=
  (fun i => (pos + i)%nat) <$> find_char c (drop pos line).

(** [line.substr(pos, n)] and [line.substr(pos)], for [pos] within the
    string. *)
Definition substr (line : list ascii) (pos n : nat) : list ascii :=
  take n (drop pos line).

Definition substr_from (line : list ascii) (pos : nat) : list ascii :=
  drop pos line.

(** The five output parameters of [split_tsv_5]. *)
Record Columns := {
  c1 : list ascii;
  c2 : list ascii;
  c3 : list ascii;
  c4 : list ascii;
  c5 : list ascii
}.

Definition split_tsv_5 (line : list ascii) : Columns :=
  match find line "009"%char 0 with
  | None => {| c1 := line; c2 := []; c3 := []; c4 := []; c5 := [] |}
  | Some p1 =>
      let p2 := find line "009"%char (p1 + 1) in
      let p3 := match p2 with
                | None => None
                | Some p2 => find line "009"%char (p2 + 1)
                end in
      let p4 := match p3 with
                | None => None
                | Some p3 => find line "009"%char (p3 + 1)
                end in
      {| c1 := substr line 0 p1;
         c2 := match p2 with
               | None => []
               | Some p2 => substr line (p1 + 1) (p2 - p1 - 1)
               end;
         c3 := match p2, p3 with
               | Some p2, Some p3 => substr line (p2 + 1) (p3 - p2 - 1)
               | _, _ => []
               end;
         c4 := match p3, p4 with
               | Some p3, Some p4 => substr line (p3 + 1) (p4 - p3 - 1)
               | _, _ => []
               end;
         c5 := match p4 with
               | None => []
               | Some p4 => substr_from line (p4 + 1)
               end |}
  end.

(** The loop of [tokenize_text] over the bytes of the text still to be
    read, with the vector [tokens] and the token [current] in progress;
    the result is the vector returned. *)
Fixpoint tokenize_text_loop (text : list ascii) (tokens : list (list ascii))
    (current : list ascii) : list (list ascii) :=
  match text with
  | [] => if negb (bool_decide (current = [])) then tokens ++ [current] else tokens
  | ch :: rest =>
      if isalnum ch then tokenize_text_loop rest tokens (current ++ [tolower ch])
      else if negb (bool_decide (current = []))
           then tokenize_text_loop rest (tokens ++ [current]) []
      else tokenize_text_loop rest tokens current
  end.

Definition tokenize_text (text : list ascii) : list (list ascii) :=
  tokenize_text_loop text [] [].

(** [for (i = 0; i < tokens.size(); ++i)] of [main]: the bytes written
    for the tokens from position [i] on. *)
Fixpoint put_tokens (i : nat) (tokens : list (list ascii)) : list ascii :=
  match tokens with
  | [] => []
  | t :: rest =>
      (if (0 <? i)%nat then [" "%char] else []) ++ t ++ put_tokens (S i) rest
  end.

(** The tests of the loop body of [main] on one line: the doc_id and the
    tokens of a line that is written, [None] for a line that is skipped
    ([continue]). *)
Definition line_tokens (line : list ascii)
    : option (list ascii * list (list ascii)) :=
  if bool_decide (line = []) then None
  else
    let cols := split_tsv_5 line in
    if bool_decide (c1 cols = []) || bool_decide (c5 cols = []) then None
    else
      let tokens := tokenize_text (c5 cols) in
      if bool_decide (tokens = []) then None
      else Some (c1 cols, tokens).

(** The bytes written for a line: the doc_id, a tab, the tokens
    separated by single spaces, a newline. *)
Definition line_bytes (doc_id : list ascii) (tokens : list (list ascii))
    : list ascii :=
  doc_id ++ ["009"%char] ++ put_tokens 0 tokens ++ ["010"%char].

Definition line_output (line : list ascii) : option (list ascii) :=
  match line_tokens line with
  | None => None
  | Some (doc_id, tokens) => Some (line_bytes doc_id tokens)
  end.

(** [std::getline(in, line)] on the input still to be read: the bytes
    before the first newline, which is consumed; [None] when the input is
    exhausted. *)
Fixpoint getline_loop (input line : list ascii) : list ascii * list ascii :=
  match input with
  | [] => (line, [])
  | c :: input' =>
      if bool_decide (c = "010"%char) then (line, input')
      else getline_loop input' (line ++ [c])
  end.

Definition getline (input : list ascii) : option (list ascii * list ascii) :=
  match input with
  | [] => None
  | _ :: _ => Some (getline_loop input [])
  end.

(** What [main] leaves: the output file and the two counters that it
    prints (64-bit unsigned). *)
Record Output := {
  out : list ascii;
  doc_count : Z;
  token_count : Z
}.

(** [while (std::getline(in, line))]; the outer [None] is an exhausted
    fuel. *)
Fixpoint main_loop (fuel : nat) (input : list ascii) (st : Output)
    : option Output :=
  match fuel with
  | O => None
  | S fuel' =>
      match getline input with
      | None => Some st
      | Some (line, input') =>
          match line_tokens line with
          | None => main_loop fuel' input' st
          | Some (doc_id, tokens) =>
              main_loop fuel' input'
                {| out := out st ++ line_bytes doc_id tokens;
                   doc_count := wrap64 (doc_count st + 1);
                   token_count :=
                     wrap64 (token_count st + Z.of_nat (length tokens)) |}
          end
      end
  end.

Definition main (input : list ascii) : option Output :=
  main_loop (S (length input)) input
    {| out := []; doc_count := 0; token_count := 0 |}.

End Tokenizer.

(* ===================================================================== *)
(** * stemmer.cpp: [main]                                                *)
(* ===================================================================== *)

Module StemmerMain.
Import CLib CStd LineReader.

(** The bytes written for the stems of a line: [first] is the flag of
    [main], cleared once a stem is written. *)
Fixpoint put_stems (first : bool) (stems : list cstring) : list ascii :=
  match stems with
  | [] => []
  | s :: rest => (if first then [] else [" "%char]) ++ s ++ put_stems false rest
  end.

(** The body of the loop of [main] on the C string [line]: the bytes
    written and the number of stems written, [None] for a line without a
    tab ([continue]). *)
Definition stem_line (line : cstring) : option (list ascii * Z) :=
  match strchr line "009"%char with
  | None => None
  | Some i =>
      let doc_id := take i line in
      let body := drop (S i) line in
      let stems := Stemmer.stem_body body in
      Some (doc_id ++ ["009"%char] ++ put_stems true stems ++ ["010"%char],
            Z.of_nat (length stems))
  end.

(** What [main] leaves: the output file and the two counters that it
    prints (64-bit unsigned). *)
Record Output := {
  out : list ascii;
  docs : Z;
  tokens : Z
}.

(** [while (1)] of [main]; the outer [None] is an exhausted fuel. *)
Fixpoint main_loop (fuel : nat) (input : list ascii) (st : Output)
    : option Output :=
  match fuel with
  | O => None
  | S fuel' =>
      let '(line_len, buffer, input') := read_line input in
      if line_len <? 0 then Some st
      else if line_len =? 0 then main_loop fuel' input' st
      else
        match stem_line (c_str buffer) with
        | None => main_loop fuel' input' st
        | Some (bytes, n) =>
            main_loop fuel' input'
              {| out := out st ++ bytes;
                 docs := wrap64 (docs st + 1);
                 tokens := wrap64 (tokens st + n) |}
        end
  end.

Definition main (input : list ascii) : option Output :=
  main_loop (S (length input)) input {| out := []; docs := 0; tokens := 0 |}.

End StemmerMain.

(* ===================================================================== *)
(** * index_builder.cpp: the scan of [stemmed.txt]                       *)
(* ===================================================================== *)

Module IndexBuilderScan.
Import CLib CStd CParse LineReader IndexBuilder.

(** The head of the loop body of [main] on the C string [line]: the
    doc_id and the body of a line that has a tab; [None] is the
    [continue]. *)
Definition stemmed_line (line : cstring) : option Line :=
  match strchr line "009"%char with
  | None => None
  | Some i => Some {| doc_id := parse_u32 (take i line); body := drop (S i) line |}
  end.

(** [while (1)] over [stemmed.txt]; the outer [None] is an exhausted
    fuel, [Some None] the exit with status 1 when [add_term_doc] fails.
    The counters [docs_indexed] and [tokens_seen], which are only
    printed, are left out. *)
Fixpoint stemmed_loop (fuel : nat) (input : list ascii) (tb : Table)
    (capacity : nat) : option (option Table) :=
  match fuel with
  | O => None
  | S fuel' =>
      let '(n, buffer, input') := read_line input in
      if n <? 0 then Some (Some tb)
      else
        match stemmed_line (c_str buffer) with
        | None => stemmed_loop fuel' input' tb capacity
        | Some l =>
            match index_body tb capacity (doc_id l) (body l) with
            | None => Some None
            | Some tb' => stemmed_loop fuel' input' tb' capacity
            end
        end
  end.

Definition scan_stemmed (input : list ascii) (capacity : nat)
    : option (option Table) :=
  stemmed_loop (S (length input)) input
    {| slots := replicate capacity zero_entry; used_terms := 0 |} capacity.

End IndexBuilderScan.

(* ===================================================================== *)
(** * index_builder.cpp: the files written                               *)
(* ===================================================================== *)

Module IndexFiles.
Import CLib IndexBuilder BinaryIO.

Definition write_u16 (v : Z) : list ascii := le_bytes 2 v.
Definition write_u32 (v : Z) : list ascii := le_bytes 4 v.
Definition write_u64 (v : Z) : list ascii := le_bytes 8 v.

(** The bytes of [postings.bin] once [main] has closed it: the header
    with the total written last, then the posting lists in the order of
    the sorted terms, four bytes for each doc_id. *)
Definition postings_bytes (pf : PostingsFile) : list ascii :=
  write_u32 (postings_magic pf) ++ write_u32 (postings_version pf)
  ++ write_u64 (total_postings pf)
  ++ flat_map write_u32 (posting_ids pf).

(** The bytes written for a term by the loop over [sorted_terms]. *)
Definition lexicon_record_bytes (r : LexRecord) : list ascii :=
  write_u16 (term_len r) ++ term_bytes r
  ++ write_u64 (lex_postings_offset_bytes r) ++ write_u32 (lex_postings_count r).

(** The bytes of [lexicon.bin]. *)
Definition lexicon_bytes (lf : LexiconFile) : list ascii :=
  write_u32 (lexicon_magic lf) ++ write_u32 (lexicon_version lf)
  ++ write_u32 (lexicon_term_count lf)
  ++ flat_map lexicon_record_bytes (lexicon_records lf).

End IndexFiles.

(* ===================================================================== *)
(** * index_builder.cpp: the forward index                               *)
(* ===================================================================== *)

Module ForwardBuilder.
Import CLib CStd CParse LineReader BinaryIO IndexFiles.

(** [struct DocMeta]; [None] is a null pointer. *)
Record DocMeta := {
  doc_id : Z;
  title : option cstring;
  url : option cstring
}.

(** An element as [ensure_doc_meta_cap] initialises it. *)
Definition zero_meta : DocMeta := {| doc_id := 0; title := None; url := None |}.

(** [while (new_cap <= need)] of [ensure_doc_meta_cap].  The outer
    [None] is an exhausted fuel, [Some None] is [return 0]. *)
Fixpoint grow_meta_cap (fuel : nat) (new_cap need : Z) : option (option Z) :=
  match fuel with
  | O => None
  | S fuel' =>
      if new_cap <=? need then
        if new_cap >? 2147483647 then Some None
        else grow_meta_cap fuel' (wrap32 (new_cap * 2)) need
      else Some (Some new_cap)
  end.

(** [ensure_doc_meta_cap]: the array [metas], whose length is [*cap];
    [None] is [return 0]. *)
Definition ensure_doc_meta_cap (metas : list DocMeta) (need : Z)
    : option (list DocMeta) :=
  let cap := Z.of_nat (length metas) in
  if cap >? need then Some metas
  else
    let new_cap := if cap =? 0 then 1024 else cap in
    match grow_meta_cap 33 new_cap need with
    | Some (Some new_cap') =>
        Some (metas ++ replicate (Z.to_nat (new_cap' - cap)) zero_meta)
    | _ => None
    end.

(** The fields that [main] takes from a line of [raw_text.tsv]. *)
Record RawDoc := {
  raw_doc_id : Z;
  raw_url : cstring;
  raw_title : cstring
}.

(** The four [strchr] of the loop over [raw_text.tsv] on the C string
    [line]; [None] is a [continue]. *)
Definition raw_line (line : cstring) : option RawDoc :=
  match strchr line "009"%char with
  | None => None
  | Some i1 =>
      let after1 := drop (S i1) line in
      match strchr after1 "009"%char with
      | None => None
      | Some i2 =>
          let after2 := drop (S i2) after1 in
          match strchr after2 "009"%char with
          | None => None
          | Some i3 =>
              let after3 := drop (S i3) after2 in
              match strchr after3 "009"%char with
              | None => None
              | Some i4 =>
                  Some {| raw_doc_id := parse_u32 (take i1 line);
                          raw_url := take i3 after2;
                          raw_title := take i4 after3 |}
              end
          end
      end
  end.

(** [metas] with [docs_with_meta] and [max_doc_id] of [main]. *)
Record Metas := {
  metas : list DocMeta;
  docs_with_meta : Z;
  max_doc_id : Z
}.

(** The rest of the loop body, from [if (doc_id == 0)] on; [None] is the
    exit with status 1.  The element [metas[doc_id]] exists once
    [ensure_doc_meta_cap] has returned 1. *)
Definition add_doc_meta (st : Metas) (d : RawDoc) : option Metas :=
  if raw_doc_id d =? 0 then Some st
  else
    match ensure_doc_meta_cap (metas st) (raw_doc_id d) with
    | None => None
    | Some ms =>
        match ms !! Z.to_nat (raw_doc_id d) with
        | None => None
        | Some m =>
            if doc_id m =? 0 then
              Some {| metas :=
                        <[Z.to_nat (raw_doc_id d) :=
                            {| doc_id := raw_doc_id d;
                               title := Some (raw_title d);
                               url := Some (raw_url d) |}]> ms;
                      docs_with_meta := wrap32 (docs_with_meta st + 1);
                      max_doc_id := if raw_doc_id d >? max_doc_id st
                                    then raw_doc_id d else max_doc_id st |}
            else Some {| metas := ms; docs_with_meta := docs_with_meta st;
                         max_doc_id := max_doc_id st |}
        end
    end.

(** [while (1)] over [raw_text.tsv]; the outer [None] is an exhausted
    fuel, [Some None] the exit with status 1. *)
Fixpoint raw_loop (fuel : nat) (input : list ascii) (st : Metas)
    : option (option Metas) :=
  match fuel with
  | O => None
  | S fuel' =>
      let '(n, buffer, input') := read_line input in
      if n <? 0 then Some (Some st)
      else
        match raw_line (c_str buffer) with
        | None => raw_loop fuel' input' st
        | Some d =>
            match add_doc_meta st d with
            | None => Some None
            | Some st' => raw_loop fuel' input' st'
            end
        end
  end.

Definition scan_raw (input : list ascii) : option (option Metas) :=
  raw_loop (S (length input)) input
    {| metas := []; docs_with_meta := 0; max_doc_id := 0 |}.

(** The bytes written for [metas[i]]. *)
Definition forward_record (m : DocMeta) : list ascii :=
  let title_len := Z.of_nat (length (default [] (title m))) mod 2 ^ 16 in
  let url_len := Z.of_nat (length (default [] (url m))) mod 2 ^ 16 in
  write_u32 (doc_id m) ++ write_u16 title_len ++ write_u16 url_len
  ++ take (Z.to_nat title_len) (default [] (title m))
  ++ take (Z.to_nat url_len) (default [] (url m)).

(** [for (i = 1; i <= max_doc_id; ++i)], with [k] iterations left
    ([max_doc_id] is below [2^31], so that [i] does not wrap). *)
Fixpoint forward_loop (k : nat) (i : Z) (ms : list DocMeta) : list ascii :=
  match k with
  | O => []
  | S k' =>
      match ms !! Z.to_nat i with
      | None => []
      | Some m => if doc_id m =? 0 then [] else forward_record m
      end ++ forward_loop k' (i + 1) ms
  end.

(** The bytes of [forward.bin]. *)
Definition forward_bytes (st : Metas) : list ascii :=
  write_u32 0x46575244 ++ write_u32 1
  ++ write_u32 (docs_with_meta st) ++ write_u32 (max_doc_id st)
  ++ forward_loop (Z.to_nat (max_doc_id st)) 1 (metas st).

End ForwardBuilder.

(* ===================================================================== *)
(** * search_cli.cpp: the files loaded                                   *)
(* ===================================================================== *)

Module SearchCliLoad.
Import CLib CStd SearchCli BinaryIO.

(** [read_u16], [read_u32], [read_u64] on the bytes still to be read:
    the value and the bytes that remain; [None] is [return 0]. *)
Definition read_u16 (input : list ascii) : option (Z * list ascii) :=
  match fread 2 input with
  | None => None
  | Some (bs, rest) => Some (le_value bs, rest)
  end.

Definition read_u32 (input : list ascii) : option (Z * list ascii) :=
  match fread 4 input with
  | None => None
  | Some (bs, rest) => Some (le_value bs, rest)
  end.

Definition read_u64 (input : list ascii) : option (Z * list ascii) :=
  match fread 8 input with
  | None => None
  | Some (bs, rest) => Some (le_value bs, rest)
  end.

(** The 32-bit values that an array of bytes holds. *)
Fixpoint u32_array (bs : list ascii) : list Z :=
  match bs with
  | b0 :: b1 :: b2 :: b3 :: rest => le_value [b0; b1; b2; b3] :: u32_array rest
  | _ => []
  end.

(** [load_postings]: the array [postings_data], whose length is
    [postings_total]; [None] is [return 0].  The bytes after the postings
    are not read. *)
Definition load_postings (file : list ascii) : option (list Z) :=
  match read_u32 file with
  | None => None
  | Some (magic, in1) =>
      match read_u32 in1 with
      | None => None
      | Some (version, in2) =>
          match read_u64 in2 with
          | None => None
          | Some (total, in3) =>
              if negb (magic =? 0x504F5354) || negb (version =? 1) then None
              else if total >? 0 then
                match fread (4 * total) in3 with
                | None => None
                | Some (bs, _) => Some (u32_array bs)
                end
              else Some []
          end
      end
  end.

(** [for (i = 0; i < term_count; ++i)] of [load_lexicon], with [k]
    iterations left; [lex] holds the entries read. *)
Fixpoint load_lexicon_loop (k : nat) (input : list ascii) (lex : list LexEntry)
    : option (list LexEntry) :=
  match k with
  | O => Some lex
  | S k' =>
      match read_u16 input with
      | None => None
      | Some (term_len, in1) =>
          match (if term_len >? 0 then fread term_len in1 else Some ([], in1)) with
          | None => None
          | Some (bs, in2) =>
              match read_u64 in2 with
              | None => None
              | Some (offset, in3) =>
                  match read_u32 in3 with
                  | None => None
                  | Some (count, in4) =>
                      load_lexicon_loop k' in4
                        (lex ++ [{| term := c_str bs;
                                    postings_offset := offset;
                                    postings_count := count |}])
                  end
              end
          end
      end
  end.

(** [load_lexicon]: the array [lexicon], whose length is [term_count]. *)
Definition load_lexicon (file : list ascii) : option (list LexEntry) :=
  match read_u32 file with
  | None => None
  | Some (magic, in1) =>
      match read_u32 in1 with
      | None => None
      | Some (version, in2) =>
          match read_u32 in2 with
          | None => None
          | Some (term_count, in3) =>
              if negb (magic =? 0x4C455849) || negb (version =? 1) then None
              else load_lexicon_loop (Z.to_nat term_count) in3 []
          end
      end
  end.

End SearchCliLoad.

(* ===================================================================== *)
(** * search_cli.cpp: the forward index                                  *)
(* ===================================================================== *)

Module SearchCliForward.
Import CLib CStd SearchCli BinaryIO SearchCliLoad.

(** An element as [ensure_meta_cap] initialises it. *)
Definition null_meta : DocMeta := {| title := None; url := None |}.

(** [while (new_cap <= need)] of [ensure_meta_cap]. *)
Fixpoint grow_meta_cap (fuel : nat) (new_cap need : Z) : option (option Z) :=
  match fuel with
  | O => None
  | S fuel' =>
      if new_cap <=? need then
        if new_cap >? 2147483647 then Some None
        else grow_meta_cap fuel' (wrap32 (new_cap * 2)) need
      else Some (Some new_cap)
  end.

(** [ensure_meta_cap]; [None] is [return 0]. *)
Definition ensure_meta_cap (metas : list DocMeta) (need : Z)
    : option (list DocMeta) :=
  let cap := Z.of_nat (length metas) in
  if cap >? need then Some metas
  else
    let new_cap := if cap =? 0 then 1024 else cap in
    match grow_meta_cap 33 new_cap need with
    | Some (Some new_cap') =>
        Some (metas ++ replicate (Z.to_nat (new_cap' - cap)) null_meta)
    | _ => None
    end.

(** [for (i = 0; i < docs; ++i)] of [load_forward], with [k] iterations
    left: the array [metas] and the array [universe]. *)
Fixpoint load_forward_loop (k : nat) (input : list ascii)
    (metas : list DocMeta) (universe : list Z)
    : option (list DocMeta * list Z) :=
  match k with
  | O => Some (metas, universe)
  | S k' =>
      match read_u32 input with
      | None => None
      | Some (doc_id, in1) =>
      match read_u16 in1 with
      | None => None
      | Some (title_len, in2) =>
      match read_u16 in2 with
      | None => None
      | Some (url_len, in3) =>
      match (if title_len >? 0 then fread title_len in3 else Some ([], in3)) with
      | None => None
      | Some (title, in4) =>
      match (if url_len >? 0 then fread url_len in4 else Some ([], in4)) with
      | None => None
      | Some (url, in5) =>
      match ensure_meta_cap metas doc_id with
      | None => None
      | Some metas' =>
          load_forward_loop k' in5
            (<[Z.to_nat doc_id := {| title := Some (c_str title);
                                     url := Some (c_str url) |}]> metas')
            (universe ++ [doc_id])
      end end end end end end
  end.

(** [load_forward]: [metas_by_id], [max_doc_id] and [universe_ids];
    [None] is [return 0]. *)
Definition load_forward (file : list ascii)
    : option (list DocMeta * Z * list Z) :=
  match read_u32 file with
  | None => None
  | Some (magic, in1) =>
  match read_u32 in1 with
  | None => None
  | Some (version, in2) =>
  match read_u32 in2 with
  | None => None
  | Some (docs, in3) =>
  match read_u32 in3 with
  | None => None
  | Some (max_doc_id, in4) =>
      if negb (magic =? 0x46575244) || negb (version =? 1) then None
      else
        match ensure_meta_cap [] max_doc_id with
        | None => None
        | Some metas =>
            match load_forward_loop (Z.to_nat docs) in4 metas [] with
            | None => None
            | Some (metas', universe) => Some (metas', max_doc_id, universe)
            end
        end
  end end end end.

(** The index as [main] loads it from the three files; [None] is the
    exit with status 1. *)
Definition load_index (postings lexicon forward : list ascii)
    : option IndexData :=
  match load_postings postings with
  | None => None
  | Some data =>
      match load_lexicon lexicon with
      | None => None
      | Some lex =>
          match load_forward forward with
          | None => None
          | Some (metas, max_id, universe) =>
              Some {| lexicon := lex; postings_data := data;
                      metas_by_id := metas; max_doc_id := max_id;
                      universe_ids := universe |}
          end
      end
  end.

End SearchCliForward.

(* ===================================================================== *)
(** * Specifications: the properties stated about the code              *)
(* ===================================================================== *)

Module StemRules.
Import CLib.

(** The ordered rule table of the specification: a rule applies to a
    token longer than [min_len] that ends with [suffix]; it removes the
    last [strip] bytes and appends [append]. *)
Record Rule := {
  min_len : nat;
  suffix : cstring;
  strip : nat;
  append : cstring
}.

Definition rule_table : list Rule :=
  [ {| min_len := 5; suffix := lit "ingly"; strip := 5; append := [] |};
    {| min_len := 4; suffix := lit "edly"; strip := 4; append := [] |};
    {| min_len := 4; suffix := lit "ing"; strip := 3; append := [] |};
    {| min_len := 3; suffix := lit "ed"; strip := 2; append := [] |};
    {| min_len := 4; suffix := lit "ies"; strip := 3; append := lit "y" |};
    {| min_len := 3; suffix := lit "es"; strip := 2; append := [] |};
    {| min_len := 3; suffix := lit "ly"; strip := 2; append := [] |};
    {| min_len := 3; suffix := lit "s"; strip := 1; append := [] |} ].

Definition rule_matches (token : cstring) (r : Rule) : bool :=
  (min_len r <? length token)%nat
  && bool_decide (suffix r `suffix_of` token).

Definition apply_rule (token : cstring) (r : Rule) : cstring :=
  take (length token - strip r) token ++ append r.

(** The first rule of the table that matches, if any. *)
Definition first_matching (token : cstring) : option Rule :=
  List.find (rule_matches token) rule_table.

Definition stem_by_table (token : cstring) : cstring :=
  match first_matching token with
  | Some r => apply_rule token r
  | None => token
  end.

End StemRules.

Module LexerSpec.
Import CLib SearchCli.

(** The condition of the specification for an implicit conjunction
    between two consecutive tokens. *)
Definition needs_and (prev cur : Token) : bool :=
  bool_decide (type prev ∈ [TOK_TERM; TOK_RPAREN])
  && bool_decide (type cur ∈ [TOK_TERM; TOK_LPAREN; TOK_NOT]).

(** The raw stream with a [TOK_AND] between the consecutive tokens that
    need one, and nothing else changed. *)
Fixpoint with_implicit_and (raw : list Token) : list Token :=
  match raw with
  | [] => []
  | prev :: rest =>
      prev ::
        match rest with
        | [] => []
        | cur :: _ =>
            (if needs_and prev cur then [op_token TOK_AND] else [])
              ++ with_implicit_and rest
        end
  end.

(** The maximal run of bytes that satisfy [p] at the head of a string,
    and what follows it. *)
Fixpoint span (p : ascii -> bool) (q : list ascii) : list ascii * list ascii :=
  match q with
  | [] => ([], [])
  | d :: q' =>
      if p d then let '(run, rest) := span p q' in (d :: run, rest)
      else ([], q)
  end.

End LexerSpec.

Module LineSpec.
Import CLib.

(** The maximal runs of non-space bytes of the body of a line, [cur]
    being the run in progress. *)
Fixpoint split_runs (cur : list ascii) (p : list ascii) : list cstring :=
  match p with
  | [] => if bool_decide (cur = []) then [] else [cur]
  | c :: p' =>
      if isspace c
      then (if bool_decide (cur = []) then [] else [cur]) ++ split_runs [] p'
      else split_runs (cur ++ [c]) p'
  end.

Definition body_tokens (body : list ascii) : list cstring := split_runs [] body.

End LineSpec.

Module PostingSpec.

(** A strictly ascending list of ids: every id is below all the ids
    after it (so the list has no duplicates). *)
Definition ascending (l : list Z) : Prop := StronglySorted Z.lt l.

End PostingSpec.

Module IndexSpec.
Import CLib SearchCli PostingSpec.

(** The posting list of a lexicon entry, as [eval_rpn] reads it. *)
Definition entry_postings (idx : IndexData) (e : LexEntry) : list Z :=
  clone_postings (postings_data idx) (postings_offset e / 4) (postings_count e).

(** The invariants of the data model that the evaluator relies on: the
    universe is strictly ascending, and so is the posting list of every
    lexicon entry, whose ids all belong to the universe. *)
Record well_formed (idx : IndexData) : Prop := {
  universe_ascending : ascending (universe_ids idx);
  postings_ascending :
    forall e, e ∈ lexicon idx -> ascending (entry_postings idx e);
  postings_in_universe :
    forall e d, e ∈ lexicon idx -> d ∈ entry_postings idx e ->
                d ∈ universe_ids idx
}.

(** No entry of the lexicon compares equal to the term. *)
Definition absent (idx : IndexData) (txt : cstring) : Prop :=
  forall e, e ∈ lexicon idx -> strcmp txt (term e) <> 0.

(** The query [!(q)]. *)
Definition negated (q : list ascii) : list ascii := lit "!(" ++ q ++ lit ")".

End IndexSpec.

Module Examples.
Import CLib SearchCli.

Definition entry (t : string) (off cnt : Z) : LexEntry :=
  {| term := lit t; postings_offset := off; postings_count := cnt |}.

Definition meta (t u : string) : DocMeta :=
  {| title := Some (lit t); url := Some (lit u) |}.

Definition no_meta : DocMeta := {| title := None; url := None |}.

(** Documents 1 to 3; [brown] occurs in 1, [fox] in all of them, [lazy]
    in 3 and [quick] in 1 and 2. *)
Definition example_index : IndexData :=
  {| lexicon := [entry "brown" 0 1; entry "fox" 4 3; entry "lazy" 16 1;
                 entry "quick" 20 2];
     postings_data := [1; 1; 2; 3; 3; 1; 2];
     metas_by_id := [no_meta; meta "Alpha" "http://u/1";
                     meta "Bravo" "http://u/2"; meta "Charlie" "http://u/3"];
     max_doc_id := 3;
     universe_ids := [1; 2; 3] |}.

End Examples.

Module QuerySpec.
Import CLib SearchCli IndexSpec.

(** The results of [!(q)] and of [q] partition the universe. *)
Definition not_is_complement (idx : IndexData) (q : list ascii) : Prop :=
  forall r, evaluate idx q = Some r ->
    exists r', evaluate idx (negated q) = Some r'
      /\ (forall d, d ∈ universe_ids idx <-> d ∈ r' \/ d ∈ r)
      /\ (forall d, ~ (d ∈ r' /\ d ∈ r)).

(** A term as it is written in a query: a non-empty run of [isalnum]
    bytes. *)
Definition is_term (a : list ascii) : Prop :=
  a <> [] /\ forallb isalnum a = true.

End QuerySpec.

Module OutputSpec.
Import CLib SearchCli IndexSpec.

(** Every TERM token of the lexed query is absent from the lexicon. *)
Definition terms_absent (idx : IndexData) (q : list ascii) : Prop :=
  forall tok txt, tok ∈ tokenize_query q -> type tok = TOK_TERM ->
                  text tok = Some txt -> absent idx txt.

(** The lexed query has no NOT token. *)
Definition no_negation (q : list ascii) : Prop :=
  forall tok, tok ∈ tokenize_query q -> type tok <> TOK_NOT.

(** The output is the header with count 0 and nothing else. *)
Definition prints_total_zero (idx : IndexData) (q : list ascii)
    (offset limit : Z) : Prop :=
  run_single_query idx q offset limit = Some [TOTAL 0].

(** The results at the positions [offset, min (offset + limit, count)). *)
Definition window (res : list Z) (offset limit : Z) : list Z :=
  take (Z.to_nat limit) (drop (Z.to_nat offset) res).

End OutputSpec.

Module BuilderSpec.
Import CLib IndexBuilder PostingSpec.

(** The document lines arrive in ascending order of doc_id (equal
    doc_ids on consecutive lines are allowed). *)
Definition doc_ids_ascending (lines : list Line) : Prop :=
  Sorted Z.le (map doc_id lines).

(** The region of [postings.bin] that a lexicon record designates:
    [lex_postings_count] ids from the byte offset
    [lex_postings_offset_bytes] of the payload. *)
Definition region (pf : PostingsFile) (r : LexRecord) : list Z :=
  take (Z.to_nat (lex_postings_count r))
    (drop (Z.to_nat (lex_postings_offset_bytes r / 4)) (posting_ids pf)).

(** [add_term_doc] on the tokens of a line, in order. *)
Fixpoint add_tokens (tb : Table) (capacity : nat) (id : Z)
    (tokens : list cstring) : option Table :=
  match tokens with
  | [] => Some tb
  | t :: rest =>
      match add_term_doc tb capacity t id with
      | None => None
      | Some tb' => add_tokens tb' capacity id rest
      end
  end.

End BuilderSpec.

Module LexiconSpec.
Import CLib IndexBuilder LineSpec.

(** The byte-wise lexicographic comparison of two byte strings; a proper
    prefix comes first. *)
Fixpoint bytes_compare (a b : list ascii) : comparison :=
  match a, b with
  | [], [] => Eq
  | [], _ :: _ => Lt
  | _ :: _, [] => Gt
  | x :: a', y :: b' =>
      match uchar x ?= uchar y with
      | Eq => bytes_compare a' b'
      | c => c
      end
  end.

Definition strictly_ascending_terms (terms : list (list ascii)) : Prop :=
  Sorted (fun a b => bytes_compare a b = Lt) terms.

Definition ascending_terms (terms : list (list ascii)) : Prop :=
  Sorted (fun a b => bytes_compare a b <> Gt) terms.

(** The terms of [lexicon.bin], in file order. *)
Definition written_terms (lf : LexiconFile) : list (list ascii) :=
  map term_bytes (lexicon_records lf).

(** A byte string without a NUL, as the contents of a C string are. *)
Definition nul_free (s : list ascii) : Prop := Forall (fun c => c <> Ascii.zero) s.

(** The bodies of the lines are C strings. *)
Definition bodies_nul_free (lines : list Line) : Prop :=
  Forall (fun l => nul_free (body l)) lines.

(** No token of the stream is longer than 65535 bytes. *)
Definition tokens_short (lines : list Line) : Prop :=
  Forall (fun l => Forall (fun t => Z.of_nat (length t) <= 65535)
                     (body_tokens (body l))) lines.

End LexiconSpec.

Module BuilderExamples.
Import CLib IndexBuilder.

Definition line (d : Z) (b : string) : Line := {| doc_id := d; body := lit b |}.

(** The three documents, stemmed. *)
Definition example_lines : list Line :=
  [line 1 "the quick brown fox are runn quick";
   line 2 "a quick red fox is faster than slower fox";
   line 3 "lazy dog sleep while fox run"].

Definition example_table : Table :=
  default {| slots := []; used_terms := 0 |} (build_table 1024 example_lines).

(** A term of 65536 bytes: 65535 times the letter a, then [c]. *)
Definition long_term (c : ascii) : cstring :=
  replicate (Z.to_nat 65535) "a"%char ++ [c].

(** One document with two distinct terms of 65536 bytes. *)
Definition long_lines : list Line :=
  [{| doc_id := 1; body := long_term "a"%char ++ " "%char :: long_term "b"%char |}].

(** Their common first 65535 bytes. *)
Definition long_prefix : cstring := replicate (Z.to_nat 65535) "a"%char.

End BuilderExamples.

(* ===================================================================== *)
(** * Auxiliary definitions of the proofs                                *)
(* ===================================================================== *)

Module StemmerAux.
Import CLib.

(** The scan of a token by the stemmer, named. *)
Fixpoint stem_scan (start : cstring) (q : list ascii) : list cstring :=
  match q with
  | [] =>
      if bool_decide (Stemmer.stem_token start = []) then []
      else [Stemmer.stem_token start]
  | d :: q' =>
      if isspace d then
        (if bool_decide (Stemmer.stem_token start = []) then []
         else [Stemmer.stem_token start]) ++ Stemmer.stem_body q
      else stem_scan (start ++ [d]) q'
  end.

End StemmerAux.

Module QueryAux.
Import CLib SearchCli LexerSpec PostingSpec IndexSpec OutputSpec.

(** The post-pass, with the previous token carried along. *)
Fixpoint expand_from (prev : option Token) (raw : list Token) : list Token :=
  match raw with
  | [] => []
  | cur :: rest =>
      (if from_option (fun p => is_operand_end (type p)) false prev
          && is_operand_start (type cur)
       then [op_token TOK_AND] else [])
      ++ cur :: expand_from (Some cur) rest
  end.

(** The scan of a run of [isalnum] bytes, named. *)
Fixpoint scan_run (run : list ascii) (q : list ascii) : list Token :=
  match q with
  | [] => [term_token run]
  | d :: q' =>
      if isalnum d then scan_run (run ++ [d]) q'
      else term_token run :: tokenize_raw q
  end.

Definition term_has_text (tok : Token) : Prop :=
  type tok = TOK_TERM -> exists txt, text tok = Some txt /\ txt <> [].

(** A posting list of the operand stack: strictly ascending, within the
    universe. *)
Definition in_universe (idx : IndexData) (pl : list Z) : Prop :=
  ascending pl /\ forall d, d ∈ pl -> d ∈ universe_ids idx.

(** The posting list pushed for a term; [None] is the failure of
    [eval_rpn] on a lexicon entry that exceeds the postings. *)
Definition term_postings (idx : IndexData) (txt : cstring) : option (list Z) :=
  match lexicon_find idx txt with
  | None => Some []
  | Some (offset, cnt) =>
      if offset / 4 + cnt >? postings_total idx then None
      else Some (clone_postings (postings_data idx) (offset / 4) cnt)
  end.

Definition absent_or_operator (idx : IndexData) (tok : Token) : Prop :=
  type tok <> TOK_NOT
  /\ (type tok = TOK_TERM -> forall txt, text tok = Some txt -> absent idx txt).

Definition terms_absentb (idx : IndexData) (q : list ascii) : bool :=
  forallb (fun tok =>
             match text tok with
             | None => true
             | Some txt =>
                 forallb (fun e => negb (strcmp txt (term e) =? 0)) (lexicon idx)
             end)
    (tokenize_query q).

End QueryAux.

Module BuilderAux.
Import CLib IndexBuilder PostingSpec LineSpec BuilderSpec LexiconSpec.

(** The scan of a token by the builder, named. *)
Definition index_scan (tb : Table) (capacity : nat) (id : Z)
    : cstring -> list ascii -> option Table :=
  fix scan (start : cstring) (q : list ascii) {struct q} : option Table :=
    match q with
    | [] => add_term_doc tb capacity start id
    | d :: q' =>
        if isspace d then
          match add_term_doc tb capacity start id with
          | None => None
          | Some tb' => index_body tb' capacity id q
          end
        else scan (start ++ [d]) q'
    end.

(** The invariant of a slot while the documents up to doc_id [cur] have
    been read: its posting list is strictly ascending and bounded by its
    [last_doc_id], which is at most [cur]. *)
Definition entry_ok (cur : Z) (e : TermEntry) : Prop :=
  ascending (postings e)
  /\ Forall (fun d => d <= last_doc_id e) (postings e)
  /\ (postings e <> [] -> last_doc_id e <= cur).

(** What the loop over [sorted_terms] writes for an entry: the entry
    keeps its term and postings, and its offset designates its own
    postings among the ids written from [offset] on. *)
Definition written_at (offset : Z) (ids : list Z) (e e' : TermEntry) : Prop :=
  term e' = term e /\ postings e' = postings e
  /\ exists k : nat, postings_offset_bytes e' = offset + 4 * Z.of_nat k
                     /\ take (length (postings e)) (drop k ids) = postings e.

(** The slot where the probe sequence of [add_term_doc] for the term [t]
    stops: the first slot from [idx] on that is free or holds [t]. *)
Fixpoint probe (steps : nat) (sl : list TermEntry) (capacity : nat)
    (t : cstring) (idx : nat) : option nat :=
  match steps with
  | O => None
  | S steps' =>
      match sl !! idx with
      | None => None
      | Some e =>
          if negb (used e) then Some idx
          else if negb (strcmp (term e) t =? 0)
               then probe steps' sl capacity t ((idx + 1) mod capacity)%nat
          else Some idx
      end
  end.

Definition slot_index (capacity : nat) (t : cstring) : nat :=
  Z.to_nat (djb2 t mod Z.of_nat capacity).

(** Every used slot holds a term with the property [Q], and is the slot where the
    probe sequence of its own term stops. *)
Definition table_ok (Q : cstring -> Prop) (capacity : nat) (sl : list TermEntry) : Prop :=
  forall s e, sl !! s = Some e -> used e = true ->
    Q (term e)
    /\ probe capacity sl capacity (term e) (slot_index capacity (term e)) = Some s.

Definition is_long_prefix (t : cstring) : bool :=
  (Z.of_nat (length t) =? 65535) && forallb (Ascii.eqb "a"%char) t.

Definition both_long_prefix (w : option (list (list ascii))) : bool :=
  match w with
  | Some [t1; t2] => is_long_prefix t1 && is_long_prefix t2
  | _ => false
  end.

End BuilderAux.

(* ===================================================================== *)
(** * Specifications: further properties of the code                     *)
(* ===================================================================== *)

Module ParserSpec.
Import CLib SearchCli.

(** The parentheses of a token stream are balanced, [depth] of them being
    open before the stream. *)
Fixpoint balanced (depth : nat) (toks : list Token) : bool :=
  match toks with
  | [] => (depth =? 0)%nat
  | t :: rest =>
      if bool_decide (type t = TOK_LPAREN) then balanced (S depth) rest
      else if bool_decide (type t = TOK_RPAREN) then
        match depth with
        | O => false
        | S d => balanced d rest
        end
      else balanced depth rest
  end.

(** A token that is not a parenthesis. *)
Definition not_paren (t : Token) : Prop :=
  type t <> TOK_LPAREN /\ type t <> TOK_RPAREN.

#[global] Instance not_paren_dec (t : Token) : Decision (not_paren t).
Proof. unfold not_paren. apply _. Defined.

(** The number of tokens of a type in a stream. *)
Definition count_type (ty : TokenType) (toks : list Token) : nat :=
  length (filter (fun t => type t = ty) toks).

End ParserSpec.

Module TokenizerSpec.
Import CLib SearchCli.

(** A token as the tokenizer writes it: not empty, made of digits and
    lower-case letters. *)
Definition clean_token (t : list ascii) : Prop :=
  t <> [] /\ Forall (fun c => isalnum c = true /\ isupper c = false) t.

(** The texts of the TERM tokens of a token stream, in order. *)
Definition term_texts (toks : list Token) : list cstring :=
  flat_map (fun t => match type t, text t with
                     | TOK_TERM, Some txt => [txt]
                     | _, _ => []
                     end) toks.

(** The lines of an input: the runs of bytes that end at a newline, and a
    last run that is not empty; [cur] is the run in progress. *)
Fixpoint split_lines (cur : list ascii) (input : list ascii)
    : list (list ascii) :=
  match input with
  | [] => if bool_decide (cur = []) then [] else [cur]
  | c :: rest =>
      if bool_decide (c = "010"%char) then cur :: split_lines [] rest
      else split_lines (cur ++ [c]) rest
  end.

(** The number of tabs of a line. *)
Definition tab_count (line : list ascii) : nat :=
  length (filter (fun c => c = "009"%char) line).

End TokenizerSpec.

(** ** The tokenizer as a whole *)

Module TokenizerMainSpec.
Import CLib Tokenizer TokenizerSpec.

(** The lines that are written, with their doc_id and their tokens. *)
Definition written (input : list ascii)
    : list (list ascii * list (list ascii)) :=
  omap line_tokens (split_lines [] input).

(** The state of [main] after a line is written. *)
Definition write_line (st : Output) (w : list ascii * list (list ascii))
    : Output :=
  {| out := out st ++ line_bytes w.1 w.2;
     doc_count := wrap64 (doc_count st + 1);
     token_count := wrap64 (token_count st + Z.of_nat (length w.2)) |}.

End TokenizerMainSpec.

Module StemmerSpec.
Import CLib.

(** A token of a line: not empty, without a white-space byte. *)
Definition spaceless (t : list ascii) : Prop :=
  t <> [] /\ Forall (fun c => isspace c = false) t.

(** The lines of a file as [read_line] delimits them: every line keeps
    its newline; [cur] is the line in progress. *)
Fixpoint file_lines (cur : list ascii) (input : list ascii) : list (list ascii) :=
  match input with
  | [] => if bool_decide (cur = []) then [] else [cur]
  | c :: rest =>
      if bool_decide (c = "010"%char) then (cur ++ [c]) :: file_lines [] rest
      else file_lines (cur ++ [c]) rest
  end.

End StemmerSpec.

(** ** The stemmer as a whole *)

Module StemmerMainSpec.
Import CLib CStd StemmerMain StemmerSpec.

(** The lines that are written, with the number of stems of each. *)
Definition stemmed (input : list ascii) : list (list ascii * Z) :=
  omap (fun l => stem_line (c_str l)) (file_lines [] input).

(** The state of [main] after a line is written. *)
Definition write_stems (st : Output) (w : list ascii * Z) : Output :=
  {| out := out st ++ w.1;
     docs := wrap64 (docs st + 1);
     tokens := wrap64 (tokens st + w.2) |}.

(** No line of the input has [2^31] bytes or more (the length of a line
    is returned as an [int]). *)
Definition lines_fit_int (input : list ascii) : Prop :=
  Forall (fun l => Z.of_nat (length l) < 2 ^ 31) (file_lines [] input).

End StemmerMainSpec.

Module ContentSpec.
Import CLib IndexBuilder LineSpec.

(** The tokens of the stream with the doc_id of their line, in order. *)
Definition stream (lines : list Line) : list (Z * cstring) :=
  flat_map (fun l => map (fun t => (doc_id l, t)) (body_tokens (body l))) lines.

(** The doc_ids of the occurrences of a term in a stream of tokens, in
    order: one for each token equal to the term. *)
Definition occurrences_in (t : cstring) (ps : list (Z * cstring)) : list Z :=
  map fst (filter (fun p => p.2 = t) ps).

Definition occurrences (t : cstring) (lines : list Line) : list Z :=
  occurrences_in t (stream lines).

(** A list without its consecutive repetitions. *)
Fixpoint dedup_adjacent (l : list Z) : list Z :=
  match l with
  | [] => []
  | x :: l' =>
      match l' with
      | [] => [x]
      | y :: _ => if x =? y then dedup_adjacent l' else x :: dedup_adjacent l'
      end
  end.

End ContentSpec.

Module FilesSpec.
Import CLib CStd IndexBuilder.

(** The entry that the search program holds for a record of
    [lexicon.bin]. *)
Definition loaded_entry (r : LexRecord) : SearchCli.LexEntry :=
  {| SearchCli.term := c_str (term_bytes r);
     SearchCli.postings_offset := lex_postings_offset_bytes r;
     SearchCli.postings_count := lex_postings_count r |}.

(** The doc_ids of the lines are 32-bit values, as [parse_u32] returns
    them. *)
Definition doc_ids_u32 (lines : list Line) : Prop :=
  Forall (fun l => 0 <= doc_id l < 2 ^ 32) lines.

End FilesSpec.

Module ParseSpec.
Import CLib.

(** The value of the digits of a decimal number, after the digits of
    value [acc]. *)
Fixpoint uint_value (acc : Z) (d : Decimal.uint) : Z :=
  match d with
  | Decimal.Nil => acc
  | Decimal.D0 d' => uint_value (acc * 10 + 0) d'
  | Decimal.D1 d' => uint_value (acc * 10 + 1) d'
  | Decimal.D2 d' => uint_value (acc * 10 + 2) d'
  | Decimal.D3 d' => uint_value (acc * 10 + 3) d'
  | Decimal.D4 d' => uint_value (acc * 10 + 4) d'
  | Decimal.D5 d' => uint_value (acc * 10 + 5) d'
  | Decimal.D6 d' => uint_value (acc * 10 + 6) d'
  | Decimal.D7 d' => uint_value (acc * 10 + 7) d'
  | Decimal.D8 d' => uint_value (acc * 10 + 8) d'
  | Decimal.D9 d' => uint_value (acc * 10 + 9) d'
  end.

(** The string does not start with a digit. *)
Definition no_digit_ahead (s : list ascii) : Prop :=
  from_option isdigit false (head s) = false.

End ParseSpec.

Module ForwardSpec.
Import CLib CStd LineReader StemmerSpec ForwardBuilder.

(** The lines of [raw_text.tsv] that have four tabs, in order. *)
Definition raw_docs (input : list ascii) : list RawDoc :=
  omap (fun l => raw_line (c_str l)) (file_lines [] input).

(** The first line for the document [d]. *)
Definition first_doc (docs : list RawDoc) (d : Z) : option RawDoc :=
  head (filter (fun r => raw_doc_id r = d) docs).

(** A string as [forward.bin] holds it: its first bytes, as many as its
    length modulo [2^16]. *)
Definition cut16 (s : cstring) : cstring :=
  take (Z.to_nat (Z.of_nat (length s) mod 2 ^ 16)) s.

End ForwardSpec.

Module ScanSpec.
Import CLib CStd StemmerSpec IndexBuilder IndexBuilderScan.

(** The lines of [stemmed.txt] that have a tab, in order. *)
Definition stemmed_lines (input : list ascii) : list Line :=
  omap (fun l => stemmed_line (c_str l)) (file_lines [] input).

End ScanSpec.

Module ForwardExamples.
Import CLib ForwardBuilder SearchCliForward.

(** A line of [raw_text.tsv]. *)
Definition raw_row (id source url title text : string) : list ascii :=
  lit id ++ "009"%char :: lit source ++ "009"%char :: lit url
  ++ "009"%char :: lit title ++ "009"%char :: lit text ++ ["010"%char].

(** Three documents out of order, a line without tabs, a document 0 and
    a second line for the document 1. *)
Definition example_raw : list ascii :=
  raw_row "3" "wiki" "http://u/3" "Charlie" "lazy dogs sleep while foxes run"
  ++ raw_row "1" "wiki" "http://u/1" "Alpha" "the quick brown fox"
  ++ lit "no tabs here" ++ ["010"%char]
  ++ raw_row "0" "wiki" "http://u/0" "Zero" "ignored"
  ++ raw_row "1" "wiki" "http://u/1b" "Again" "ignored"
  ++ raw_row "2" "wiki" "http://u/2" "Bravo" "a quick red fox".

(** The state of the builder after the scan of these lines. *)
Definition example_metas : Metas :=
  match scan_raw example_raw with
  | Some (Some st) => st
  | _ => {| metas := []; docs_with_meta := 0; max_doc_id := 0 |}
  end.

End ForwardExamples.

Module PipelineExamples.
Import CLib IndexBuilder IndexBuilderScan SearchCli.

(** A line of [stemmed.txt]. *)
Definition stemmed_row (id body : string) : list ascii :=
  lit id ++ "009"%char :: lit body ++ ["010"%char].

(** The three documents of [example_lines], as the stemmer writes them. *)
Definition example_stemmed : list ascii :=
  stemmed_row "1" "the quick brown fox are runn quick"
  ++ stemmed_row "2" "a quick red fox is faster than slower fox"
  ++ stemmed_row "3" "lazy dog sleep while fox run".

(** The table of the builder after the scan of these lines. *)
Definition example_scanned : Table :=
  match scan_stemmed example_stemmed 1024 with
  | Some (Some tb) => tb
  | _ => {| slots := []; used_terms := 0 |}
  end.

(** The lexicon and the postings that the search program loads from the
    files written for [example_lines]; no document has metadata. *)
Definition example_loaded : IndexData :=
  {| lexicon := map FilesSpec.loaded_entry
                  (lexicon_records (write_index BuilderExamples.example_table).2);
     postings_data := posting_ids (write_index BuilderExamples.example_table).1;
     metas_by_id := [];
     max_doc_id := 0;
     universe_ids := [] |}.

End PipelineExamples.

Module StemmerExamples.
Import CLib.

(** A token of [2^32 + 6] bytes that ends in [ingly]. *)
Definition long_run : cstring := replicate (Z.to_nat (2 ^ 32 + 1)) "a"%char.
Definition long_ingly_token : cstring := long_run ++ lit "ingly".

End StemmerExamples.

Module UnsortedExamples.
Import CLib SearchCli IndexFiles SearchCliForward.





End UnsortedExamples.

(* ===================================================================== *)
(** * Auxiliary definitions of the further proofs                        *)
(* ===================================================================== *)

Module ParserAux.
Import CLib SearchCli ParserSpec.

Definition lparens (ops : list Token) : nat := count_type TOK_LPAREN ops.

(** The operator stack holds operators and opening parentheses only. *)
Definition stackable (t : Token) : Prop :=
  type t <> TOK_TERM /\ type t <> TOK_RPAREN.

End ParserAux.

(** ** The binary search of the lexicon *)

Module LookupAux.
Import CLib SearchCli LexiconSpec.

(** The entries of a lexicon in strictly ascending order of term. *)
Definition lexicon_sorted (lex : list LexEntry) : Prop :=
  StronglySorted (fun a b => bytes_compare (term a) (term b) = Lt) lex.

End LookupAux.

Module TokenizerAux.
Import CLib.

(** The maximal runs of [isalnum] bytes of a text, in lower case; [cur] is
    the run in progress. *)
Fixpoint words_from (cur : list ascii) (text : list ascii) : list (list ascii) :=
  match text with
  | [] => if bool_decide (cur = []) then [] else [cur]
  | ch :: rest =>
      if isalnum ch then words_from (cur ++ [tolower ch]) rest
      else (if bool_decide (cur = []) then [] else [cur]) ++ words_from [] rest
  end.

End TokenizerAux.

Module ContentAux.
Import CLib IndexBuilder LineSpec LexiconSpec BuilderSpec BuilderAux ContentSpec.

(** [add_term_doc] on the tokens of a stream, in order. *)
Fixpoint add_stream (tb : Table) (capacity : nat) (ps : list (Z * cstring))
    : option Table :=
  match ps with
  | [] => Some tb
  | (d, t) :: rest =>
      match add_term_doc tb capacity t d with
      | None => None
      | Some tb' => add_stream tb' capacity rest
      end
  end.

(** The contents of the table once the tokens [ps] have been added. *)
Record content_ok (capacity : nat) (ps : list (Z * cstring)) (tb : Table)
    : Prop := {
  content_table : table_ok nul_free capacity (slots tb);
  content_postings :
    forall s e, slots tb !! s = Some e -> used e = true ->
      postings e = dedup_adjacent (occurrences_in (term e) ps)
      /\ postings e <> []
      /\ last (postings e) = Some (last_doc_id e);
  content_terms :
    forall p, p ∈ ps ->
      exists s e, slots tb !! s = Some e /\ used e = true /\ term e = p.2;
  content_used :
    used_terms tb = Z.of_nat (length (filter (fun e => used e = true) (slots tb)))
}.

End ContentAux.

Module CapacityAux.
Import CLib IndexBuilder.

(** The posting list of a slot fits its buffer, whose capacity fits 32
    bits with room for a doubling. *)
Definition cap_ok (e : TermEntry) : Prop :=
  postings_count e <= postings_cap e /\ 0 <= postings_cap e <= 2 ^ 32 - 2.

End CapacityAux.

Module FilesAux.
Import CLib IndexBuilder.

(** A record whose fields have the width of their types. *)
Definition record_ok (r : LexRecord) : Prop :=
  term_len r = Z.of_nat (length (term_bytes r))
  /\ term_len r < 2 ^ 16
  /\ 0 <= lex_postings_offset_bytes r < 2 ^ 64
  /\ 0 <= lex_postings_count r < 2 ^ 32.

End FilesAux.

Module ForwardAux.
Import CLib CStd ForwardBuilder.

(** [add_doc_meta] on the lines, in order. *)
Fixpoint add_docs (st : Metas) (docs : list RawDoc) : option Metas :=
  match docs with
  | [] => Some st
  | d :: rest =>
      match add_doc_meta st d with
      | None => None
      | Some st' => add_docs st' rest
      end
  end.

(** The capacities that the array takes: 0, then 1024 doubled up to
    [2^31]. *)
Definition cap_shape (n : Z) : Prop :=
  n = 0 \/ exists k, 0 <= k <= 21 /\ n = 1024 * 2 ^ k.

(** The element [i] of the array is unset, or set for the document [i]. *)
Definition meta_ok (i : nat) (m : DocMeta) : Prop :=
  (m = zero_meta)
  \/ (doc_id m = Z.of_nat i /\ doc_id m <> 0
      /\ is_Some (title m) /\ is_Some (url m)).

(** The state of the scan of [raw_text.tsv]. *)
Record metas_ok (st : Metas) : Prop := {
  metas_elements : forall i m, metas st !! i = Some m -> meta_ok i m;
  metas_length : cap_shape (Z.of_nat (length (metas st)));
  metas_max : 0 <= max_doc_id st
              /\ (max_doc_id st < Z.of_nat (length (metas st))
                  \/ max_doc_id st = 0);
  metas_below_max : forall i m, metas st !! i = Some m -> doc_id m <> 0 ->
                      Z.of_nat i <= max_doc_id st;
  metas_count : docs_with_meta st
                = Z.of_nat (length (filter (fun m => doc_id m <> 0) (metas st)))
}.

(** The element that [load_forward] sets for a record. *)
Definition loaded_meta (m : DocMeta) : SearchCli.DocMeta :=
  {| SearchCli.title := Some (c_str (ForwardSpec.cut16 (default [] (title m))));
     SearchCli.url := Some (c_str (ForwardSpec.cut16 (default [] (url m)))) |}.

Definition load_meta (lm : list SearchCli.DocMeta) (m : DocMeta)
    : list SearchCli.DocMeta :=
  <[Z.to_nat (doc_id m) := loaded_meta m]> lm.

(** The array holds the first line of every document seen. *)
Record metas_content (docs : list RawDoc) (st : Metas) : Prop := {
  content_set : forall i m, metas st !! i = Some m -> doc_id m <> 0 ->
      exists d, ForwardSpec.first_doc docs (Z.of_nat i) = Some d
                /\ title m = Some (raw_title d) /\ url m = Some (raw_url d);
  content_all : forall d, d ∈ docs -> raw_doc_id d <> 0 ->
      exists m, metas st !! Z.to_nat (raw_doc_id d) = Some m /\ doc_id m <> 0
}.

End ForwardAux.

(* ===================================================================== *)
(** * Theorems                                                           *)
(* ===================================================================== *)

Example stem_running :
Stemmer.stem_token (CLib.lit "running") = CLib.lit "runn".
Proof. reflexivity. Qed.

Example stem_ponies :
Stemmer.stem_token (CLib.lit "ponies") = CLib.lit "pony".
Proof. reflexivity. Qed.

Example stem_line_example :
Stemmer.stem_body (CLib.lit "the  foxes quickly") =
[CLib.lit "the"; CLib.lit "fox"; CLib.lit "quick"].
Proof. vm_compute. reflexivity. Qed.

(** ** The stemmer and its rule table *)

Section stemmer_facts.
Import CLib.

Lemma to_int_small (n : Z) : 0 <= n < 2 ^ 31 -> to_int n = n.
Proof. intros H. unfold to_int. rewrite Z.mod_small; lia. Qed.

Lemma to_int_le (n : Z) : 0 <= n -> to_int n <= n.
Proof.
  intros H. unfold to_int.
  pose proof (Z.mod_le (n + 2 ^ 31) (2 ^ 32)). lia.
Qed.

Lemma ltb_of_nat (k n : nat) : (Z.of_nat k <? Z.of_nat n) = (k <? n)%nat.
Proof.
  destruct (Z.ltb_spec (Z.of_nat k) (Z.of_nat n)), (Nat.ltb_spec k n);
    (reflexivity || lia).
Qed.

Lemma ends_with_suffix_of (s suf : cstring) :
  Z.of_nat (length suf) < 2 ^ 31 ->
  Stemmer.ends_with s (Z.of_nat (length s)) suf = bool_decide (suf `suffix_of` s).
Proof.
  intros Hsuf. unfold Stemmer.ends_with, mem_equal.
  rewrite to_int_small by lia. rewrite ltb_of_nat, Nat2Z.id.
  replace (Z.to_nat (Z.of_nat (length s) - Z.of_nat (length suf)))
    with (length s - length suf)%nat by lia.
  destruct (Nat.ltb_spec (length s) (length suf)) as [Hlt | Hge].
  - symmetry. apply bool_decide_eq_false. intros [k ->].
    rewrite length_app in Hlt. lia.
  - apply bool_decide_ext. split.
    + intros H. exists (take (length s - length suf) s).
      rewrite take_ge in H by (rewrite length_drop; lia).
      rewrite <- H at 2. symmetry. apply take_drop.
    + intros [k ->]. rewrite length_app.
      replace (length k + length suf - length suf)%nat with (length k) by lia.
      rewrite drop_app_length. apply take_ge. lia.
Qed.

Lemma last_byte_suffix_of (token : cstring) (c : ascii) :
  bool_decide (token !! (length token - 1)%nat = Some c)
  = bool_decide ([c] `suffix_of` token).
Proof.
  apply bool_decide_ext. split.
  - intros H. exists (take (length token - 1) token).
    rewrite <- (take_drop (length token - 1) token) at 1. f_equal.
    apply lookup_lt_Some in H as Hlt.
    rewrite (drop_S _ _ _ H).
    rewrite drop_ge by lia. reflexivity.
  - intros [k ->].
    replace (length (k ++ [c]) - 1)%nat with (length k)
      by (rewrite length_app; simpl; lia).
    apply list_lookup_middle. reflexivity.
Qed.

Lemma replace_then_cut (token : cstring) (c : ascii) (n : nat) :
  (3 <= n)%nat -> n = length token ->
  take (n - 2) (<[(n - 3)%nat := c]> token) = take (n - 3) token ++ [c].
Proof.
  intros Hn ->.
  pose proof (take_drop (length token - 3) token) as Hsplit.
  assert (Hp : length (take (length token - 3) token) = (length token - 3)%nat)
    by (rewrite length_take; lia).
  destruct (drop (length token - 3) token) as [|x r] eqn:E.
  { apply (f_equal length) in E. rewrite length_drop in E. simpl in E. lia. }
  set (p := take (length token - 3) token) in *.
  replace (length token - 2)%nat with (length p + 1)%nat by lia.
  rewrite <- Hp. clearbody p. clear E Hp Hn. subst token.
  rewrite (insert_app_r_alt p (x :: r) (length p) c) by lia.
  rewrite Nat.sub_diag. cbn [list_insert].
  rewrite take_app_add. reflexivity.
Qed.

(** On a token whose length fits an [int], [n] is the length and the
    tests of [stem_token] are those of the rule table. *)
Lemma stem_token_fits (token : cstring) :
  Z.of_nat (length token) < 2 ^ 31 ->
  Stemmer.stem_token token
  = let n := length token in
    if (n <=? 2)%nat then token
    else if (5 <? n)%nat && bool_decide (lit "ingly" `suffix_of` token)
         then take (n - 5) token
    else if (4 <? n)%nat && bool_decide (lit "edly" `suffix_of` token)
         then take (n - 4) token
    else if (4 <? n)%nat && bool_decide (lit "ing" `suffix_of` token)
         then take (n - 3) token
    else if (3 <? n)%nat && bool_decide (lit "ed" `suffix_of` token)
         then take (n - 2) token
    else if (4 <? n)%nat && bool_decide (lit "ies" `suffix_of` token)
         then take (n - 2) (<[(n - 3)%nat := "y"%char]> token)
    else if (3 <? n)%nat && bool_decide (lit "es" `suffix_of` token)
         then take (n - 2) token
    else if (3 <? n)%nat && bool_decide (lit "ly" `suffix_of` token)
         then take (n - 2) token
    else if (3 <? n)%nat && bool_decide (["s"%char] `suffix_of` token)
         then take (n - 1) token
    else token.
Proof.
  intros Hfit. unfold Stemmer.stem_token.
  rewrite to_int_small by lia.
  rewrite !ends_with_suffix_of by reflexivity.
  replace (Z.to_nat (Z.of_nat (length token) - 1)) with (length token - 1)%nat by lia.
  replace (Z.to_nat (Z.of_nat (length token) - 2)) with (length token - 2)%nat by lia.
  replace (Z.to_nat (Z.of_nat (length token) - 3)) with (length token - 3)%nat by lia.
  replace (Z.to_nat (Z.of_nat (length token) - 4)) with (length token - 4)%nat by lia.
  replace (Z.to_nat (Z.of_nat (length token) - 5)) with (length token - 5)%nat by lia.
  rewrite last_byte_suffix_of.
  change 5 with (Z.of_nat 5). change 4 with (Z.of_nat 4). change 3 with (Z.of_nat 3).
  rewrite !ltb_of_nat.
  cbv zeta.
  destruct (Z.leb_spec (Z.of_nat (length token)) 2) as [Hle | Hgt];
    destruct (Nat.leb_spec (length token) 2) as [Hle' | Hgt'];
    (reflexivity || lia).
Qed.

Lemma stem_token_by_table (token : cstring) :
  Z.of_nat (length token) < 2 ^ 31 ->
  Stemmer.stem_token token = StemRules.stem_by_table token.
Proof.
  intros Hfit. rewrite stem_token_fits by exact Hfit. cbv zeta.
  unfold StemRules.stem_by_table, StemRules.first_matching.
  unfold StemRules.rule_table, List.find, StemRules.rule_matches.
  cbn [StemRules.min_len StemRules.suffix].
  change (lit "s") with ["s"%char].
  destruct (Nat.leb_spec (length token) 2) as [Hle | Hgt].
  - assert (H : forall k, (2 <= k)%nat -> (k <? length token)%nat = false)
      by (intros; apply Nat.ltb_ge; lia).
    rewrite !H by lia. reflexivity.
  - repeat match goal with
      | |- context [if ?c then _ else _] => destruct c
      end;
      unfold StemRules.apply_rule; cbn [StemRules.strip StemRules.append];
      rewrite ?app_nil_r; try reflexivity.
    apply replace_then_cut; [lia | reflexivity].
Qed.

(** A token of [2^32 + 6] bytes made of [a]s and a final [ingly]: its
    length is 6 as an [int], and the six bytes that [stem_token] then
    looks at are [a]s. *)
Lemma long_ingly_facts (k : nat) :
  Z.of_nat k = 2 ^ 32 + 1 ->
  let token := replicate k "a"%char ++ lit "ingly" in
  Z.of_nat (length token) = 2 ^ 32 + 6
  /\ StemRules.first_matching token
     = Some {| StemRules.min_len := 5; StemRules.suffix := lit "ingly";
               StemRules.strip := 5; StemRules.append := [] |}
  /\ StemRules.stem_by_table token = replicate k "a"%char
  /\ Stemmer.stem_token token = token
  /\ Stemmer.stem_token token <> StemRules.stem_by_table token.
Proof.
  intros Hk token.
  assert (Hlen : length token = (k + 5)%nat).
  { unfold token. rewrite length_app, length_replicate. reflexivity. }
  assert (Hfirst : StemRules.first_matching token
     = Some {| StemRules.min_len := 5; StemRules.suffix := lit "ingly";
               StemRules.strip := 5; StemRules.append := [] |}).
  { unfold StemRules.first_matching, StemRules.rule_table.
    cbn [List.find]. unfold StemRules.rule_matches at 1.
    cbn [StemRules.min_len StemRules.suffix].
    assert (H5 : (5 <? length token)%nat = true) by (apply Nat.ltb_lt; lia).
    rewrite H5, bool_decide_eq_true_2; [reflexivity |].
    exists (replicate k "a"%char). reflexivity. }
  assert (Htable : StemRules.stem_by_table token = replicate k "a"%char).
  { unfold StemRules.stem_by_table. rewrite Hfirst.
    unfold StemRules.apply_rule. cbn [StemRules.strip StemRules.append].
    rewrite app_nil_r, Hlen.
    replace (k + 5 - 5)%nat with (length (replicate k "a"%char))
      by (rewrite length_replicate; lia).
    unfold token. apply take_app_length. }
  assert (Hstem : Stemmer.stem_token token = token).
  { unfold Stemmer.stem_token. rewrite Hlen.
    replace (Z.of_nat (k + 5)) with (2 ^ 32 + 6) by lia.
    change (to_int (2 ^ 32 + 6)) with 6.
    unfold token.
    destruct k as [|[|[|[|[|[|k']]]]]]; try lia.
    vm_compute. reflexivity. }
  split; [lia |]. split; [exact Hfirst |]. split; [exact Htable |].
  split; [exact Hstem |].
  rewrite Hstem, Htable. intros H. apply (f_equal length) in H.
  rewrite Hlen, length_replicate in H. lia.
Qed.

End stemmer_facts.

Section stemmer_claims.
Import CLib StemmerExamples.

Lemma stem_token_nonempty (token : cstring) :
  token <> [] -> Stemmer.stem_token token <> [].
Proof.
  intros Hne Hnil. apply (f_equal length) in Hnil. revert Hnil.
  assert (0 < length token)%nat by (destruct token; simpl; [congruence | lia]).
  pose proof (to_int_le (Z.of_nat (length token)) ltac:(lia)) as Hn.
  unfold Stemmer.stem_token.
  set (n := to_int (Z.of_nat (length token))) in *.
  cbv zeta.
  repeat match goal with
    | |- context [if ?c then _ else _] => destruct c eqn:?
    end;
    repeat match goal with
      | H : _ && _ = true |- _ => apply andb_prop in H as [? ?]
      | H : (_ <? _) = true |- _ => apply Z.ltb_lt in H
      | H : (_ <=? _) = false |- _ => apply Z.leb_gt in H
      end;
    rewrite ?length_take, ?length_insert; simpl; lia.
Qed.

(** C3. The offline stemmer ([stem_token] of stemmer.cpp) and the stemmer
    of the query lexer ([stem_term_inplace] of search_cli.cpp) are the
    same function: every token is mapped to the same bytes by both. *)
Theorem stem_token_eq_stem_term_inplace (token : cstring) :
  Stemmer.stem_token token = SearchCli.stem_term_inplace token.
Proof.
  unfold Stemmer.stem_token, SearchCli.stem_term_inplace.
  unfold Stemmer.ends_with, SearchCli.ends_with.
  reflexivity.
Qed.

(** C7 (amended). For every token of fewer than [2^31] bytes the stemmer
    applies the first matching rule of the ordered table of eight rules,
    and nothing else: a token of length at most 2 and a token that no
    rule matches are left unchanged. *)
Theorem stem_token_first_matching_rule (token : cstring) :
  Z.of_nat (length token) < 2 ^ 31 ->
  Stemmer.stem_token token
  = match StemRules.first_matching token with
    | Some r => StemRules.apply_rule token r
    | None => token
    end
  /\ ((length token <= 2)%nat -> Stemmer.stem_token token = token)
  /\ (Forall (fun r => StemRules.rule_matches token r = false) StemRules.rule_table ->
      Stemmer.stem_token token = token).
Proof.
  intros Hfit.
  split; [apply stem_token_by_table, Hfit |]. split.
  - intros Hle. rewrite stem_token_fits by exact Hfit. cbv zeta.
    apply Nat.leb_le in Hle. rewrite Hle. reflexivity.
  - intros Hnone. rewrite stem_token_by_table by exact Hfit.
    unfold StemRules.stem_by_table, StemRules.first_matching.
    destruct (List.find _ _) as [r|] eqn:E; [|reflexivity].
    apply List.find_some in E as [Hin Hm].
    rewrite Forall_forall in Hnone. apply list_elem_of_In in Hin.
    rewrite (Hnone r Hin) in Hm. discriminate.
Qed.

Lemma stem_token_first_matching_rule_witness :
  Z.of_nat (length (lit "ponies")) < 2 ^ 31
  /\ Stemmer.stem_token (lit "ponies")
     = match StemRules.first_matching (lit "ponies") with
       | Some r => StemRules.apply_rule (lit "ponies") r
       | None => lit "ponies"
       end.
Proof.
  split; [vm_compute; reflexivity |].
  apply (proj1 (stem_token_first_matching_rule (lit "ponies") ltac:(vm_compute; reflexivity))).
Defined.

(** C7 (as stated) fails on a token of [2^32 + 6] bytes that ends in
    [ingly]: the rule [ingly] of the table matches it and strips five
    bytes, but [stem_token] computes the length 6 for it, for which the
    tests of the rule [ingly] and of every later rule fail, and leaves the
    token unchanged. *)
Lemma stem_token_misses_rule_on_long_token :
  Z.of_nat (length long_ingly_token) = 2 ^ 32 + 6
  /\ StemRules.first_matching long_ingly_token
     = Some {| StemRules.min_len := 5; StemRules.suffix := lit "ingly";
               StemRules.strip := 5; StemRules.append := [] |}
  /\ StemRules.stem_by_table long_ingly_token = long_run
  /\ Stemmer.stem_token long_ingly_token = long_ingly_token
  /\ Stemmer.stem_token long_ingly_token <> StemRules.stem_by_table long_ingly_token.
Proof.
  unfold long_ingly_token, long_run.
  apply (long_ingly_facts (Z.to_nat (2 ^ 32 + 1))).
  apply Z2Nat.id. lia.
Qed.

End stemmer_claims.

(** ** The query lexer: implicit conjunction *)

Section lexer_facts.
Import CLib SearchCli LexerSpec QueryAux.

Lemma expand_loop_from (pre rest : list Token) :
  expand_loop (pre ++ rest) (length rest) (length pre)
  = expand_from (last pre) rest.
Proof.
  revert pre. induction rest as [|cur rest IH]; intros pre; [reflexivity |].
  cbn [length expand_loop expand_from].
  rewrite list_lookup_middle by reflexivity.
  replace (pre ++ cur :: rest) with ((pre ++ [cur]) ++ rest)
    by (rewrite <- app_assoc; reflexivity).
  replace (S (length pre)) with (length (pre ++ [cur]))
    by (rewrite length_app; simpl; lia).
  rewrite IH, last_snoc. f_equal.
  destruct (last pre) as [p0|] eqn:E.
  - apply last_Some in E as [pre' ->].
    rewrite length_app. cbn [length].
    replace (length pre' + 1 - 1)%nat with (length pre') by lia.
    rewrite <- !app_assoc. cbn [app].
    rewrite list_lookup_middle by reflexivity.
    replace (0 <? length pre' + 1)%nat with true
      by (symmetry; apply Nat.ltb_lt; lia).
    reflexivity.
  - apply last_None in E as ->. reflexivity.
Qed.

Lemma needs_and_operands (prev cur : Token) :
  needs_and prev cur = is_operand_end (type prev) && is_operand_start (type cur).
Proof.
  unfold needs_and, is_operand_end, is_operand_start.
  destruct (type prev), (type cur); reflexivity.
Qed.

Lemma expand_from_with_implicit_and (prev : Token) (rest : list Token) :
  prev :: expand_from (Some prev) rest = with_implicit_and (prev :: rest).
Proof.
  revert prev. induction rest as [|cur rest IH]; intros prev; [reflexivity |].
  cbn [expand_from with_implicit_and from_option].
  rewrite needs_and_operands, IH. reflexivity.
Qed.

Lemma expand_with_implicit_and (raw : list Token) :
  expand raw = with_implicit_and raw.
Proof.
  unfold expand. pose proof (expand_loop_from [] raw) as H.
  cbn [app length] in H. rewrite H. clear H.
  destruct raw as [|t rest]; [reflexivity |].
  rewrite <- expand_from_with_implicit_and. reflexivity.
Qed.

(** C6. The post-pass of the lexer inserts an AND token between the
    positions [i-1] and [i] of the raw stream exactly when the token at
    [i-1] is a TERM or an RPAREN and the token at [i] is a TERM, an LPAREN
    or a NOT; the stream is otherwise unchanged. *)
Theorem expand_inserts_implicit_and (raw : list Token) :
  expand raw = with_implicit_and raw.
Proof. apply expand_with_implicit_and. Qed.

End lexer_facts.

(** ** The query lexer: the scan of the bytes *)

Section tokenize_raw_facts.
Import CLib SearchCli LexerSpec QueryAux.

Lemma span_app (p : ascii -> bool) (q : list ascii) :
  (span p q).1 ++ (span p q).2 = q.
Proof.
  induction q as [|d q IH]; [reflexivity |]. cbn [span].
  destruct (p d); [|reflexivity].
  destruct (span p q) as [run rest]. cbn in *. congruence.
Qed.

Lemma span_rest_length (p : ascii -> bool) (q : list ascii) :
  (length (span p q).2 <= length q)%nat.
Proof.
  rewrite <- (span_app p q) at 2. rewrite length_app. lia.
Qed.

Lemma span_snoc_stop (p : ascii -> bool) (q : list ascii) (c : ascii) :
  p c = false -> span p (q ++ [c]) = ((span p q).1, (span p q).2 ++ [c]).
Proof.
  intros Hc. induction q as [|d q IH]; cbn [span app].
  - rewrite Hc. reflexivity.
  - destruct (p d); [|reflexivity].
    rewrite IH. destruct (span p q) as [run rest]. reflexivity.
Qed.

Lemma span_run_stop (p : ascii -> bool) (run rest : list ascii) :
  forallb p run = true ->
  from_option p false (head rest) = false ->
  span p (run ++ rest) = (run, rest).
Proof.
  intros Hrun Hrest. induction run as [|d run IH]; cbn [app].
  - destruct rest as [|r rest]; [reflexivity |].
    cbn in Hrest. cbn [span]. rewrite Hrest. reflexivity.
  - cbn [forallb] in Hrun. apply andb_prop in Hrun as [Hd Hrun].
    cbn [span]. rewrite Hd, (IH Hrun). reflexivity.
Qed.

Lemma scan_run_span (run q : list ascii) :
  scan_run run q
  = term_token (run ++ (span isalnum q).1) :: tokenize_raw (span isalnum q).2.
Proof.
  revert run. induction q as [|d q IH]; intros run; cbn [scan_run span].
  - rewrite app_nil_r. reflexivity.
  - destruct (isalnum d).
    + rewrite IH. destruct (span isalnum q) as [r rest]. cbn [fst snd].
      rewrite <- app_assoc. reflexivity.
    + cbn [fst snd]. rewrite app_nil_r. reflexivity.
Qed.

(** One iteration of the first loop of [tokenize_query]. *)
Lemma tokenize_raw_step (ch : ascii) (q1 : list ascii) :
  tokenize_raw (ch :: q1) =
    if isspace ch then tokenize_raw q1
    else if bool_decide (ch = "&"%char) && next_is q1 "&"%char
         then op_token TOK_AND :: tokenize_raw (tail q1)
    else if bool_decide (ch = "|"%char) && next_is q1 "|"%char
         then op_token TOK_OR :: tokenize_raw (tail q1)
    else if bool_decide (ch = "!"%char) then op_token TOK_NOT :: tokenize_raw q1
    else if bool_decide (ch = "("%char) then op_token TOK_LPAREN :: tokenize_raw q1
    else if bool_decide (ch = ")"%char) then op_token TOK_RPAREN :: tokenize_raw q1
    else if isalnum ch
         then term_token (ch :: (span isalnum q1).1)
                :: tokenize_raw (span isalnum q1).2
    else tokenize_raw q1.
Proof.
  pose proof (scan_run_span [ch] q1) as Hscan. cbn [app] in Hscan.
  rewrite <- Hscan. clear Hscan.
  destruct q1 as [|c2 q2]; cbn [tail next_is]; [|reflexivity].
  cbn [tokenize_raw scan_run next_is].
  destruct (isspace ch), (bool_decide (ch = "&"%char)),
    (bool_decide (ch = "|"%char)); reflexivity.
Qed.

Lemma isalnum_plain (c : ascii) :
  isalnum c = true ->
  isspace c = false /\ c <> "&"%char /\ c <> "|"%char /\ c <> "!"%char
  /\ c <> "("%char /\ c <> ")"%char.
Proof.
  intros H. repeat split; try (intros ->; vm_compute in H; discriminate).
  unfold isalnum, isdigit, isupper, islower in H. unfold isspace.
  destruct (uchar c =? 32) eqn:E1; [|destruct (uchar c <=? 13) eqn:E2];
    rewrite ?andb_false_r, ?andb_true_r; cbn [orb]; try reflexivity.
  - apply Z.eqb_eq in E1. rewrite E1 in H. vm_compute in H. discriminate.
  - apply Z.leb_le in E2.
    repeat match goal with
      | H : _ || _ = true |- _ => apply orb_prop in H as [H | H]
      | H : _ && _ = true |- _ => apply andb_prop in H as [H _]
      end; apply Z.leb_le in H; lia.
Qed.

(** A run of [isalnum] bytes followed by a byte that is not one (or by
    the end of the query) is lexed as one term. *)
Lemma tokenize_raw_term (a rest : list ascii) :
  a <> [] -> forallb isalnum a = true ->
  from_option isalnum false (head rest) = false ->
  tokenize_raw (a ++ rest) = term_token a :: tokenize_raw rest.
Proof.
  intros Hne Ha Hrest. destruct a as [|c a']; [congruence |].
  cbn [forallb] in Ha. apply andb_prop in Ha as [Hc Ha'].
  cbn [app]. rewrite tokenize_raw_step.
  destruct (isalnum_plain c Hc) as (-> & H1 & H2 & H3 & H4 & H5).
  rewrite !bool_decide_eq_false_2 by assumption. cbn [andb].
  rewrite Hc, (span_run_stop isalnum a' rest Ha' Hrest). reflexivity.
Qed.

(** A closing parenthesis appended to a query is lexed on its own. *)
Lemma tokenize_raw_snoc_rparen (q : list ascii) :
  tokenize_raw (q ++ [")"%char]) = tokenize_raw q ++ [op_token TOK_RPAREN].
Proof.
  remember (length q) as n eqn:Hn.
  revert q Hn. induction n as [n IH] using lt_wf_ind. intros q Hn.
  destruct q as [|ch q1]; [reflexivity |].
  cbn [app]. rewrite !tokenize_raw_step.
  assert (Hq1 : tokenize_raw (q1 ++ [")"%char])
                = tokenize_raw q1 ++ [op_token TOK_RPAREN])
    by (apply (IH (length q1)); [subst n; simpl; lia | reflexivity]).
  assert (Hnext : forall c, c <> ")"%char ->
            next_is (q1 ++ [")"%char]) c = next_is q1 c).
  { intros c Hc. destruct q1; [|reflexivity]. cbn.
    apply bool_decide_eq_false_2. congruence. }
  rewrite !Hnext by discriminate.
  assert (Htail : forall c, next_is q1 c = true ->
            tokenize_raw (tail (q1 ++ [")"%char]))
            = tokenize_raw (tail q1) ++ [op_token TOK_RPAREN]).
  { intros c Hc. destruct q1 as [|c2 q2]; [discriminate |]. cbn [app tail].
    apply (IH (length q2)); [subst n; simpl; lia | reflexivity]. }
  rewrite (span_snoc_stop isalnum q1 ")"%char) by reflexivity. cbn [fst snd].
  assert (Hspan : tokenize_raw ((span isalnum q1).2 ++ [")"%char])
                  = tokenize_raw (span isalnum q1).2 ++ [op_token TOK_RPAREN]).
  { apply (IH (length (span isalnum q1).2)); [|reflexivity].
    pose proof (span_rest_length isalnum q1). subst n. simpl. lia. }
  repeat match goal with
    | |- context [if ?c then _ else _] => destruct c eqn:?
    end;
    rewrite ?Hq1, ?Hspan; try reflexivity;
    match goal with
    | H : _ && next_is q1 ?c = true |- _ =>
        apply andb_prop in H as [_ H]; rewrite (Htail c H); reflexivity
    end.
Qed.

End tokenize_raw_facts.

(** ** Tokens of a line and terms of a query are never empty *)

Section nonempty_facts.
Import CLib LineSpec StemmerAux.

Lemma stem_term_inplace_nonempty (token : cstring) :
  token <> [] -> SearchCli.stem_term_inplace token <> [].
Proof. exact (stem_token_nonempty token). Qed.

Lemma split_runs_nonempty (cur p : list ascii) :
  Forall (fun t => t <> []) (split_runs cur p).
Proof.
  revert cur. induction p as [|c p IH]; intros cur; cbn [split_runs].
  - case_bool_decide; repeat constructor. assumption.
  - destruct (isspace c); [|apply IH].
    apply Forall_app. split; [|apply IH].
    case_bool_decide; repeat constructor. assumption.
Qed.

Lemma stem_body_cons (c : ascii) (p : list ascii) :
  Stemmer.stem_body (c :: p)
  = if isspace c then Stemmer.stem_body p else stem_scan [c] p.
Proof. destruct p; reflexivity. Qed.

Lemma stem_body_scan_tokens (n : nat) :
  (forall q, (length q <= n)%nat ->
     Stemmer.stem_body q = map Stemmer.stem_token (split_runs [] q))
  /\ (forall q start, (length q <= n)%nat -> start <> [] ->
       stem_scan start q = map Stemmer.stem_token (split_runs start q)).
Proof.
  induction n as [|n [IHbody IHscan]].
  - split.
    + intros [|? ?] Hlen; [reflexivity | simpl in Hlen; lia].
    + intros [|? ?] start Hlen Hne; [|simpl in Hlen; lia].
      cbn [stem_scan split_runs].
      rewrite !bool_decide_eq_false_2; auto using stem_token_nonempty.
  - split.
    + intros [|c p] Hlen; [reflexivity |]. cbn [length] in Hlen.
      rewrite stem_body_cons. cbn [split_runs].
      destruct (isspace c).
      * apply IHbody. lia.
      * apply IHscan; [lia | discriminate].
    + intros [|d q] start Hlen Hne; cbn [stem_scan split_runs].
      * rewrite !bool_decide_eq_false_2; auto using stem_token_nonempty.
      * cbn [length] in Hlen. destruct (isspace d) eqn:Hd.
        -- rewrite !bool_decide_eq_false_2 by auto using stem_token_nonempty.
           rewrite stem_body_cons, Hd. rewrite IHbody by lia. reflexivity.
        -- apply IHscan; [lia |]. destruct start; discriminate.
Qed.

(** The stemmer writes the stem of every token of the line: none is
    dropped. *)
Lemma stem_body_all_tokens (body : list ascii) :
  Stemmer.stem_body body = map Stemmer.stem_token (body_tokens body).
Proof. apply (stem_body_scan_tokens (length body)). lia. Qed.

Import SearchCli LexerSpec QueryAux.

Lemma term_token_has_text (ch : ascii) (run : list ascii) :
  term_has_text (term_token (ch :: run)).
Proof.
  intros _. eexists. split; [reflexivity |].
  apply stem_term_inplace_nonempty. discriminate.
Qed.

Lemma tokenize_raw_terms_have_text (q : list ascii) :
  Forall term_has_text (tokenize_raw q).
Proof.
  remember (length q) as n eqn:Hn.
  revert q Hn. induction n as [n IH] using lt_wf_ind. intros q Hn.
  destruct q as [|ch q1]; [constructor |].
  rewrite tokenize_raw_step.
  assert (H1 : Forall term_has_text (tokenize_raw q1))
    by (apply (IH (length q1)); [subst n; simpl; lia | reflexivity]).
  assert (H2 : Forall term_has_text (tokenize_raw (tail q1))).
  { destruct q1 as [|c2 q2]; [constructor |].
    apply (IH (length q2)); [subst n; simpl; lia | reflexivity]. }
  assert (H3 : Forall term_has_text (tokenize_raw (span isalnum q1).2)).
  { apply (IH (length (span isalnum q1).2)); [|reflexivity].
    pose proof (span_rest_length isalnum q1). subst n. simpl. lia. }
  repeat match goal with
    | |- context [if ?c then _ else _] => destruct c
    end;
    try assumption; constructor; try assumption;
    try (intros Hty; discriminate Hty).
  apply term_token_has_text.
Qed.

Lemma with_implicit_and_terms_have_text (raw : list Token) :
  Forall term_has_text raw -> Forall term_has_text (with_implicit_and raw).
Proof.
  induction 1 as [|prev rest Hprev Hrest IH]; [constructor |].
  cbn [with_implicit_and]. constructor; [assumption |].
  destruct rest as [|cur rest']; [constructor |].
  apply Forall_app. split; [|exact IH].
  destruct (needs_and prev cur); repeat constructor.
  intros Hty; discriminate Hty.
Qed.

(** Every TERM token of a lexed query carries a text, and the text is
    not empty. *)
Lemma tokenize_query_terms_have_text (query : list ascii) :
  Forall term_has_text (tokenize_query query).
Proof.
  unfold tokenize_query. rewrite expand_with_implicit_and.
  apply with_implicit_and_terms_have_text, tokenize_raw_terms_have_text.
Qed.

(** C10. The stem of a non-empty token is not empty, for the offline
    stemmer and for the stemmer of the query lexer alike; hence the
    offline stemmer writes the stem of every token of a line (the branch
    that drops an empty stem is never taken), and every TERM token of a
    lexed query carries a non-empty text. *)
Theorem stem_of_nonempty_token_nonempty
    (token : cstring) (body query : list ascii) :
  token <> [] ->
  Stemmer.stem_token token <> []
  /\ stem_term_inplace token <> []
  /\ Stemmer.stem_body body = map Stemmer.stem_token (body_tokens body)
  /\ Forall (fun tok => type tok = TOK_TERM ->
               exists txt, text tok = Some txt /\ txt <> [])
       (tokenize_query query).
Proof.
  intros Hne. repeat split.
  - apply stem_token_nonempty, Hne.
  - apply stem_term_inplace_nonempty, Hne.
  - apply stem_body_all_tokens.
  - apply tokenize_query_terms_have_text.
Qed.

Lemma stem_of_nonempty_token_nonempty_witness :
  lit "flies" <> []
  /\ Stemmer.stem_token (lit "flies") = lit "fly"
  /\ Stemmer.stem_token (lit "flies") <> [].
Proof.
  split; [discriminate |]. split; [reflexivity |].
  apply (stem_of_nonempty_token_nonempty (lit "flies") [] []). discriminate.
Defined.

End nonempty_facts.

(** ** Posting lists as sets: the merges of the evaluator *)

Section posting_algebra.
Import SearchCli PostingSpec QueryAux.

Lemma ascending_cons_inv (x : Z) (l : list Z) :
  ascending (x :: l) -> ascending l /\ Forall (Z.lt x) l.
Proof. apply StronglySorted_inv. Qed.

Lemma ascending_cons (x : Z) (l : list Z) :
  ascending l -> Forall (Z.lt x) l -> ascending (x :: l).
Proof. intros. constructor; assumption. Qed.

Lemma ascending_not_head (x d : Z) (l : list Z) :
  ascending (x :: l) -> d < x -> d ∉ x :: l.
Proof.
  intros [_ Hall]%ascending_cons_inv Hlt Hin.
  apply elem_of_cons in Hin as [-> | Hin]; [lia |].
  rewrite Forall_forall in Hall. specialize (Hall d Hin). lia.
Qed.

(** Two strictly ascending lists with the same elements are equal. *)
Lemma ascending_ext (l1 l2 : list Z) :
  ascending l1 -> ascending l2 -> (forall d, d ∈ l1 <-> d ∈ l2) -> l1 = l2.
Proof.
  revert l2. induction l1 as [|x l1 IH]; intros [|y l2] H1 H2 Hext.
  - reflexivity.
  - exfalso. apply (not_elem_of_nil y), Hext. left.
  - exfalso. apply (not_elem_of_nil x), Hext. left.
  - assert (x = y) as ->.
    { destruct (Z.lt_trichotomy x y) as [Hlt | [Heq | Hgt]]; [|exact Heq|].
      - exfalso. apply (ascending_not_head y x l2 H2 Hlt), Hext. left.
      - exfalso. apply (ascending_not_head x y l1 H1 Hgt), Hext. left. }
    f_equal.
    apply ascending_cons_inv in H1 as H1'. destruct H1' as [H1' _].
    apply ascending_cons_inv in H2 as H2'. destruct H2' as [H2' _].
    apply IH; [assumption | assumption |]. intros d. split; intros Hd.
    + assert (d ∈ y :: l2) as [-> | ?]%elem_of_cons by (apply Hext; right; exact Hd);
        [|assumption].
      exfalso. apply (ascending_not_head y y l1); [assumption | | right; exact Hd].
      apply ascending_cons_inv in H1 as [_ Hall].
      rewrite Forall_forall in Hall. specialize (Hall y Hd). lia.
    + assert (d ∈ y :: l1) as [-> | ?]%elem_of_cons by (apply Hext; right; exact Hd);
        [|assumption].
      exfalso.
      apply ascending_cons_inv in H2 as [_ Hall].
      rewrite Forall_forall in Hall. specialize (Hall y Hd). lia.
Qed.

(** ** Intersection *)

Lemma op_and_nil_r (a : list Z) : op_and a [] = [].
Proof. destruct a; reflexivity. Qed.

Lemma op_and_cons (x y : Z) (a b : list Z) :
  op_and (x :: a) (y :: b) =
    if x =? y then x :: op_and a b
    else if x <? y then op_and a (y :: b)
    else op_and (x :: a) b.
Proof. reflexivity. Qed.

Lemma op_and_subseteq (a b : list Z) (d : Z) :
  d ∈ op_and a b -> d ∈ a /\ d ∈ b.
Proof.
  revert b. induction a as [|x a IHa]; intros b; [intros H; inversion H |].
  induction b as [|y b IHb]; [rewrite op_and_nil_r; intros H; inversion H |].
  rewrite op_and_cons.
  destruct (Z.eqb_spec x y) as [-> | Hne].
  - intros [-> | Hd]%elem_of_cons; [split; left |].
    destruct (IHa b Hd). split; right; assumption.
  - destruct (x <? y).
    + intros Hd. destruct (IHa _ Hd). split; [right |]; assumption.
    + intros Hd. destruct (IHb Hd). split; [|right]; assumption.
Qed.

Lemma op_and_ascending (a b : list Z) :
  ascending a -> ascending (op_and a b).
Proof.
  revert b. induction a as [|x a IHa]; intros b Ha; [constructor |].
  induction b as [|y b IHb]; [rewrite op_and_nil_r; constructor |].
  rewrite op_and_cons.
  apply ascending_cons_inv in Ha as Ha'. destruct Ha' as [Ha' Hall].
  destruct (x =? y); [|destruct (x <? y)]; auto.
  apply ascending_cons; [auto |].
  rewrite Forall_forall in Hall |- *. intros d Hd.
  apply Hall. apply (op_and_subseteq a b d Hd).
Qed.


(** ** Union *)

Lemma op_or_nil_r (a : list Z) : op_or a [] = a.
Proof. destruct a; reflexivity. Qed.

Lemma op_or_cons (x y : Z) (a b : list Z) :
  op_or (x :: a) (y :: b) =
    if x =? y then x :: op_or a b
    else if x <? y then x :: op_or a (y :: b)
    else y :: op_or (x :: a) b.
Proof. reflexivity. Qed.

Lemma elem_of_op_or (a b : list Z) (d : Z) :
  d ∈ op_or a b <-> d ∈ a \/ d ∈ b.
Proof.
  revert b. induction a as [|x a IHa]; intros b.
  { cbn [op_or]. split; [auto | intros [H | H]; [inversion H | exact H]]. }
  induction b as [|y b IHb].
  { rewrite op_or_nil_r. split; [auto | intros [H | H]; [exact H | inversion H]]. }
  rewrite op_or_cons.
  destruct (Z.eqb_spec x y) as [-> | Hne]; [|destruct (x <? y)];
    rewrite !elem_of_cons, ?IHa, ?IHb, ?elem_of_cons; tauto.
Qed.

Lemma op_or_ascending (a b : list Z) :
  ascending a -> ascending b -> ascending (op_or a b).
Proof.
  revert b. induction a as [|x a IHa]; intros b Ha Hb; [exact Hb |].
  induction b as [|y b IHb]; [rewrite op_or_nil_r; exact Ha |].
  rewrite op_or_cons.
  apply ascending_cons_inv in Ha as Ha'. destruct Ha' as [Ha' Halla].
  apply ascending_cons_inv in Hb as Hb'. destruct Hb' as [Hb' Hallb].
  rewrite Forall_forall in Halla, Hallb.
  destruct (Z.eqb_spec x y) as [-> | Hne]; [|destruct (Z.ltb_spec x y) as [Hlt | Hge]].
  - apply ascending_cons; [auto |]. rewrite Forall_forall. intros d Hd.
    apply elem_of_op_or in Hd as [Hd | Hd]; auto.
  - apply ascending_cons; [auto |]. rewrite Forall_forall. intros d Hd.
    apply elem_of_op_or in Hd as [Hd | Hd]; [auto |].
    apply elem_of_cons in Hd as [-> | Hd]; [assumption |].
    specialize (Hallb _ Hd). lia.
  - apply ascending_cons; [auto |]. rewrite Forall_forall. intros d Hd.
    apply elem_of_op_or in Hd as [Hd | Hd]; [|auto].
    apply elem_of_cons in Hd as [-> | Hd]; [lia |].
    specialize (Halla _ Hd). lia.
Qed.

(** ** Complement in the universe *)

Lemma not_walk_nil_r (u : list Z) : not_walk u [] = u.
Proof. induction u as [|x u IH]; [reflexivity |]. cbn. f_equal. exact IH. Qed.

Lemma not_walk_cons (x y : Z) (u a : list Z) :
  not_walk (x :: u) (y :: a) =
    if x =? y then not_walk u a
    else if x <? y then x :: not_walk u (y :: a)
    else not_walk (x :: u) a.
Proof. reflexivity. Qed.

Lemma not_walk_subseteq (u a : list Z) (d : Z) :
  d ∈ not_walk u a -> d ∈ u.
Proof.
  revert a. induction u as [|x u IHu]; intros a; [intros H; inversion H |].
  induction a as [|y a IHa]; [rewrite not_walk_nil_r; auto |].
  rewrite not_walk_cons.
  destruct (x =? y); [|destruct (x <? y)].
  - intros Hd. right. exact (IHu _ Hd).
  - intros [-> | Hd]%elem_of_cons; [left | right; exact (IHu _ Hd)].
  - exact IHa.
Qed.

Lemma not_walk_ascending (u a : list Z) :
  ascending u -> ascending (not_walk u a).
Proof.
  revert a. induction u as [|x u IHu]; intros a Hu; [constructor |].
  induction a as [|y a IHa]; [rewrite not_walk_nil_r; exact Hu |].
  rewrite not_walk_cons.
  apply ascending_cons_inv in Hu as Hu'. destruct Hu' as [Hu' Hall].
  destruct (x =? y); [|destruct (x <? y)]; auto.
  apply ascending_cons; [auto |].
  rewrite Forall_forall in Hall |- *. intros d Hd.
  apply Hall, (not_walk_subseteq u (y :: a) d Hd).
Qed.

Lemma elem_of_not_walk (u a : list Z) (d : Z) :
  ascending u -> ascending a -> d ∈ not_walk u a <-> d ∈ u /\ d ∉ a.
Proof.
  revert a. induction u as [|x u IHu]; intros a Hu Ha.
  { split; [intros H; inversion H | intros [H _]; inversion H]. }
  induction a as [|y a IHa].
  { rewrite not_walk_nil_r. split; [intros H; split; [exact H | apply not_elem_of_nil] | tauto]. }
  rewrite not_walk_cons.
  apply ascending_cons_inv in Hu as Hu'. destruct Hu' as [Hu' Hallu].
  apply ascending_cons_inv in Ha as Ha'. destruct Ha' as [Ha' Halla].
  rewrite Forall_forall in Hallu, Halla.
  destruct (Z.eqb_spec x y) as [-> | Hne]; [|destruct (Z.ltb_spec x y) as [Hlt | Hge]].
  - rewrite (IHu a Hu' Ha'), !elem_of_cons. split.
    + intros [Hdu Hda]. split; [right; exact Hdu |].
      intros [-> | Hd]; [|contradiction].
      specialize (Hallu _ Hdu). lia.
    + intros [[-> | Hdu] Hda]; [exfalso; apply Hda; left; reflexivity |].
      split; [exact Hdu | intros Hd; apply Hda; right; exact Hd].
  - rewrite elem_of_cons, (IHu (y :: a) Hu' Ha), !elem_of_cons. split.
    + intros [-> | [Hdu Hda]]; [|split; [right; exact Hdu | exact Hda]].
      split; [left; reflexivity |].
      intros [-> | Hd]; [lia |]. specialize (Halla _ Hd). lia.
    + intros [[-> | Hdu] Hda]; [left; reflexivity | right; split; assumption].
  - rewrite (IHa Ha'), !elem_of_cons. split.
    + intros [Hdu Hda]. split; [exact Hdu |].
      intros [-> | Hd]; [|contradiction].
      destruct Hdu as [-> | Hdu]; [lia |]. specialize (Hallu _ Hdu). lia.
    + intros [Hdu Hda]. split; [exact Hdu | intros Hd; apply Hda; right; exact Hd].
Qed.


End posting_algebra.

(** ** The lexicon lookup *)

Section lexicon_facts.
Import CLib SearchCli IndexSpec QueryAux.

Lemma lexicon_find_loop_returns (fuel : nat) (lex : list LexEntry)
    (t : cstring) (lo hi : Z) :
  0 <= lo <= hi + 1 -> hi < Z.of_nat (length lex) ->
  hi - lo + 1 < Z.of_nat fuel ->
  lexicon_find_loop fuel lex t lo hi <> None.
Proof.
  revert lo hi. induction fuel as [|fuel IH]; intros lo hi Hlo Hhi Hfuel; [lia |].
  cbn [lexicon_find_loop].
  destruct (Z.leb_spec lo hi) as [Hle | Hgt]; [|discriminate].
  assert (Hmid : lo <= Z.quot (lo + hi) 2 <= hi).
  { rewrite Z.quot_div_nonneg by lia.
    Z.to_euclidean_division_equations. lia. }
  destruct (lex !! Z.to_nat (Z.quot (lo + hi) 2)) as [e|] eqn:Hlook.
  - destruct (strcmp t (term e) =? 0); [discriminate |].
    destruct (strcmp t (term e) <? 0); apply IH; lia.
  - apply lookup_ge_None in Hlook. lia.
Qed.

(** The binary search of [lexicon_find] ends within its fuel and stays
    inside the lexicon. *)
Lemma lexicon_find_returns (idx : IndexData) (t : cstring) :
  lexicon_find_loop (S (length (lexicon idx))) (lexicon idx) t
    0 (term_count idx - 1) <> None.
Proof. apply lexicon_find_loop_returns; unfold term_count; lia. Qed.

Lemma lexicon_find_loop_entry (fuel : nat) (lex : list LexEntry)
    (t : cstring) (lo hi off cnt : Z) :
  lexicon_find_loop fuel lex t lo hi = Some (Some (off, cnt)) ->
  exists e, e ∈ lex /\ strcmp t (term e) = 0
            /\ off = postings_offset e /\ cnt = postings_count e.
Proof.
  revert lo hi. induction fuel as [|fuel IH]; intros lo hi; [discriminate |].
  cbn [lexicon_find_loop].
  destruct (lo <=? hi); [|discriminate].
  destruct (lex !! Z.to_nat (Z.quot (lo + hi) 2)) as [e|] eqn:Hlook;
    [|discriminate].
  destruct (Z.eqb_spec (strcmp t (term e)) 0) as [Heq | Hne].
  - intros [= <- <-]. exists e. split; [|auto].
    eapply list_elem_of_lookup_2, Hlook.
  - destruct (strcmp t (term e) <? 0); apply IH.
Qed.

Lemma lexicon_find_entry (idx : IndexData) (t : cstring) (off cnt : Z) :
  lexicon_find idx t = Some (off, cnt) ->
  exists e, e ∈ lexicon idx /\ strcmp t (term e) = 0
            /\ off = postings_offset e /\ cnt = postings_count e.
Proof.
  unfold lexicon_find.
  destruct (lexicon_find_loop _ _ _ _ _) as [[[o c]|]|] eqn:E; try discriminate.
  intros [= <- <-]. eapply lexicon_find_loop_entry, E.
Qed.

Lemma lexicon_find_absent (idx : IndexData) (t : cstring) :
  absent idx t -> lexicon_find idx t = None.
Proof.
  intros Habs. destruct (lexicon_find idx t) as [[off cnt]|] eqn:E; [|reflexivity].
  apply lexicon_find_entry in E as (e & Hin & Hcmp & _).
  destruct (Habs e Hin Hcmp).
Qed.

End lexicon_facts.

(** ** Shunting-Yard and the evaluation loop *)

Section rpn_facts.
Import CLib SearchCli QueryAux.

Lemma pop_operators_above_lparen (t : Token) (out ops base : list Token) :
  pop_operators t out (ops ++ op_token TOK_LPAREN :: base)
  = ((pop_operators t out ops).1,
     (pop_operators t out ops).2 ++ op_token TOK_LPAREN :: base).
Proof.
  revert out. induction ops as [|top ops IH]; intros out; [reflexivity |].
  cbn [app pop_operators].
  destruct (negb (is_operator (type top))); [reflexivity |].
  destruct (_ || _); [apply IH | reflexivity].
Qed.

Lemma pop_to_lparen_app (out ops base o p : list Token) :
  pop_to_lparen out ops = Some (o, p) ->
  pop_to_lparen out (ops ++ base) = Some (o, p ++ base).
Proof.
  revert out. induction ops as [|top ops IH]; intros out; [discriminate |].
  cbn [app pop_to_lparen].
  destruct (bool_decide (type top = TOK_LPAREN)); [|apply IH].
  intros [= <- <-]. reflexivity.
Qed.

Lemma drain_ops_then_lparen (out ops rpn base : list Token) :
  drain_ops out ops = Some rpn ->
  pop_to_lparen out (ops ++ op_token TOK_LPAREN :: base) = Some (rpn, base).
Proof.
  revert out. induction ops as [|top ops IH]; intros out.
  - intros [= <-]. reflexivity.
  - cbn [app pop_to_lparen drain_ops].
    destruct (bool_decide (type top = TOK_LPAREN)); [discriminate |].
    cbn [orb]. destruct (bool_decide (type top = TOK_RPAREN)); [discriminate |].
    apply IH.
Qed.

(** A token stream that parses, wrapped in [!( ... )], parses to the same
    postfix form followed by the negation. *)
Lemma to_rpn_loop_negated (toks out ops rpn : list Token) :
  to_rpn_loop toks out ops = Some rpn ->
  to_rpn_loop (toks ++ [op_token TOK_RPAREN]) out
    (ops ++ [op_token TOK_LPAREN; op_token TOK_NOT])
  = Some (rpn ++ [op_token TOK_NOT]).
Proof.
  revert out ops. induction toks as [|t rest IH]; intros out ops.
  - cbn [app to_rpn_loop]. intros Hdrain.
    change (to_rpn_loop [op_token TOK_RPAREN] out
              (ops ++ [op_token TOK_LPAREN; op_token TOK_NOT]))
      with (match pop_to_lparen out
                    (ops ++ [op_token TOK_LPAREN; op_token TOK_NOT]) with
            | None => None
            | Some (out', ops') => to_rpn_loop [] out' ops'
            end).
    rewrite (drain_ops_then_lparen _ _ _ _ Hdrain).
    reflexivity.
  - cbn [app to_rpn_loop].
    destruct (bool_decide (type t = TOK_TERM)); [apply IH |].
    destruct (is_operator (type t)).
    { rewrite pop_operators_above_lparen.
      destruct (pop_operators t out ops) as [out' ops']. cbn [fst snd].
      apply (IH out' (t :: ops')). }
    destruct (bool_decide (type t = TOK_LPAREN)); [apply (IH out (t :: ops)) |].
    destruct (bool_decide (type t = TOK_RPAREN)); [|apply IH].
    destruct (pop_to_lparen out ops) as [[out' ops']|] eqn:E; [|discriminate].
    rewrite (pop_to_lparen_app _ _ _ _ _ E). apply IH.
Qed.

Lemma to_rpn_negated (toks rpn : list Token) :
  to_rpn toks = Some rpn ->
  to_rpn (op_token TOK_NOT :: op_token TOK_LPAREN
            :: toks ++ [op_token TOK_RPAREN])
  = Some (rpn ++ [op_token TOK_NOT]).
Proof.
  intros H. apply to_rpn_loop_negated in H. exact H.
Qed.

Lemma eval_loop_app (idx : IndexData) (l1 l2 : list Token)
    (st : list PostingList) :
  eval_loop idx (l1 ++ l2) st
  = match eval_loop idx l1 st with
    | None => None
    | Some st' => eval_loop idx l2 st'
    end.
Proof.
  revert st. induction l1 as [|t l1 IH]; intros st; [reflexivity |].
  cbn [app eval_loop].
  repeat match goal with
    | |- context [match ?c with _ => _ end] =>
        lazymatch c with
        | eval_loop _ _ _ => fail
        | _ => destruct c
        end
    end; auto.
Qed.

End rpn_facts.

(** ** The query engine on a well-formed index *)

Section evaluate_facts.
Import CLib SearchCli LexerSpec PostingSpec IndexSpec QueryAux.

Lemma in_universe_nil (idx : IndexData) : in_universe idx [].
Proof. split; [constructor | intros d H; inversion H]. Qed.

Lemma op_not_in_universe (idx : IndexData) (a : list Z) :
  ascending (universe_ids idx) -> in_universe idx (op_not idx a).
Proof.
  intros Hu. split; [apply not_walk_ascending, Hu |].
  intros d. apply not_walk_subseteq.
Qed.

Lemma op_and_in_universe (idx : IndexData) (a b : list Z) :
  in_universe idx a -> in_universe idx (op_and a b).
Proof.
  intros [Ha Hsub]. split; [apply op_and_ascending, Ha |].
  intros d Hd. apply Hsub, (op_and_subseteq a b d Hd).
Qed.

Lemma op_or_in_universe (idx : IndexData) (a b : list Z) :
  in_universe idx a -> in_universe idx b -> in_universe idx (op_or a b).
Proof.
  intros [Ha Hsa] [Hb Hsb]. split; [apply op_or_ascending; assumption |].
  intros d [Hd | Hd]%elem_of_op_or; auto.
Qed.

Lemma eval_loop_in_universe (idx : IndexData) (rpn : list Token)
    (st st' : list PostingList) :
  well_formed idx ->
  Forall (in_universe idx) st ->
  eval_loop idx rpn st = Some st' ->
  Forall (in_universe idx) st'.
Proof.
  intros Hwf. revert st. induction rpn as [|t rest IH]; intros st Hst.
  - intros [= <-]. exact Hst.
  - cbn [eval_loop].
    destruct (bool_decide (type t = TOK_TERM)).
    { destruct (text t) as [txt|]; [|discriminate].
      destruct (lexicon_find idx txt) as [[off cnt]|] eqn:Hfind.
      - destruct (_ >? _); [discriminate |].
        apply IH. constructor; [|exact Hst].
        apply lexicon_find_entry in Hfind as (e & Hin & _ & -> & ->).
        split.
        + apply (postings_ascending idx Hwf e Hin).
        + intros d. apply (postings_in_universe idx Hwf e d Hin).
      - apply IH. constructor; [apply in_universe_nil | exact Hst]. }
    destruct (bool_decide (type t = TOK_NOT)).
    { destruct st as [|a st1]; [discriminate |].
      apply IH. inversion Hst; subst. constructor; [|assumption].
      apply op_not_in_universe, (universe_ascending idx Hwf). }
    destruct (_ || _); [|apply IH, Hst].
    destruct st as [|b [|a st2]]; try discriminate.
    apply IH. inversion Hst as [|? ? Hb Hst1]; subst.
    inversion Hst1 as [|? ? Ha Hst2]; subst.
    constructor; [|assumption].
    destruct (bool_decide (type t = TOK_AND)).
    + apply op_and_in_universe, Ha.
    + apply op_or_in_universe; assumption.
Qed.

Lemma eval_rpn_in_universe (idx : IndexData) (rpn : list Token) (r : list Z) :
  well_formed idx -> eval_rpn idx rpn = Some r -> in_universe idx r.
Proof.
  intros Hwf. unfold eval_rpn.
  destruct (eval_loop idx rpn []) as [[|out [|? ?]]|] eqn:E; try discriminate.
  intros [= <-].
  apply (eval_loop_in_universe idx rpn [] [out] Hwf) in E; [|constructor].
  inversion E; assumption.
Qed.

Lemma eval_rpn_negated (idx : IndexData) (rpn : list Token) (r : list Z) :
  eval_rpn idx rpn = Some r ->
  eval_rpn idx (rpn ++ [op_token TOK_NOT]) = Some (op_not idx r).
Proof.
  unfold eval_rpn. rewrite eval_loop_app.
  destruct (eval_loop idx rpn []) as [[|out [|? ?]]|]; try discriminate.
  intros [= <-]. reflexivity.
Qed.

Lemma with_implicit_and_snoc_rparen (raw : list Token) :
  with_implicit_and (raw ++ [op_token TOK_RPAREN])
  = with_implicit_and raw ++ [op_token TOK_RPAREN].
Proof.
  induction raw as [|prev rest IH]; [reflexivity |].
  cbn [app with_implicit_and]. f_equal.
  destruct rest as [|cur rest'].
  - cbn [app]. unfold needs_and.
    rewrite (bool_decide_eq_false_2 (_ ∈ [TOK_TERM; TOK_LPAREN; TOK_NOT])).
    + rewrite andb_false_r. reflexivity.
    + cbn. rewrite !elem_of_cons. intros [|[|[|H]]]; try discriminate.
      inversion H.
  - cbn [app] in *. rewrite IH, <- app_assoc. reflexivity.
Qed.

Lemma tokenize_raw_not (q : list ascii) :
  tokenize_raw ("!"%char :: q) = op_token TOK_NOT :: tokenize_raw q.
Proof. destruct q; reflexivity. Qed.

Lemma tokenize_raw_lparen (q : list ascii) :
  tokenize_raw ("("%char :: q) = op_token TOK_LPAREN :: tokenize_raw q.
Proof. destruct q; reflexivity. Qed.




Lemma with_implicit_and_negated (raw : list Token) :
  with_implicit_and (op_token TOK_NOT :: op_token TOK_LPAREN :: raw)
  = op_token TOK_NOT :: op_token TOK_LPAREN :: with_implicit_and raw.
Proof. destruct raw; reflexivity. Qed.

Lemma tokenize_query_negated (q : list ascii) :
  tokenize_query (negated q)
  = op_token TOK_NOT :: op_token TOK_LPAREN
      :: tokenize_query q ++ [op_token TOK_RPAREN].
Proof.
  unfold tokenize_query, negated. rewrite !expand_with_implicit_and.
  change (lit "!(" ++ q ++ lit ")") with ("!"%char :: "("%char :: q ++ [")"%char]).
  rewrite tokenize_raw_not, tokenize_raw_lparen, tokenize_raw_snoc_rparen.
  rewrite with_implicit_and_negated, with_implicit_and_snoc_rparen.
  reflexivity.
Qed.

(** The result of [!(q)] is the complement walk of the result of [q],
    for a query [q] that has a token and evaluates. *)
Lemma evaluate_negated (idx : IndexData) (q : list ascii) (r : list Z) :
  tokenize_query q <> [] ->
  evaluate idx q = Some r ->
  evaluate idx (negated q) = Some (op_not idx r).
Proof.
  intros Hne. unfold evaluate. rewrite tokenize_query_negated.
  destruct (tokenize_query q) as [|t toks] eqn:Htok; [congruence |].
  cbn [length Nat.eqb].
  destruct (to_rpn (t :: toks)) as [rpn|] eqn:Hrpn; [|discriminate].
  intros Heval.
  rewrite (to_rpn_negated _ _ Hrpn).
  apply eval_rpn_negated, Heval.
Qed.

Lemma evaluate_in_universe (idx : IndexData) (q : list ascii) (r : list Z) :
  well_formed idx -> evaluate idx q = Some r -> in_universe idx r.
Proof.
  intros Hwf. unfold evaluate.
  destruct (length (tokenize_query q) =? 0)%nat.
  - intros [= <-]. apply in_universe_nil.
  - destruct (to_rpn (tokenize_query q)) as [rpn|]; [|discriminate].
    apply eval_rpn_in_universe, Hwf.
Qed.

Lemma op_not_complement (idx : IndexData) (r : list Z) :
  ascending (universe_ids idx) -> in_universe idx r ->
  (forall d, d ∈ universe_ids idx <-> d ∈ op_not idx r \/ d ∈ r)
  /\ (forall d, ~ (d ∈ op_not idx r /\ d ∈ r)).
Proof.
  intros Hu [Hr Hsub]. unfold op_not. split; intros d.
  - rewrite (elem_of_not_walk _ _ d Hu Hr). split.
    + intros Hd. destruct (decide (d ∈ r)); auto.
    + intros [[Hd _] | Hd]; auto.
  - rewrite (elem_of_not_walk _ _ d Hu Hr). tauto.
Qed.

End evaluate_facts.

(** ** The index of three documents *)

Section example_facts.
Import CLib SearchCli PostingSpec IndexSpec Examples QueryAux.

Lemma ascending_decide (l : list Z) :
  (fix check (l : list Z) : bool :=
     match l with
     | [] => true
     | x :: l' => forallb (Z.ltb x) l' && check l'
     end) l = true ->
  ascending l.
Proof.
  induction l as [|x l IH]; [constructor |].
  intros [Hall Hrest]%andb_prop. apply ascending_cons; [apply IH, Hrest |].
  apply Forall_forall. intros d Hd%list_elem_of_In.
  rewrite forallb_forall in Hall. apply Z.ltb_lt, Hall, Hd.
Qed.

Lemma example_index_well_formed : well_formed example_index.
Proof.
  split.
  - apply ascending_decide. reflexivity.
  - intros e He. cbn in He.
    repeat (apply elem_of_cons in He as [-> | He]);
      [apply ascending_decide; reflexivity .. | inversion He].
  - intros e d He. cbn in He.
    repeat (apply elem_of_cons in He as [-> | He]); [.. | inversion He];
      vm_compute; intros Hd;
      repeat (apply elem_of_cons in Hd as [-> | Hd]);
      try (inversion Hd; fail);
      repeat ((left; reflexivity) || right).
Qed.

End example_facts.

(** ** Negation is the exact complement *)

Section negation_claims.
Import CLib SearchCli PostingSpec IndexSpec QuerySpec Examples QueryAux.

(** C1 (as stated).  The empty query is evaluated, to the empty list,
    but [!()] does not evaluate: the two results do not make up the
    universe.  The index is well formed. *)
Lemma not_is_complement_fails_on_empty_query :
  well_formed example_index
  /\ evaluate example_index [] = Some []
  /\ evaluate example_index (negated []) = None
  /\ ~ not_is_complement example_index [].
Proof.
  split; [apply example_index_well_formed |].
  split; [reflexivity |]. split; [reflexivity |].
  intros H. destruct (H [] eq_refl) as (r' & Hr' & _).
  vm_compute in Hr'. discriminate.
Qed.

(** C1 (amended).  On an index that satisfies the invariants of the data
    model, for every query [q] that has at least one token and that the
    engine evaluates, [!(q)] evaluates too, the union of the two results
    is the universe and the two results are disjoint. *)
Theorem not_is_exact_complement (idx : IndexData) (q : list ascii) :
  well_formed idx ->
  tokenize_query q <> [] ->
  not_is_complement idx q.
Proof.
  intros Hwf Hne r Hr. exists (op_not idx r).
  split; [apply evaluate_negated; assumption |].
  apply op_not_complement.
  - apply (universe_ascending idx Hwf).
  - apply (evaluate_in_universe idx q r Hwf Hr).
Qed.

Lemma not_is_exact_complement_witness :
  well_formed example_index
  /\ tokenize_query (lit "fox && !brown") <> []
  /\ evaluate example_index (lit "fox && !brown") = Some [2; 3]
  /\ evaluate example_index (negated (lit "fox && !brown")) = Some [1]
  /\ not_is_complement example_index (lit "fox && !brown").
Proof.
  split; [apply example_index_well_formed |].
  split; [vm_compute; discriminate |].
  split; [vm_compute; reflexivity |]. split; [vm_compute; reflexivity |].
  apply (not_is_exact_complement example_index (lit "fox && !brown")).
  - apply example_index_well_formed.
  - vm_compute. discriminate.
Defined.

End negation_claims.

(** ** De Morgan *)

Section de_morgan_claim.
Import CLib SearchCli PostingSpec IndexSpec QuerySpec Examples QueryAux.

Lemma eval_loop_term_token (idx : IndexData) (run : list ascii)
    (rest : list Token) (st : list PostingList) :
  eval_loop idx (term_token run :: rest) st
  = match term_postings idx (stem_term_inplace (map tolower run)) with
    | None => None
    | Some pl => eval_loop idx rest (pl :: st)
    end.
Proof.
  unfold term_postings. cbn [eval_loop term_token type text].
  rewrite bool_decide_eq_true_2 by reflexivity.
  destruct (lexicon_find idx _) as [[off cnt]|]; [|reflexivity].
  destruct (_ >? _); reflexivity.
Qed.







End de_morgan_claim.

(** ** Queries whose terms are all absent *)

Section absent_terms_facts.
Import CLib SearchCli IndexSpec OutputSpec QueryAux.

Variable P : Token -> Prop.

Lemma pop_operators_Forall (t : Token) (out ops : list Token) :
  Forall P out -> Forall P ops ->
  Forall P (pop_operators t out ops).1 /\ Forall P (pop_operators t out ops).2.
Proof.
  revert out. induction ops as [|top ops IH]; intros out Hout Hops; [auto |].
  cbn [pop_operators]. inversion Hops; subst.
  destruct (negb _); [auto |]. destruct (_ || _); [|auto].
  apply IH; [|assumption]. apply Forall_app. auto.
Qed.

Lemma pop_to_lparen_Forall (out ops o p : list Token) :
  Forall P out -> Forall P ops -> pop_to_lparen out ops = Some (o, p) ->
  Forall P o /\ Forall P p.
Proof.
  revert out. induction ops as [|top ops IH]; intros out Hout Hops; [discriminate |].
  cbn [pop_to_lparen]. inversion Hops; subst.
  destruct (bool_decide _); [intros [= <- <-]; auto |].
  apply IH; [|assumption]. apply Forall_app. auto.
Qed.

Lemma drain_ops_Forall (out ops rpn : list Token) :
  Forall P out -> Forall P ops -> drain_ops out ops = Some rpn -> Forall P rpn.
Proof.
  revert out. induction ops as [|top ops IH]; intros out Hout Hops.
  - intros [= <-]. exact Hout.
  - cbn [drain_ops]. inversion Hops; subst.
    destruct (_ || _); [discriminate |].
    apply IH; [|assumption]. apply Forall_app. auto.
Qed.

(** The postfix form holds tokens of the infix stream only. *)
Lemma to_rpn_loop_Forall (toks out ops rpn : list Token) :
  Forall P toks -> Forall P out -> Forall P ops ->
  to_rpn_loop toks out ops = Some rpn -> Forall P rpn.
Proof.
  revert out ops. induction toks as [|t rest IH]; intros out ops Htoks Hout Hops.
  - apply drain_ops_Forall; assumption.
  - cbn [to_rpn_loop]. inversion Htoks; subst.
    destruct (bool_decide (type t = TOK_TERM)).
    { apply IH; [assumption | apply Forall_app; auto | assumption]. }
    destruct (is_operator (type t)).
    { destruct (pop_operators_Forall t out ops Hout Hops) as [Hpo1 Hpo2].
      destruct (pop_operators t out ops) as [out' ops']. cbn [fst snd] in *.
      apply IH; auto. }
    destruct (bool_decide (type t = TOK_LPAREN)); [apply IH; auto |].
    destruct (bool_decide (type t = TOK_RPAREN)); [|apply IH; auto].
    destruct (pop_to_lparen out ops) as [[out' ops']|] eqn:E; [|discriminate].
    destruct (pop_to_lparen_Forall _ _ _ _ Hout Hops E).
    apply IH; auto.
Qed.

End absent_terms_facts.

Section absent_terms_claim.
Import CLib SearchCli IndexSpec OutputSpec Examples QueryAux.

Lemma eval_loop_all_empty (idx : IndexData) (rpn : list Token)
    (st st' : list PostingList) :
  Forall (absent_or_operator idx) rpn ->
  Forall (fun pl => pl = []) st ->
  eval_loop idx rpn st = Some st' ->
  Forall (fun pl => pl = []) st'.
Proof.
  revert st. induction rpn as [|t rest IH]; intros st Hrpn Hst.
  - intros [= <-]. exact Hst.
  - inversion Hrpn as [|? ? [Hnot Habs] Hrest]; subst. cbn [eval_loop].
    destruct (bool_decide_reflect (type t = TOK_TERM)) as [Hterm | _].
    { destruct (text t) as [txt|]; [|discriminate].
      rewrite (lexicon_find_absent idx txt (Habs Hterm txt eq_refl)).
      apply IH; [assumption | constructor; auto]. }
    destruct (bool_decide_reflect (type t = TOK_NOT)) as [? | _]; [contradiction |].
    destruct (_ || _); [|apply IH; assumption].
    destruct st as [|b [|a st2]]; try discriminate.
    inversion Hst as [|? ? -> Hst1]; subst.
    inversion Hst1 as [|? ? -> Hst2]; subst.
    apply IH; [assumption |]. constructor; [|assumption].
    destruct (bool_decide _); reflexivity.
Qed.

Lemma print_results_nil (idx : IndexData) (offset limit : Z) :
  0 <= offset -> print_results idx [] offset limit = [TOTAL 0].
Proof.
  intros Hoff. unfold print_results. cbn [length].
  change (Z.of_nat 0) with 0.
  destruct (Z.geb_spec offset 0); [reflexivity | lia].
Qed.

(** What [run_single_query] prints is the presentation of the list that
    [evaluate] returns. *)
Lemma run_single_query_evaluate (idx : IndexData) (q : list ascii)
    (offset limit : Z) :
  0 <= offset ->
  run_single_query idx q offset limit
  = option_map (fun r => print_results idx r offset limit) (evaluate idx q).
Proof.
  intros Hoff. unfold run_single_query, evaluate.
  destruct (length (tokenize_query q) =? 0)%nat.
  - cbn [option_map]. rewrite print_results_nil by exact Hoff. reflexivity.
  - destruct (to_rpn (tokenize_query q)) as [rpn|]; [|reflexivity].
    destruct (eval_rpn idx rpn); reflexivity.
Qed.

(** C8 (as stated).  The term of [!zebra] is absent from the lexicon, but
    the query prints the whole universe; the term of [zebra &&] is absent
    too, but the query is rejected and nothing is printed. *)
Lemma absent_terms_may_print_documents :
  terms_absent example_index (lit "!zebra")
  /\ run_single_query example_index (lit "!zebra") 0 50
     = Some [TOTAL 3; DOC 1 (lit "Alpha") (lit "http://u/1");
             DOC 2 (lit "Bravo") (lit "http://u/2");
             DOC 3 (lit "Charlie") (lit "http://u/3")]
  /\ ~ prints_total_zero example_index (lit "!zebra") 0 50
  /\ terms_absent example_index (lit "zebra &&")
  /\ ~ prints_total_zero example_index (lit "zebra &&") 0 50.
Proof.
  assert (Hzebra : absent example_index (lit "zebra")).
  { intros e He. cbn in He.
    repeat (apply elem_of_cons in He as [-> | He]);
      [vm_compute; discriminate .. | inversion He]. }
  assert (Habs : forall q, Forall (fun tok => text tok = None
                                   \/ text tok = Some (lit "zebra"))
                      (tokenize_query q) ->
                 terms_absent example_index q).
  { intros q Hall tok txt Hin _ Htxt. rewrite Forall_forall in Hall.
    destruct (Hall tok Hin) as [H | H]; rewrite H in Htxt; [discriminate |].
    injection Htxt as <-. exact Hzebra. }
  split; [|split; [|split; [|split]]].
  - apply Habs. vm_compute.
    repeat (constructor; [first [left; reflexivity | right; reflexivity] |]).
    constructor.
  - vm_compute. reflexivity.
  - vm_compute. intros H. discriminate H.
  - apply Habs. vm_compute.
    repeat (constructor; [first [left; reflexivity | right; reflexivity] |]).
    constructor.
  - vm_compute. intros H. discriminate H.
Qed.

(** C8 (amended).  For every query without a NOT token in which every
    TERM token is absent from the lexicon, if the engine evaluates the
    query then its output is exactly the header line [TOTAL] with
    count 0: the bytes [TOTAL\t0\n], and no DOC line. *)
Theorem absent_terms_print_total_zero (idx : IndexData) (q : list ascii)
    (offset limit : Z) (out : list OutLine) :
  0 <= offset ->
  terms_absent idx q ->
  no_negation q ->
  run_single_query idx q offset limit = Some out ->
  out = [TOTAL 0]
  /\ flat_map render out = lit "TOTAL" ++ [tab] ++ lit "0" ++ [newline].
Proof.
  intros Hoff Habs Hnoneg Hrun.
  assert (out = [TOTAL 0]) as ->; [|split; reflexivity].
  revert Hrun. unfold run_single_query.
  destruct (length (tokenize_query q) =? 0)%nat; [congruence |].
  destruct (to_rpn (tokenize_query q)) as [rpn|] eqn:Hrpn; [|discriminate].
  destruct (eval_rpn idx rpn) as [result|] eqn:Heval; [|discriminate].
  intros [= <-].
  assert (Htoks : Forall (absent_or_operator idx) (tokenize_query q)).
  { apply Forall_forall. intros tok Hin. split; [apply Hnoneg, Hin |].
    intros Hterm txt Htxt. apply (Habs tok txt Hin Hterm Htxt). }
  assert (Hall : Forall (absent_or_operator idx) rpn).
  { apply (to_rpn_loop_Forall _ (tokenize_query q) [] [] rpn); auto. }
  unfold eval_rpn in Heval.
  destruct (eval_loop idx rpn []) as [[|r [|? ?]]|] eqn:Hloop; try discriminate.
  injection Heval as <-.
  apply (eval_loop_all_empty idx rpn [] [r] Hall) in Hloop; [|constructor].
  inversion Hloop; subst. apply print_results_nil, Hoff.
Qed.

End absent_terms_claim.

Section absent_terms_witness.
Import CLib SearchCli IndexSpec OutputSpec Examples QueryAux.

Lemma terms_absentb_sound (idx : IndexData) (q : list ascii) :
  terms_absentb idx q = true -> terms_absent idx q.
Proof.
  unfold terms_absentb. rewrite forallb_forall.
  intros H tok txt Hin%list_elem_of_In _ Htxt e He%list_elem_of_In.
  specialize (H tok Hin). rewrite Htxt, forallb_forall in H.
  specialize (H e He). apply negb_true_iff, Z.eqb_neq in H. exact H.
Qed.

Lemma no_negation_sound (q : list ascii) :
  forallb (fun tok => negb (bool_decide (type tok = TOK_NOT))) (tokenize_query q)
  = true ->
  no_negation q.
Proof.
  rewrite forallb_forall. intros H tok Hin%list_elem_of_In.
  specialize (H tok Hin). apply negb_true_iff, bool_decide_eq_false in H.
  exact H.
Qed.

Lemma absent_terms_print_total_zero_witness :
  0 <= 0
  /\ terms_absent example_index (lit "zebra || (unicorn gnus)")
  /\ no_negation (lit "zebra || (unicorn gnus)")
  /\ run_single_query example_index (lit "zebra || (unicorn gnus)") 0 50
     = Some [TOTAL 0]
  /\ flat_map render [TOTAL 0] = lit "TOTAL" ++ [tab] ++ lit "0" ++ [newline].
Proof.
  assert (H1 : terms_absent example_index (lit "zebra || (unicorn gnus)"))
    by (apply terms_absentb_sound; vm_compute; reflexivity).
  assert (H2 : no_negation (lit "zebra || (unicorn gnus)"))
    by (apply no_negation_sound; vm_compute; reflexivity).
  assert (H3 : run_single_query example_index (lit "zebra || (unicorn gnus)") 0 50
               = Some [TOTAL 0]) by (vm_compute; reflexivity).
  split; [lia |]. split; [exact H1 |]. split; [exact H2 |]. split; [exact H3 |].
  apply (absent_terms_print_total_zero example_index
           (lit "zebra || (unicorn gnus)") 0 50 [TOTAL 0]); [lia | | | ];
    assumption.
Defined.

End absent_terms_witness.

(** ** Result presentation *)

Section print_results_claim.
Import CLib SearchCli OutputSpec Examples QueryAux.

Lemma doc_lines_window (idx : IndexData) (res : list Z) (k : nat) (i : Z) :
  0 <= i -> (Z.to_nat i + k <= length res)%nat ->
  doc_lines idx res k i
  = map (doc_line idx) (take k (drop (Z.to_nat i) res)).
Proof.
  revert i. induction k as [|k IH]; intros i Hi Hlen; [reflexivity |].
  cbn [doc_lines].
  destruct (res !! Z.to_nat i) as [x|] eqn:Hx;
    [|apply lookup_ge_None in Hx; lia].
  rewrite (drop_S _ _ _ Hx). cbn [take map default]. f_equal.
  rewrite IH by lia. do 3 f_equal. lia.
Qed.

(** Without a wrap of [offset + limit], the lines printed are the header
    and one DOC line for each result of the window. *)
Lemma print_results_window (idx : IndexData) (res : list Z) (offset limit : Z) :
  0 <= offset -> 0 <= limit -> offset + limit < 2 ^ 32 ->
  print_results idx res offset limit
  = TOTAL (Z.of_nat (length res))
      :: map (doc_line idx) (window res offset limit).
Proof.
  intros Hoff Hlim Hsum. unfold print_results, window. f_equal.
  destruct (Z.geb_spec offset (Z.of_nat (length res))) as [Hge | Hlt].
  - rewrite drop_ge by lia. rewrite take_nil. reflexivity.
  - unfold wrap32. rewrite Z.mod_small by lia.
    rewrite doc_lines_window.
    + f_equal. destruct (Z.gtb_spec (offset + limit) (Z.of_nat (length res))).
      * rewrite !take_ge by (rewrite length_drop; lia). reflexivity.
      * f_equal. lia.
    + exact Hoff.
    + destruct (Z.gtb_spec (offset + limit) (Z.of_nat (length res))); lia.
Qed.

(** C9 (failing input).  With three results, [offset = 1] and
    [limit = 4294967295], the sum [offset + limit] wraps to 0 and no DOC
    line is printed, while the window [1, min (offset + limit, 3)) holds
    the results at positions 1 and 2. *)
Theorem print_results_limit_wraps :
  print_results example_index [1; 2; 3] 1 4294967295 = [TOTAL 3]
  /\ window [1; 2; 3] 1 4294967295 = [2; 3]
  /\ print_results example_index [1; 2; 3] 1 2
     = [TOTAL 3; DOC 2 (lit "Bravo") (lit "http://u/2");
        DOC 3 (lit "Charlie") (lit "http://u/3")].
Proof. repeat split; vm_compute; reflexivity. Qed.

End print_results_claim.

(** ** The index builder: the tokens of a line *)

Section index_body_facts.
Import CLib IndexBuilder LineSpec BuilderSpec BuilderAux.

Lemma index_body_cons (tb : Table) (capacity : nat) (id : Z) (c : ascii)
    (p : list ascii) :
  index_body tb capacity id (c :: p)
  = if isspace c then index_body tb capacity id p
    else index_scan tb capacity id [c] p.
Proof. destruct p; reflexivity. Qed.

Lemma index_body_scan_tokens (capacity : nat) (id : Z) (n : nat) :
  (forall q tb, (length q <= n)%nat ->
     index_body tb capacity id q = add_tokens tb capacity id (split_runs [] q))
  /\ (forall q tb start, (length q <= n)%nat -> start <> [] ->
       index_scan tb capacity id start q
       = add_tokens tb capacity id (split_runs start q)).
Proof.
  induction n as [|n [IHbody IHscan]].
  - split.
    + intros [|? ?] tb Hlen; [reflexivity | simpl in Hlen; lia].
    + intros [|? ?] tb start Hlen Hne; [|simpl in Hlen; lia].
      cbn [split_runs]. unfold index_scan.
      rewrite bool_decide_eq_false_2 by assumption. cbn [add_tokens].
      destruct (add_term_doc _ _ _ _); reflexivity.
  - split.
    + intros [|c p] tb Hlen; [reflexivity |]. cbn [length] in Hlen.
      rewrite index_body_cons. cbn [split_runs].
      destruct (isspace c).
      * apply IHbody. lia.
      * apply IHscan; [lia | discriminate].
    + intros [|d q] tb start Hlen Hne; cbn [split_runs].
      * unfold index_scan.
        rewrite bool_decide_eq_false_2 by assumption. cbn [add_tokens].
        destruct (add_term_doc _ _ _ _); reflexivity.
      * cbn [length] in Hlen.
        change (index_scan tb capacity id start (d :: q))
          with (if isspace d then
                  match add_term_doc tb capacity start id with
                  | None => None
                  | Some tb' => index_body tb' capacity id (d :: q)
                  end
                else index_scan tb capacity id (start ++ [d]) q).
        destruct (isspace d) eqn:Hd.
        -- rewrite bool_decide_eq_false_2 by assumption.
           cbn [app add_tokens].
           destruct (add_term_doc tb capacity start id) as [tb'|]; [|reflexivity].
           rewrite index_body_cons, Hd. apply IHbody. lia.
        -- apply IHscan; [lia |]. destruct start; discriminate.
Qed.

(** The builder adds every token of the line, in order. *)
Lemma index_body_tokens (tb : Table) (capacity : nat) (id : Z)
    (p : list ascii) :
  index_body tb capacity id p = add_tokens tb capacity id (body_tokens p).
Proof. apply (index_body_scan_tokens capacity id (length p)). lia. Qed.

End index_body_facts.

(** ** The index builder: posting lists *)

Section posting_invariant.
Import CLib IndexBuilder PostingSpec LineSpec BuilderSpec BuilderAux.

Lemma entry_ok_mono (cur cur' : Z) (e : TermEntry) :
  cur <= cur' -> entry_ok cur e -> entry_ok cur' e.
Proof. intros Hle (H1 & H2 & H3). repeat split; auto. intros H. specialize (H3 H). lia. Qed.

Lemma ascending_snoc (l : list Z) (d : Z) :
  ascending l -> Forall (fun x => x < d) l -> ascending (l ++ [d]).
Proof.
  induction l as [|x l IH]; intros Hl Hall; cbn [app].
  - repeat constructor.
  - apply ascending_cons_inv in Hl as [Hl Hx]. inversion Hall; subst.
    apply ascending_cons; [auto |].
    apply Forall_app. split; [exact Hx | repeat constructor; assumption].
Qed.

Lemma grow_cap_returns (fuel : nat) (new_cap need : Z) :
  0 < new_cap -> 2 ^ 31 <= new_cap * 2 ^ Z.of_nat fuel ->
  grow_cap (S fuel) new_cap need <> None.
Proof.
  revert new_cap. induction fuel as [|fuel IH]; intros new_cap Hpos Hbig;
    cbn [grow_cap].
  - destruct (new_cap <? need); [|discriminate].
    destruct (Z.gtb_spec new_cap 2147483647); [discriminate | lia].
  - destruct (new_cap <? need); [|discriminate].
    destruct (Z.gtb_spec new_cap 2147483647) as [|Hle]; [discriminate |].
    unfold wrap32. rewrite Z.mod_small by lia.
    apply IH; [lia |].
    rewrite Nat2Z.inj_succ, Z.pow_succ_r in Hbig by lia. lia.
Qed.

(** The doubling loop of [ensure_postings_cap] ends within its fuel, for
    every capacity that an unsigned 32-bit field can hold. *)
Lemma ensure_postings_cap_returns (e : TermEntry) (need : Z) :
  0 <= postings_cap e ->
  grow_cap 33 (if postings_cap e =? 0 then 8 else postings_cap e) need <> None.
Proof.
  intros Hcap. apply (grow_cap_returns 32).
  - destruct (Z.eqb_spec (postings_cap e) 0); lia.
  - change (2 ^ Z.of_nat 32) with (2 * 2 ^ 31).
    destruct (Z.eqb_spec (postings_cap e) 0); lia.
Qed.

Lemma ensure_postings_cap_fields (e e' : TermEntry) (need : Z) :
  ensure_postings_cap e need = Some e' ->
  term e' = term e /\ postings e' = postings e
  /\ last_doc_id e' = last_doc_id e /\ used e' = used e.
Proof.
  unfold ensure_postings_cap.
  destruct (_ >=? _); [intros [= <-]; auto |].
  destruct (grow_cap _ _ _) as [[cap|]|]; try discriminate.
  intros [= <-]. auto.
Qed.

Lemma push_doc_ok (cur d : Z) (e : TermEntry) :
  entry_ok cur e -> cur <= d ->
  postings e = [] \/ last_doc_id e <> d ->
  entry_ok d (push_doc e d).
Proof.
  intros (Hasc & Hbound & Hlast) Hle Hnew.
  unfold entry_ok, push_doc. cbn [postings last_doc_id].
  split; [|split].
  - apply ascending_snoc; [exact Hasc |].
    destruct (postings e) as [|x l] eqn:E; [constructor |].
    assert (last_doc_id e <= cur) by (apply Hlast; discriminate).
    assert (last_doc_id e <> d) by (destruct Hnew; [discriminate | assumption]).
    eapply Forall_impl; [exact Hbound |]. cbn. intros. lia.
  - apply Forall_app. split; [|repeat constructor; lia].
    destruct (postings e) as [|x l] eqn:E; [constructor |].
    assert (last_doc_id e <= cur) by (apply Hlast; discriminate).
    eapply Forall_impl; [exact Hbound |]. cbn. intros. lia.
  - intros _. lia.
Qed.

Lemma record_doc_ok (cur d : Z) (tb tb' : Table) (i : nat) (e : TermEntry) :
  Forall (entry_ok cur) (slots tb) -> entry_ok cur e -> cur <= d ->
  record_doc tb i e d = Some tb' ->
  Forall (entry_ok d) (slots tb').
Proof.
  intros Hall He Hle. unfold record_doc.
  assert (Hall' : Forall (entry_ok d) (slots tb))
    by (eapply Forall_impl; [exact Hall | intros ?; apply entry_ok_mono, Hle]).
  destruct (_ || _) eqn:Hcond.
  - destruct (ensure_postings_cap e _) as [e'|] eqn:Hcap; [|discriminate].
    intros [= <-]. cbn [slots]. apply Forall_insert; [exact Hall' |].
    apply ensure_postings_cap_fields in Hcap as (_ & Hp & Hl & _).
    apply (push_doc_ok cur).
    + unfold entry_ok. rewrite Hp, Hl. exact He.
    + exact Hle.
    + rewrite Hp, Hl. apply orb_prop in Hcond as [Hc | Hc].
      * left. apply Z.eqb_eq in Hc. unfold postings_count in Hc.
        destruct (postings e); [reflexivity | simpl in Hc; lia].
      * right. apply negb_true_iff, Z.eqb_neq in Hc. exact Hc.
  - intros [= <-]. cbn [slots]. apply Forall_insert; [exact Hall' |].
    apply (entry_ok_mono cur); assumption.
Qed.

Lemma add_term_doc_loop_ok (cur d : Z) (steps : nat) (tb tb' : Table)
    (capacity : nat) (t : cstring) (idx : nat) :
  Forall (entry_ok cur) (slots tb) -> cur <= d ->
  add_term_doc_loop steps tb capacity t d idx = Some tb' ->
  Forall (entry_ok d) (slots tb').
Proof.
  intros Hall Hle. revert idx.
  induction steps as [|steps IH]; intros idx; [discriminate |].
  cbn [add_term_doc_loop].
  destruct (slots tb !! idx) as [e|] eqn:Hlook; [|discriminate].
  destruct (negb (used e)).
  - apply (record_doc_ok cur); [exact Hall | | exact Hle].
    repeat split; cbn; [constructor | constructor | congruence].
  - destruct (negb _); [apply IH |].
    apply (record_doc_ok cur); [exact Hall | | exact Hle].
    rewrite Forall_forall in Hall. apply Hall.
    eapply list_elem_of_lookup_2, Hlook.
Qed.

Lemma add_tokens_ok (cur d : Z) (tokens : list cstring) (tb tb' : Table)
    (capacity : nat) :
  Forall (entry_ok cur) (slots tb) -> cur <= d ->
  add_tokens tb capacity d tokens = Some tb' ->
  Forall (entry_ok d) (slots tb').
Proof.
  revert cur tb. induction tokens as [|t rest IH]; intros cur tb Hall Hle.
  - intros [= <-]. eapply Forall_impl; [exact Hall |].
    intros ?. apply entry_ok_mono, Hle.
  - cbn [add_tokens].
    destruct (add_term_doc tb capacity t d) as [tb1|] eqn:Hadd; [|discriminate].
    apply (IH d tb1); [|lia].
    apply (add_term_doc_loop_ok cur d _ tb tb1 _ _ _ Hall Hle Hadd).
Qed.

Lemma index_lines_ok (cur : Z) (lines : list Line) (tb tb' : Table)
    (capacity : nat) :
  Forall (entry_ok cur) (slots tb) ->
  Sorted Z.le (cur :: map doc_id lines) ->
  index_lines tb capacity lines = Some tb' ->
  exists cur', Forall (entry_ok cur') (slots tb').
Proof.
  revert cur tb. induction lines as [|l rest IH]; intros cur tb Hall Hsorted.
  - intros [= <-]. exists cur. exact Hall.
  - cbn [index_lines map] in *.
    apply Sorted_inv in Hsorted as [Hsorted Hhd].
    apply HdRel_inv in Hhd.
    rewrite index_body_tokens.
    destruct (add_tokens tb capacity (doc_id l) _) as [tb1|] eqn:Hadd;
      [|discriminate].
    apply (IH (doc_id l) tb1); [|exact Hsorted].
    apply (add_tokens_ok cur _ _ tb tb1 _ Hall Hhd Hadd).
Qed.

(** After the scan of a stream in ascending doc_id order, the posting
    list of every slot is strictly ascending. *)
Lemma build_table_ascending (capacity : nat) (lines : list Line) (tb : Table) :
  doc_ids_ascending lines ->
  build_table capacity lines = Some tb ->
  Forall (fun e => ascending (postings e)) (slots tb).
Proof.
  intros Hsorted Hbuild. unfold build_table in Hbuild.
  assert (Hinit : forall cur,
            Forall (entry_ok cur) (replicate capacity zero_entry)).
  { intros cur. apply Forall_replicate.
    repeat split; cbn; [constructor | constructor | congruence]. }
  assert (exists cur, Forall (entry_ok cur) (slots tb)) as [cur Hok].
  { destruct lines as [|l rest].
    - injection Hbuild as <-. exists 0. apply Hinit.
    - apply (index_lines_ok (doc_id l) (l :: rest)
               {| slots := replicate capacity zero_entry; used_terms := 0 |}
               tb capacity (Hinit _)); [|exact Hbuild].
      constructor; [exact Hsorted | constructor; cbn; lia]. }
  eapply Forall_impl; [exact Hok |]. intros e (H & _). exact H.
Qed.

End posting_invariant.

(** ** The index builder: the files written *)

Section written_files.
Import CLib IndexBuilder PostingSpec LineSpec BuilderSpec BuilderAux.

Lemma qsort_insert_perm {A} (cmp : A -> A -> Z) (x : A) (l : list A) :
  Permutation (qsort_insert cmp x l) (x :: l).
Proof.
  induction l as [|y l IH]; cbn [qsort_insert]; [reflexivity |].
  destruct (_ <=? _); [reflexivity |].
  rewrite IH. apply perm_swap.
Qed.

Lemma qsort_perm {A} (cmp : A -> A -> Z) (l : list A) :
  Permutation (qsort cmp l) l.
Proof.
  induction l as [|x l IH]; cbn [qsort]; [reflexivity |].
  rewrite qsort_insert_perm, IH. reflexivity.
Qed.

Lemma sorted_terms_slots (tb : Table) (e : TermEntry) :
  e ∈ sorted_terms tb -> e ∈ slots tb /\ used e = true.
Proof.
  unfold sorted_terms. rewrite (qsort_perm cmp_term_ptrs _).
  intros (i & Hi & _)%elem_of_take.
  apply list_elem_of_lookup_2, list_elem_of_filter in Hi as [Hu He]. auto.
Qed.

Lemma write_postings_spec (sorted : list TermEntry) (offset : Z) :
  0 <= offset ->
  offset + 4 * Z.of_nat (length (write_postings sorted offset).2) < 2 ^ 64 ->
  Forall2 (written_at offset (write_postings sorted offset).2)
    sorted (write_postings sorted offset).1.
Proof.
  revert offset. induction sorted as [|e rest IH]; intros offset Hoff Hfit.
  - constructor.
  - cbn [write_postings] in *.
    set (offset' := if postings_count e >? 0
                    then wrap64 (offset + postings_count e * 4) else offset) in *.
    destruct (write_postings rest offset') as [es ids] eqn:Hrest.
    cbn [fst snd] in *. rewrite length_app in Hfit.
    assert (Hoff' : offset' = offset + 4 * Z.of_nat (length (postings e))).
    { subst offset'. unfold postings_count, wrap64.
      destruct (Z.gtb_spec (Z.of_nat (length (postings e))) 0); [|lia].
      rewrite Z.land_ones, Z.mod_small; lia. }
    specialize (IH offset'). rewrite Hrest in IH. cbn [fst snd] in IH.
    constructor.
    + split; [reflexivity |]. split; [reflexivity |]. exists 0%nat.
      cbn [postings_offset_bytes postings]. split; [lia |].
      rewrite drop_0, take_app_length. reflexivity.
    + eapply Forall2_impl; [apply IH; lia |].
      intros a a' (Ht & Hp & k & Hk & Htake). split; [exact Ht |].
      split; [exact Hp |]. exists (length (postings e) + k)%nat.
      split; [lia |]. rewrite drop_app_add. exact Htake.
Qed.

Lemma region_of_written (ids : list Z) (e e' : TermEntry) :
  written_at 0 ids e e' ->
  let pf := {| postings_magic := 0x504F5354; postings_version := 1;
               total_postings := wrap64 (Z.of_nat (length ids));
               posting_ids := ids |} in
  region pf (lexicon_record e') = postings e.
Proof.
  intros (_ & Hp & k & Hk & Htake). cbn zeta.
  unfold region, lexicon_record.
  cbn [lex_postings_count lex_postings_offset_bytes posting_ids].
  unfold postings_count. rewrite Hp, Hk, Nat2Z.id.
  replace (Z.to_nat ((0 + 4 * Z.of_nat k) / 4)) with k; [exact Htake |].
  rewrite Z.add_0_l, Z.mul_comm, Z.div_mul by lia. lia.
Qed.

(** C4. When the document lines arrive in ascending doc_id order, every
    posting list that the builder constructs is strictly ascending (and
    so without duplicates), and so is every per-term region of
    [postings.bin] that a record of [lexicon.bin] designates (the
    postings written take less than [2^64] bytes). *)
Theorem posting_lists_strictly_ascending (capacity : nat)
    (lines : list Line) (tb : Table) :
  doc_ids_ascending lines ->
  build_table capacity lines = Some tb ->
  4 * Z.of_nat (length (posting_ids (write_index tb).1)) < 2 ^ 64 ->
  Forall (fun e => ascending (postings e)) (slots tb)
  /\ Forall (fun r => ascending (region (write_index tb).1 r))
       (lexicon_records (write_index tb).2).
Proof.
  intros Hsorted Hbuild Hfit.
  pose proof (build_table_ascending capacity lines tb Hsorted Hbuild) as Hall.
  split; [exact Hall |].
  unfold write_index in *.
  pose proof (write_postings_spec (sorted_terms tb) 0) as Hspec.
  destruct (write_postings (sorted_terms tb) 0) as [es ids] eqn:Hw.
  cbn [fst snd posting_ids lexicon_records] in *.
  specialize (Hspec ltac:(lia) ltac:(lia)).
  apply List.Forall_map.
  assert (Hin : Forall (fun e => ascending (postings e)) (sorted_terms tb)).
  { apply Forall_forall. intros e [He _]%sorted_terms_slots.
    rewrite Forall_forall in Hall. auto. }
  clear Hw Hfit. induction Hspec as [|e e' l l' Hw Hrest IH]; [constructor |].
  inversion Hin; subst. constructor; [|auto].
  rewrite (region_of_written ids e e' Hw). assumption.
Qed.

End written_files.

(** ** Byte-wise order and [strcmp] *)

Section strcmp_facts.
Import CLib LexiconSpec.

Lemma uchar_nonneg (c : ascii) : 0 <= uchar c.
Proof. unfold uchar. lia. Qed.

Lemma uchar_inj (x y : ascii) : uchar x = uchar y -> x = y.
Proof.
  unfold uchar. intros H. apply N2Z.inj in H.
  rewrite <- (ascii_N_embedding x), <- (ascii_N_embedding y), H. reflexivity.
Qed.

Lemma uchar_nul (c : ascii) : c <> Ascii.zero -> 0 < uchar c.
Proof.
  intros Hc. pose proof (uchar_nonneg c).
  destruct (Z.eq_dec (uchar c) 0) as [H0 | ?]; [|lia].
  exfalso. apply Hc, uchar_inj. rewrite H0. reflexivity.
Qed.

Lemma strcmp_refl (a : cstring) : strcmp a a = 0.
Proof.
  induction a as [|x a IH]; [reflexivity |]. cbn [strcmp].
  rewrite Z.eqb_refl. exact IH.
Qed.

Lemma strcmp_antisym (a b : cstring) : strcmp b a = - strcmp a b.
Proof.
  revert b. induction a as [|x a IH]; intros [|y b]; cbn [strcmp]; try lia.
  rewrite (Z.eqb_sym (uchar y)). destruct (_ =? _); [apply IH | lia].
Qed.

(** On C strings, the sign of [strcmp] is the byte-wise lexicographic
    comparison. *)
Lemma strcmp_sign (a b : cstring) :
  nul_free a -> nul_free b -> (strcmp a b ?= 0) = bytes_compare a b.
Proof.
  revert b. induction a as [|x a IH]; intros [|y b] Ha Hb;
    cbn [strcmp bytes_compare].
  - reflexivity.
  - inversion Hb; subst. apply Z.compare_lt_iff.
    assert (0 < uchar y) by (apply uchar_nul; assumption). lia.
  - inversion Ha; subst. apply Z.compare_gt_iff.
    assert (0 < uchar x) by (apply uchar_nul; assumption). lia.
  - inversion Ha; inversion Hb; subst.
    destruct (Z.eqb_spec (uchar x) (uchar y)) as [Heq | Hne].
    + rewrite Heq, Z.compare_refl. auto.
    + destruct (Z.compare_spec (uchar x) (uchar y)) as [? | Hlt | Hgt]; [lia | |].
      * apply Z.compare_lt_iff. lia.
      * apply Z.compare_gt_iff. lia.
Qed.

Lemma bytes_compare_eq (a b : list ascii) : bytes_compare a b = Eq -> a = b.
Proof.
  revert b. induction a as [|x a IH]; intros [|y b]; cbn [bytes_compare];
    try discriminate; [reflexivity |].
  destruct (Z.compare_spec (uchar x) (uchar y)) as [Heq | ? | ?];
    try discriminate.
  intros H. f_equal; [apply uchar_inj, Heq | apply IH, H].
Qed.

Lemma bytes_compare_refl (a : list ascii) : bytes_compare a a = Eq.
Proof.
  induction a as [|x a IH]; [reflexivity |]. cbn [bytes_compare].
  rewrite Z.compare_refl. exact IH.
Qed.

(** Cutting two strings at the same length keeps their order, up to
    equality. *)
Lemma bytes_compare_take (k : nat) (a b : list ascii) :
  bytes_compare a b <> Gt -> bytes_compare (take k a) (take k b) <> Gt.
Proof.
  revert a b. induction k as [|k IH]; intros a b; [rewrite !take_0; discriminate |].
  destruct a as [|x a], b as [|y b]; cbn [take firstn bytes_compare]; auto.
  destruct (uchar x ?= uchar y); auto.
Qed.

Lemma nul_free_take (k : nat) (s : list ascii) : nul_free s -> nul_free (take k s).
Proof. apply Forall_take. Qed.

End strcmp_facts.

(** ** The sort of the terms *)

Section qsort_facts.
Import IndexBuilder.
Context {A : Type} (cmp : A -> A -> Z).
Hypothesis cmp_total : forall a b, 0 < cmp a b -> cmp b a <= 0.

Lemma qsort_insert_HdRel (x a : A) (l : list A) :
  cmp a x <= 0 -> HdRel (fun u v => cmp u v <= 0) a l ->
  HdRel (fun u v => cmp u v <= 0) a (qsort_insert cmp x l).
Proof.
  intros Hax Hal. destruct l as [|y l]; cbn [qsort_insert].
  - constructor. exact Hax.
  - destruct (_ <=? _); constructor; [exact Hax |].
    inversion Hal; assumption.
Qed.

Lemma qsort_insert_sorted (x : A) (l : list A) :
  Sorted (fun u v => cmp u v <= 0) l ->
  Sorted (fun u v => cmp u v <= 0) (qsort_insert cmp x l).
Proof.
  induction l as [|y l IH]; intros Hl; cbn [qsort_insert].
  - repeat constructor.
  - destruct (Z.leb_spec (cmp x y) 0) as [Hle | Hgt].
    + constructor; [exact Hl | constructor; exact Hle].
    + apply Sorted_inv in Hl as [Hl Hhd].
      constructor; [apply IH, Hl |].
      apply qsort_insert_HdRel; [apply cmp_total, Hgt | exact Hhd].
Qed.

(** The contract of [qsort]: the result is ordered by the comparison
    function. *)
Lemma qsort_sorted (l : list A) :
  Sorted (fun u v => cmp u v <= 0) (qsort cmp l).
Proof.
  induction l as [|x l IH]; cbn [qsort]; [constructor |].
  apply qsort_insert_sorted, IH.
Qed.

End qsort_facts.

(** ** The hash table: linear probing *)

Section table_invariant.
Import CLib IndexBuilder LexiconSpec BuilderSpec BuilderAux.

(** A property of the terms that every token has. *)
Variable Q : cstring -> Prop.

Lemma record_doc_slots (tb tb' : Table) (i : nat) (e : TermEntry) (d : Z) :
  record_doc tb i e d = Some tb' ->
  exists e', slots tb' = <[i := e']> (slots tb)
             /\ term e' = term e /\ used e' = used e.
Proof.
  unfold record_doc. destruct (_ || _).
  - destruct (ensure_postings_cap e _) as [e1|] eqn:Hcap; [|discriminate].
    apply ensure_postings_cap_fields in Hcap as (Ht & _ & _ & Hu).
    intros [= <-]. eexists. split; [reflexivity |]. cbn. auto.
  - intros [= <-]. eexists. split; [reflexivity |]. auto.
Qed.

Lemma add_term_doc_loop_slots (steps : nat) (tb tb' : Table) (capacity : nat)
    (t : cstring) (d : Z) (idx : nat) :
  add_term_doc_loop steps tb capacity t d idx = Some tb' ->
  exists i e e',
    probe steps (slots tb) capacity t idx = Some i
    /\ slots tb !! i = Some e
    /\ slots tb' = <[i := e']> (slots tb)
    /\ used e' = true
    /\ (used e = false /\ term e' = t \/ used e = true /\ term e' = term e).
Proof.
  revert idx. induction steps as [|steps IH]; intros idx; [discriminate |].
  cbn [add_term_doc_loop probe].
  destruct (slots tb !! idx) as [e|] eqn:Hlook; [|discriminate].
  destruct (used e) eqn:Hu; cbn [negb].
  - destruct (negb _); [apply IH |].
    intros (e' & Hs & Ht & Hu')%record_doc_slots.
    exists idx, e, e'. rewrite Hu in Hu'. auto 10.
  - intros (e' & Hs & Ht & Hu')%record_doc_slots.
    exists idx, e, e'. cbn in *. auto 10.
Qed.

Lemma probe_insert_same (steps : nat) (sl : list TermEntry) (capacity : nat)
    (t : cstring) (idx i : nat) (e e' : TermEntry) :
  sl !! i = Some e -> used e' = used e -> term e' = term e ->
  probe steps (<[i := e']> sl) capacity t idx = probe steps sl capacity t idx.
Proof.
  intros Hi Hu Ht. revert idx.
  induction steps as [|steps IH]; intros idx; [reflexivity |].
  cbn [probe]. destruct (decide (i = idx)) as [-> | Hne].
  - rewrite list_lookup_insert_eq by (eapply lookup_lt_Some, Hi).
    rewrite Hi, Hu, Ht. destruct (negb (used e)); [reflexivity |].
    destruct (negb _); [apply IH | reflexivity].
  - rewrite list_lookup_insert_ne by exact Hne.
    destruct (sl !! idx) as [e0|]; [|reflexivity].
    destruct (negb (used e0)); [reflexivity |].
    destruct (negb _); [apply IH | reflexivity].
Qed.

Lemma probe_insert_free (steps : nat) (sl : list TermEntry) (capacity : nat)
    (t : cstring) (idx i s : nat) (e e' e_s : TermEntry) :
  sl !! i = Some e -> used e = false ->
  sl !! s = Some e_s -> used e_s = true ->
  probe steps sl capacity t idx = Some s ->
  probe steps (<[i := e']> sl) capacity t idx = Some s.
Proof.
  intros Hi Hu Hs Hus. revert idx.
  induction steps as [|steps IH]; intros idx; [discriminate |].
  cbn [probe]. destruct (decide (i = idx)) as [-> | Hne].
  - rewrite Hi, Hu. cbn [negb]. intros [= <-]. congruence.
  - rewrite list_lookup_insert_ne by exact Hne.
    destruct (sl !! idx) as [e0|]; [|discriminate].
    destruct (negb (used e0)); [auto |].
    destruct (negb _); [apply IH | auto].
Qed.

Lemma probe_insert_self (steps : nat) (sl : list TermEntry) (capacity : nat)
    (t : cstring) (idx i : nat) (e e' : TermEntry) :
  sl !! i = Some e -> used e = false ->
  used e' = true -> term e' = t ->
  probe steps sl capacity t idx = Some i ->
  probe steps (<[i := e']> sl) capacity t idx = Some i.
Proof.
  intros Hi Hu Hu' Ht. revert idx.
  induction steps as [|steps IH]; intros idx; [discriminate |].
  cbn [probe]. destruct (decide (i = idx)) as [-> | Hne].
  - rewrite list_lookup_insert_eq by (eapply lookup_lt_Some, Hi).
    rewrite Hu', Ht, strcmp_refl. reflexivity.
  - rewrite list_lookup_insert_ne by exact Hne.
    destruct (sl !! idx) as [e0|]; [|discriminate].
    destruct (negb (used e0)); [intros [= ->]; contradiction |].
    destruct (negb _); [apply IH | intros [= ->]; contradiction].
Qed.

Lemma add_term_doc_table_ok (tb tb' : Table) (capacity : nat) (t : cstring)
    (d : Z) :
  Q t -> table_ok Q capacity (slots tb) ->
  add_term_doc tb capacity t d = Some tb' ->
  table_ok Q capacity (slots tb').
Proof.
  intros HQ Hok Hadd. unfold add_term_doc in Hadd.
  apply add_term_doc_loop_slots in Hadd
    as (i & e & e' & Hprobe & Hi & -> & Hu' & Hcase).
  fold (slot_index capacity t) in Hprobe.
  intros s e_s Hs Hus.
  apply list_lookup_insert_Some in Hs as [(<- & <- & Hlt) | (Hne & Hs)].
  - destruct Hcase as [(Hu & Ht) | (Hu & Ht)].
    + split; [rewrite Ht; exact HQ |].
      rewrite Ht. apply (probe_insert_self _ _ _ _ _ _ e); assumption.
    + destruct (Hok i e Hi Hu) as [HQe Hpe].
      split; [rewrite Ht; exact HQe |].
      rewrite Ht, (probe_insert_same _ _ _ _ _ _ e); auto. congruence.
  - destruct (Hok s e_s Hs Hus) as [HQs Hps]. split; [exact HQs |].
    destruct Hcase as [(Hu & Ht) | (Hu & Ht)].
    + apply (probe_insert_free _ _ _ _ _ _ _ e e' e_s); assumption.
    + rewrite (probe_insert_same _ _ _ _ _ _ e); auto. congruence.
Qed.

Lemma add_tokens_table_ok (tokens : list cstring) (tb tb' : Table)
    (capacity : nat) (d : Z) :
  Forall Q tokens -> table_ok Q capacity (slots tb) ->
  add_tokens tb capacity d tokens = Some tb' ->
  table_ok Q capacity (slots tb').
Proof.
  revert tb. induction tokens as [|t rest IH]; intros tb HQ Hok.
  - intros [= <-]. exact Hok.
  - cbn [add_tokens]. inversion HQ; subst.
    destruct (add_term_doc tb capacity t d) as [tb1|] eqn:Hadd; [|discriminate].
    apply IH; [assumption |].
    apply (add_term_doc_table_ok tb tb1 capacity t d); assumption.
Qed.

Lemma index_lines_table_ok (lines : list Line) (tb tb' : Table)
    (capacity : nat) :
  Forall (fun l => Forall Q (LineSpec.body_tokens (body l))) lines ->
  table_ok Q capacity (slots tb) ->
  index_lines tb capacity lines = Some tb' ->
  table_ok Q capacity (slots tb').
Proof.
  revert tb. induction lines as [|l rest IH]; intros tb HQ Hok.
  - intros [= <-]. exact Hok.
  - cbn [index_lines]. inversion HQ; subst. rewrite index_body_tokens.
    destruct (add_tokens tb capacity (doc_id l) _) as [tb1|] eqn:Hadd;
      [|discriminate].
    apply IH; [assumption |].
    eapply add_tokens_table_ok; eassumption.
Qed.

Lemma build_table_ok (lines : list Line) (tb : Table) (capacity : nat) :
  Forall (fun l => Forall Q (LineSpec.body_tokens (body l))) lines ->
  build_table capacity lines = Some tb ->
  table_ok Q capacity (slots tb).
Proof.
  intros HQ. apply index_lines_table_ok; [exact HQ |].
  intros s e Hs Hu. cbn [slots] in Hs.
  apply lookup_replicate_1 in Hs as [-> _]. discriminate.
Qed.

End table_invariant.

(** ** The order of the lexicon *)

Section lexicon_order.
Import CLib IndexBuilder LexiconSpec BuilderSpec LineSpec BuilderAux.

Lemma NoDup_map_filter_index {A K} (key : A -> K) (p : A -> Prop)
    `{forall x, Decision (p x)} (l : list A) (f : K -> nat) :
  (forall i e, l !! i = Some e -> p e -> f (key e) = i) ->
  NoDup (map key (filter p l)).
Proof.
  revert f. induction l as [|x l IH]; intros f Hf; [constructor |].
  assert (Htail : NoDup (map key (filter p l))).
  { apply (IH (fun k => pred (f k))). intros i e Hi Hp.
    rewrite (Hf (S i) e Hi Hp). reflexivity. }
  rewrite filter_cons. destruct (decide (p x)) as [Hx | Hx]; [|exact Htail].
  cbn [map]. constructor; [|exact Htail].
  intros (e & Hkey & He)%list_elem_of_In%in_map_iff.
  apply list_elem_of_In, list_elem_of_filter in He as [Hp He].
  apply list_elem_of_lookup_1 in He as [j Hj].
  pose proof (Hf (S j) e Hj Hp) as H1.
  pose proof (Hf 0%nat x eq_refl Hx) as H2.
  rewrite Hkey in H1. lia.
Qed.

Lemma table_ok_NoDup (Q : cstring -> Prop) (capacity : nat)
    (sl : list TermEntry) :
  table_ok Q capacity sl ->
  NoDup (map term (filter (fun e => used e = true) sl)).
Proof.
  intros Hok.
  apply (NoDup_map_filter_index term _ sl
           (fun t => default 0%nat
                       (probe capacity sl capacity t (slot_index capacity t)))).
  intros i e Hi Hu. destruct (Hok i e Hi Hu) as [_ ->]. reflexivity.
Qed.

Lemma sorted_terms_NoDup (Q : cstring -> Prop) (capacity : nat) (tb : Table) :
  table_ok Q capacity (slots tb) -> NoDup (map term (sorted_terms tb)).
Proof.
  intros Hok. unfold sorted_terms.
  rewrite (Permutation_map term (qsort_perm cmp_term_ptrs _)).
  rewrite <- firstn_map.
  eapply sublist_NoDup; [apply (table_ok_NoDup Q capacity), Hok |].
  apply sublist_take.
Qed.

Lemma sorted_terms_Forall (Q : cstring -> Prop) (capacity : nat) (tb : Table) :
  table_ok Q capacity (slots tb) -> Forall Q (map term (sorted_terms tb)).
Proof.
  intros Hok. apply List.Forall_map, Forall_forall.
  intros e [He Hu]%sorted_terms_slots.
  apply list_elem_of_lookup_1 in He as [i Hi].
  apply (Hok i e Hi Hu).
Qed.

Lemma sorted_terms_sorted (tb : Table) :
  Sorted (fun a b => strcmp a b <= 0) (map term (sorted_terms tb)).
Proof.
  unfold sorted_terms.
  assert (H : forall l, Sorted (fun u v => cmp_term_ptrs u v <= 0) l ->
              Sorted (fun a b => strcmp a b <= 0) (map term l)).
  { induction 1 as [|e l Hl IH Hhd]; cbn [map]; constructor; [exact IH |].
    destruct Hhd; constructor. assumption. }
  apply H, qsort_sorted.
  intros a b Hab. unfold cmp_term_ptrs in *.
  rewrite (strcmp_antisym (term a) (term b)). lia.
Qed.

(** The terms that the builder sorts are strictly ascending when they
    are C strings and pairwise distinct. *)
Lemma sorted_distinct_strict (terms : list cstring) :
  Forall nul_free terms -> NoDup terms ->
  Sorted (fun a b => strcmp a b <= 0) terms ->
  strictly_ascending_terms terms.
Proof.
  intros Hnul Hdup Hsorted.
  induction Hsorted as [|a l Hl IH Hhd]; [constructor |].
  inversion Hnul as [|? ? Ha Hnul']; subst.
  inversion Hdup as [|? ? Hnotin Hdup']; subst.
  constructor; [apply IH; assumption |].
  destruct Hhd as [|b l' Hab]; constructor.
  assert (Hb : nul_free b) by (inversion Hnul'; assumption).
  pose proof (strcmp_sign a b Ha Hb) as Hsign.
  destruct (bytes_compare a b) eqn:E; [| reflexivity |].
  - exfalso. apply Hnotin. apply bytes_compare_eq in E as ->. left.
  - apply Z.compare_gt_iff in Hsign. lia.
Qed.

Lemma write_postings_terms (sorted : list TermEntry) (offset : Z) :
  map term (write_postings sorted offset).1 = map term sorted.
Proof.
  revert offset. induction sorted as [|e rest IH]; intros offset; [reflexivity |].
  cbn [write_postings].
  match goal with
  | |- context [write_postings rest ?o] =>
      specialize (IH o); destruct (write_postings rest o) as [es ids]
  end.
  cbn [fst map term] in *. rewrite IH. reflexivity.
Qed.

(** The bytes written for a term: its first 65535 bytes. *)
Lemma term_bytes_cut (e : TermEntry) :
  term_bytes (lexicon_record e) = take (Z.to_nat 65535) (term e).
Proof.
  unfold lexicon_record. cbn [term_bytes].
  destruct (Z.gtb_spec (Z.of_nat (length (term e))) 65535) as [Hgt | Hle].
  - reflexivity.
  - rewrite Nat2Z.id, !take_ge; [reflexivity | lia | lia].
Qed.

Lemma written_terms_cut (tb : Table) :
  written_terms (write_index tb).2
  = map (take (Z.to_nat 65535)) (map term (sorted_terms tb)).
Proof.
  unfold written_terms, write_index.
  pose proof (write_postings_terms (sorted_terms tb) 0) as Hterms.
  destruct (write_postings (sorted_terms tb) 0) as [es ids].
  cbn [fst snd lexicon_records] in *. rewrite <- Hterms, !map_map.
  apply map_ext. intros e. apply term_bytes_cut.
Qed.

Lemma split_runs_Forall (P : ascii -> Prop) (cur p : list ascii) :
  Forall P cur -> Forall P p -> Forall (Forall P) (split_runs cur p).
Proof.
  revert cur. induction p as [|c p IH]; intros cur Hcur Hp; cbn [split_runs].
  - case_bool_decide; repeat constructor. assumption.
  - inversion Hp; subst. destruct (isspace c).
    + apply Forall_app. split; [|apply IH; [constructor | assumption]].
      case_bool_decide; repeat constructor. assumption.
    + apply IH; [|assumption]. apply Forall_app. split; [assumption |].
      repeat constructor. assumption.
Qed.

End lexicon_order.

(** ** The terms written to the lexicon *)

Section lexicon_claims.
Import CLib IndexBuilder LexiconSpec BuilderSpec LineSpec PostingSpec BuilderExamples BuilderAux.

Lemma Sorted_map_rel {A B} (R : A -> A -> Prop) (R' : B -> B -> Prop)
    (g : A -> B) (l : list A) :
  (forall a b, R a b -> R' (g a) (g b)) -> Sorted R l -> Sorted R' (map g l).
Proof.
  intros Hg. induction 1 as [|a l Hl IH Hhd]; cbn [map]; constructor; [exact IH |].
  destruct Hhd; constructor. auto.
Qed.

Lemma map_take_short (k : nat) (terms : list cstring) :
  Forall (fun t => (length t <= k)%nat) terms -> map (take k) terms = terms.
Proof.
  induction 1 as [|t l Ht Hl IH]; [reflexivity |].
  cbn [map]. rewrite IH, take_ge by exact Ht. reflexivity.
Qed.

Lemma tokens_Forall (P : ascii -> Prop) (lines : list Line) :
  Forall (fun l => Forall P (body l)) lines ->
  Forall (fun l => Forall (Forall P) (body_tokens (body l))) lines.
Proof.
  intros H. eapply Forall_impl; [exact H |].
  intros l Hl. apply split_runs_Forall; [constructor | exact Hl].
Qed.

Lemma split_runs_run (cur run rest : list ascii) :
  Forall (fun c => isspace c = false) run ->
  split_runs cur (run ++ rest) = split_runs (cur ++ run) rest.
Proof.
  revert cur. induction run as [|c run IH]; intros cur Hrun.
  - rewrite app_nil_r. reflexivity.
  - inversion Hrun as [|? ? Hc Hrun']; subst. cbn [app split_runs].
    rewrite Hc, (IH _ Hrun'), <- app_assoc. reflexivity.
Qed.

Lemma body_tokens_pair (t1 t2 : cstring) :
  Forall (fun c => isspace c = false) t1 ->
  Forall (fun c => isspace c = false) t2 ->
  t1 <> [] -> t2 <> [] ->
  body_tokens (t1 ++ " "%char :: t2) = [t1; t2].
Proof.
  intros H1 H2 Hn1 Hn2. unfold body_tokens.
  rewrite (split_runs_run [] t1 _ H1). cbn [app split_runs].
  change (isspace " "%char) with true. cbn iota.
  rewrite bool_decide_eq_false_2 by exact Hn1.
  rewrite <- (app_nil_r t2) at 1.
  rewrite (split_runs_run [] t2 [] H2). cbn [app split_runs].
  rewrite bool_decide_eq_false_2 by exact Hn2. reflexivity.
Qed.

Lemma replicate_snoc_plain (n : nat) (c0 c : ascii) (P : ascii -> Prop) :
  P c0 -> P c -> Forall P (replicate n c0 ++ [c]).
Proof.
  intros H0 Hc. apply Forall_app. split; [apply Forall_replicate, H0 |].
  repeat constructor. exact Hc.
Qed.

Lemma snoc_not_nil (l : list ascii) (c : ascii) : l ++ [c] <> [].
Proof. destruct l; discriminate. Qed.

Lemma is_long_prefix_eq (t : cstring) :
  is_long_prefix t = true -> t = long_prefix.
Proof.
  unfold is_long_prefix, long_prefix.
  intros [Hlen%Z.eqb_eq Hall]%andb_prop.
  rewrite <- Hlen, Nat2Z.id. clear Hlen.
  induction t as [|c t IH]; [reflexivity |].
  cbn [forallb] in Hall. apply andb_prop in Hall as [Hc%Ascii.eqb_eq Ht].
  cbn [length replicate]. rewrite <- Hc, <- (IH Ht). reflexivity.
Qed.

(** The terms written from the table built from the two long terms are
    both their common prefix. *)
Lemma long_terms_check_true :
  both_long_prefix
    (option_map (fun tb => written_terms (write_index tb).2)
       (add_tokens {| slots := replicate 1024 zero_entry; used_terms := 0 |}
          1024 1 [long_term "a"%char; long_term "b"%char]))
  = true.
Proof. vm_compute. reflexivity. Qed.

Lemma build_index_one_line (capacity : nat) (id : Z) (t1 t2 : cstring) :
  Forall (fun c => isspace c = false) t1 ->
  Forall (fun c => isspace c = false) t2 ->
  t1 <> [] -> t2 <> [] ->
  build_index capacity [{| doc_id := id; body := t1 ++ " "%char :: t2 |}]
  = option_map write_index
      (add_tokens {| slots := replicate capacity zero_entry; used_terms := 0 |}
         capacity id [t1; t2]).
Proof.
  intros H1 H2 Hn1 Hn2. unfold build_index, build_table, index_lines.
  cbn [doc_id body]. rewrite index_body_tokens, body_tokens_pair by assumption.
  destruct (add_tokens _ _ _ _); reflexivity.
Qed.

(** C5 (as stated).  Two distinct terms of 65536 bytes that share their
    first 65535 bytes are written as the same 65535 bytes: the terms of
    [lexicon.bin] are neither strictly ascending nor unique. *)
Lemma long_terms_written_twice :
  bodies_nul_free long_lines
  /\ is_Some (build_index 1024 long_lines)
  /\ (forall pf lf, build_index 1024 long_lines = Some (pf, lf) ->
        written_terms lf = [long_prefix; long_prefix]
        /\ ~ strictly_ascending_terms (written_terms lf)
        /\ ~ NoDup (written_terms lf)).
Proof.
  assert (Hbuild :
            build_index 1024 long_lines
            = option_map write_index
                (add_tokens {| slots := replicate 1024 zero_entry; used_terms := 0 |}
                   1024 1 [long_term "a"%char; long_term "b"%char])).
  { unfold long_lines. apply build_index_one_line.
    - apply replicate_snoc_plain; reflexivity.
    - apply replicate_snoc_plain; reflexivity.
    - apply snoc_not_nil.
    - apply snoc_not_nil. }
  pose proof long_terms_check_true as Hcheck.
  rewrite Hbuild. clear Hbuild. revert Hcheck.
  generalize (add_tokens {| slots := replicate 1024 zero_entry; used_terms := 0 |}
                1024 1 [long_term "a"%char; long_term "b"%char]).
  intros [tb|] Hcheck; [|discriminate Hcheck].
  cbn [option_map] in *.
  split; [|split; [eexists; reflexivity |]].
  - constructor; [|constructor].
    apply (Forall_app _ (replicate (Z.to_nat 65535) "a"%char ++ ["a"%char])
             (" "%char :: replicate (Z.to_nat 65535) "a"%char ++ ["b"%char])).
    split; [apply replicate_snoc_plain; discriminate |].
    constructor; [discriminate | apply replicate_snoc_plain; discriminate].
  - intros pf lf Heq. injection Heq as Hw.
    assert (lf = (write_index tb).2) as -> by (rewrite Hw; reflexivity).
    destruct (written_terms (write_index tb).2) as [|t1 [|t2 [|? ?]]];
      try discriminate Hcheck.
    cbn [both_long_prefix] in Hcheck.
    apply andb_prop in Hcheck as [H1%is_long_prefix_eq H2%is_long_prefix_eq].
    subst t1 t2. split; [reflexivity |]. split.
    + intros Hs. apply Sorted_inv in Hs as [_ Hhd]. apply HdRel_inv in Hhd.
      rewrite bytes_compare_refl in Hhd. discriminate Hhd.
    + intros Hd. apply NoDup_cons in Hd as [Hnotin _]. apply Hnotin. left.
Qed.

(** C5 (amended).  For every built index (from lines whose bodies are C
    strings), the terms written to [lexicon.bin] are ascending in
    byte-wise lexicographic order; when no token is longer than 65535
    bytes they are strictly ascending, hence unique. *)
Theorem lexicon_terms_ascending (capacity : nat) (lines : list Line)
    (pf : PostingsFile) (lf : LexiconFile) :
  bodies_nul_free lines ->
  build_index capacity lines = Some (pf, lf) ->
  ascending_terms (written_terms lf)
  /\ (tokens_short lines ->
      strictly_ascending_terms (written_terms lf) /\ NoDup (written_terms lf)).
Proof.
  intros Hnul Hbuild. unfold build_index in Hbuild.
  destruct (build_table capacity lines) as [tb|] eqn:Htb; [|discriminate].
  assert (lf = (write_index tb).2) as ->
    by (injection Hbuild as Hw; rewrite Hw; reflexivity).
  clear Hbuild. rewrite written_terms_cut.
  pose proof (build_table_ok nul_free lines tb capacity
                (tokens_Forall _ lines Hnul) Htb) as Hok.
  pose proof (sorted_terms_Forall nul_free capacity tb Hok) as Hfree.
  pose proof (sorted_terms_NoDup nul_free capacity tb Hok) as Hdup.
  pose proof (sorted_distinct_strict _ Hfree Hdup (sorted_terms_sorted tb))
    as Hstrict.
  split.
  - apply (Sorted_map_rel (fun a b => bytes_compare a b = Lt)); [|exact Hstrict].
    intros a b Hab. apply bytes_compare_take. congruence.
  - intros Hshort.
    pose proof (build_table_ok (fun t => Z.of_nat (length t) <= 65535)
                  lines tb capacity Hshort Htb) as Hok2.
    apply sorted_terms_Forall in Hok2.
    rewrite map_take_short; [auto |].
    eapply Forall_impl; [exact Hok2 |]. cbn. intros. lia.
Qed.

End lexicon_claims.

(** ** The index built from the three documents *)

Section builder_witnesses.
Import CLib IndexBuilder LexiconSpec BuilderSpec LineSpec PostingSpec BuilderExamples BuilderAux.

Lemma Forall_forallb {A} (P : A -> Prop) (f : A -> bool) (l : list A) :
  (forall x, f x = true -> P x) -> forallb f l = true -> Forall P l.
Proof.
  intros Hf Hall. apply Forall_forall. intros x Hx%list_elem_of_In.
  rewrite forallb_forall in Hall. auto.
Qed.

Lemma example_table_built : build_table 1024 example_lines = Some example_table.
Proof. vm_compute. reflexivity. Qed.

Lemma example_index_built :
  build_index 1024 example_lines
  = Some ((write_index example_table).1, (write_index example_table).2).
Proof. vm_compute. reflexivity. Qed.

Lemma example_lines_ascending : doc_ids_ascending example_lines.
Proof.
  unfold doc_ids_ascending, example_lines. cbn [map doc_id line].
  repeat (constructor; try lia).
Qed.

Lemma example_lines_nul_free : bodies_nul_free example_lines.
Proof.
  apply (Forall_forallb _
           (fun l => forallb (fun c => negb (Ascii.eqb c Ascii.zero)) (body l))).
  - intros l Hl. revert Hl. apply Forall_forallb.
    intros c Hc ->. discriminate Hc.
  - vm_compute. reflexivity.
Qed.

Lemma example_lines_short : tokens_short example_lines.
Proof.
  apply (Forall_forallb _
           (fun l => forallb (fun t => Z.of_nat (length t) <=? 65535)
                       (body_tokens (body l)))).
  - intros l Hl. revert Hl. apply Forall_forallb.
    intros t Ht. apply Z.leb_le, Ht.
  - vm_compute. reflexivity.
Qed.

Lemma posting_lists_strictly_ascending_witness :
  doc_ids_ascending example_lines
  /\ build_table 1024 example_lines = Some example_table
  /\ 4 * Z.of_nat (length (posting_ids (write_index example_table).1)) < 2 ^ 64
  /\ posting_ids (write_index example_table).1
     = [2; 1; 1; 3; 2; 1; 2; 3; 2; 3; 1; 2; 2; 3; 1; 3; 2; 2; 1; 3]
  /\ Forall (fun r => ascending (region (write_index example_table).1 r))
       (lexicon_records (write_index example_table).2).
Proof.
  assert (H3 : 4 * Z.of_nat (length (posting_ids (write_index example_table).1))
               < 2 ^ 64) by (vm_compute; reflexivity).
  split; [apply example_lines_ascending |].
  split; [apply example_table_built |]. split; [exact H3 |].
  split; [vm_compute; reflexivity |].
  apply (posting_lists_strictly_ascending 1024 example_lines example_table
           example_lines_ascending example_table_built H3).
Defined.

Lemma lexicon_terms_ascending_witness :
  bodies_nul_free example_lines
  /\ build_index 1024 example_lines
     = Some ((write_index example_table).1, (write_index example_table).2)
  /\ tokens_short example_lines
  /\ map string_of_list_ascii (written_terms (write_index example_table).2)
     = ["a"; "are"; "brown"; "dog"; "faster"; "fox"; "is"; "lazy"; "quick";
        "red"; "run"; "runn"; "sleep"; "slower"; "than"; "the"; "while"]%string
  /\ strictly_ascending_terms (written_terms (write_index example_table).2).
Proof.
  split; [apply example_lines_nul_free |].
  split; [apply example_index_built |].
  split; [apply example_lines_short |].
  split; [vm_compute; reflexivity |].
  apply (lexicon_terms_ascending 1024 example_lines _ _
           example_lines_nul_free example_index_built).
  apply example_lines_short.
Defined.

End builder_witnesses.

(* ===================================================================== *)
(** * Further properties of the code                                     *)
(* ===================================================================== *)

(** ** Shunting-Yard: the parentheses and the tokens kept *)

Section shunting_yard_facts.
Import CLib SearchCli ParserSpec ParserAux.

(** Decides the tests on a token whose type is known. *)
Ltac tok_eval :=
  repeat match goal with
    | |- context [bool_decide (?a = ?b)] =>
        is_constructor a; is_constructor b;
        let v := eval vm_compute in (bool_decide (a = b)) in
        change (bool_decide (a = b)) with v
    | |- context [is_operator ?a] =>
        is_constructor a;
        let v := eval vm_compute in (is_operator a) in
        change (is_operator a) with v
    end;
  cbv iota.

Lemma count_type_cons (ty : TokenType) (t : Token) (l : list Token) :
  count_type ty (t :: l)
  = ((if bool_decide (type t = ty) then 1 else 0) + count_type ty l)%nat.
Proof.
  unfold count_type. rewrite filter_cons.
  case_bool_decide; destruct (decide (type t = ty)); try contradiction; reflexivity.
Qed.

Lemma count_type_app (ty : TokenType) (l1 l2 : list Token) :
  count_type ty (l1 ++ l2) = (count_type ty l1 + count_type ty l2)%nat.
Proof. unfold count_type. rewrite filter_app, length_app. reflexivity. Qed.

(** What [pop_operators] moves from the stack to the output: operators. *)
Lemma pop_operators_split (t : Token) (out ops : list Token) :
  exists l, pop_operators t out ops = (out ++ l, drop (length l) ops)
            /\ take (length l) ops = l
            /\ Forall (fun top => is_operator (type top) = true) l.
Proof.
  revert out. induction ops as [|top ops IH]; intros out.
  - exists []. rewrite app_nil_r. auto.
  - cbn [pop_operators]. destruct (is_operator (type top)) eqn:Hop; cbn [negb].
    + destruct (_ || _).
      * destruct (IH (out ++ [top])) as (l & -> & Htake & Hall).
        exists (top :: l). rewrite <- app_assoc. cbn [app length drop take].
        rewrite Htake. auto.
      * exists []. rewrite app_nil_r. auto.
    + exists []. rewrite app_nil_r. auto.
Qed.

Lemma pop_to_lparen_split (out ops o p : list Token) :
  pop_to_lparen out ops = Some (o, p) ->
  exists l lp, o = out ++ l /\ ops = l ++ lp :: p /\ type lp = TOK_LPAREN
               /\ Forall (fun top => type top <> TOK_LPAREN) l.
Proof.
  revert out. induction ops as [|top ops IH]; intros out; [discriminate |].
  cbn [pop_to_lparen]. case_bool_decide as Hlp.
  - intros [= <- <-]. exists [], top. rewrite app_nil_r. auto.
  - intros (l & lp & -> & -> & Hty & Hall)%IH.
    exists (top :: l), lp. rewrite <- app_assoc. auto.
Qed.

Lemma pop_to_lparen_none (out ops : list Token) :
  pop_to_lparen out ops = None <-> lparens ops = 0%nat.
Proof.
  revert out. induction ops as [|top ops IH]; intros out; [split; reflexivity |].
  cbn [pop_to_lparen]. unfold lparens in *. rewrite count_type_cons.
  case_bool_decide; [split; [discriminate | lia] |]. apply IH.
Qed.

Lemma drain_ops_split (out ops rpn : list Token) :
  drain_ops out ops = Some rpn -> rpn = out ++ ops /\ Forall not_paren ops.
Proof.
  revert out. induction ops as [|top ops IH]; intros out.
  - intros [= <-]. rewrite app_nil_r. auto.
  - cbn [drain_ops].
    case_bool_decide as H1; [discriminate |].
    case_bool_decide as H2; [discriminate |]. cbn [orb].
    intros [-> Hall]%IH. rewrite <- app_assoc. split; [reflexivity |].
    constructor; [split; assumption | exact Hall].
Qed.

Lemma drain_ops_some (out ops : list Token) :
  Forall stackable ops ->
  is_Some (drain_ops out ops) <-> lparens ops = 0%nat.
Proof.
  revert out. induction ops as [|top ops IH]; intros out Hops.
  - split; [reflexivity | eauto].
  - inversion Hops as [|? ? [_ Hrp] Hops']; subst.
    cbn [drain_ops]. unfold lparens in *. rewrite count_type_cons.
    rewrite (bool_decide_eq_false_2 (type top = TOK_RPAREN)) by exact Hrp.
    rewrite orb_false_r.
    case_bool_decide; [split; [intros [? ?]; discriminate | lia] |].
    apply IH, Hops'.
Qed.

Lemma operator_not_lparen (l : list Token) :
  Forall (fun top => is_operator (type top) = true) l -> lparens l = 0%nat.
Proof.
  induction 1 as [|t l Ht Hl IH]; [reflexivity |].
  unfold lparens in *. rewrite count_type_cons, IH.
  case_bool_decide as H; [|reflexivity]. rewrite H in Ht. discriminate.
Qed.

Lemma lparens_none (l : list Token) :
  Forall (fun top => type top <> TOK_LPAREN) l -> lparens l = 0%nat.
Proof.
  induction 1 as [|t l Ht Hl IH]; [reflexivity |].
  unfold lparens in *. rewrite count_type_cons, IH.
  rewrite bool_decide_eq_false_2 by exact Ht. reflexivity.
Qed.

(** The loop of [to_rpn] fails exactly on a parenthesis without its
    partner. *)
Lemma to_rpn_loop_balanced (toks out ops : list Token) :
  Forall stackable ops ->
  is_Some (to_rpn_loop toks out ops) <-> balanced (lparens ops) toks = true.
Proof.
  revert out ops. induction toks as [|t rest IH]; intros out ops Hops.
  - cbn [to_rpn_loop balanced]. rewrite drain_ops_some by exact Hops.
    rewrite Nat.eqb_eq. reflexivity.
  - cbn [to_rpn_loop balanced].
    destruct (type t) eqn:Hty; tok_eval.
    + apply IH, Hops.
    + destruct (pop_operators_split t out ops) as (l & -> & Htake & Hall).
      rewrite IH.
      * unfold lparens. rewrite count_type_cons, Hty. cbn.
        rewrite <- (take_drop (length l) ops) at 2.
        rewrite count_type_app, Htake.
        fold (lparens l). rewrite (operator_not_lparen l Hall). reflexivity.
      * constructor; [split; rewrite Hty; discriminate |].
        apply Forall_drop, Hops.
    + destruct (pop_operators_split t out ops) as (l & -> & Htake & Hall).
      rewrite IH.
      * unfold lparens. rewrite count_type_cons, Hty. cbn.
        rewrite <- (take_drop (length l) ops) at 2.
        rewrite count_type_app, Htake.
        fold (lparens l). rewrite (operator_not_lparen l Hall). reflexivity.
      * constructor; [split; rewrite Hty; discriminate |].
        apply Forall_drop, Hops.
    + destruct (pop_operators_split t out ops) as (l & -> & Htake & Hall).
      rewrite IH.
      * unfold lparens. rewrite count_type_cons, Hty. cbn.
        rewrite <- (take_drop (length l) ops) at 2.
        rewrite count_type_app, Htake.
        fold (lparens l). rewrite (operator_not_lparen l Hall). reflexivity.
      * constructor; [split; rewrite Hty; discriminate |].
        apply Forall_drop, Hops.
    + rewrite IH.
      * unfold lparens. rewrite count_type_cons, Hty. reflexivity.
      * constructor; [split; rewrite Hty; discriminate | exact Hops].
    + destruct (pop_to_lparen out ops) as [[out' ops']|] eqn:E.
      * apply pop_to_lparen_split in E as (l & lp & -> & -> & Hlp & Hl).
        rewrite IH.
        -- unfold lparens. rewrite count_type_app, count_type_cons, Hlp.
           fold (lparens l). rewrite (lparens_none l Hl). cbn.
           reflexivity.
        -- apply Forall_app in Hops as [_ Hops].
           inversion Hops; assumption.
      * apply pop_to_lparen_none in E. rewrite E.
        split; [intros [? ?]; discriminate | discriminate].
Qed.

Lemma filter_operators (P : Token -> Prop) `{forall t, Decision (P t)}
    (l : list Token) :
  Forall P l -> filter P l = l.
Proof.
  induction 1 as [|t l Ht Hl IH]; [reflexivity |].
  rewrite filter_cons, IH. destruct (decide (P t)); [reflexivity | contradiction].
Qed.

Lemma filter_none (P : Token -> Prop) `{forall t, Decision (P t)}
    (l : list Token) :
  Forall (fun t => ~ P t) l -> filter P l = [].
Proof.
  induction 1 as [|t l Ht Hl IH]; [reflexivity |].
  rewrite filter_cons, IH. destruct (decide (P t)); [contradiction | reflexivity].
Qed.

(** The postfix form is made of the tokens of the infix stream without
    its parentheses, and the terms keep their order. *)
Lemma to_rpn_loop_output (toks out ops rpn : list Token) :
  Forall stackable ops ->
  to_rpn_loop toks out ops = Some rpn ->
  Permutation rpn (out ++ filter not_paren ops ++ filter not_paren toks)
  /\ filter (fun t => type t = TOK_TERM) rpn
     = filter (fun t => type t = TOK_TERM) out
       ++ filter (fun t => type t = TOK_TERM) toks.
Proof.
  revert out ops. induction toks as [|t rest IH]; intros out ops Hops.
  - cbn [to_rpn_loop]. intros [-> Hnp]%drain_ops_split.
    rewrite (filter_operators not_paren ops Hnp), filter_nil, !app_nil_r.
    split; [reflexivity |]. rewrite filter_app.
    rewrite (filter_none _ ops), app_nil_r; [reflexivity |].
    eapply Forall_impl; [exact Hops |]. intros ? [? _]. assumption.
  - cbn [to_rpn_loop].
    assert (Hop_case : is_operator (type t) = true -> type t <> TOK_TERM ->
              to_rpn_loop rest (pop_operators t out ops).1
                (t :: (pop_operators t out ops).2) = Some rpn ->
              Permutation rpn (out ++ filter not_paren ops
                               ++ filter not_paren (t :: rest))
              /\ filter (fun t => type t = TOK_TERM) rpn
                 = filter (fun t => type t = TOK_TERM) out
                   ++ filter (fun t => type t = TOK_TERM) (t :: rest)).
    { intros Hop Hnt.
      destruct (pop_operators_split t out ops) as (l & -> & Htake & Hall).
      cbn [fst snd]. intros [Hperm Hterms]%IH.
      - assert (Hnp : not_paren t)
          by (split; intros Hty; rewrite Hty in Hop; discriminate).
        rewrite (filter_cons not_paren t rest).
        rewrite (filter_cons not_paren t (drop _ _)) in Hperm.
        destruct (decide (not_paren t)); [|contradiction].
        rewrite (filter_cons (fun t => type t = TOK_TERM) t rest).
        destruct (decide (type t = TOK_TERM)); [contradiction |].
        split.
        + rewrite Hperm. rewrite <- (take_drop (length l) ops) at 2.
          rewrite Htake, filter_app.
          rewrite (filter_operators not_paren l).
          * rewrite <- !app_assoc. apply Permutation_app_head, Permutation_app_head.
            cbn [app]. apply Permutation_middle.
          * eapply Forall_impl; [exact Hall |]. intros top Htop. cbv beta in Htop.
            split; intros Hty; rewrite Hty in Htop; discriminate.
        + rewrite Hterms, filter_app. rewrite (filter_none _ l), app_nil_r;
            [reflexivity |].
          eapply Forall_impl; [exact Hall |]. intros top Htop Hty. cbv beta in Htop.
          rewrite Hty in Htop. discriminate.
      - constructor; [|apply Forall_drop, Hops].
        split; [exact Hnt |]. intros Hty. rewrite Hty in Hop. discriminate. }
    destruct (type t) eqn:Hty; tok_eval.
    + intros [Hperm Hterms]%IH; [|exact Hops].
      rewrite (filter_cons not_paren t rest).
      rewrite (filter_cons (fun t => type t = TOK_TERM) t rest).
      destruct (decide (not_paren t)) as [_ | Hn];
        [|exfalso; apply Hn; split; rewrite Hty; discriminate].
      destruct (decide (type t = TOK_TERM)); [|congruence].
      split.
      * rewrite Hperm, <- !app_assoc. apply Permutation_app_head.
        cbn [app]. apply Permutation_middle.
      * rewrite Hterms, filter_app, filter_cons.
        destruct (decide (type t = TOK_TERM)); [|congruence].
        rewrite filter_nil, <- app_assoc. reflexivity.
    + intros H. apply Hop_case;
        [reflexivity | discriminate |].
      destruct (pop_operators t out ops). exact H.
    + intros H. apply Hop_case;
        [reflexivity | discriminate |].
      destruct (pop_operators t out ops). exact H.
    + intros H. apply Hop_case;
        [reflexivity | discriminate |].
      destruct (pop_operators t out ops). exact H.
    + intros [Hperm Hterms]%IH.
      * rewrite (filter_cons not_paren t rest).
        rewrite (filter_cons not_paren t ops) in Hperm.
        rewrite (filter_cons (fun t => type t = TOK_TERM) t rest).
        destruct (decide (not_paren t)) as [[Hn _] | _]; [congruence |].
        destruct (decide (type t = TOK_TERM)); [congruence |].
        auto.
      * constructor; [split; rewrite Hty; discriminate | exact Hops].
    + destruct (pop_to_lparen out ops) as [[out' ops']|] eqn:E; [|discriminate].
      apply pop_to_lparen_split in E as (l & lp & -> & -> & Hlp & Hl).
      apply Forall_app in Hops as [Hl' Hops]. inversion Hops as [|? ? _ Hops']; subst.
      intros [Hperm Hterms]%IH; [|exact Hops'].
      rewrite (filter_cons not_paren t rest).
      rewrite (filter_cons (fun t => type t = TOK_TERM) t rest).
      destruct (decide (not_paren t)) as [[_ Hn] | _]; [congruence |].
      destruct (decide (type t = TOK_TERM)); [congruence |].
      rewrite filter_app, (filter_cons not_paren lp).
      destruct (decide (not_paren lp)) as [[Hn _] | _]; [congruence |].
      rewrite (filter_operators not_paren l).
      * split; [rewrite Hperm, <- !app_assoc; reflexivity |].
        rewrite Hterms, filter_app. rewrite (filter_none _ l), app_nil_r;
          [reflexivity |].
        eapply Forall_impl; [exact Hl' |]. intros ? [? _]. assumption.
      * apply Forall_forall. intros x Hx. rewrite Forall_forall in Hl, Hl'.
        split; [apply Hl, Hx | apply (Hl' x Hx)].
Qed.

End shunting_yard_facts.

Section shunting_yard_theorems.
Import CLib SearchCli ParserSpec ParserAux Examples.

(** X1. [to_rpn] accepts a token stream exactly when its parentheses are
    balanced: it fails on a closing parenthesis that has no opening one
    before it and on an opening parenthesis that is never closed, and on
    nothing else (the arity of the operators is not checked here). *)
Theorem to_rpn_accepts_balanced (toks : list Token) :
  is_Some (to_rpn toks) <-> balanced 0 toks = true.
Proof. apply (to_rpn_loop_balanced toks [] []). constructor. Qed.

(** X2. The postfix form that [to_rpn] returns is a rearrangement of the
    tokens of the infix stream without its parentheses: no token is lost,
    none is invented, no parenthesis is left, and the terms stay in the
    order of the query. *)
Theorem to_rpn_keeps_tokens (toks rpn : list Token) :
  to_rpn toks = Some rpn ->
  Permutation rpn (filter not_paren toks)
  /\ filter (fun t => type t = TOK_TERM) rpn
     = filter (fun t => type t = TOK_TERM) toks.
Proof.
  intros H. apply (to_rpn_loop_output toks [] [] rpn) in H; [|constructor].
  exact H.
Qed.

Lemma to_rpn_keeps_tokens_witness :
  to_rpn (tokenize_query (lit "fox (brown || !lazy)"))
  = Some [term_token (lit "fox"); term_token (lit "brown");
          term_token (lit "lazy"); op_token TOK_NOT; op_token TOK_OR;
          op_token TOK_AND]
  /\ filter (fun t => type t = TOK_TERM)
       [term_token (lit "fox"); term_token (lit "brown");
        term_token (lit "lazy"); op_token TOK_NOT; op_token TOK_OR;
        op_token TOK_AND]
     = filter (fun t => type t = TOK_TERM)
         (tokenize_query (lit "fox (brown || !lazy)")).
Proof.
  assert (H : to_rpn (tokenize_query (lit "fox (brown || !lazy)"))
              = Some [term_token (lit "fox"); term_token (lit "brown");
                      term_token (lit "lazy"); op_token TOK_NOT;
                      op_token TOK_OR; op_token TOK_AND])
    by (vm_compute; reflexivity).
  split; [exact H |].
  apply (to_rpn_keeps_tokens _ _ H).
Defined.

End shunting_yard_theorems.

(** ** The arity of an evaluated query *)

Section arity_facts.
Import CLib SearchCli ParserSpec ParserAux Examples.

Ltac tok_eval :=
  repeat match goal with
    | |- context [bool_decide (?a = ?b)] =>
        is_constructor a; is_constructor b;
        let v := eval vm_compute in (bool_decide (a = b)) in
        change (bool_decide (a = b)) with v
    | |- context [is_operator ?a] =>
        is_constructor a;
        let v := eval vm_compute in (is_operator a) in
        change (is_operator a) with v
    end;
  cbv iota.

(** Every term pushes a posting list, every binary operator replaces two
    by one, and a negation replaces one by one. *)
Lemma eval_loop_height (idx : IndexData) (rpn : list Token)
    (st st' : list PostingList) :
  eval_loop idx rpn st = Some st' ->
  (length st' + count_type TOK_AND rpn + count_type TOK_OR rpn
   = length st + count_type TOK_TERM rpn)%nat.
Proof.
  revert st. induction rpn as [|t rest IH]; intros st.
  - intros [= <-]. unfold count_type. cbn. lia.
  - cbn [eval_loop]. rewrite !count_type_cons.
    destruct (type t) eqn:Hty; tok_eval; cbn [orb].
    + destruct (text t) as [txt|]; [|discriminate].
      destruct (lexicon_find idx txt) as [[off cnt]|].
      * destruct (_ >? _); [discriminate |].
        intros H%IH. cbn [length] in H. lia.
      * intros H%IH. cbn [length] in H. lia.
    + destruct st as [|b [|a st2]]; try discriminate.
      intros H%IH. cbn [length] in *. lia.
    + destruct st as [|b [|a st2]]; try discriminate.
      intros H%IH. cbn [length] in *. lia.
    + destruct st as [|a st1]; [discriminate |].
      intros H%IH. cbn [length] in *. lia.
    + intros H%IH. lia.
    + intros H%IH. lia.
Qed.

Lemma count_type_filter_not_paren (ty : TokenType) (toks : list Token) :
  ty <> TOK_LPAREN -> ty <> TOK_RPAREN ->
  count_type ty (filter not_paren toks) = count_type ty toks.
Proof.
  intros H1 H2. induction toks as [|t toks IH]; [reflexivity |].
  rewrite filter_cons. destruct (decide (not_paren t)) as [Hnp | Hp].
  - rewrite !count_type_cons, IH. reflexivity.
  - rewrite IH, count_type_cons.
    rewrite bool_decide_eq_false_2; [reflexivity |].
    intros Hty. apply Hp. split; congruence.
Qed.

Lemma count_type_perm (ty : TokenType) (l1 l2 : list Token) :
  Permutation l1 l2 -> count_type ty l1 = count_type ty l2.
Proof.
  intros H. unfold count_type. apply Permutation_length.
  apply filter_Permutation, H.
Qed.

(** X3. A query that the engine evaluates has exactly one more term than
    it has binary operators (explicit and implied conjunctions and
    disjunctions together): a dangling operator or two adjacent
    operands left without operator never evaluate. *)
Theorem evaluated_query_arity (idx : IndexData) (q : list ascii) (r : list Z) :
  tokenize_query q <> [] ->
  evaluate idx q = Some r ->
  count_type TOK_TERM (tokenize_query q)
  = S (count_type TOK_AND (tokenize_query q)
       + count_type TOK_OR (tokenize_query q)).
Proof.
  intros Hne. unfold evaluate.
  destruct (tokenize_query q) as [|t toks] eqn:Htok; [congruence |].
  cbn [length Nat.eqb].
  destruct (to_rpn (t :: toks)) as [rpn|] eqn:Hrpn; [|discriminate].
  apply (to_rpn_loop_output _ [] [] rpn) in Hrpn as [Hperm _]; [|constructor].
  rewrite filter_nil in Hperm. cbn [app] in Hperm.
  unfold eval_rpn.
  destruct (eval_loop idx rpn []) as [[|out [|? ?]]|] eqn:E; try discriminate.
  intros _. apply eval_loop_height in E. cbn [length] in E.
  rewrite !(count_type_perm _ _ _ Hperm) in E.
  rewrite !count_type_filter_not_paren in E by discriminate.
  lia.
Qed.

Lemma evaluated_query_arity_witness :
  tokenize_query (lit "fox (brown || !lazy)") <> []
  /\ evaluate example_index (lit "fox (brown || !lazy)") = Some [1; 2]
  /\ count_type TOK_TERM (tokenize_query (lit "fox (brown || !lazy)")) = 3%nat
  /\ count_type TOK_TERM (tokenize_query (lit "fox (brown || !lazy)"))
     = S (count_type TOK_AND (tokenize_query (lit "fox (brown || !lazy)"))
          + count_type TOK_OR (tokenize_query (lit "fox (brown || !lazy)"))).
Proof.
  assert (H1 : tokenize_query (lit "fox (brown || !lazy)") <> [])
    by (vm_compute; discriminate).
  assert (H2 : evaluate example_index (lit "fox (brown || !lazy)") = Some [1; 2])
    by (vm_compute; reflexivity).
  split; [exact H1 |]. split; [exact H2 |]. split; [vm_compute; reflexivity |].
  apply (evaluated_query_arity example_index _ [1; 2] H1 H2).
Defined.

End arity_facts.

(** ** Queries are case-insensitive *)

Section case_facts.
Import CLib SearchCli LexerSpec QueryAux.

Lemma tolower_tests (c : ascii) :
  isspace (tolower c) = isspace c
  /\ isalnum (tolower c) = isalnum c
  /\ tolower (tolower c) = tolower c
  /\ bool_decide (tolower c = "&"%char) = bool_decide (c = "&"%char)
  /\ bool_decide (tolower c = "|"%char) = bool_decide (c = "|"%char)
  /\ bool_decide (tolower c = "!"%char) = bool_decide (c = "!"%char)
  /\ bool_decide (tolower c = "("%char) = bool_decide (c = "("%char)
  /\ bool_decide (tolower c = ")"%char) = bool_decide (c = ")"%char).
Proof.
  destruct c as [[] [] [] [] [] [] [] []]; vm_compute; repeat split.
Qed.

Lemma map_tolower_idemp (l : list ascii) :
  map tolower (map tolower l) = map tolower l.
Proof.
  induction l as [|c l IH]; [reflexivity |]. cbn [map].
  rewrite IH. f_equal. apply (tolower_tests c).
Qed.

Lemma span_isalnum_tolower (q : list ascii) :
  span isalnum (map tolower q)
  = (map tolower (span isalnum q).1, map tolower (span isalnum q).2).
Proof.
  induction q as [|d q IH]; [reflexivity |]. cbn [map span].
  destruct (tolower_tests d) as (_ & -> & _). rewrite IH.
  destruct (isalnum d); [|reflexivity].
  destruct (span isalnum q). reflexivity.
Qed.

Lemma next_is_tolower (q : list ascii) (c : ascii) :
  (forall d, bool_decide (tolower d = c) = bool_decide (d = c)) ->
  next_is (map tolower q) c = next_is q c.
Proof. intros H. destruct q as [|d q]; [reflexivity |]. apply H. Qed.

Lemma term_token_tolower (run : list ascii) :
  term_token (map tolower run) = term_token run.
Proof. unfold term_token. rewrite map_tolower_idemp. reflexivity. Qed.

Lemma tokenize_raw_tolower (q : list ascii) :
  tokenize_raw (map tolower q) = tokenize_raw q.
Proof.
  remember (length q) as n eqn:Hn.
  revert q Hn. induction n as [n IH] using lt_wf_ind. intros q Hn.
  destruct q as [|ch q1]; [reflexivity |].
  cbn [map]. rewrite !tokenize_raw_step.
  destruct (tolower_tests ch) as (-> & -> & _ & -> & -> & -> & -> & ->).
  rewrite !next_is_tolower by (intros d; apply (tolower_tests d)).
  rewrite span_isalnum_tolower. cbn [fst snd].
  assert (H1 : tokenize_raw (map tolower q1) = tokenize_raw q1)
    by (apply (IH (length q1)); [subst n; simpl; lia | reflexivity]).
  assert (H2 : tokenize_raw (tail (map tolower q1)) = tokenize_raw (tail q1)).
  { destruct q1 as [|c2 q2]; [reflexivity |]. cbn [map tail].
    apply (IH (length q2)); [subst n; simpl; lia | reflexivity]. }
  assert (H3 : tokenize_raw (map tolower (span isalnum q1).2)
               = tokenize_raw (span isalnum q1).2).
  { apply (IH (length (span isalnum q1).2)); [|reflexivity].
    pose proof (span_rest_length isalnum q1). subst n. simpl. lia. }
  rewrite H1, H2, H3.
  change (tolower ch :: map tolower (span isalnum q1).1)
    with (map tolower (ch :: (span isalnum q1).1)).
  rewrite term_token_tolower. reflexivity.
Qed.

(** X4. Queries are case-insensitive: a query and the same query with
    its upper-case letters replaced by lower-case ones are lexed to the
    same tokens, so they print the same lines (or both fail). *)
Theorem query_case_insensitive (idx : IndexData) (q : list ascii)
    (offset limit : Z) :
  tokenize_query (map tolower q) = tokenize_query q
  /\ run_single_query idx (map tolower q) offset limit
     = run_single_query idx q offset limit.
Proof.
  assert (H : tokenize_query (map tolower q) = tokenize_query q)
    by (unfold tokenize_query; rewrite tokenize_raw_tolower; reflexivity).
  split; [exact H |]. unfold run_single_query. rewrite H. reflexivity.
Qed.

End case_facts.

(** ** The window of results that is printed *)

Section print_facts.
Import CLib SearchCli OutputSpec.

(** X5. [print_results] prints the header with the number of results,
    then at most [limit] DOC lines, which present consecutive results
    from the position [offset] on: a result before [offset] is never
    printed, and no result is printed twice or out of order. *)
Theorem print_results_at_most_limit (idx : IndexData) (res : list Z)
    (offset limit : Z) :
  0 <= offset < 2 ^ 32 -> 0 <= limit < 2 ^ 32 ->
  exists k : nat,
    Z.of_nat k <= limit
    /\ print_results idx res offset limit
       = TOTAL (Z.of_nat (length res))
           :: map (doc_line idx) (take k (drop (Z.to_nat offset) res)).
Proof.
  intros Hoff Hlim. unfold print_results.
  destruct (Z.geb_spec offset (Z.of_nat (length res))) as [Hge | Hlt].
  - exists 0%nat. split; [lia |]. rewrite take_0. reflexivity.
  - set (end0 := wrap32 (offset + limit)).
    set (end1 := if end0 >? Z.of_nat (length res)
                 then Z.of_nat (length res) else end0).
    exists (Z.to_nat (end1 - offset)).
    assert (Hend0 : end0 = offset + limit \/ end0 < offset).
    { subst end0. unfold wrap32.
      destruct (Z.lt_ge_cases (offset + limit) (2 ^ 32)) as [Hs | Hs].
      - left. apply Z.mod_small. lia.
      - right. replace (offset + limit) with (offset + limit - 2 ^ 32 + 1 * 2 ^ 32) by lia.
        rewrite Z.mod_add by lia. rewrite Z.mod_small by lia. lia. }
    assert (Hend1 : end1 <= Z.of_nat (length res) /\ end1 <= end0).
    { subst end1. destruct (Z.gtb_spec end0 (Z.of_nat (length res))); lia. }
    split; [lia |]. f_equal.
    apply doc_lines_window; lia.
Qed.

Lemma print_results_at_most_limit_witness :
  0 <= 1 < 2 ^ 32 /\ 0 <= 1 < 2 ^ 32
  /\ exists k : nat,
       Z.of_nat k <= 1
       /\ print_results Examples.example_index [1; 2; 3] 1 1
          = TOTAL (Z.of_nat (length [1; 2; 3]))
              :: map (doc_line Examples.example_index)
                   (take k (drop (Z.to_nat 1) [1; 2; 3])).
Proof.
  split; [lia |]. split; [lia |].
  apply (print_results_at_most_limit Examples.example_index [1; 2; 3] 1 1); lia.
Defined.

End print_facts.

(** ** The merges compute the set operations *)

Section set_theorems.
Import CLib SearchCli PostingSpec IndexSpec QueryAux Examples.

Lemma ascending_NoDup (l : list Z) : ascending l -> NoDup l.
Proof.
  induction l as [|x l IH]; intros Hl; [constructor |].
  apply ascending_cons_inv in Hl as Hl'. destruct Hl' as [Hl' Hall].
  constructor; [|apply IH, Hl'].
  intros Hx. rewrite Forall_forall in Hall. specialize (Hall x Hx). lia.
Qed.



(** X7. On a strictly ascending universe and a strictly ascending
    posting list, [op_not] returns the ids of the universe that are not
    in the list, as a strictly ascending list; an id of the list that is
    not in the universe is ignored. *)
Theorem op_not_is_complement (idx : IndexData) (a : list Z) :
  ascending (universe_ids idx) -> ascending a ->
  ascending (op_not idx a)
  /\ forall d, d ∈ op_not idx a <-> d ∈ universe_ids idx /\ d ∉ a.
Proof.
  intros Hu Ha. unfold op_not. split; [apply not_walk_ascending, Hu |].
  intros d. apply elem_of_not_walk; assumption.
Qed.

Lemma op_not_is_complement_witness :
  ascending (universe_ids example_index) /\ ascending [0; 2; 7]
  /\ op_not example_index [0; 2; 7] = [1; 3]
  /\ ascending (op_not example_index [0; 2; 7]).
Proof.
  assert (H1 : ascending (universe_ids example_index))
    by (apply ascending_decide; reflexivity).
  assert (H2 : ascending [0; 2; 7]) by (apply ascending_decide; reflexivity).
  split; [exact H1 |]. split; [exact H2 |]. split; [reflexivity |].
  apply (op_not_is_complement _ _ H1 H2).
Defined.

(** X8. On an index that satisfies the invariants of the data model,
    every result list is strictly ascending, holds no doc_id twice and
    holds doc_ids of the universe only. *)
Theorem evaluate_result_ascending (idx : IndexData) (q : list ascii)
    (r : list Z) :
  well_formed idx -> evaluate idx q = Some r ->
  ascending r /\ NoDup r /\ forall d, d ∈ r -> d ∈ universe_ids idx.
Proof.
  intros Hwf Hr. destruct (evaluate_in_universe idx q r Hwf Hr) as [Hasc Hsub].
  split; [exact Hasc |]. split; [apply ascending_NoDup, Hasc | exact Hsub].
Qed.

Lemma evaluate_result_ascending_witness :
  well_formed example_index
  /\ evaluate example_index (lit "quick || lazy") = Some [1; 2; 3]
  /\ NoDup [1; 2; 3].
Proof.
  assert (H : evaluate example_index (lit "quick || lazy") = Some [1; 2; 3])
    by (vm_compute; reflexivity).
  split; [apply example_index_well_formed |]. split; [exact H |].
  apply (evaluate_result_ascending example_index _ _
           example_index_well_formed H).
Defined.

Lemma op_not_involutive (idx : IndexData) (r : list Z) :
  ascending (universe_ids idx) -> in_universe idx r ->
  op_not idx (op_not idx r) = r.
Proof.
  intros Hu [Hr Hsub]. apply ascending_ext.
  - apply not_walk_ascending, Hu.
  - exact Hr.
  - intros d. unfold op_not.
    rewrite elem_of_not_walk by (auto using not_walk_ascending).
    rewrite elem_of_not_walk by assumption.
    split.
    + intros [Hd Hn]. destruct (decide (d ∈ r)); [assumption |].
      exfalso. apply Hn. auto.
    + intros Hd. split; [apply Hsub, Hd |]. intros [_ Hn]. contradiction.
Qed.

(** X9. Double negation: on an index that satisfies the invariants of
    the data model, for a query [q] that has a token and evaluates,
    [!(!(q))] evaluates to the same posting list. *)
Theorem double_negation (idx : IndexData) (q : list ascii) (r : list Z) :
  well_formed idx ->
  tokenize_query q <> [] ->
  evaluate idx q = Some r ->
  evaluate idx (negated (negated q)) = Some r.
Proof.
  intros Hwf Hne Hr.
  rewrite (evaluate_negated idx (negated q) (op_not idx r)).
  - f_equal. apply op_not_involutive.
    + apply (universe_ascending idx Hwf).
    + apply (evaluate_in_universe idx q r Hwf Hr).
  - rewrite tokenize_query_negated. discriminate.
  - apply evaluate_negated; assumption.
Qed.

Lemma double_negation_witness :
  well_formed example_index
  /\ tokenize_query (lit "quick") <> []
  /\ evaluate example_index (lit "quick") = Some [1; 2]
  /\ evaluate example_index (lit "!(!(quick))") = Some [1; 2].
Proof.
  assert (H1 : tokenize_query (lit "quick") <> []) by (vm_compute; discriminate).
  assert (H2 : evaluate example_index (lit "quick") = Some [1; 2])
    by (vm_compute; reflexivity).
  split; [apply example_index_well_formed |]. split; [exact H1 |].
  split; [exact H2 |].
  apply (double_negation example_index (lit "quick") [1; 2]
           example_index_well_formed H1 H2).
Defined.

End set_theorems.

(** ** The binary search of the lexicon *)

Section binary_search.
Import CLib SearchCli LexiconSpec IndexSpec QueryAux Examples LookupAux.

Lemma bytes_compare_antisym (a b : list ascii) :
  bytes_compare b a = CompOpp (bytes_compare a b).
Proof.
  revert b. induction a as [|x a IH]; intros [|y b]; cbn [bytes_compare];
    try reflexivity.
  rewrite (Z.compare_antisym (uchar x) (uchar y)).
  destruct (uchar x ?= uchar y); cbn [CompOpp]; auto.
Qed.

Lemma bytes_compare_trans (a b c : list ascii) :
  bytes_compare a b = Lt -> bytes_compare b c = Lt -> bytes_compare a c = Lt.
Proof.
  revert b c. induction a as [|x a IH]; intros [|y b] [|z c];
    cbn [bytes_compare]; try discriminate; try reflexivity.
  destruct (Z.compare_spec (uchar x) (uchar y)) as [Hxy | Hxy | Hxy];
    try discriminate;
    destruct (Z.compare_spec (uchar y) (uchar z)) as [Hyz | Hyz | Hyz];
    try discriminate; intros H1 H2.
  - rewrite Hxy, Hyz, Z.compare_refl. eauto.
  - replace (uchar x ?= uchar z) with Lt by (symmetry; apply Z.compare_lt_iff; lia).
    reflexivity.
  - replace (uchar x ?= uchar z) with Lt by (symmetry; apply Z.compare_lt_iff; lia).
    reflexivity.
  - replace (uchar x ?= uchar z) with Lt by (symmetry; apply Z.compare_lt_iff; lia).
    reflexivity.
Qed.

Lemma strictly_ascending_lexicon_sorted (lex : list LexEntry) :
  strictly_ascending_terms (map term lex) -> lexicon_sorted lex.
Proof.
  intros H. apply Sorted_StronglySorted.
  - intros a b c. apply bytes_compare_trans.
  - unfold strictly_ascending_terms in H.
    induction lex as [|e lex IH]; [constructor |].
    cbn [map] in H. apply Sorted_inv in H as [H Hhd].
    constructor; [apply IH, H |].
    destruct lex; constructor. apply HdRel_inv in Hhd. exact Hhd.
Qed.

Lemma lexicon_sorted_lookup (lex : list LexEntry) (i j : nat) (a b : LexEntry) :
  lexicon_sorted lex -> lex !! i = Some a -> lex !! j = Some b -> (i < j)%nat ->
  bytes_compare (term a) (term b) = Lt.
Proof.
  intros Hs. revert i j. induction Hs as [|e lex Hs IH Hall]; intros i j Hi Hj Hlt;
    [discriminate |].
  destruct j as [|j]; [lia |]. cbn in Hj.
  destruct i as [|i].
  - injection Hi as <-. rewrite Forall_forall in Hall.
    apply Hall. eapply list_elem_of_lookup_2, Hj.
  - cbn in Hi. apply (IH i j); [assumption | assumption | lia].
Qed.

Lemma lexicon_find_loop_sorted (fuel : nat) (lex : list LexEntry)
    (t : cstring) (lo hi : Z) :
  lexicon_sorted lex ->
  Forall (fun e => nul_free (term e)) lex -> nul_free t ->
  0 <= lo <= hi + 1 -> hi < Z.of_nat (length lex) ->
  hi - lo + 1 < Z.of_nat fuel ->
  (forall i e, lex !! i = Some e -> Z.of_nat i < lo ->
               bytes_compare (term e) t = Lt) ->
  (forall i e, lex !! i = Some e -> hi < Z.of_nat i ->
               bytes_compare (term e) t = Gt) ->
  (forall e, e ∈ lex -> term e = t ->
     lexicon_find_loop fuel lex t lo hi
     = Some (Some (postings_offset e, postings_count e)))
  /\ ((forall e, e ∈ lex -> term e <> t) ->
      lexicon_find_loop fuel lex t lo hi = Some None).
Proof.
  intros Hs Hnul Ht. revert lo hi.
  induction fuel as [|fuel IH]; intros lo hi Hlo Hhi Hfuel Hbelow Habove; [lia |].
  cbn [lexicon_find_loop].
  destruct (Z.leb_spec lo hi) as [Hle | Hgt].
  - assert (Hmid : lo <= Z.quot (lo + hi) 2 <= hi).
    { rewrite Z.quot_div_nonneg by lia.
      Z.to_euclidean_division_equations. lia. }
    set (mid := Z.quot (lo + hi) 2) in *.
    destruct (lex !! Z.to_nat mid) as [em|] eqn:Hlook;
      [|apply lookup_ge_None in Hlook; lia].
    assert (Hem : nul_free (term em)).
    { rewrite Forall_forall in Hnul. apply Hnul.
      eapply list_elem_of_lookup_2, Hlook. }
    pose proof (strcmp_sign t (term em) Ht Hem) as Hsign.
    destruct (Z.eqb_spec (strcmp t (term em)) 0) as [Heq | Hne].
    + rewrite Heq in Hsign. cbn in Hsign. symmetry in Hsign.
      apply bytes_compare_eq in Hsign. split.
      * intros e He Hterm. do 2 f_equal.
        apply list_elem_of_lookup_1 in He as [j Hj].
        destruct (Nat.lt_trichotomy j (Z.to_nat mid)) as [Hlt | [-> | Hlt]].
        -- pose proof (lexicon_sorted_lookup lex _ _ e em Hs Hj Hlook Hlt) as Hc.
           rewrite Hterm, Hsign, bytes_compare_refl in Hc. discriminate.
        -- rewrite Hlook in Hj. injection Hj as ->. reflexivity.
        -- pose proof (lexicon_sorted_lookup lex _ _ em e Hs Hlook Hj Hlt) as Hc.
           rewrite Hterm, Hsign, bytes_compare_refl in Hc. discriminate.
      * intros Hnone. exfalso. apply (Hnone em); [|auto].
        eapply list_elem_of_lookup_2, Hlook.
    + destruct (Z.ltb_spec (strcmp t (term em)) 0) as [Hlt | Hge].
      * assert (Hc : bytes_compare t (term em) = Lt)
          by (rewrite <- Hsign; apply Z.compare_lt_iff; exact Hlt).
        apply IH; [lia | lia | lia | exact Hbelow |].
        intros i e Hi Hgt.
        destruct (decide (i = Z.to_nat mid)) as [-> | Hni].
        -- rewrite Hlook in Hi. injection Hi as <-.
           rewrite bytes_compare_antisym, Hc. reflexivity.
        -- rewrite bytes_compare_antisym.
           rewrite (bytes_compare_trans t (term em) (term e) Hc); [reflexivity |].
           apply (lexicon_sorted_lookup lex (Z.to_nat mid) i em e Hs Hlook Hi). lia.
      * assert (Hc : bytes_compare (term em) t = Lt).
        { rewrite bytes_compare_antisym, <- Hsign.
          replace (strcmp t (term em) ?= 0) with Gt; [reflexivity |].
          symmetry. apply Z.compare_gt_iff. lia. }
        apply IH; [lia | lia | lia | | exact Habove].
        intros i e Hi Hlt.
        destruct (decide (i = Z.to_nat mid)) as [-> | Hni].
        -- rewrite Hlook in Hi. injection Hi as <-. exact Hc.
        -- destruct (Z.lt_ge_cases (Z.of_nat i) mid) as [Him | Him]; [|lia].
           apply (bytes_compare_trans _ (term em)); [|exact Hc].
           apply (lexicon_sorted_lookup lex i (Z.to_nat mid) e em Hs Hi Hlook). lia.
  - split; [|reflexivity].
    intros e He Hterm. exfalso.
    apply list_elem_of_lookup_1 in He as [j Hj].
    destruct (Z.lt_ge_cases (Z.of_nat j) lo) as [Hj1 | Hj1].
    + pose proof (Hbelow j e Hj Hj1) as Hc.
      rewrite Hterm, bytes_compare_refl in Hc. discriminate.
    + assert (Hj2 : hi < Z.of_nat j) by lia.
      pose proof (Habove j e Hj Hj2) as Hc.
      rewrite Hterm, bytes_compare_refl in Hc. discriminate.
Qed.

Lemma lexicon_find_of_sorted (idx : IndexData) (t : cstring) :
  strictly_ascending_terms (map term (lexicon idx)) ->
  Forall (fun e => nul_free (term e)) (lexicon idx) ->
  nul_free t ->
  (forall e, e ∈ lexicon idx -> term e = t ->
     lexicon_find idx t = Some (postings_offset e, postings_count e))
  /\ ((forall e, e ∈ lexicon idx -> term e <> t) -> lexicon_find idx t = None).
Proof.
  intros Hs Hnul Ht. unfold lexicon_find.
  destruct (lexicon_find_loop_sorted (S (length (lexicon idx))) (lexicon idx) t
              0 (term_count idx - 1)) as [Hfound Hmissing].
  - apply strictly_ascending_lexicon_sorted, Hs.
  - exact Hnul.
  - exact Ht.
  - unfold term_count. lia.
  - unfold term_count. lia.
  - unfold term_count. lia.
  - intros i e _ Hi. lia.
  - intros i e Hi Hgt. apply lookup_lt_Some in Hi. unfold term_count in Hgt. lia.
  - split.
    + intros e He Hterm. rewrite (Hfound e He Hterm). reflexivity.
    + intros Hnone. rewrite (Hmissing Hnone). reflexivity.
Qed.

(** X10. On a lexicon whose terms are C strings in strictly ascending
    byte order, the binary search of [lexicon_find] is a complete lookup:
    it returns the offset and the count of the entry of the term when the
    lexicon has one, and reports the term as missing otherwise. *)
Theorem lexicon_find_complete (idx : IndexData) (t : cstring) :
  strictly_ascending_terms (map term (lexicon idx)) ->
  Forall (fun e => nul_free (term e)) (lexicon idx) ->
  nul_free t ->
  (forall e, e ∈ lexicon idx -> term e = t ->
     lexicon_find idx t = Some (postings_offset e, postings_count e))
  /\ ((forall e, e ∈ lexicon idx -> term e <> t) -> lexicon_find idx t = None).
Proof. apply lexicon_find_of_sorted. Qed.

End binary_search.

Section binary_search_witness.
Import CLib SearchCli LexiconSpec IndexSpec QueryAux Examples.

Lemma nul_free_decide (s : list ascii) :
  forallb (fun c => negb (Ascii.eqb c Ascii.zero)) s = true -> nul_free s.
Proof.
  intros H. apply Forall_forall. intros c Hc%list_elem_of_In ->.
  rewrite forallb_forall in H. specialize (H _ Hc). discriminate H.
Qed.

Lemma example_lexicon_sorted :
  strictly_ascending_terms (map term (lexicon example_index)).
Proof. repeat constructor. Qed.

Lemma example_lexicon_nul_free :
  Forall (fun e => nul_free (term e)) (lexicon example_index).
Proof.
  cbn [lexicon example_index].
  repeat (apply Forall_cons_2; [apply nul_free_decide; reflexivity |]).
  constructor.
Qed.

Lemma lexicon_find_complete_witness :
  strictly_ascending_terms (map term (lexicon example_index))
  /\ Forall (fun e => nul_free (term e)) (lexicon example_index)
  /\ nul_free (lit "lazy")
  /\ lexicon_find example_index (lit "lazy") = Some (16, 1).
Proof.
  assert (Ht : nul_free (lit "lazy")) by (apply nul_free_decide; reflexivity).
  split; [apply example_lexicon_sorted |].
  split; [apply example_lexicon_nul_free |]. split; [exact Ht |].
  apply (proj1 (lexicon_find_complete example_index (lit "lazy")
                  example_lexicon_sorted example_lexicon_nul_free Ht)
           (entry "lazy" 16 1)).
  - cbn [lexicon example_index]. do 2 right. left.
  - reflexivity.
Defined.

End binary_search_witness.

(** ** The tokenizer: searching a byte *)

Section tokenizer_facts.
Import CLib Tokenizer TokenizerSpec LineSpec LexerSpec.

Lemma find_char_Some (c : ascii) (s : list ascii) (i : nat) :
  find_char c s = Some i -> s !! i = Some c /\ c ∉ take i s.
Proof.
  revert i. induction s as [|x s IH]; intros i; cbn [find_char]; [discriminate |].
  case_bool_decide as Hx.
  - subst x. intros [= <-]. split; [reflexivity | apply not_elem_of_nil].
  - destruct (find_char c s) as [j|]; [|discriminate].
    intros [= <-]. destruct (IH j eq_refl) as [Hj Hnot].
    split; [exact Hj |]. cbn [take]. apply not_elem_of_cons. split; [congruence | exact Hnot].
Qed.

Lemma find_char_none (c : ascii) (s : list ascii) :
  find_char c s = None <-> c ∉ s.
Proof.
  induction s as [|x s IH]; cbn [find_char].
  - split; [intros _; apply not_elem_of_nil | reflexivity].
  - rewrite not_elem_of_cons. case_bool_decide as Hx.
    + split; [discriminate | intros [H _]; congruence].
    + destruct (find_char c s); cbn.
      * split; [discriminate |]. intros [_ H]. apply IH in H. discriminate.
      * split; [|reflexivity]. intros _. split; [congruence | apply IH; reflexivity].
Qed.

(** A column without a tab, then a tab: the column is found. *)
Lemma find_char_app (c : ascii) (col rest : list ascii) :
  c ∉ col -> find_char c (col ++ c :: rest) = Some (length col).
Proof.
  intros Hnot. induction col as [|x col IH]; cbn [app find_char length].
  - rewrite bool_decide_eq_true_2 by reflexivity. reflexivity.
  - apply not_elem_of_cons in Hnot as [Hx Hnot].
    rewrite bool_decide_eq_false_2 by congruence.
    rewrite (IH Hnot). reflexivity.
Qed.

End tokenizer_facts.

(** ** The tokenizer: the tokens of a text *)

Section tokenize_text_facts.
Import CLib Tokenizer TokenizerSpec TokenizerAux LineSpec LexerSpec.

Lemma tokenize_text_loop_words (text : list ascii) (tokens : list (list ascii))
    (current : list ascii) :
  tokenize_text_loop text tokens current = tokens ++ words_from current text.
Proof.
  revert tokens current. induction text as [|ch rest IH]; intros tokens current;
    cbn [tokenize_text_loop words_from].
  - case_bool_decide; cbn [negb]; [rewrite app_nil_r|]; reflexivity.
  - destruct (isalnum ch); [apply IH |].
    case_bool_decide; cbn [negb app]; rewrite IH; [subst; reflexivity |].
    rewrite <- app_assoc. reflexivity.
Qed.

Lemma tokenize_text_words (text : list ascii) :
  tokenize_text text = words_from [] text.
Proof. apply (tokenize_text_loop_words text [] []). Qed.

Lemma tolower_clean (c : ascii) :
  isalnum c = true -> isalnum (tolower c) = true /\ isupper (tolower c) = false.
Proof.
  destruct c as [[] [] [] [] [] [] [] []]; vm_compute; intros H;
    try discriminate H; split; reflexivity.
Qed.

Lemma clean_byte_tests (c : ascii) :
  isalnum c = true -> isupper c = false ->
  tolower c = c /\ isspace c = false.
Proof.
  destruct c as [[] [] [] [] [] [] [] []]; vm_compute; intros H1 H2;
    try discriminate H1; try discriminate H2; split; reflexivity.
Qed.

Lemma words_from_clean (cur text : list ascii) :
  Forall (fun c => isalnum c = true /\ isupper c = false) cur ->
  Forall clean_token (words_from cur text).
Proof.
  revert cur. induction text as [|ch rest IH]; intros cur Hcur; cbn [words_from].
  - case_bool_decide; repeat constructor; assumption.
  - destruct (isalnum ch) eqn:Hch.
    + apply IH, Forall_app. split; [exact Hcur |].
      repeat constructor; apply (tolower_clean ch Hch).
    + apply Forall_app. split; [|apply IH; constructor].
      case_bool_decide; repeat constructor; assumption.
Qed.

(** A run of clean bytes is added to the run in progress. *)
Lemma words_from_run (cur t rest : list ascii) :
  Forall (fun c => isalnum c = true /\ isupper c = false) t ->
  words_from cur (t ++ rest) = words_from (cur ++ t) rest.
Proof.
  revert cur. induction t as [|c t IH]; intros cur Ht.
  - rewrite app_nil_r. reflexivity.
  - inversion Ht as [|? ? [Hc1 Hc2] Ht']; subst. cbn [app words_from].
    rewrite Hc1. destruct (clean_byte_tests c Hc1 Hc2) as [-> _].
    rewrite (IH _ Ht'), <- app_assoc. reflexivity.
Qed.

Lemma clean_token_no_space (t : list ascii) :
  clean_token t -> Forall (fun c => isspace c = false) t.
Proof.
  intros [_ Ht]. eapply Forall_impl; [exact Ht |].
  intros c [H1 H2]. apply (clean_byte_tests c H1 H2).
Qed.

(** The bytes written after a token start with a white-space byte. *)
Lemma put_tokens_next (i : nat) (tokens : list (list ascii)) :
  exists sp tl, put_tokens (S i) tokens ++ ["010"%char] = sp :: tl
                /\ isspace sp = true /\ isalnum sp = false.
Proof.
  destruct tokens as [|t r]; cbn [put_tokens app].
  - exists "010"%char, []. auto.
  - eexists " "%char, _. change (0 <? S i)%nat with true. cbn [app]. auto.
Qed.

Lemma split_runs_put_tokens (i : nat) (tokens : list (list ascii)) :
  Forall clean_token tokens ->
  split_runs [] (put_tokens (S i) tokens ++ ["010"%char]) = tokens.
Proof.
  revert i. induction tokens as [|t r IH]; intros i Hall; [reflexivity |].
  inversion Hall as [|? ? Ht Hr]; subst.
  cbn [put_tokens]. change (0 <? S i)%nat with true. cbn [app split_runs].
  change (isspace " "%char) with true. cbn iota.
  rewrite bool_decide_eq_true_2 by reflexivity. cbn [app].
  rewrite <- app_assoc.
  rewrite (split_runs_run [] t _ (clean_token_no_space t Ht)). cbn [app].
  destruct (put_tokens_next (S i) r) as (sp & tl & Heq & Hsp & _).
  pose proof (IH (S i) Hr) as IH'. rewrite Heq in *.
  cbn [split_runs] in *. rewrite Hsp in *.
  rewrite bool_decide_eq_false_2 by (apply Ht).
  rewrite bool_decide_eq_true_2 in IH' by reflexivity.
  cbn [app] in *. rewrite IH'. reflexivity.
Qed.

Lemma body_tokens_put_tokens (tokens : list (list ascii)) :
  Forall clean_token tokens ->
  body_tokens (put_tokens 0 tokens ++ ["010"%char]) = tokens.
Proof.
  intros Hall. unfold body_tokens.
  destruct tokens as [|t r]; [reflexivity |].
  inversion Hall as [|? ? Ht Hr]; subst.
  cbn [put_tokens]. change (0 <? 0)%nat with false. cbn [app].
  rewrite <- app_assoc.
  rewrite (split_runs_run [] t _ (clean_token_no_space t Ht)). cbn [app].
  destruct (put_tokens_next 0 r) as (sp & tl & Heq & Hsp & _).
  pose proof (split_runs_put_tokens 0 r Hr) as IH'. rewrite Heq in *.
  cbn [split_runs] in *. rewrite Hsp in *.
  rewrite bool_decide_eq_false_2 by (apply Ht).
  rewrite bool_decide_eq_true_2 in IH' by reflexivity.
  cbn [app] in *. rewrite IH'. reflexivity.
Qed.

Lemma words_from_put_tokens (i : nat) (tokens : list (list ascii)) :
  Forall clean_token tokens ->
  words_from [] (put_tokens (S i) tokens ++ ["010"%char]) = tokens.
Proof.
  revert i. induction tokens as [|t r IH]; intros i Hall; [reflexivity |].
  inversion Hall as [|? ? Ht Hr]; subst.
  cbn [put_tokens]. change (0 <? S i)%nat with true. cbn [app words_from].
  change (isalnum " "%char) with false. cbn iota.
  rewrite bool_decide_eq_true_2 by reflexivity. cbn [app].
  rewrite <- app_assoc.
  rewrite (words_from_run [] t _ (proj2 Ht)). cbn [app].
  destruct (put_tokens_next (S i) r) as (sp & tl & Heq & _ & Hsp).
  pose proof (IH (S i) Hr) as IH'. rewrite Heq in *.
  cbn [words_from] in *. rewrite Hsp in *.
  rewrite bool_decide_eq_false_2 by (apply Ht).
  rewrite bool_decide_eq_true_2 in IH' by reflexivity.
  cbn [app] in *. rewrite IH'. reflexivity.
Qed.

Lemma tokenize_text_put_tokens (tokens : list (list ascii)) :
  Forall clean_token tokens ->
  tokenize_text (put_tokens 0 tokens ++ ["010"%char]) = tokens.
Proof.
  intros Hall. rewrite tokenize_text_words.
  destruct tokens as [|t r]; [reflexivity |].
  inversion Hall as [|? ? Ht Hr]; subst.
  cbn [put_tokens]. change (0 <? 0)%nat with false. cbn [app].
  rewrite <- app_assoc.
  rewrite (words_from_run [] t _ (proj2 Ht)). cbn [app].
  destruct (put_tokens_next 0 r) as (sp & tl & Heq & _ & Hsp).
  pose proof (words_from_put_tokens 0 r Hr) as IH'. rewrite Heq in *.
  cbn [words_from] in *. rewrite Hsp in *.
  rewrite bool_decide_eq_false_2 by (apply Ht).
  rewrite bool_decide_eq_true_2 in IH' by reflexivity.
  cbn [app] in *. rewrite IH'. reflexivity.
Qed.

End tokenize_text_facts.

(** ** The tokenizer: the columns of a line *)

Section split_facts.
Import CLib Tokenizer TokenizerSpec TokenizerAux LineSpec.

Lemma find_col (line pre col rest : list ascii) (pos : nat) :
  pos = length pre -> line = pre ++ col ++ "009"%char :: rest ->
  "009"%char ∉ col ->
  find line "009"%char pos = Some (pos + length col)%nat.
Proof.
  intros -> -> Hnot. unfold find. rewrite drop_app_length.
  rewrite (find_char_app _ col rest Hnot). reflexivity.
Qed.

Lemma substr_col (line pre col rest : list ascii) (pos n : nat) :
  pos = length pre -> n = length col -> line = pre ++ col ++ rest ->
  substr line pos n = col.
Proof.
  intros -> -> ->. unfold substr. rewrite drop_app_length.
  apply take_app_length.
Qed.

Lemma tab_count_none (l : list ascii) :
  "009"%char ∉ l -> tab_count l = 0%nat.
Proof.
  unfold tab_count. induction l as [|x l IH]; intros Hnot; [reflexivity |].
  apply not_elem_of_cons in Hnot as [Hx Hnot].
  rewrite filter_cons. destruct (decide (x = "009"%char)); [congruence |].
  apply IH, Hnot.
Qed.

Lemma tab_count_app (l1 l2 : list ascii) :
  tab_count (l1 ++ l2) = (tab_count l1 + tab_count l2)%nat.
Proof. unfold tab_count. rewrite filter_app, length_app. reflexivity. Qed.

(** The tabs from a position on: a tab found is the first one. *)
Lemma find_tab_count (line : list ascii) (pos p : nat) :
  find line "009"%char pos = Some p ->
  (pos <= p)%nat
  /\ ("009"%char ∉ substr line pos (p - pos))
  /\ tab_count (drop pos line) = S (tab_count (drop (p + 1) line)).
Proof.
  unfold find, substr.
  destruct (find_char "009"%char (drop pos line)) as [i|] eqn:E; [|discriminate].
  intros [= <-]. apply find_char_Some in E as [Hi Hnot].
  replace (pos + i - pos)%nat with i by lia.
  split; [lia |]. split; [exact Hnot |].
  rewrite <- (take_drop i (drop pos line)) at 1.
  rewrite tab_count_app, (tab_count_none _ Hnot).
  rewrite drop_drop. rewrite lookup_drop in Hi.
  rewrite (drop_S _ _ _ Hi).
  replace (pos + i + 1)%nat with (S (pos + i)) by lia.
  unfold tab_count. rewrite filter_cons.
  destruct (decide ("009"%char = "009"%char)); [reflexivity | congruence].
Qed.

Lemma tab_count_drop (line : list ascii) (pos : nat) :
  (tab_count (drop pos line) <= tab_count line)%nat.
Proof.
  rewrite <- (take_drop pos line) at 2. rewrite tab_count_app. lia.
Qed.

(** A line whose text column is not empty has four tabs at least, and
    its first four columns hold no tab. *)
Lemma split_tsv_5_text (line : list ascii) :
  c5 (split_tsv_5 line) <> [] ->
  (4 <= tab_count line)%nat
  /\ ("009"%char ∉ c1 (split_tsv_5 line)).
Proof.
  unfold split_tsv_5.
  destruct (find line "009"%char 0) as [p1|] eqn:E1; [|cbn; congruence].
  destruct (find line "009"%char (p1 + 1)) as [p2|] eqn:E2; [|cbn; congruence].
  destruct (find line "009"%char (p2 + 1)) as [p3|] eqn:E3; [|cbn; congruence].
  destruct (find line "009"%char (p3 + 1)) as [p4|] eqn:E4; [|cbn; congruence].
  cbn [c5 c1]. intros _.
  apply find_tab_count in E1 as (_ & Hn1 & H1).
  apply find_tab_count in E2 as (_ & _ & H2).
  apply find_tab_count in E3 as (_ & _ & H3).
  apply find_tab_count in E4 as (_ & _ & H4).
  rewrite drop_0 in H1. rewrite Nat.sub_0_r in Hn1.
  split; [lia | exact Hn1].
Qed.

Lemma line_tokens_Some (line doc_id : list ascii) (tokens : list (list ascii)) :
  line_tokens line = Some (doc_id, tokens) ->
  doc_id = c1 (split_tsv_5 line) /\ tokens = tokenize_text (c5 (split_tsv_5 line))
  /\ doc_id <> [] /\ tokens <> [] /\ c5 (split_tsv_5 line) <> [].
Proof.
  unfold line_tokens. case_bool_decide; [discriminate |].
  case_bool_decide as H1; [discriminate |].
  case_bool_decide as H5; [discriminate |]. cbn [orb].
  case_bool_decide as Ht; [discriminate |].
  intros [= <- <-]. auto.
Qed.

End split_facts.

(** ** The tokenizer: a line *)

Section tokenizer_theorems.
Import CLib Tokenizer TokenizerSpec TokenizerAux LineSpec.

Lemma tokenize_text_tokens_clean (text : list ascii) :
  Forall clean_token (tokenize_text text).
Proof. rewrite tokenize_text_words. apply words_from_clean. constructor. Qed.

(** X11. Every token that [tokenize_text] returns is a non-empty run of
    digits and lower-case letters: no token is empty, and no token holds
    an upper-case letter, a white-space byte or any other byte. *)
Theorem tokenize_text_clean (text : list ascii) :
  Forall clean_token (tokenize_text text)
  /\ Forall (fun t => Forall (fun c => isspace c = false) t) (tokenize_text text).
Proof.
  pose proof (tokenize_text_tokens_clean text) as H.
  split; [exact H |].
  eapply Forall_impl; [exact H |]. apply clean_token_no_space.
Qed.

(** X12. [split_tsv_5] inverts the joining of five columns with tabs: a
    line made of four columns without a tab and of a fifth column, each
    followed by a tab but the last, is split into these five columns (the
    fifth column keeps the tabs that it holds). *)
Theorem split_tsv_5_of_joined (a b c d e : list ascii) :
  "009"%char ∉ a -> "009"%char ∉ b -> "009"%char ∉ c -> "009"%char ∉ d ->
  split_tsv_5 (a ++ "009"%char :: b ++ "009"%char :: c ++ "009"%char
                 :: d ++ "009"%char :: e)
  = {| c1 := a; c2 := b; c3 := c; c4 := d; c5 := e |}.
Proof.
  intros Ha Hb Hc Hd. unfold split_tsv_5.
  set (line := a ++ "009"%char :: b ++ "009"%char :: c ++ "009"%char
                 :: d ++ "009"%char :: e).
  assert (E1 : find line "009"%char 0 = Some (length a)).
  { apply (find_col line [] a _ 0 eq_refl eq_refl Ha). }
  assert (E2 : find line "009"%char (length a + 1)
               = Some (length a + 1 + length b)%nat).
  { apply (find_col line (a ++ ["009"%char]) b
             (c ++ "009"%char :: d ++ "009"%char :: e)); [| |exact Hb].
    - rewrite length_app. reflexivity.
    - subst line. rewrite <- app_assoc. reflexivity. }
  assert (E3 : find line "009"%char (length a + 1 + length b + 1)
               = Some (length a + 1 + length b + 1 + length c)%nat).
  { apply (find_col line (a ++ "009"%char :: b ++ ["009"%char]) c
             (d ++ "009"%char :: e)); [| |exact Hc].
    - rewrite length_app. cbn [length]. rewrite length_app. cbn [length]. lia.
    - subst line. rewrite <- app_assoc. cbn [app]. rewrite <- app_assoc.
      reflexivity. }
  assert (E4 : find line "009"%char (length a + 1 + length b + 1 + length c + 1)
               = Some (length a + 1 + length b + 1 + length c + 1 + length d)%nat).
  { apply (find_col line (a ++ "009"%char :: b ++ "009"%char :: c ++ ["009"%char])
             d e); [| |exact Hd].
    - rewrite length_app. cbn [length]. rewrite length_app. cbn [length].
      rewrite length_app. cbn [length]. lia.
    - subst line. rewrite <- app_assoc. cbn [app]. rewrite <- app_assoc.
      cbn [app]. rewrite <- app_assoc. reflexivity. }
  rewrite E1, E2, E3, E4. f_equal.
  - apply (substr_col line [] a _ 0 _ eq_refl eq_refl eq_refl).
  - apply (substr_col line (a ++ ["009"%char]) b
             ("009"%char :: c ++ "009"%char :: d ++ "009"%char :: e)).
    + rewrite length_app. reflexivity.
    + lia.
    + subst line. rewrite <- app_assoc. reflexivity.
  - apply (substr_col line (a ++ "009"%char :: b ++ ["009"%char]) c
             ("009"%char :: d ++ "009"%char :: e)).
    + rewrite length_app. cbn [length]. rewrite length_app. cbn [length]. lia.
    + lia.
    + subst line. rewrite <- app_assoc. cbn [app]. rewrite <- app_assoc.
      reflexivity.
  - apply (substr_col line (a ++ "009"%char :: b ++ "009"%char :: c ++ ["009"%char])
             d ("009"%char :: e)).
    + rewrite length_app. cbn [length]. rewrite length_app. cbn [length].
      rewrite length_app. cbn [length]. lia.
    + lia.
    + subst line. rewrite <- app_assoc. cbn [app]. rewrite <- app_assoc.
      cbn [app]. rewrite <- app_assoc. reflexivity.
  - unfold substr_from. subst line.
    replace (a ++ "009"%char :: b ++ "009"%char :: c ++ "009"%char
               :: d ++ "009"%char :: e)
      with ((a ++ "009"%char :: b ++ "009"%char :: c ++ "009"%char
               :: d ++ ["009"%char]) ++ e).
    + apply drop_app_length'.
      rewrite length_app. cbn [length]. rewrite length_app. cbn [length].
      rewrite length_app. cbn [length]. rewrite length_app. cbn [length]. lia.
    + rewrite <- app_assoc. cbn [app]. rewrite <- app_assoc.
      cbn [app]. rewrite <- app_assoc. cbn [app]. rewrite <- app_assoc.
      reflexivity.
Qed.

(** X13. A line with fewer than four tabs has an empty text column, and
    [main] skips it: nothing is written for a document whose line has
    fewer than five columns. *)
Theorem short_line_skipped (line : list ascii) :
  (tab_count line < 4)%nat ->
  c5 (split_tsv_5 line) = [] /\ line_output line = None.
Proof.
  intros Hlt.
  assert (H5 : c5 (split_tsv_5 line) = []).
  { destruct (decide (c5 (split_tsv_5 line) = [])) as [H | H]; [exact H |].
    apply split_tsv_5_text in H as [H _]. lia. }
  split; [exact H5 |].
  unfold line_output, line_tokens. case_bool_decide; [reflexivity |].
  rewrite (bool_decide_eq_true_2 (c5 _ = [])) by exact H5.
  rewrite orb_true_r. reflexivity.
Qed.

(** X14. A line that [main] writes is read back as it was meant: it
    starts with the doc_id column, which holds no tab, followed by a tab;
    the rest of the line, split at white space as the stemmer and the
    index builder split it, is the list of tokens of the text column, and
    so is the rest of the line tokenized again. *)
Theorem tokenizer_line_read_back (line out : list ascii) :
  line_output line = Some out ->
  exists body,
    out = c1 (split_tsv_5 line) ++ "009"%char :: body
    /\ ("009"%char ∉ c1 (split_tsv_5 line))
    /\ body_tokens body = tokenize_text (c5 (split_tsv_5 line))
    /\ tokenize_text body = tokenize_text (c5 (split_tsv_5 line)).
Proof.
  unfold line_output.
  destruct (line_tokens line) as [[doc_id tokens]|] eqn:E; [|discriminate].
  intros [= <-].
  apply line_tokens_Some in E as (-> & -> & _ & _ & H5).
  exists (put_tokens 0 (tokenize_text (c5 (split_tsv_5 line))) ++ ["010"%char]).
  split; [reflexivity |].
  split; [apply (split_tsv_5_text line H5) |].
  pose proof (tokenize_text_tokens_clean (c5 (split_tsv_5 line))) as Hclean.
  split.
  - apply body_tokens_put_tokens, Hclean.
  - apply tokenize_text_put_tokens, Hclean.
Qed.

End tokenizer_theorems.

Section tokenizer_witnesses.
Import CLib Tokenizer TokenizerSpec TokenizerAux LineSpec.

Lemma not_elem_of_decide (c : ascii) (l : list ascii) :
  forallb (fun x => negb (Ascii.eqb x c)) l = true -> c ∉ l.
Proof.
  intros H Hin%list_elem_of_In. rewrite forallb_forall in H.
  specialize (H c Hin). rewrite Ascii.eqb_refl in H. discriminate H.
Qed.

Lemma split_tsv_5_of_joined_witness :
  split_tsv_5 (lit "7" ++ "009"%char :: lit "wiki" ++ "009"%char
                 :: lit "http://u/7" ++ "009"%char :: lit "On Foxes" ++ "009"%char
                 :: lit "The quick fox")
  = {| c1 := lit "7"; c2 := lit "wiki"; c3 := lit "http://u/7";
       c4 := lit "On Foxes"; c5 := lit "The quick fox" |}.
Proof.
  apply (split_tsv_5_of_joined (lit "7") (lit "wiki") (lit "http://u/7")
           (lit "On Foxes") (lit "The quick fox"));
    apply not_elem_of_decide; reflexivity.
Defined.

Lemma short_line_skipped_witness :
  (tab_count (lit "7" ++ "009"%char :: lit "wiki" ++ "009"%char
                :: lit "http://u/7" ++ "009"%char :: lit "The quick fox") < 4)%nat
  /\ line_output (lit "7" ++ "009"%char :: lit "wiki" ++ "009"%char
                    :: lit "http://u/7" ++ "009"%char :: lit "The quick fox")
     = None.
Proof.
  assert (H : (tab_count (lit "7" ++ "009"%char :: lit "wiki" ++ "009"%char
                 :: lit "http://u/7" ++ "009"%char :: lit "The quick fox") < 4)%nat)
    by (vm_compute; lia).
  split; [exact H |].
  apply (short_line_skipped _ H).
Defined.

Lemma tokenizer_line_read_back_witness :
  line_output (lit "7" ++ "009"%char :: lit "wiki" ++ "009"%char
                 :: lit "http://u/7" ++ "009"%char :: lit "On Foxes" ++ "009"%char
                 :: lit "The quick-fox, 2 Foxes!")
  = Some (lit "7" ++ "009"%char :: lit "the quick fox 2 foxes" ++ ["010"%char])
  /\ exists body,
       lit "7" ++ "009"%char :: lit "the quick fox 2 foxes" ++ ["010"%char]
       = lit "7" ++ "009"%char :: body
       /\ body_tokens body
          = [lit "the"; lit "quick"; lit "fox"; lit "2"; lit "foxes"].
Proof.
  assert (H : line_output (lit "7" ++ "009"%char :: lit "wiki" ++ "009"%char
                 :: lit "http://u/7" ++ "009"%char :: lit "On Foxes" ++ "009"%char
                 :: lit "The quick-fox, 2 Foxes!")
              = Some (lit "7" ++ "009"%char :: lit "the quick fox 2 foxes"
                        ++ ["010"%char]))
    by (vm_compute; reflexivity).
  split; [exact H |].
  destruct (tokenizer_line_read_back _ _ H) as (body & Hout & _ & Hbody & _).
  exists body. split; [exact Hout |]. rewrite Hbody. vm_compute. reflexivity.
Defined.

End tokenizer_witnesses.

(** ** The terms of a query and the terms of a document *)

Section query_terms.
Import CLib SearchCli Tokenizer TokenizerSpec TokenizerAux LineSpec LexerSpec QueryAux.

Lemma words_from_skip (ch : ascii) (rest : list ascii) :
  isalnum ch = false -> words_from [] (ch :: rest) = words_from [] rest.
Proof.
  intros H. cbn [words_from]. rewrite H.
  rewrite bool_decide_eq_true_2 by reflexivity. reflexivity.
Qed.

Lemma words_from_span (cur q : list ascii) :
  cur <> [] ->
  words_from cur q
  = (cur ++ map tolower (span isalnum q).1) :: words_from [] (span isalnum q).2.
Proof.
  revert cur. induction q as [|d q IH]; intros cur Hcur; cbn [words_from span].
  - rewrite bool_decide_eq_false_2 by exact Hcur. cbn. rewrite app_nil_r. reflexivity.
  - destruct (isalnum d) eqn:Hd.
    + rewrite IH by (destruct cur; discriminate).
      destruct (span isalnum q) as [run rest]. cbn [fst snd map].
      rewrite <- app_assoc. reflexivity.
    + rewrite bool_decide_eq_false_2 by exact Hcur. cbn [fst snd map app].
      rewrite app_nil_r, (words_from_skip d q Hd). reflexivity.
Qed.

Lemma not_alnum_of_test (c : ascii) :
  isspace c = true \/ c = "&"%char \/ c = "|"%char \/ c = "!"%char
  \/ c = "("%char \/ c = ")"%char ->
  isalnum c = false.
Proof.
  intros H. destruct (isalnum c) eqn:E; [|reflexivity].
  destruct (isalnum_plain c E) as (H1 & H2 & H3 & H4 & H5 & H6).
  destruct H as [H | [H | [H | [H | [H | H]]]]]; congruence.
Qed.

Lemma term_texts_raw (q : list ascii) :
  term_texts (tokenize_raw q) = map stem_term_inplace (words_from [] q).
Proof.
  remember (length q) as n eqn:Hn.
  revert q Hn. induction n as [n IH] using lt_wf_ind. intros q Hn.
  destruct q as [|ch q1]; [reflexivity |].
  rewrite tokenize_raw_step.
  assert (H1 : term_texts (tokenize_raw q1) = map stem_term_inplace (words_from [] q1))
    by (apply (IH (length q1)); [subst n; simpl; lia | reflexivity]).
  assert (H3 : term_texts (tokenize_raw (span isalnum q1).2)
               = map stem_term_inplace (words_from [] (span isalnum q1).2)).
  { apply (IH (length (span isalnum q1).2)); [|reflexivity].
    pose proof (span_rest_length isalnum q1). subst n. simpl. lia. }
  destruct (isspace ch) eqn:Hsp.
  { rewrite words_from_skip by (apply not_alnum_of_test; auto). exact H1. }
  assert (Hpair : forall c, c = "&"%char \/ c = "|"%char ->
            bool_decide (ch = c) && next_is q1 c = true -> forall ty,
            term_texts (op_token ty :: tokenize_raw (tail q1))
            = map stem_term_inplace (words_from [] (ch :: q1))).
  { intros c Hc [Hch Hnext]%andb_prop ty.
    apply bool_decide_eq_true in Hch. subst ch.
    destruct q1 as [|c2 q2]; [discriminate |].
    cbn [next_is] in Hnext. apply bool_decide_eq_true in Hnext. subst c2.
    cbn [tail].
    rewrite !words_from_skip by (apply not_alnum_of_test; tauto).
    replace (term_texts (op_token ty :: tokenize_raw q2))
      with (term_texts (tokenize_raw q2)) by (destruct ty; reflexivity).
    apply (IH (length q2)); [subst n; simpl; lia | reflexivity]. }
  destruct (bool_decide (ch = "&"%char) && next_is q1 "&"%char) eqn:Hand.
  { apply (Hpair "&"%char); auto. }
  destruct (bool_decide (ch = "|"%char) && next_is q1 "|"%char) eqn:Hor.
  { apply (Hpair "|"%char); auto. }
  destruct (bool_decide_reflect (ch = "!"%char)) as [Hnot | Hnot].
  { rewrite words_from_skip by (apply not_alnum_of_test; tauto). exact H1. }
  destruct (bool_decide_reflect (ch = "("%char)) as [Hlp | Hlp].
  { rewrite words_from_skip by (apply not_alnum_of_test; tauto). exact H1. }
  destruct (bool_decide_reflect (ch = ")"%char)) as [Hrp | Hrp].
  { rewrite words_from_skip by (apply not_alnum_of_test; tauto). exact H1. }
  destruct (isalnum ch) eqn:Hal.
  - cbn [words_from]. rewrite Hal. cbn [app].
    rewrite words_from_span by discriminate. cbn [map].
    change (term_texts (term_token (ch :: (span isalnum q1).1)
                          :: tokenize_raw (span isalnum q1).2))
      with (stem_term_inplace (map tolower (ch :: (span isalnum q1).1))
              :: term_texts (tokenize_raw (span isalnum q1).2)).
    rewrite H3. reflexivity.
  - rewrite words_from_skip by exact Hal. exact H1.
Qed.

Lemma term_texts_app (l1 l2 : list Token) :
  term_texts (l1 ++ l2) = term_texts l1 ++ term_texts l2.
Proof. apply flat_map_app. Qed.

Lemma term_texts_implicit_and (raw : list Token) :
  term_texts (with_implicit_and raw) = term_texts raw.
Proof.
  induction raw as [|prev rest IH]; [reflexivity |].
  cbn [with_implicit_and].
  change (prev :: rest) with ([prev] ++ rest).
  rewrite (term_texts_app [prev] rest).
  match goal with
  | |- term_texts (prev :: ?l) = _ =>
      change (prev :: l) with ([prev] ++ l); rewrite (term_texts_app [prev] l)
  end.
  f_equal. destruct rest as [|cur rest']; [reflexivity |].
  rewrite term_texts_app, IH.
  destruct (needs_and prev cur); reflexivity.
Qed.

(** X15. The terms of a query are the terms of a document: for every
    text, the texts of the TERM tokens of the lexed query are, in order,
    the stems ([stem_token] of stemmer.cpp) of the tokens that
    [tokenize_text] of tokenizer.cpp returns for the same text; they are
    the stems that the stemmer writes for the line that the tokenizer
    writes. *)
Theorem query_terms_are_document_terms (q : list ascii) :
  term_texts (tokenize_query q) = map Stemmer.stem_token (tokenize_text q)
  /\ term_texts (tokenize_query q)
     = Stemmer.stem_body (put_tokens 0 (tokenize_text q) ++ ["010"%char]).
Proof.
  assert (H : term_texts (tokenize_query q)
              = map Stemmer.stem_token (tokenize_text q)).
  { unfold tokenize_query. rewrite expand_with_implicit_and.
    rewrite term_texts_implicit_and, term_texts_raw, tokenize_text_words.
    reflexivity. }
  split; [exact H |].
  rewrite H, stem_body_all_tokens, body_tokens_put_tokens; [reflexivity |].
  rewrite tokenize_text_words. apply words_from_clean. constructor.
Qed.

End query_terms.

(** ** The tokenizer: the whole input *)

Section tokenizer_main.
Import CLib Tokenizer TokenizerSpec TokenizerAux TokenizerMainSpec.

Lemma getline_loop_split (input cur : list ascii) :
  input <> [] \/ cur <> [] ->
  split_lines cur input
  = (getline_loop input cur).1 :: split_lines [] (getline_loop input cur).2.
Proof.
  revert cur. induction input as [|c rest IH]; intros cur Hne;
    cbn [split_lines getline_loop].
  - destruct Hne as [? | Hne]; [congruence |].
    rewrite bool_decide_eq_false_2 by exact Hne. reflexivity.
  - case_bool_decide; [reflexivity |].
    apply IH. right. destruct cur; discriminate.
Qed.

Lemma getline_loop_length (input cur : list ascii) :
  input <> [] -> (length (getline_loop input cur).2 < length input)%nat.
Proof.
  revert cur. induction input as [|c rest IH]; intros cur Hne; [congruence |].
  cbn [getline_loop length]. case_bool_decide; cbn [snd]; [lia |].
  destruct rest as [|c2 rest2]; [cbn; lia |].
  specialize (IH (cur ++ [c]) ltac:(discriminate)). cbn [length] in *. lia.
Qed.

Lemma wrap64_mod (x : Z) : wrap64 x = x mod 2 ^ 64.
Proof. unfold wrap64. apply Z.land_ones. lia. Qed.

Lemma wrap64_add (x y : Z) : wrap64 (wrap64 x + y) = wrap64 (x + y).
Proof. rewrite !wrap64_mod. apply Zplus_mod_idemp_l. Qed.

Lemma tokenizer_main_loop_fold (fuel : nat) (input : list ascii) (st : Output) :
  (length input < fuel)%nat ->
  main_loop fuel input st = Some (fold_left write_line (written input) st).
Proof.
  revert input st. induction fuel as [|fuel IH]; intros input st Hfuel; [lia |].
  cbn [main_loop]. unfold written.
  destruct input as [|c rest]; [reflexivity |].
  cbn [getline].
  rewrite (getline_loop_split (c :: rest) []) by (left; discriminate).
  pose proof (getline_loop_length (c :: rest) [] ltac:(discriminate)) as Hlen.
  destruct (getline_loop (c :: rest) []) as [line input'].
  cbn [fst snd omap list_omap] in *.
  fold (omap line_tokens (split_lines [] input')).
  fold (written input').
  destruct (line_tokens line) as [[doc_id tokens]|]; cbn [fold_left].
  - apply IH. cbn [length] in *. lia.
  - apply IH. cbn [length] in *. lia.
Qed.

Lemma fold_write_line (ws : list (list ascii * list (list ascii))) (st : Output) :
  out (fold_left write_line ws st)
  = out st ++ flat_map (fun w => line_bytes w.1 w.2) ws
  /\ doc_count (fold_left write_line ws st)
     = (if ws is [] then doc_count st
        else wrap64 (doc_count st + Z.of_nat (length ws)))
  /\ token_count (fold_left write_line ws st)
     = (if ws is [] then token_count st
        else wrap64 (token_count st
                     + Z.of_nat (length (concat (map snd ws))))).
Proof.
  revert st. induction ws as [|w ws IH]; intros st; cbn [fold_left flat_map].
  - rewrite app_nil_r. auto.
  - destruct (IH (write_line st w)) as (Ho & Hd & Ht).
    rewrite Ho, Hd, Ht. cbn [write_line out doc_count token_count].
    split; [rewrite <- app_assoc; reflexivity |].
    destruct ws as [|w2 ws2].
    + cbn. rewrite app_nil_r. auto.
    + rewrite !wrap64_add. cbn [map concat length].
      rewrite !length_app. split; f_equal; lia.
Qed.

(** X16. [main] of the tokenizer ends on every input.  The output file
    is the concatenation, in the order of the input, of the lines written
    for the input lines that have a doc_id, a text and a token; the two
    counters printed are the number of lines written and the number of
    tokens written (as 64-bit unsigned values). *)
Theorem tokenizer_main_output (input : list ascii) :
  main input
  = Some {| out := flat_map (fun w => line_bytes w.1 w.2) (written input);
            doc_count := wrap64 (Z.of_nat (length (written input)));
            token_count :=
              wrap64 (Z.of_nat (length (concat (map snd (written input))))) |}.
Proof.
  unfold main. rewrite tokenizer_main_loop_fold by lia. f_equal.
  destruct (fold_write_line (written input)
              {| out := []; doc_count := 0; token_count := 0 |})
    as (Ho & Hd & Ht).
  destruct (fold_left write_line (written input) _) as [o d t].
  cbn [out doc_count token_count] in *. subst o d t.
  destruct (written input); reflexivity.
Qed.

End tokenizer_main.

(** ** [read_line] *)

Section read_line_facts.
Import CLib CStd LineReader StemmerSpec.

Lemma read_line_loop_spec (input buffer : list ascii) :
  match read_line_loop input buffer with
  | None => input = [] /\ buffer = []
  | Some (line, rest) =>
      exists l, line = buffer ++ l /\ l ++ rest = input /\ line <> []
        /\ ((exists l0, l = l0 ++ ["010"%char] /\ "010"%char ∉ l0)
            \/ (rest = [] /\ "010"%char ∉ l))
  end.
Proof.
  revert buffer. induction input as [|c input IH]; intros buffer;
    cbn [read_line_loop].
  - destruct buffer as [|b buffer]; cbn [length Nat.eqb]; [auto |].
    exists []. rewrite app_nil_r. split; [reflexivity |]. split; [reflexivity |].
    split; [discriminate |]. right. split; [reflexivity | apply not_elem_of_nil].
  - case_bool_decide as Hc.
    + subst c. exists ["010"%char]. split; [reflexivity |]. split; [reflexivity |].
      split; [destruct buffer; discriminate |].
      left. exists []. split; [reflexivity | apply not_elem_of_nil].
    + specialize (IH (buffer ++ [c])).
      destruct (read_line_loop input (buffer ++ [c])) as [[line rest]|].
      * destruct IH as (l & -> & <- & Hne & Hnl).
        exists (c :: l). rewrite <- app_assoc in Hne |- *.
        split; [reflexivity |].
        split; [reflexivity |]. split; [exact Hne |].
        destruct Hnl as [(l0 & -> & Hl0) | (-> & Hl)].
        -- left. exists (c :: l0). split; [reflexivity |].
           apply not_elem_of_cons. split; [congruence | exact Hl0].
        -- right. split; [reflexivity |].
           apply not_elem_of_cons. split; [congruence | exact Hl].
      * destruct IH as [_ Hb]. destruct buffer; discriminate.
Qed.

(** X17. [read_line] cuts the input after its first newline: the line
    read followed by the input that remains is the input.  On an empty
    input it returns -1.  On any other input the line is not empty, holds
    no newline before its last byte and lacks a final newline at the end
    of the input only, and the value returned is the length of the line
    cast to [int]: the length itself, which is positive, when the line
    has fewer than [2^31] bytes. *)
Theorem read_line_splits_input (input : list ascii) :
  match read_line input with
  | (n, line, rest) =>
      line ++ rest = input
      /\ (input = [] -> n = -1)
      /\ (input <> [] ->
          line <> []
          /\ ((exists l0, line = l0 ++ ["010"%char] /\ "010"%char ∉ l0)
              \/ (rest = [] /\ "010"%char ∉ line))
          /\ n = to_int (Z.of_nat (length line))
          /\ (Z.of_nat (length line) < 2 ^ 31 ->
              n = Z.of_nat (length line) /\ 0 < n))
  end.
Proof.
  unfold read_line.
  pose proof (read_line_loop_spec input []) as H.
  destruct (read_line_loop input []) as [[line rest]|].
  - destruct H as (l & -> & Hin & Hne & Hnl). cbn [app] in *.
    split; [exact Hin |]. split.
    + intros ->. destruct l; [congruence | discriminate].
    + intros _. split; [exact Hne |]. split; [exact Hnl |].
      split; [reflexivity |]. intros Hfit.
      rewrite to_int_small by lia. split; [reflexivity |].
      destruct l; [congruence | cbn [length]; lia].
  - destruct H as [-> _]. split; [reflexivity |].
    split; [reflexivity | congruence].
Qed.

Lemma read_line_splits_input_witness :
  read_line (lit "ab" ++ "010"%char :: lit "cd")
  = (3, lit "ab" ++ ["010"%char], lit "cd")
  /\ lit "ab" ++ "010"%char :: lit "cd" <> []
  /\ Z.of_nat (length (lit "ab" ++ ["010"%char])) < 2 ^ 31
  /\ 3 = Z.of_nat (length (lit "ab" ++ ["010"%char])) /\ 0 < 3.
Proof.
  assert (Hne : lit "ab" ++ "010"%char :: lit "cd" <> []) by discriminate.
  assert (Hfit : Z.of_nat (length (lit "ab" ++ ["010"%char])) < 2 ^ 31)
    by (vm_compute; reflexivity).
  split; [vm_compute; reflexivity |]. split; [exact Hne |].
  split; [exact Hfit |].
  pose proof (read_line_splits_input (lit "ab" ++ "010"%char :: lit "cd")) as H.
  change (read_line (lit "ab" ++ "010"%char :: lit "cd"))
    with (3, lit "ab" ++ ["010"%char], lit "cd") in H.
  destruct H as (_ & _ & H). destruct (H Hne) as (_ & _ & _ & Hn).
  exact (Hn Hfit).
Defined.

Lemma read_line_loop_file_lines (input cur : list ascii) :
  file_lines cur input
  = match read_line_loop input cur with
    | None => []
    | Some (line, rest) => line :: file_lines [] rest
    end.
Proof.
  revert cur. induction input as [|c rest IH]; intros cur;
    cbn [file_lines read_line_loop].
  - destruct cur; reflexivity.
  - case_bool_decide; [reflexivity |]. apply IH.
Qed.

Lemma read_line_loop_rest (input cur line rest : list ascii) :
  read_line_loop input cur = Some (line, rest) ->
  (length line + length rest = length cur + length input)%nat
  /\ (length cur < length line \/ input = [])%nat.
Proof.
  intros H. pose proof (read_line_loop_spec input cur) as Hs. rewrite H in Hs.
  destruct Hs as (l & -> & <- & Hne & Hcase).
  rewrite !length_app. split; [lia |].
  destruct l as [|x l]; [|left; cbn; lia].
  right. destruct Hcase as [(l0 & Hl & _) | (-> & _)]; [|reflexivity].
  destruct l0; discriminate.
Qed.

End read_line_facts.

(** ** The shape of a stem *)

Section stem_shape.
Import CLib CStd StemmerSpec LineSpec.

Lemma stem_token_Forall (P : ascii -> Prop) (t : cstring) :
  Forall P t -> P "y"%char -> Forall P (Stemmer.stem_token t).
Proof.
  intros Ht Hy. unfold Stemmer.stem_token.
  repeat match goal with
    | |- context [if ?c then _ else _] => destruct c
    end;
    try assumption; try (apply Forall_take; assumption).
  apply Forall_take, Forall_insert; assumption.
Qed.

Lemma head_take {A} (k : nat) (l : list A) :
  (0 < k)%nat -> head (take k l) = head l.
Proof. intros Hk. destruct k; [lia |]. destruct l; reflexivity. Qed.

(** X18. The stem of a token of fewer than [2^31] bytes is the token
    without at most its last five bytes, or, for a token that ends with
    [ies], the token with these three bytes replaced by [y]; the first
    byte of the token is not changed. *)
Theorem stem_token_shape (t : cstring) :
  Z.of_nat (length t) < 2 ^ 31 ->
  (Stemmer.stem_token t `prefix_of` t
   \/ exists p, t = p ++ lit "ies" /\ Stemmer.stem_token t = p ++ lit "y")
  /\ (length t <= length (Stemmer.stem_token t) + 5)%nat
  /\ head (Stemmer.stem_token t) = head t.
Proof.
  intros Hfit.
  assert (Hpre : forall k, take k t `prefix_of` t)
    by (intros k; exists (drop k t); symmetry; apply take_drop).
  rewrite stem_token_fits by exact Hfit. cbv zeta.
  destruct (Nat.leb_spec (length t) 2) as [Hle | Hgt].
  { split; [left; reflexivity |]. split; [lia | reflexivity]. }
  repeat match goal with
    | |- context [if ?c then _ else _] => destruct c eqn:?
    end;
    repeat match goal with
      | H : _ && _ = true |- _ => apply andb_prop in H as [? ?]
      | H : (_ <? _)%nat = true |- _ => apply Nat.ltb_lt in H
      end;
    try (split; [left; apply Hpre |];
         split; [rewrite length_take; lia | apply head_take; lia]);
    try (split; [left; reflexivity |]; split; [lia | reflexivity]).
  match goal with
  | H : bool_decide (lit "ies" `suffix_of` t) = true |- _ =>
      apply bool_decide_eq_true in H; destruct H as [p Hp]
  end.
  rewrite (replace_then_cut t "y"%char (length t)) by (lia || reflexivity).
  assert (Hlen : length t = (length p + 3)%nat)
    by (rewrite Hp, length_app; reflexivity).
  assert (Htake : take (length t - 3) t = p).
  { rewrite Hlen, Hp. replace (length p + 3 - 3)%nat with (length p) by lia.
    apply take_app_length. }
  rewrite Htake. split; [right; exists p; split; [exact Hp | reflexivity] |].
  split; [rewrite length_app; cbn [length]; lia |].
  rewrite Hp. destruct p as [|x p]; [cbn in Hlen; lia | reflexivity].
Qed.

Lemma stem_token_shape_witness :
  Z.of_nat (length (lit "ponies")) < 2 ^ 31
  /\ (Stemmer.stem_token (lit "ponies") `prefix_of` lit "ponies"
      \/ exists p, lit "ponies" = p ++ lit "ies"
                   /\ Stemmer.stem_token (lit "ponies") = p ++ lit "y")
  /\ (length (lit "ponies") <= length (Stemmer.stem_token (lit "ponies")) + 5)%nat
  /\ head (Stemmer.stem_token (lit "ponies")) = head (lit "ponies").
Proof.
  split; [vm_compute; reflexivity |].
  apply (stem_token_shape (lit "ponies")). vm_compute. reflexivity.
Defined.

Lemma split_runs_spaceless (cur p : list ascii) :
  Forall (fun c => isspace c = false) cur ->
  Forall spaceless (split_runs cur p).
Proof.
  revert cur. induction p as [|c p IH]; intros cur Hcur; cbn [split_runs].
  - case_bool_decide; repeat constructor; assumption.
  - destruct (isspace c) eqn:Hc.
    + apply Forall_app. split; [|apply IH; constructor].
      case_bool_decide; repeat constructor; assumption.
    + apply IH, Forall_app. split; [exact Hcur |]. repeat constructor. exact Hc.
Qed.

Lemma body_tokens_spaceless (body : list ascii) :
  Forall spaceless (body_tokens body).
Proof. apply split_runs_spaceless. constructor. Qed.

Lemma stem_token_spaceless (t : cstring) :
  spaceless t -> spaceless (Stemmer.stem_token t).
Proof.
  intros [Hne Ht]. split; [apply stem_token_nonempty, Hne |].
  apply stem_token_Forall; [exact Ht | reflexivity].
Qed.

End stem_shape.

(** ** The stemmer: a line *)

Section stemmer_line.
Import CLib CStd StemmerMain StemmerSpec LineSpec.

Lemma strchr_Some (c : ascii) (s : cstring) (i : nat) :
  strchr s c = Some i -> s !! i = Some c /\ c ∉ take i s.
Proof.
  revert i. induction s as [|x s IH]; intros i; cbn [strchr]; [discriminate |].
  case_bool_decide as Hx.
  - subst x. intros [= <-]. split; [reflexivity | apply not_elem_of_nil].
  - destruct (strchr s c) as [j|]; [|discriminate].
    intros [= <-]. destruct (IH j eq_refl) as [Hj Hnot].
    split; [exact Hj |]. cbn [take].
    apply not_elem_of_cons. split; [congruence | exact Hnot].
Qed.

Lemma strchr_app (c : ascii) (col rest : list ascii) :
  c ∉ col -> strchr (col ++ c :: rest) c = Some (length col).
Proof.
  intros Hnot. induction col as [|x col IH]; cbn [app strchr length].
  - rewrite bool_decide_eq_true_2 by reflexivity. reflexivity.
  - apply not_elem_of_cons in Hnot as [Hx Hnot].
    rewrite bool_decide_eq_false_2 by congruence.
    rewrite (IH Hnot). reflexivity.
Qed.

Lemma strchr_None (c : ascii) (s : cstring) :
  strchr s c = None -> c ∉ s.
Proof.
  induction s as [|x s IH]; cbn [strchr]; [intros _; apply not_elem_of_nil |].
  case_bool_decide as Hx; [discriminate |].
  destruct (strchr s c); [discriminate |]. intros _.
  apply not_elem_of_cons. split; [congruence | apply IH; reflexivity].
Qed.

(** The bytes written after a stem start with a white-space byte. *)
Lemma put_stems_next (stems : list cstring) :
  exists sp tl, put_stems false stems ++ ["010"%char] = sp :: tl
                /\ isspace sp = true.
Proof.
  destruct stems as [|t r]; cbn [put_stems app].
  - exists "010"%char, []. auto.
  - eexists " "%char, _. auto.
Qed.

Lemma split_runs_put_stems (stems : list cstring) :
  Forall spaceless stems ->
  split_runs [] (put_stems false stems ++ ["010"%char]) = stems.
Proof.
  induction stems as [|t r IH]; intros Hall; [reflexivity |].
  inversion Hall as [|? ? [Hne Ht] Hr]; subst.
  cbn [put_stems app split_runs].
  change (isspace " "%char) with true. cbn iota.
  rewrite bool_decide_eq_true_2 by reflexivity. cbn [app].
  rewrite <- app_assoc.
  rewrite (split_runs_run [] t _ Ht). cbn [app].
  destruct (put_stems_next r) as (sp & tl & Heq & Hsp).
  specialize (IH Hr). rewrite Heq in *.
  cbn [split_runs] in *. rewrite Hsp in *.
  rewrite bool_decide_eq_false_2 by exact Hne.
  rewrite bool_decide_eq_true_2 in IH by reflexivity.
  cbn [app] in *. rewrite IH. reflexivity.
Qed.

Lemma body_tokens_put_stems (stems : list cstring) :
  Forall spaceless stems ->
  body_tokens (put_stems true stems ++ ["010"%char]) = stems.
Proof.
  intros Hall. unfold body_tokens.
  destruct stems as [|t r]; [reflexivity |].
  inversion Hall as [|? ? [Hne Ht] Hr]; subst.
  cbn [put_stems app]. rewrite <- app_assoc.
  rewrite (split_runs_run [] t _ Ht). cbn [app].
  destruct (put_stems_next r) as (sp & tl & Heq & Hsp).
  pose proof (split_runs_put_stems r Hr) as IH. rewrite Heq in *.
  cbn [split_runs] in *. rewrite Hsp in *.
  rewrite bool_decide_eq_false_2 by exact Hne.
  rewrite bool_decide_eq_true_2 in IH by reflexivity.
  cbn [app] in *. rewrite IH. reflexivity.
Qed.

(** X19. A line that the stemmer writes is read back as it was meant:
    it starts with the doc_id of the input line, which holds no tab,
    followed by a tab; the rest of the line, split at white space as the
    index builder splits it, is the list of the stems of the tokens of
    the input line, one for each token, in order; the number of stems
    counted is the number of tokens of the line. *)
Theorem stemmer_line_read_back (line bytes : list ascii) (n : Z) :
  stem_line line = Some (bytes, n) ->
  exists i body',
    strchr line "009"%char = Some i
    /\ bytes = take i line ++ "009"%char :: body'
    /\ ("009"%char ∉ take i line)
    /\ body_tokens body'
       = map Stemmer.stem_token (body_tokens (drop (S i) line))
    /\ n = Z.of_nat (length (body_tokens (drop (S i) line))).
Proof.
  unfold stem_line.
  destruct (strchr line "009"%char) as [i|] eqn:E; [|discriminate].
  intros [= <- <-]. apply strchr_Some in E as E'. destruct E' as [_ Hnot].
  exists i, (put_stems true (Stemmer.stem_body (drop (S i) line)) ++ ["010"%char]).
  split; [reflexivity |]. split; [reflexivity |]. split; [exact Hnot |].
  rewrite stem_body_all_tokens, length_map. split; [|reflexivity].
  apply body_tokens_put_stems.
  apply Forall_map. eapply Forall_impl; [apply body_tokens_spaceless |].
  apply stem_token_spaceless.
Qed.

Lemma stemmer_line_read_back_witness :
  stem_line (lit "7" ++ "009"%char :: lit "the quick  foxes are running"
               ++ ["010"%char])
  = Some (lit "7" ++ "009"%char :: lit "the quick fox are runn" ++ ["010"%char], 5)
  /\ exists i body',
       strchr (lit "7" ++ "009"%char :: lit "the quick  foxes are running"
                 ++ ["010"%char]) "009"%char = Some i
       /\ lit "7" ++ "009"%char :: lit "the quick fox are runn" ++ ["010"%char]
          = take i (lit "7" ++ "009"%char :: lit "the quick  foxes are running"
                      ++ ["010"%char]) ++ "009"%char :: body'
       /\ body_tokens body'
          = map Stemmer.stem_token
              (body_tokens (drop (S i)
                 (lit "7" ++ "009"%char :: lit "the quick  foxes are running"
                    ++ ["010"%char]))).
Proof.
  assert (H : stem_line (lit "7" ++ "009"%char
                           :: lit "the quick  foxes are running" ++ ["010"%char])
              = Some (lit "7" ++ "009"%char :: lit "the quick fox are runn"
                        ++ ["010"%char], 5))
    by (vm_compute; reflexivity).
  split; [exact H |].
  destruct (stemmer_line_read_back _ _ _ H) as (i & body' & H1 & H2 & _ & H3 & _).
  exists i, body'. auto.
Defined.

End stemmer_line.

(** ** The stemmer: the whole input *)

Section stemmer_main.
Import CLib CStd LineReader StemmerMain StemmerSpec StemmerMainSpec.


Lemma stemmer_main_loop_fold (fuel : nat) (input : list ascii) (st : Output) :
  (length input < fuel)%nat -> lines_fit_int input ->
  main_loop fuel input st = Some (fold_left write_stems (stemmed input) st).
Proof.
  revert input st. induction fuel as [|fuel IH]; intros input st Hfuel Hfit; [lia |].
  cbn [main_loop]. unfold read_line, stemmed, lines_fit_int in *.
  rewrite (read_line_loop_file_lines input []) in *.
  pose proof (read_line_loop_rest input []) as Hrest.
  pose proof (read_line_loop_spec input []) as Hspec.
  destruct (read_line_loop input []) as [[buffer input']|]; [|reflexivity].
  destruct (Hrest _ _ eq_refl) as [Hlen Hcase].
  destruct Hspec as (l & _ & _ & Hne & _).
  assert (Hpos : (0 < length buffer)%nat)
    by (destruct buffer; [congruence | cbn; lia]).
  inversion Hfit as [|? ? Hb Hfit']; subst.
  rewrite to_int_small by lia.
  destruct (Z.ltb_spec (Z.of_nat (length buffer)) 0); [lia |].
  destruct (Z.eqb_spec (Z.of_nat (length buffer)) 0); [lia |].
  cbn [omap list_omap].
  fold (omap (fun l => stem_line (c_str l)) (file_lines [] input')).
  cbn [length] in Hlen.
  destruct (stem_line (c_str buffer)) as [[bytes cnt]|]; cbn [fold_left].
  - apply IH; [lia | exact Hfit'].
  - apply IH; [lia | exact Hfit'].
Qed.

Lemma fold_write_stems (ws : list (list ascii * Z)) (st : Output) :
  out (fold_left write_stems ws st) = out st ++ flat_map fst ws
  /\ docs (fold_left write_stems ws st)
     = (if ws is [] then docs st else wrap64 (docs st + Z.of_nat (length ws)))
  /\ tokens (fold_left write_stems ws st)
     = (if ws is [] then tokens st
        else wrap64 (tokens st + foldr Z.add 0 (map snd ws))).
Proof.
  revert st. induction ws as [|w ws IH]; intros st; cbn [fold_left flat_map].
  - rewrite app_nil_r. auto.
  - destruct (IH (write_stems st w)) as (Ho & Hd & Ht).
    rewrite Ho, Hd, Ht. cbn [write_stems out docs tokens].
    split; [rewrite <- app_assoc; reflexivity |].
    destruct ws as [|w2 ws2].
    + cbn. rewrite Z.add_0_r. auto.
    + rewrite !wrap64_mod, !Zplus_mod_idemp_l.
      cbn [map foldr length].
      split; f_equal; lia.
Qed.

(** X20. [main] of the stemmer ends on every input whose lines are
    shorter than [2^31] bytes.  The output file is the concatenation, in
    the order of the input, of the lines written for the input lines that
    have a tab (a line is read as a C string, up to its first NUL); the
    two counters printed are the number of lines written and the number
    of stems written (as 64-bit unsigned values). *)
Theorem stemmer_main_output (input : list ascii) :
  lines_fit_int input ->
  main input
  = Some {| out := flat_map fst (stemmed input);
            docs := wrap64 (Z.of_nat (length (stemmed input)));
            tokens := wrap64 (foldr Z.add 0 (map snd (stemmed input))) |}.
Proof.
  intros Hfit. unfold main. rewrite stemmer_main_loop_fold by (lia || exact Hfit). f_equal.
  destruct (fold_write_stems (stemmed input)
              {| out := []; docs := 0; tokens := 0 |}) as (Ho & Hd & Ht).
  destruct (fold_left write_stems (stemmed input) _) as [o d t].
  cbn [out docs tokens] in *. subst o d t.
  destruct (stemmed input); reflexivity.
Qed.

Lemma stemmer_main_output_witness :
  lines_fit_int (lit "1" ++ "009"%char :: lit "quick foxes" ++ "010"%char
                   :: lit "no tab here" ++ "010"%char
                   :: lit "2" ++ "009"%char :: lit "lazy dogs sleeping")
  /\ main (lit "1" ++ "009"%char :: lit "quick foxes" ++ "010"%char
             :: lit "no tab here" ++ "010"%char
             :: lit "2" ++ "009"%char :: lit "lazy dogs sleeping")
     = Some {| out := lit "1" ++ "009"%char :: lit "quick fox" ++ "010"%char
                        :: lit "2" ++ "009"%char :: lit "lazy dog sleep"
                        ++ ["010"%char];
               docs := 2; tokens := 5 |}.
Proof.
  assert (H : lines_fit_int
                (lit "1" ++ "009"%char :: lit "quick foxes" ++ "010"%char
                   :: lit "no tab here" ++ "010"%char
                   :: lit "2" ++ "009"%char :: lit "lazy dogs sleeping")).
  { apply (Forall_forallb _ (fun l => Z.of_nat (length l) <? 2 ^ 31)).
    - intros l Hl. apply Z.ltb_lt, Hl.
    - vm_compute. reflexivity. }
  split; [exact H |].
  rewrite (stemmer_main_output _ H). vm_compute. reflexivity.
Defined.

End stemmer_main.

(** ** Buffers that hold no NUL *)

Section pipeline_line.
Import CLib CStd Tokenizer TokenizerSpec TokenizerAux StemmerMain StemmerSpec.
Import LineSpec LexiconSpec IndexBuilder BuilderSpec.

Lemma c_str_nul_free (s : list ascii) : nul_free s -> c_str s = s.
Proof.
  induction 1 as [|c s Hc Hs IH]; [reflexivity |]. cbn [c_str].
  rewrite bool_decide_eq_false_2 by exact Hc. rewrite IH. reflexivity.
Qed.

Lemma c_str_is_nul_free (s : list ascii) : nul_free (c_str s).
Proof.
  induction s as [|c s IH]; cbn [c_str]; [constructor |].
  case_bool_decide; constructor; assumption.
Qed.

Lemma clean_token_spaceless (t : list ascii) : clean_token t -> spaceless t.
Proof. intros Ht. split; [apply Ht | apply clean_token_no_space, Ht]. Qed.

Lemma clean_token_nul_free (t : list ascii) : clean_token t -> nul_free t.
Proof.
  intros [_ Ht]. eapply Forall_impl; [exact Ht |].
  intros c [H _] ->. discriminate H.
Qed.

Lemma put_tokens_nul_free (i : nat) (tokens : list (list ascii)) :
  Forall clean_token tokens -> nul_free (put_tokens i tokens).
Proof.
  revert i. induction tokens as [|t r IH]; intros i Hall; [constructor |].
  inversion Hall; subst. cbn [put_tokens].
  apply Forall_app. split; [destruct (0 <? i)%nat; repeat constructor; discriminate |].
  apply Forall_app. split; [apply clean_token_nul_free; assumption | apply IH; assumption].
Qed.

End pipeline_line.

(** ** The index builder: the contents of the table *)

Section content_facts.
Import CLib IndexBuilder LineSpec LexiconSpec BuilderSpec BuilderAux.
Import ContentSpec ContentAux.

Lemma dedup_adjacent_cons (x : Z) (l : list Z) :
  dedup_adjacent (x :: l)
  = match l with
    | [] => [x]
    | y :: _ => if x =? y then dedup_adjacent l else x :: dedup_adjacent l
    end.
Proof. destruct l; reflexivity. Qed.

Lemma dedup_adjacent_nil (l : list Z) : dedup_adjacent l = [] -> l = [].
Proof.
  induction l as [|x l IH]; [reflexivity |]. rewrite dedup_adjacent_cons.
  destruct l as [|y l]; [discriminate |].
  destruct (x =? y); [|discriminate]. intros H. apply IH in H. discriminate.
Qed.

Lemma last_cons_ne {A} (x : A) (l : list A) : l <> [] -> last (x :: l) = last l.
Proof. destruct l; [congruence | reflexivity]. Qed.

Lemma dedup_adjacent_last (l : list Z) : last (dedup_adjacent l) = last l.
Proof.
  induction l as [|x l IH]; [reflexivity |]. rewrite dedup_adjacent_cons.
  destruct l as [|y l]; [reflexivity |].
  rewrite (last_cons_ne x (y :: l)) by discriminate.
  destruct (x =? y); [exact IH |].
  rewrite last_cons_ne; [exact IH |].
  intros H. apply dedup_adjacent_nil in H. discriminate.
Qed.

Lemma dedup_adjacent_snoc (l : list Z) (d : Z) :
  dedup_adjacent (l ++ [d])
  = if bool_decide (last l = Some d) then dedup_adjacent l
    else dedup_adjacent l ++ [d].
Proof.
  induction l as [|x l IH]; [reflexivity |].
  cbn [app]. rewrite !dedup_adjacent_cons.
  destruct l as [|y l].
  - cbn [app last].
    destruct (Z.eqb_spec x d) as [-> | Hne].
    + rewrite bool_decide_eq_true_2 by reflexivity. reflexivity.
    + rewrite bool_decide_eq_false_2 by congruence. reflexivity.
  - rewrite (last_cons_ne x (y :: l)) by discriminate.
    cbn [app] in *. rewrite IH.
    destruct (x =? y), (bool_decide _); reflexivity.
Qed.

Lemma elem_of_dedup_adjacent (l : list Z) (d : Z) :
  d ∈ dedup_adjacent l <-> d ∈ l.
Proof.
  induction l as [|x l IH]; [reflexivity |]. rewrite dedup_adjacent_cons.
  destruct l as [|y l]; [reflexivity |].
  destruct (Z.eqb_spec x y) as [-> | Hne].
  - rewrite IH, !elem_of_cons. tauto.
  - rewrite (elem_of_cons (y :: l)), elem_of_cons, IH. reflexivity.
Qed.

Lemma occurrences_in_snoc (t t' : cstring) (d : Z) (ps : list (Z * cstring)) :
  occurrences_in t (ps ++ [(d, t')])
  = occurrences_in t ps ++ (if bool_decide (t' = t) then [d] else []).
Proof.
  unfold occurrences_in. rewrite filter_app, map_app. f_equal.
  rewrite filter_cons, filter_nil. cbn [snd].
  destruct (decide (t' = t)); case_bool_decide; try contradiction; reflexivity.
Qed.

Lemma occurrences_in_nil (t : cstring) (ps : list (Z * cstring)) :
  occurrences_in t ps = [] <-> forall p, p ∈ ps -> p.2 <> t.
Proof.
  unfold occurrences_in. induction ps as [|p ps IH].
  - split; [intros _ p Hp; inversion Hp | reflexivity].
  - rewrite filter_cons. destruct (decide (p.2 = t)) as [Hp | Hp].
    + split; [discriminate |]. intros H. exfalso. apply (H p); [left | exact Hp].
    + rewrite IH. split.
      * intros H q [-> | Hq]%elem_of_cons; auto.
      * intros H q Hq. apply H. right. exact Hq.
Qed.

Lemma strcmp_eq (a b : cstring) :
  nul_free a -> nul_free b -> strcmp a b = 0 -> a = b.
Proof.
  intros Ha Hb H. apply bytes_compare_eq.
  rewrite <- (strcmp_sign a b Ha Hb), H. reflexivity.
Qed.

Lemma record_doc_entry (tb tb' : Table) (i : nat) (e : TermEntry) (d : Z) :
  record_doc tb i e d = Some tb' ->
  exists e',
    slots tb' = <[i := e']> (slots tb) /\ used_terms tb' = used_terms tb
    /\ term e' = term e /\ used e' = used e
    /\ postings e'
       = (if (postings_count e =? 0) || negb (last_doc_id e =? d)
          then postings e ++ [d] else postings e)
    /\ last_doc_id e'
       = (if (postings_count e =? 0) || negb (last_doc_id e =? d)
          then d else last_doc_id e).
Proof.
  unfold record_doc. destruct (_ || _).
  - destruct (ensure_postings_cap e _) as [e1|] eqn:Hcap; [|discriminate].
    apply ensure_postings_cap_fields in Hcap as (Ht & Hp & Hl & Hu).
    intros [= <-]. eexists. split; [reflexivity |]. cbn.
    rewrite Hp. auto.
  - intros [= <-]. eexists. split; [reflexivity |]. cbn. auto.
Qed.

Lemma add_term_doc_loop_entry (steps : nat) (tb tb' : Table) (capacity : nat)
    (t : cstring) (d : Z) (idx : nat) :
  add_term_doc_loop steps tb capacity t d idx = Some tb' ->
  exists i e e',
    probe steps (slots tb) capacity t idx = Some i
    /\ slots tb !! i = Some e
    /\ slots tb' = <[i := e']> (slots tb)
    /\ used e' = true
    /\ ((used e = false /\ term e' = t /\ postings e' = [d]
         /\ last_doc_id e' = d /\ used_terms tb' = used_terms tb + 1)
        \/ (used e = true /\ strcmp (term e) t = 0 /\ term e' = term e
            /\ used_terms tb' = used_terms tb
            /\ postings e'
               = (if (postings_count e =? 0) || negb (last_doc_id e =? d)
                  then postings e ++ [d] else postings e)
            /\ last_doc_id e'
               = (if (postings_count e =? 0) || negb (last_doc_id e =? d)
                  then d else last_doc_id e))).
Proof.
  revert idx. induction steps as [|steps IH]; intros idx; [discriminate |].
  cbn [add_term_doc_loop probe].
  destruct (slots tb !! idx) as [e|] eqn:Hlook; [|discriminate].
  destruct (used e) eqn:Hu; cbn [negb].
  - destruct (Z.eqb_spec (strcmp (term e) t) 0) as [Hcmp | Hcmp]; cbn [negb];
      [|apply IH].
    intros (e' & Hs & Hut & Ht & Hu' & Hp & Hl)%record_doc_entry.
    exists idx, e, e'. rewrite Hu in Hu'.
    split; [reflexivity |]. split; [exact Hlook |]. split; [exact Hs |].
    split; [exact Hu' |]. right. auto 10.
  - intros (e' & Hs & Hut & Ht & Hu' & Hp & Hl)%record_doc_entry.
    exists idx, e, e'. cbn in *.
    split; [reflexivity |]. split; [exact Hlook |]. split; [exact Hs |].
    split; [exact Hu' |]. left. auto 10.
Qed.

Lemma filter_used_insert (sl : list TermEntry) (i : nat) (e e' : TermEntry) :
  sl !! i = Some e -> used e' = true ->
  length (filter (fun x => used x = true) (<[i := e']> sl))
  = ((if used e then 0 else 1)
     + length (filter (fun x => used x = true) sl))%nat.
Proof.
  revert i. induction sl as [|x sl IH]; intros i Hi Hu'; [discriminate |].
  destruct i as [|i].
  - change (<[0%nat := e']> (x :: sl)) with (e' :: sl).
    injection Hi as ->. rewrite !filter_cons.
    destruct (decide (used e' = true)); [|congruence].
    destruct (decide (used e = true)) as [-> | Hne]; [reflexivity |].
    destruct (used e); [congruence | reflexivity].
  - change (<[S i := e']> (x :: sl)) with (x :: <[i := e']> sl).
    cbn in Hi. rewrite !filter_cons.
    destruct (decide (used x = true)); cbn [length]; rewrite (IH i Hi Hu'); lia.
Qed.

Lemma add_term_doc_content (capacity : nat) (ps : list (Z * cstring))
    (tb tb' : Table) (t : cstring) (d : Z) :
  nul_free t -> content_ok capacity ps tb ->
  add_term_doc tb capacity t d = Some tb' ->
  content_ok capacity (ps ++ [(d, t)]) tb'.
Proof.
  intros Ht [Hok Hpost Hterms Hused] Hadd.
  pose proof (add_term_doc_table_ok nul_free tb tb' capacity t d Ht Hok Hadd)
    as Hok'.
  unfold add_term_doc in Hadd.
  apply add_term_doc_loop_entry in Hadd
    as (i & e & e' & Hprobe & Hi & Hslots & Hu' & Hcase).
  fold (slot_index capacity t) in Hprobe.
  (* a used slot that holds [t] is the slot [i] *)
  assert (Hunique : forall s e_s, slots tb !! s = Some e_s -> used e_s = true ->
                      term e_s = t -> s = i).
  { intros s e_s Hs Hus Hts. destruct (Hok s e_s Hs Hus) as [_ Hp].
    rewrite Hts, Hprobe in Hp. congruence. }
  split.
  - exact Hok'.
  - intros s e_s Hs Hus. rewrite Hslots in Hs.
    apply list_lookup_insert_Some in Hs as [(<- & <- & Hlt) | (Hne & Hs)].
    + destruct Hcase as [(Hu & Hte & Hpe & Hle & _)
                        | (Hu & Hcmp & Hte & _ & Hpe & Hle)].
      * (* a new term *)
        assert (Hnone : occurrences_in t ps = []).
        { apply occurrences_in_nil. intros p Hp Hpt.
          destruct (Hterms p Hp) as (s0 & e0 & Hs0 & Hus0 & Hts0).
          rewrite Hpt in Hts0. rewrite (Hunique s0 e0 Hs0 Hus0 Hts0) in Hs0.
          congruence. }
        rewrite Hte, Hpe, Hle, occurrences_in_snoc, Hnone.
        rewrite bool_decide_eq_true_2 by reflexivity.
        split; [reflexivity |]. split; [discriminate | reflexivity].
      * (* a term of the table *)
        destruct (Hok i e Hi Hu) as [Hnul _].
        assert (Hterm : term e = t) by (apply strcmp_eq; assumption).
        destruct (Hpost i e Hi Hu) as (Hp & Hne & Hlast).
        rewrite Hte, Hterm, occurrences_in_snoc in *.
        rewrite bool_decide_eq_true_2 by reflexivity.
        rewrite dedup_adjacent_snoc, <- dedup_adjacent_last, <- Hp, Hlast.
        rewrite Hpe, Hle.
        assert (Hcount : (postings_count e =? 0) = false).
        { apply Z.eqb_neq. unfold postings_count.
          destruct (postings e); [congruence | cbn; lia]. }
        rewrite Hcount. cbn [orb].
        destruct (Z.eqb_spec (last_doc_id e) d) as [Heq | Hneq]; cbn [negb].
        -- rewrite bool_decide_eq_true_2 by congruence. auto.
        -- rewrite bool_decide_eq_false_2 by congruence.
           split; [reflexivity |]. split; [destruct (postings e); discriminate |].
           apply last_snoc.
    + destruct (Hpost s e_s Hs Hus) as (Hp & Hne' & Hlast).
      split; [|auto]. rewrite Hp, occurrences_in_snoc.
      rewrite bool_decide_eq_false_2; [rewrite app_nil_r; reflexivity |].
      intros Hts. apply Hne. symmetry. apply (Hunique s e_s Hs Hus). auto.
  - intros p [Hp | Hp]%elem_of_app.
    + destruct (Hterms p Hp) as (s & e_s & Hs & Hus & Hts).
      destruct (decide (s = i)) as [-> | Hne].
      * exists i, e'. rewrite Hslots.
        rewrite list_lookup_insert_eq by (eapply lookup_lt_Some, Hi).
        split; [reflexivity |]. split; [exact Hu' |].
        rewrite Hi in Hs. injection Hs as <-.
        destruct Hcase as [(Hu & _) | (_ & _ & Hte & _)]; congruence.
      * exists s, e_s. rewrite Hslots, list_lookup_insert_ne by auto. auto.
    + apply list_elem_of_singleton in Hp as ->. cbn [snd].
      exists i, e'. rewrite Hslots.
      rewrite list_lookup_insert_eq by (eapply lookup_lt_Some, Hi).
      split; [reflexivity |]. split; [exact Hu' |].
      destruct Hcase as [(_ & Hte & _) | (Hu & Hcmp & Hte & _)]; [exact Hte |].
      rewrite Hte. destruct (Hok i e Hi Hu) as [Hnul _].
      apply strcmp_eq; assumption.
  - rewrite Hslots, (filter_used_insert _ _ e e' Hi Hu').
    destruct Hcase as [(Hu & _ & _ & _ & Hut) | (Hu & _ & _ & Hut & _)];
      rewrite Hu, Hut, Hused; lia.
Qed.

End content_facts.

Section content_build.
Import CLib IndexBuilder LineSpec LexiconSpec BuilderSpec BuilderAux.
Import ContentSpec ContentAux BuilderExamples PostingSpec.

Lemma add_stream_app (tb : Table) (capacity : nat) (ps1 ps2 : list (Z * cstring)) :
  add_stream tb capacity (ps1 ++ ps2)
  = match add_stream tb capacity ps1 with
    | None => None
    | Some tb' => add_stream tb' capacity ps2
    end.
Proof.
  revert tb. induction ps1 as [|[d t] ps1 IH]; intros tb; [reflexivity |].
  cbn [app add_stream]. destruct (add_term_doc tb capacity t d); [apply IH | reflexivity].
Qed.

Lemma add_tokens_stream (tb : Table) (capacity : nat) (id : Z)
    (toks : list cstring) :
  add_tokens tb capacity id toks
  = add_stream tb capacity (map (fun t => (id, t)) toks).
Proof.
  revert tb. induction toks as [|t toks IH]; intros tb; [reflexivity |].
  cbn [add_tokens map add_stream].
  destruct (add_term_doc tb capacity t id); [apply IH | reflexivity].
Qed.

Lemma index_lines_stream (tb : Table) (capacity : nat) (lines : list Line) :
  index_lines tb capacity lines = add_stream tb capacity (stream lines).
Proof.
  revert tb. induction lines as [|l lines IH]; intros tb; [reflexivity |].
  cbn [index_lines]. unfold stream. cbn [flat_map]. fold (stream lines).
  rewrite add_stream_app, index_body_tokens, add_tokens_stream.
  destruct (add_stream tb capacity _); [apply IH | reflexivity].
Qed.

Lemma add_stream_content (capacity : nat) (ps0 ps : list (Z * cstring))
    (tb tb' : Table) :
  Forall (fun p => nul_free p.2) ps -> content_ok capacity ps0 tb ->
  add_stream tb capacity ps = Some tb' ->
  content_ok capacity (ps0 ++ ps) tb'.
Proof.
  revert ps0 tb. induction ps as [|[d t] ps IH]; intros ps0 tb Hnul Hok.
  - intros [= <-]. rewrite app_nil_r. exact Hok.
  - cbn [add_stream]. inversion Hnul as [|? ? Ht Hnul']; subst.
    destruct (add_term_doc tb capacity t d) as [tb1|] eqn:Hadd; [|discriminate].
    intros Hrest.
    replace (ps0 ++ (d, t) :: ps) with ((ps0 ++ [(d, t)]) ++ ps)
      by (rewrite <- app_assoc; reflexivity).
    apply (IH _ tb1); [exact Hnul' | | exact Hrest].
    apply (add_term_doc_content capacity ps0 tb tb1 t d); assumption.
Qed.

Lemma content_ok_empty (capacity : nat) :
  content_ok capacity []
    {| slots := replicate capacity zero_entry; used_terms := 0 |}.
Proof.
  assert (Hfree : forall s e, replicate capacity zero_entry !! s = Some e ->
                    used e = true -> False).
  { intros s e Hs Hu. apply lookup_replicate_1 in Hs as [-> _]. discriminate. }
  split; cbn [slots used_terms].
  - intros s e Hs Hu. destruct (Hfree s e Hs Hu).
  - intros s e Hs Hu. destruct (Hfree s e Hs Hu).
  - intros p Hp. inversion Hp.
  - clear Hfree. induction capacity as [|n IH]; [reflexivity |].
    cbn [replicate]. rewrite filter_cons.
    destruct (decide (used zero_entry = true)) as [H | _]; [discriminate H |].
    exact IH.
Qed.

Lemma stream_nul_free (lines : list Line) :
  bodies_nul_free lines -> Forall (fun p => nul_free p.2) (stream lines).
Proof.
  intros H. apply tokens_Forall in H.
  unfold stream. induction H as [|l lines Hl Hlines IH]; [constructor |].
  cbn [flat_map]. apply Forall_app. split; [|exact IH].
  apply Forall_map. exact Hl.
Qed.

Lemma build_table_content (capacity : nat) (lines : list Line) (tb : Table) :
  bodies_nul_free lines -> build_table capacity lines = Some tb ->
  content_ok capacity (stream lines) tb.
Proof.
  intros Hnul Hbuild. unfold build_table in Hbuild.
  rewrite index_lines_stream in Hbuild.
  apply (add_stream_content capacity [] (stream lines) _ tb
           (stream_nul_free lines Hnul) (content_ok_empty capacity) Hbuild).
Qed.

Lemma elem_of_stream (lines : list Line) (d : Z) (t : cstring) :
  (d, t) ∈ stream lines
  <-> exists l, l ∈ lines /\ doc_id l = d /\ t ∈ body_tokens (body l).
Proof.
  unfold stream. rewrite list_elem_of_In, in_flat_map. split.
  - intros (l & Hl & Hp). apply in_map_iff in Hp as (t' & [= <- <-] & Ht).
    exists l. rewrite !list_elem_of_In. auto.
  - intros (l & Hl & <- & Ht). exists l.
    rewrite list_elem_of_In in Hl. rewrite list_elem_of_In in Ht.
    split; [exact Hl |]. apply in_map_iff. exists t. auto.
Qed.

Lemma elem_of_occurrences (lines : list Line) (d : Z) (t : cstring) :
  d ∈ occurrences t lines
  <-> exists l, l ∈ lines /\ doc_id l = d /\ t ∈ body_tokens (body l).
Proof.
  rewrite <- elem_of_stream. unfold occurrences, occurrences_in.
  rewrite list_elem_of_fmap. split.
  - intros ([d' t'] & -> & [Ht Hp]%list_elem_of_filter). cbn in *. subst t'.
    exact Hp.
  - intros Hp. exists (d, t). split; [reflexivity |].
    apply list_elem_of_filter. split; [reflexivity | exact Hp].
Qed.

(** X21. The inverted index that the builder constructs.  After the
    scan of a stream whose bodies are C strings, every token of the
    stream has a slot of the table, and only one; the posting list of a
    slot is the list of the doc_ids of the occurrences of its term, in the
    order of the stream, without its consecutive repetitions: a doc_id is
    in the posting list of a term exactly when a line with this doc_id
    holds the term. *)
Theorem build_table_postings (capacity : nat) (lines : list Line) (tb : Table) :
  bodies_nul_free lines ->
  build_table capacity lines = Some tb ->
  (forall e, e ∈ slots tb -> used e = true ->
     postings e = dedup_adjacent (occurrences (term e) lines)
     /\ forall d, d ∈ postings e
          <-> exists l, l ∈ lines /\ doc_id l = d
                        /\ term e ∈ body_tokens (body l))
  /\ (forall l t, l ∈ lines -> t ∈ body_tokens (body l) ->
        exists e, e ∈ slots tb /\ used e = true /\ term e = t)
  /\ NoDup (map term (filter (fun e => used e = true) (slots tb)))
  /\ used_terms tb
     = Z.of_nat (length (filter (fun e => used e = true) (slots tb))).
Proof.
  intros Hnul Hbuild.
  destruct (build_table_content capacity lines tb Hnul Hbuild)
    as [Hok Hpost Hterms Hused].
  split; [|split; [|split]].
  - intros e [s Hs]%list_elem_of_lookup_1 Hu.
    destruct (Hpost s e Hs Hu) as (Hp & _ & _).
    split; [exact Hp |]. intros d.
    rewrite Hp, elem_of_dedup_adjacent. apply elem_of_occurrences.
  - intros l t Hl Ht.
    destruct (Hterms (doc_id l, t)) as (s & e & Hs & Hu & Hterm).
    + apply elem_of_stream. exists l. auto.
    + exists e. split; [eapply list_elem_of_lookup_2, Hs | auto].
  - apply (table_ok_NoDup nul_free capacity), Hok.
  - exact Hused.
Qed.

Lemma build_table_postings_witness :
  bodies_nul_free example_lines
  /\ build_table 1024 example_lines = Some example_table
  /\ occurrences (lit "fox") example_lines = [1; 2; 2; 3]
  /\ exists e, e ∈ slots example_table /\ used e = true /\ term e = lit "fox"
               /\ postings e = [1; 2; 3].
Proof.
  split; [apply example_lines_nul_free |].
  split; [apply example_table_built |].
  split; [vm_compute; reflexivity |].
  destruct (build_table_postings 1024 example_lines example_table
              example_lines_nul_free example_table_built)
    as (Hpost & Hterms & _).
  destruct (Hterms (line 2 "a quick red fox is faster than slower fox") (lit "fox"))
    as (e & He & Hu & Ht).
  - unfold example_lines. right. left.
  - apply list_elem_of_In. vm_compute. tauto.
  - exists e. split; [exact He |]. split; [exact Hu |]. split; [exact Ht |].
    rewrite (proj1 (Hpost e He Hu)), Ht. vm_compute. reflexivity.
Defined.

End content_build.

(** ** Unsigned integers in files *)

Section binary_facts.
Import CLib BinaryIO.

Lemma uchar_byte_of (v : Z) : uchar (byte_of v) = v mod 256.
Proof.
  unfold uchar, byte_of. rewrite N_ascii_embedding.
  - rewrite Z2N.id; [reflexivity |]. apply Z.mod_pos_bound. lia.
  - assert (0 <= v mod 256 < 256) by (apply Z.mod_pos_bound; lia). lia.
Qed.

Lemma byte_of_uchar (c : ascii) : byte_of (uchar c) = c.
Proof.
  apply uchar_inj. rewrite uchar_byte_of. apply Z.mod_small.
  unfold uchar. pose proof (N_ascii_bounded c). lia.
Qed.

Lemma length_le_bytes (n : nat) (v : Z) : length (le_bytes n v) = n.
Proof. revert v. induction n as [|n IH]; intros v; cbn; [reflexivity | rewrite IH; reflexivity]. Qed.

Lemma le_value_le_bytes (n : nat) (v : Z) :
  le_value (le_bytes n v) = v mod 256 ^ Z.of_nat n.
Proof.
  revert v. induction n as [|n IH]; intros v.
  - cbn. rewrite Z.mod_1_r. reflexivity.
  - cbn [le_bytes le_value]. rewrite uchar_byte_of, IH.
    rewrite Nat2Z.inj_succ, Z.pow_succ_r by lia.
    rewrite Z.rem_mul_r by lia. reflexivity.
Qed.

Lemma le_value_bound (bs : list ascii) :
  0 <= le_value bs < 256 ^ Z.of_nat (length bs).
Proof.
  induction bs as [|b bs IH]; [cbn; lia |].
  cbn [le_value length]. rewrite Nat2Z.inj_succ, Z.pow_succ_r by lia.
  assert (0 <= uchar b < 256) by (unfold uchar; pose proof (N_ascii_bounded b); lia).
  lia.
Qed.

Lemma le_bytes_le_value (bs : list ascii) :
  le_bytes (length bs) (le_value bs) = bs.
Proof.
  induction bs as [|b bs IH]; [reflexivity |].
  cbn [length le_bytes le_value].
  assert (0 <= uchar b < 256) by (unfold uchar; pose proof (N_ascii_bounded b); lia).
  f_equal.
  - apply uchar_inj. rewrite uchar_byte_of.
    Z.to_euclidean_division_equations. lia.
  - replace ((uchar b + 256 * le_value bs) / 256) with (le_value bs); [exact IH |].
    Z.to_euclidean_division_equations. lia.
Qed.

Lemma fread_app (bs rest : list ascii) (n : Z) :
  n = Z.of_nat (length bs) -> fread n (bs ++ rest) = Some (bs, rest).
Proof.
  intros ->. unfold fread. rewrite length_app.
  destruct (Z.ltb_spec (Z.of_nat (length bs + length rest)) (Z.of_nat (length bs)));
    [lia |].
  rewrite Nat2Z.id, take_app_length, drop_app_length. reflexivity.
Qed.

Lemma fread_Some (n : Z) (input bs rest : list ascii) :
  0 <= n -> fread n input = Some (bs, rest) ->
  input = bs ++ rest /\ Z.of_nat (length bs) = n.
Proof.
  intros Hn. unfold fread.
  destruct (Z.ltb_spec (Z.of_nat (length input)) n); [discriminate |].
  intros [= <- <-]. rewrite take_drop. split; [reflexivity |].
  rewrite length_take. lia.
Qed.

End binary_facts.

(** ** The index builder: the capacity of the posting buffers *)

Section capacity_facts.
Import CLib IndexBuilder LineSpec BuilderSpec BuilderAux CapacityAux ContentAux.
Import BuilderExamples.

Lemma grow_cap_bounds (fuel : nat) (new_cap need cap : Z) :
  0 < new_cap <= 2 ^ 32 - 2 ->
  grow_cap fuel new_cap need = Some (Some cap) ->
  need <= cap /\ new_cap <= cap <= 2 ^ 32 - 2.
Proof.
  revert new_cap. induction fuel as [|fuel IH]; intros new_cap Hc; [discriminate |].
  cbn [grow_cap]. destruct (Z.ltb_spec new_cap need) as [Hlt | Hge].
  - destruct (Z.gtb_spec new_cap 2147483647) as [Hbig | Hsmall]; [discriminate |].
    unfold wrap32. rewrite Z.mod_small by lia.
    intros H. apply IH in H; lia.
  - intros [= <-]. lia.
Qed.

(** What [ensure_postings_cap] ensures. *)
Lemma ensure_postings_cap_bounds (e e' : TermEntry) (need : Z) :
  0 <= postings_cap e <= 2 ^ 32 - 2 ->
  ensure_postings_cap e need = Some e' ->
  need <= postings_cap e' /\ postings_cap e <= postings_cap e' <= 2 ^ 32 - 2.
Proof.
  intros Hc. unfold ensure_postings_cap.
  destruct (Z.geb_spec (postings_cap e) need) as [Hge | Hlt].
  - intros [= <-]. lia.
  - destruct (grow_cap 33 _ need) as [[cap|]|] eqn:Hgrow; try discriminate.
    intros [= <-]. cbn [set_cap postings_cap].
    apply grow_cap_bounds in Hgrow;
      destruct (Z.eqb_spec (postings_cap e) 0); lia.
Qed.

(** [ensure_postings_cap] fails on a request above [2^31] only, when it
    has to grow the buffer. *)
Lemma grow_cap_fails (fuel : nat) (new_cap need : Z) :
  0 < new_cap -> grow_cap fuel new_cap need = Some None -> 2 ^ 31 < need.
Proof.
  revert new_cap. induction fuel as [|fuel IH]; intros new_cap Hc; [discriminate |].
  cbn [grow_cap]. destruct (Z.ltb_spec new_cap need) as [Hlt | Hge]; [|discriminate].
  destruct (Z.gtb_spec new_cap 2147483647) as [Hbig | Hsmall]; [lia |].
  unfold wrap32. rewrite Z.mod_small by lia.
  intros H. apply IH in H; lia.
Qed.

Lemma record_doc_cap_ok (tb tb' : Table) (i : nat) (e : TermEntry) (d : Z) :
  Forall cap_ok (slots tb) -> cap_ok e ->
  record_doc tb i e d = Some tb' -> Forall cap_ok (slots tb').
Proof.
  intros Hall [Hcount Hcap]. unfold record_doc. destruct (_ || _).
  - destruct (ensure_postings_cap e _) as [e1|] eqn:Hens; [|discriminate].
    intros [= <-]. cbn [slots]. apply Forall_insert; [exact Hall |].
    apply ensure_postings_cap_fields in Hens as Hf. destruct Hf as (_ & Hp & _).
    apply ensure_postings_cap_bounds in Hens as [Hneed Hcap']; [|exact Hcap].
    unfold wrap32 in Hneed. unfold postings_count in *.
    rewrite Z.mod_small in Hneed by lia.
    unfold cap_ok, postings_count, push_doc. cbn [postings postings_cap].
    rewrite length_app, Hp. cbn [length]. lia.
  - intros [= <-]. cbn [slots]. apply Forall_insert; [exact Hall |].
    split; assumption.
Qed.

Lemma add_term_doc_cap_ok (tb tb' : Table) (capacity : nat) (t : cstring) (d : Z) :
  Forall cap_ok (slots tb) ->
  add_term_doc tb capacity t d = Some tb' -> Forall cap_ok (slots tb').
Proof.
  intros Hall. unfold add_term_doc.
  generalize (Z.to_nat (djb2 t mod Z.of_nat capacity)). intros idx.
  generalize capacity at 1. intros steps. revert idx.
  induction steps as [|steps IH]; intros idx; [discriminate |].
  cbn [add_term_doc_loop].
  destruct (slots tb !! idx) as [e|] eqn:Hlook; [|discriminate].
  destruct (negb (used e)).
  - apply (record_doc_cap_ok {| slots := slots tb; used_terms := used_terms tb + 1 |});
      [exact Hall |].
    unfold cap_ok, postings_count. cbn [postings postings_cap length]. lia.
  - destruct (negb _); [apply IH |].
    apply record_doc_cap_ok; [exact Hall |].
    rewrite Forall_forall in Hall. apply Hall.
    eapply list_elem_of_lookup_2, Hlook.
Qed.

Lemma add_stream_cap_ok (tb tb' : Table) (capacity : nat)
    (ps : list (Z * cstring)) :
  Forall cap_ok (slots tb) ->
  add_stream tb capacity ps = Some tb' -> Forall cap_ok (slots tb').
Proof.
  revert tb. induction ps as [|[d t] ps IH]; intros tb Hall.
  - intros [= <-]. exact Hall.
  - cbn [add_stream].
    destruct (add_term_doc tb capacity t d) as [tb1|] eqn:Hadd; [|discriminate].
    apply IH. apply (add_term_doc_cap_ok tb tb1 capacity t d Hall Hadd).
Qed.

Lemma build_table_cap_ok (capacity : nat) (lines : list Line) (tb : Table) :
  build_table capacity lines = Some tb -> Forall cap_ok (slots tb).
Proof.
  unfold build_table. rewrite index_lines_stream. apply add_stream_cap_ok.
  cbn [slots]. apply Forall_replicate.
  unfold cap_ok, postings_count, zero_entry. cbn [postings postings_cap length]. lia.
Qed.

(** X22. The posting list of a term never overruns its buffer, and its
    32-bit count never wraps: in every table that the builder constructs,
    the number of postings of a slot is at most the capacity of its
    buffer, which is at most [2^32 - 2]. *)
Theorem postings_fit_buffer (capacity : nat) (lines : list Line) (tb : Table) :
  build_table capacity lines = Some tb ->
  Forall (fun e => postings_count e <= postings_cap e
                   /\ postings_cap e <= 2 ^ 32 - 2) (slots tb).
Proof.
  intros H. eapply Forall_impl; [apply (build_table_cap_ok capacity lines tb H) |].
  intros e [H1 H2]. split; [exact H1 | lia].
Qed.

Lemma postings_fit_buffer_witness :
  build_table 1024 example_lines = Some example_table
  /\ Forall (fun e => postings_count e <= postings_cap e
                      /\ postings_cap e <= 2 ^ 32 - 2) (slots example_table).
Proof.
  split; [apply example_table_built |].
  apply (postings_fit_buffer 1024 example_lines example_table example_table_built).
Defined.

End capacity_facts.

(** ** The contents of the files written *)

Section files_content.
Import CLib IndexBuilder LineSpec LexiconSpec BuilderSpec BuilderAux PostingSpec.
Import ContentSpec ContentAux CapacityAux BuilderExamples.

Lemma write_index_unfold (tb : Table) :
  write_index tb
  = ({| postings_magic := 0x504F5354; postings_version := 1;
        total_postings :=
          wrap64 (Z.of_nat (length (write_postings (sorted_terms tb) 0).2));
        posting_ids := (write_postings (sorted_terms tb) 0).2 |},
     {| lexicon_magic := 0x4C455849; lexicon_version := 1;
        lexicon_term_count := wrap32 (used_terms tb);
        lexicon_records :=
          map lexicon_record (write_postings (sorted_terms tb) 0).1 |}).
Proof.
  unfold write_index. destruct (write_postings (sorted_terms tb) 0). reflexivity.
Qed.

Lemma write_postings_ids (sorted : list TermEntry) (offset : Z) :
  (write_postings sorted offset).2 = flat_map postings sorted.
Proof.
  revert offset. induction sorted as [|e rest IH]; intros offset; [reflexivity |].
  cbn [write_postings flat_map].
  match goal with
  | |- context [write_postings rest ?o] =>
      specialize (IH o); destruct (write_postings rest o) as [es ids]
  end.
  cbn [snd] in *. rewrite IH. reflexivity.
Qed.

Lemma write_postings_length (sorted : list TermEntry) (offset : Z) :
  length (write_postings sorted offset).1 = length sorted.
Proof.
  revert offset. induction sorted as [|e rest IH]; intros offset; [reflexivity |].
  cbn [write_postings].
  match goal with
  | |- context [write_postings rest ?o] =>
      specialize (IH o); destruct (write_postings rest o) as [es ids]
  end.
  cbn [fst length] in *. rewrite IH. reflexivity.
Qed.

(** With the count of used slots right, every used slot is sorted. *)
Lemma sorted_terms_perm (capacity : nat) (ps : list (Z * cstring)) (tb : Table) :
  content_ok capacity ps tb ->
  Permutation (sorted_terms tb) (filter (fun e => used e = true) (slots tb)).
Proof.
  intros [_ _ _ Hused]. unfold sorted_terms.
  rewrite (qsort_perm cmp_term_ptrs _), Hused, Nat2Z.id, take_ge by lia.
  reflexivity.
Qed.

Lemma sorted_terms_length (capacity : nat) (ps : list (Z * cstring)) (tb : Table) :
  content_ok capacity ps tb ->
  Z.of_nat (length (sorted_terms tb)) = used_terms tb.
Proof.
  intros Hok. rewrite (Permutation_length (sorted_terms_perm _ _ _ Hok)).
  symmetry. apply (content_used _ _ _ Hok).
Qed.

Lemma used_terms_le_capacity (capacity : nat) (lines : list Line) (tb : Table) :
  bodies_nul_free lines -> build_table capacity lines = Some tb ->
  0 <= used_terms tb <= Z.of_nat capacity.
Proof.
  intros Hnul Hbuild.
  pose proof (build_table_content capacity lines tb Hnul Hbuild) as Hok.
  rewrite (content_used _ _ _ Hok).
  assert (Hlen : length (slots tb) = capacity).
  { clear Hok Hnul. unfold build_table in Hbuild.
    rewrite index_lines_stream in Hbuild.
    assert (Hgen : forall ps tb0, add_stream tb0 capacity ps = Some tb ->
                     length (slots tb) = length (slots tb0)).
    { induction ps as [|[d t] ps IH]; intros tb0; [intros [= <-]; reflexivity |].
      cbn [add_stream].
      destruct (add_term_doc tb0 capacity t d) as [tb1|] eqn:Hadd; [|discriminate].
      intros H. rewrite (IH tb1 H). unfold add_term_doc in Hadd.
      apply add_term_doc_loop_slots in Hadd as (i & e & e' & _ & _ & -> & _).
      apply length_insert. }
    rewrite (Hgen _ _ Hbuild). cbn [slots]. apply length_replicate. }
  pose proof (length_filter (fun e => used e = true) (slots tb)). lia.
Qed.

(** The part of the stream that a lexicon entry stands for. *)
Lemma sorted_entry_content (capacity : nat) (lines : list Line) (tb : Table)
    (e : TermEntry) :
  bodies_nul_free lines -> build_table capacity lines = Some tb ->
  e ∈ sorted_terms tb ->
  postings e = dedup_adjacent (occurrences (term e) lines)
  /\ postings e <> [] /\ nul_free (term e).
Proof.
  intros Hnul Hbuild [He Hu]%sorted_terms_slots.
  destruct (build_table_content capacity lines tb Hnul Hbuild)
    as [Hok Hpost _ _].
  apply list_elem_of_lookup_1 in He as [s Hs].
  destruct (Hpost s e Hs Hu) as (Hp & Hne & _).
  destruct (Hok s e Hs Hu) as [Hfree _]. auto.
Qed.

End files_content.

(** ** The index files read back *)

Section round_trip_facts.
Import CLib CStd IndexBuilder SearchCli BinaryIO IndexFiles SearchCliLoad.
Import FilesSpec FilesAux.

Lemma read_u16_write (v : Z) (rest : list ascii) :
  read_u16 (write_u16 v ++ rest) = Some (v mod 2 ^ 16, rest).
Proof.
  unfold read_u16, write_u16. rewrite fread_app by (rewrite length_le_bytes; reflexivity).
  rewrite le_value_le_bytes. reflexivity.
Qed.

Lemma read_u32_write (v : Z) (rest : list ascii) :
  read_u32 (write_u32 v ++ rest) = Some (v mod 2 ^ 32, rest).
Proof.
  unfold read_u32, write_u32. rewrite fread_app by (rewrite length_le_bytes; reflexivity).
  rewrite le_value_le_bytes. reflexivity.
Qed.

Lemma read_u64_write (v : Z) (rest : list ascii) :
  read_u64 (write_u64 v ++ rest) = Some (v mod 2 ^ 64, rest).
Proof.
  unfold read_u64, write_u64. rewrite fread_app by (rewrite length_le_bytes; reflexivity).
  rewrite le_value_le_bytes. reflexivity.
Qed.

Lemma u32_array_write (ids : list Z) :
  u32_array (flat_map write_u32 ids) = map (fun v => v mod 2 ^ 32) ids.
Proof.
  induction ids as [|v ids IH]; [reflexivity |].
  cbn [flat_map map]. unfold write_u32 at 1. cbn [le_bytes app u32_array].
  rewrite IH. f_equal.
  change [byte_of v; byte_of (v / 256); byte_of (v / 256 / 256);
          byte_of (v / 256 / 256 / 256)] with (le_bytes 4 v).
  apply le_value_le_bytes.
Qed.

Lemma length_flat_map_write_u32 (ids : list Z) :
  length (flat_map write_u32 ids) = (4 * length ids)%nat.
Proof.
  induction ids as [|v ids IH]; [reflexivity |].
  cbn [flat_map]. rewrite length_app, IH. unfold write_u32.
  rewrite length_le_bytes. cbn [length]. lia.
Qed.

Lemma map_mod_small (m : Z) (ids : list Z) :
  Forall (fun v => 0 <= v < m) ids -> map (fun v => v mod m) ids = ids.
Proof.
  induction 1 as [|v ids Hv Hids IH]; [reflexivity |].
  cbn [map]. rewrite IH, Z.mod_small by exact Hv. reflexivity.
Qed.

(** The postings of a file whose header says how many it holds. *)
Lemma load_postings_bytes (pf : PostingsFile) :
  postings_magic pf = 0x504F5354 -> postings_version pf = 1 ->
  total_postings pf = Z.of_nat (length (posting_ids pf)) ->
  total_postings pf < 2 ^ 64 ->
  Forall (fun v => 0 <= v < 2 ^ 32) (posting_ids pf) ->
  load_postings (postings_bytes pf) = Some (posting_ids pf).
Proof.
  intros Hm Hv Ht Hfit Hids. unfold load_postings, postings_bytes.
  rewrite read_u32_write, read_u32_write, read_u64_write, Hm, Hv, Ht.
  change (negb (1347375956 mod 2 ^ 32 =? 1347375956) || negb (1 mod 2 ^ 32 =? 1))
    with false. cbn iota.
  rewrite (Z.mod_small (Z.of_nat _)) by lia.
  destruct (Z.gtb_spec (Z.of_nat (length (posting_ids pf))) 0) as [Hpos | Hzero].
  - rewrite <- (app_nil_r (flat_map write_u32 (posting_ids pf))).
    rewrite fread_app by (rewrite length_flat_map_write_u32; lia).
    rewrite u32_array_write, map_mod_small by exact Hids. reflexivity.
  - destruct (posting_ids pf); [reflexivity | cbn [length] in Hzero; lia].
Qed.

Lemma load_lexicon_loop_records (rs : list LexRecord) (lex : list LexEntry)
    (rest : list ascii) :
  Forall record_ok rs ->
  load_lexicon_loop (length rs) (flat_map lexicon_record_bytes rs ++ rest) lex
  = Some (lex ++ map loaded_entry rs).
Proof.
  intros Hall. revert lex.
  induction Hall as [|r rs (Hlen & Hshort & Hoff & Hcnt) Hrs IH]; intros lex.
  - cbn. rewrite app_nil_r. reflexivity.
  - cbn [length flat_map load_lexicon_loop map].
    unfold lexicon_record_bytes at 1. rewrite <- !app_assoc.
    rewrite read_u16_write.
    assert (Hlen0 : 0 <= term_len r) by lia.
    rewrite Z.mod_small by lia.
    assert (Hread : (if term_len r >? 0
                     then fread (term_len r)
                            (term_bytes r ++ write_u64 (lex_postings_offset_bytes r)
                             ++ write_u32 (lex_postings_count r)
                             ++ flat_map lexicon_record_bytes rs ++ rest)
                     else Some ([], term_bytes r
                                      ++ write_u64 (lex_postings_offset_bytes r)
                                      ++ write_u32 (lex_postings_count r)
                                      ++ flat_map lexicon_record_bytes rs ++ rest))
                    = Some (term_bytes r,
                            write_u64 (lex_postings_offset_bytes r)
                            ++ write_u32 (lex_postings_count r)
                            ++ flat_map lexicon_record_bytes rs ++ rest)).
    { destruct (Z.gtb_spec (term_len r) 0) as [Hpos | Hzero].
      - apply fread_app, Hlen.
      - destruct (term_bytes r); [reflexivity | cbn [length] in Hlen; lia]. }
    rewrite Hread, read_u64_write, read_u32_write.
    rewrite !Z.mod_small by lia. rewrite IH, <- app_assoc. reflexivity.
Qed.

(** The entries of a file whose header says how many it holds. *)
Lemma load_lexicon_bytes (lf : LexiconFile) :
  lexicon_magic lf = 0x4C455849 -> lexicon_version lf = 1 ->
  lexicon_term_count lf = Z.of_nat (length (lexicon_records lf)) ->
  lexicon_term_count lf < 2 ^ 32 ->
  Forall record_ok (lexicon_records lf) ->
  load_lexicon (lexicon_bytes lf) = Some (map loaded_entry (lexicon_records lf)).
Proof.
  intros Hm Hv Ht Hfit Hrs. unfold load_lexicon, lexicon_bytes.
  rewrite !read_u32_write, Hm, Hv, Ht.
  change (negb (1279613001 mod 2 ^ 32 =? 1279613001) || negb (1 mod 2 ^ 32 =? 1))
    with false. cbn iota.
  rewrite (Z.mod_small (Z.of_nat _)) by lia.
  rewrite Nat2Z.id.
  rewrite <- (app_nil_r (flat_map lexicon_record_bytes (lexicon_records lf))).
  apply (load_lexicon_loop_records _ [] []), Hrs.
Qed.

End round_trip_facts.

(** ** The files of a built index *)

Section built_files_facts.
Import CLib CStd IndexBuilder SearchCli BinaryIO IndexFiles SearchCliLoad.
Import LineSpec LexiconSpec BuilderSpec BuilderAux PostingSpec.
Import ContentSpec ContentAux CapacityAux FilesSpec FilesAux.

Lemma lexicon_record_len (e : TermEntry) :
  term_len (lexicon_record e) = Z.of_nat (length (term_bytes (lexicon_record e)))
  /\ term_len (lexicon_record e) < 2 ^ 16.
Proof.
  unfold lexicon_record. cbn [term_len term_bytes]. rewrite length_take.
  destruct (Z.gtb_spec (Z.of_nat (length (IndexBuilder.term e))) 65535) as [Hgt | Hle].
  - rewrite Z.mod_small by lia. lia.
  - rewrite Z.mod_small by lia. lia.
Qed.

Lemma Forall2_impl_elem {A B} (P Q : A -> B -> Prop) (l : list A) (k : list B) :
  Forall2 P l k -> (forall x y, x ∈ l -> P x y -> Q x y) -> Forall2 Q l k.
Proof.
  induction 1 as [|x y l k Hxy Hlk IH]; intros Himp; constructor.
  - apply Himp; [left | exact Hxy].
  - apply IH. intros x' y' Hx'. apply Himp. right. exact Hx'.
Qed.

(** What the loop over the sorted terms writes for each of them. *)
Lemma written_entries (capacity : nat) (lines : list Line) (tb : Table) :
  bodies_nul_free lines -> build_table capacity lines = Some tb ->
  4 * Z.of_nat (length (posting_ids (write_index tb).1)) < 2 ^ 64 ->
  Forall2 (fun e r =>
             term_bytes r = take (Z.to_nat 65535) (IndexBuilder.term e)
             /\ region (write_index tb).1 r = postings e
             /\ lex_postings_count r = Z.of_nat (length (postings e))
             /\ 0 <= lex_postings_offset_bytes r
             /\ lex_postings_offset_bytes r / 4 + lex_postings_count r
                <= Z.of_nat (length (posting_ids (write_index tb).1))
             /\ record_ok r)
    (sorted_terms tb) (lexicon_records (write_index tb).2).
Proof.
  intros Hnul Hbuild Hfit.
  pose proof (build_table_cap_ok capacity lines tb Hbuild) as Hcap.
  rewrite Forall_forall in Hcap.
  rewrite write_index_unfold in *. cbn [fst snd posting_ids lexicon_records] in *.
  pose proof (write_postings_spec (sorted_terms tb) 0 ltac:(lia) ltac:(lia)) as Hw.
  apply Forall2_fmap_r. eapply Forall2_impl_elem; [exact Hw |].
  intros e e' He Hat.
  destruct (sorted_entry_content capacity lines tb e Hnul Hbuild He)
    as (_ & Hne & _).
  apply sorted_terms_slots in He as [He _]. specialize (Hcap e He).
  pose proof (region_of_written _ e e' Hat) as Hregion. cbn zeta in Hregion.
  destruct Hat as (Hterm & Hp & k & Hk & Htake).
  assert (Hpos : (0 < length (postings e))%nat)
    by (destruct (postings e); [congruence | cbn; lia]).
  assert (Hroom : (k + length (postings e) <= length (write_postings (sorted_terms tb) 0).2)%nat).
  { apply (f_equal length) in Htake. rewrite length_take, length_drop in Htake. lia. }
  destruct (lexicon_record_len e') as [Hlen Hshort].
  assert (Hcount : lex_postings_count (lexicon_record e') = Z.of_nat (length (postings e))).
  { unfold lexicon_record. cbn [lex_postings_count].
    unfold IndexBuilder.postings_count. rewrite Hp. reflexivity. }
  assert (Hoff : lex_postings_offset_bytes (lexicon_record e') = 4 * Z.of_nat k).
  { unfold lexicon_record. cbn [lex_postings_offset_bytes]. lia. }
  split; [rewrite term_bytes_cut, Hterm; reflexivity |].
  split; [exact Hregion |]. split; [exact Hcount |].
  split; [lia |]. split.
  - rewrite Hoff, Hcount, Z.mul_comm, Z.div_mul by lia. lia.
  - unfold record_ok. rewrite Hoff, Hcount.
    destruct Hcap as [Hc1 Hc2]. unfold IndexBuilder.postings_count in Hc1. lia.
Qed.

End built_files_facts.

Section built_files_claims.
Import CLib CStd IndexBuilder SearchCli BinaryIO IndexFiles SearchCliLoad.
Import LineSpec LexiconSpec BuilderSpec BuilderAux PostingSpec QuerySpec QueryAux.
Import ContentSpec ContentAux CapacityAux FilesSpec FilesAux BuilderExamples.

Lemma build_index_files (capacity : nat) (lines : list Line)
    (pf : PostingsFile) (lf : LexiconFile) :
  build_index capacity lines = Some (pf, lf) ->
  exists tb, build_table capacity lines = Some tb
             /\ pf = (write_index tb).1 /\ lf = (write_index tb).2.
Proof.
  unfold build_index. destruct (build_table capacity lines) as [tb|]; [|discriminate].
  intros [= Hw]. exists tb. rewrite Hw. auto.
Qed.

Lemma Forall2_elem_of_r {A B} (P : A -> B -> Prop) (l : list A) (k : list B) (y : B) :
  Forall2 P l k -> y ∈ k -> exists x, x ∈ l /\ P x y.
Proof.
  induction 1 as [|x y' l k Hxy Hlk IH]; intros Hy; [inversion Hy |].
  apply elem_of_cons in Hy as [-> | Hy].
  - exists x. split; [left | exact Hxy].
  - destruct (IH Hy) as (x' & Hx' & HP). exists x'. split; [right |]; assumption.
Qed.

Lemma Forall2_elem_of_l {A B} (P : A -> B -> Prop) (l : list A) (k : list B) (x : A) :
  Forall2 P l k -> x ∈ l -> exists y, y ∈ k /\ P x y.
Proof.
  induction 1 as [|x' y l k Hxy Hlk IH]; intros Hx; [inversion Hx |].
  apply elem_of_cons in Hx as [-> | Hx].
  - exists y. split; [left | exact Hxy].
  - destruct (IH Hx) as (y' & Hy' & HP). exists y'. split; [right |]; assumption.
Qed.

Lemma sorted_entry_short (capacity : nat) (lines : list Line) (tb : Table)
    (e : TermEntry) :
  tokens_short lines -> build_table capacity lines = Some tb ->
  e ∈ sorted_terms tb ->
  take (Z.to_nat 65535) (IndexBuilder.term e) = IndexBuilder.term e.
Proof.
  intros Hshort Hbuild He.
  pose proof (build_table_ok (fun t => Z.of_nat (length t) <= 65535)
                lines tb capacity Hshort Hbuild) as Hok.
  apply sorted_terms_Forall in Hok. rewrite List.Forall_map, Forall_forall in Hok.
  specialize (Hok e He). cbn beta in Hok. apply take_ge. lia.
Qed.

(** Every token of the stream is a sorted term. *)
Lemma token_sorted (capacity : nat) (lines : list Line) (tb : Table)
    (d : Z) (t : cstring) :
  bodies_nul_free lines -> build_table capacity lines = Some tb ->
  (d, t) ∈ stream lines ->
  exists e, e ∈ sorted_terms tb /\ IndexBuilder.term e = t.
Proof.
  intros Hnul Hbuild Hp.
  pose proof (build_table_content capacity lines tb Hnul Hbuild) as Hok.
  destruct (content_terms _ _ _ Hok _ Hp) as (s & e & Hs & Hu & Ht).
  exists e. split; [|exact Ht].
  rewrite (sorted_terms_perm _ _ _ Hok).
  apply list_elem_of_filter. split; [exact Hu |].
  eapply list_elem_of_lookup_2, Hs.
Qed.

(** X23. The two files of a built index, read together.  When the
    bodies of the lines are C strings with no token longer than 65535
    bytes, the postings that a record of [lexicon.bin] delimits in
    [postings.bin] are the doc_ids of the occurrences of its term in the
    stream, consecutive repetitions removed, and there is at least one;
    every token of the stream has a record; and [postings.bin] holds the
    lists of the records one after the other, and nothing else. *)
Theorem written_index_content (capacity : nat) (lines : list Line)
    (pf : PostingsFile) (lf : LexiconFile) :
  bodies_nul_free lines -> tokens_short lines ->
  build_index capacity lines = Some (pf, lf) ->
  4 * Z.of_nat (length (posting_ids pf)) < 2 ^ 64 ->
  (forall r, r ∈ lexicon_records lf ->
     region pf r = dedup_adjacent (occurrences (term_bytes r) lines)
     /\ region pf r <> [])
  /\ (forall l t, l ∈ lines -> t ∈ body_tokens (body l) ->
        exists r, r ∈ lexicon_records lf /\ term_bytes r = t)
  /\ posting_ids pf = flat_map (region pf) (lexicon_records lf).
Proof.
  intros Hnul Hshort Hbuild Hfit.
  apply build_index_files in Hbuild as (tb & Hbuild & -> & ->).
  pose proof (written_entries capacity lines tb Hnul Hbuild Hfit) as Hw.
  split; [|split].
  - intros r Hr.
    destruct (Forall2_elem_of_r _ _ _ r Hw Hr) as (e & He & Hterm & Hreg & _).
    destruct (sorted_entry_content capacity lines tb e Hnul Hbuild He)
      as (Hp & Hne & _).
    rewrite Hreg, Hterm, (sorted_entry_short capacity lines tb e Hshort Hbuild He).
    auto.
  - intros l t Hl Ht.
    destruct (token_sorted capacity lines tb (doc_id l) t Hnul Hbuild)
      as (e & He & Hterm).
    { apply elem_of_stream. exists l. auto. }
    destruct (Forall2_elem_of_l _ _ _ e Hw He) as (r & Hr & Hbytes & _).
    exists r. split; [exact Hr |].
    rewrite Hbytes, (sorted_entry_short capacity lines tb e Hshort Hbuild He).
    exact Hterm.
  - transitivity (flat_map postings (sorted_terms tb)).
    + rewrite write_index_unfold. cbn [fst posting_ids].
      apply write_postings_ids.
    + induction Hw as [|e r es rs (_ & Hreg & _) _ IH]; [reflexivity |].
      cbn [flat_map]. rewrite Hreg, IH. reflexivity.
Qed.

End built_files_claims.

Section round_trip_claims.
Import CLib CStd IndexBuilder SearchCli BinaryIO IndexFiles SearchCliLoad.
Import LineSpec LexiconSpec BuilderSpec BuilderAux PostingSpec QuerySpec QueryAux.
Import ContentSpec ContentAux CapacityAux FilesSpec FilesAux BuilderExamples.

Lemma written_index_content_witness :
  (forall r, r ∈ lexicon_records (write_index example_table).2 ->
     region (write_index example_table).1 r
     = dedup_adjacent (occurrences (term_bytes r) example_lines)
     /\ region (write_index example_table).1 r <> [])
  /\ (forall l t, l ∈ example_lines -> t ∈ body_tokens (body l) ->
        exists r, r ∈ lexicon_records (write_index example_table).2
                  /\ term_bytes r = t)
  /\ posting_ids (write_index example_table).1
     = flat_map (region (write_index example_table).1)
         (lexicon_records (write_index example_table).2).
Proof.
  apply (written_index_content 1024 example_lines _ _
           example_lines_nul_free example_lines_short example_index_built).
  vm_compute. reflexivity.
Defined.

Lemma built_postings_u32 (capacity : nat) (lines : list Line) (tb : Table) :
  bodies_nul_free lines -> doc_ids_u32 lines ->
  build_table capacity lines = Some tb ->
  Forall (fun v => 0 <= v < 2 ^ 32) (posting_ids (write_index tb).1).
Proof.
  intros Hnul Hids Hbuild.
  rewrite write_index_unfold. cbn [fst posting_ids]. rewrite write_postings_ids.
  apply Forall_forall. intros d Hd%list_elem_of_In.
  apply in_flat_map in Hd as (e & He%list_elem_of_In & Hd%list_elem_of_In).
  destruct (sorted_entry_content capacity lines tb e Hnul Hbuild He) as (Hp & _).
  rewrite Hp in Hd. apply elem_of_dedup_adjacent, elem_of_occurrences in Hd
    as (l & Hl & <- & _).
  unfold doc_ids_u32 in Hids. rewrite Forall_forall in Hids. apply Hids, Hl.
Qed.

Lemma built_postings_load (capacity : nat) (lines : list Line) (tb : Table) :
  bodies_nul_free lines -> doc_ids_u32 lines ->
  build_table capacity lines = Some tb ->
  4 * Z.of_nat (length (posting_ids (write_index tb).1)) < 2 ^ 64 ->
  load_postings (postings_bytes (write_index tb).1)
  = Some (posting_ids (write_index tb).1).
Proof.
  intros Hnul Hids Hbuild Hfit.
  pose proof (built_postings_u32 capacity lines tb Hnul Hids Hbuild) as Hu32.
  rewrite write_index_unfold in *. cbn [fst posting_ids] in *.
  assert (Htotal : wrap64 (Z.of_nat (length (write_postings (sorted_terms tb) 0).2))
                   = Z.of_nat (length (write_postings (sorted_terms tb) 0).2)).
  { rewrite wrap64_mod. apply Z.mod_small. lia. }
  apply load_postings_bytes; cbn [postings_magic postings_version total_postings
                                  posting_ids]; try reflexivity.
  - exact Htotal.
  - rewrite Htotal. lia.
  - exact Hu32.
Qed.

Lemma built_lexicon_load (capacity : nat) (lines : list Line) (tb : Table) :
  bodies_nul_free lines ->
  build_table capacity lines = Some tb ->
  Z.of_nat capacity < 2 ^ 32 ->
  4 * Z.of_nat (length (posting_ids (write_index tb).1)) < 2 ^ 64 ->
  load_lexicon (lexicon_bytes (write_index tb).2)
  = Some (map loaded_entry (lexicon_records (write_index tb).2)).
Proof.
  intros Hnul Hbuild Hcap Hfit.
  pose proof (written_entries capacity lines tb Hnul Hbuild Hfit) as Hw.
  pose proof (build_table_content capacity lines tb Hnul Hbuild) as Hok.
  pose proof (used_terms_le_capacity capacity lines tb Hnul Hbuild) as Hused.
  pose proof (sorted_terms_length _ _ _ Hok) as Hlen.
  rewrite (Forall2_length _ _ _ Hw) in Hlen.
  apply load_lexicon_bytes.
  - rewrite write_index_unfold. reflexivity.
  - rewrite write_index_unfold. reflexivity.
  - rewrite Hlen. rewrite write_index_unfold. cbn [snd lexicon_term_count].
    unfold wrap32. apply Z.mod_small. lia.
  - rewrite write_index_unfold at 1. cbn [snd lexicon_term_count].
    unfold wrap32. rewrite Z.mod_small by lia. lia.
  - apply Forall_forall. intros r Hr.
    destruct (Forall2_elem_of_r _ _ _ r Hw Hr) as (e & _ & H). apply H.
Qed.

(** X24. [postings.bin] and [lexicon.bin] are read back as written.
    From the bytes of the files of a built index the search program loads
    the doc_ids that the builder wrote, in their order, and one entry for
    each record of the lexicon, in file order, with the term, the offset
    and the count of the record; this holds when the doc_ids of the lines
    are 32-bit values, the table has fewer than [2^32] slots and the
    postings take less than [2^64] bytes. *)
Theorem index_files_round_trip (capacity : nat) (lines : list Line)
    (pf : PostingsFile) (lf : LexiconFile) :
  bodies_nul_free lines -> doc_ids_u32 lines ->
  build_index capacity lines = Some (pf, lf) ->
  Z.of_nat capacity < 2 ^ 32 ->
  4 * Z.of_nat (length (posting_ids pf)) < 2 ^ 64 ->
  load_postings (postings_bytes pf) = Some (posting_ids pf)
  /\ load_lexicon (lexicon_bytes lf) = Some (map loaded_entry (lexicon_records lf))
  /\ Forall (fun r => SearchCli.term (loaded_entry r) = term_bytes r)
       (lexicon_records lf).
Proof.
  intros Hnul Hids Hbuild Hcap Hfit.
  apply build_index_files in Hbuild as (tb & Hbuild & -> & ->).
  split; [apply (built_postings_load capacity lines tb); assumption |].
  split; [apply (built_lexicon_load capacity lines tb); assumption |].
  pose proof (written_entries capacity lines tb Hnul Hbuild Hfit) as Hw.
  apply Forall_forall. intros r Hr.
  destruct (Forall2_elem_of_r _ _ _ r Hw Hr) as (e & He & Hterm & _).
  destruct (sorted_entry_content capacity lines tb e Hnul Hbuild He)
    as (_ & _ & Hfree).
  cbn [loaded_entry SearchCli.term]. apply c_str_nul_free.
  rewrite Hterm. apply Forall_take, Hfree.
Qed.

End round_trip_claims.

(** ** From the stream to the answer of a query *)

Section end_to_end.
Import CLib CStd IndexBuilder SearchCli BinaryIO IndexFiles SearchCliLoad.
Import LineSpec LexiconSpec BuilderSpec BuilderAux PostingSpec QuerySpec QueryAux.
Import ContentSpec ContentAux CapacityAux FilesSpec FilesAux BuilderExamples.

(** The terms of the loaded lexicon are the sorted terms. *)
Lemma loaded_terms (capacity : nat) (lines : list Line) (tb : Table) :
  bodies_nul_free lines -> tokens_short lines ->
  build_table capacity lines = Some tb ->
  4 * Z.of_nat (length (posting_ids (write_index tb).1)) < 2 ^ 64 ->
  map SearchCli.term (map loaded_entry (lexicon_records (write_index tb).2))
  = map IndexBuilder.term (sorted_terms tb).
Proof.
  intros Hnul Hshort Hbuild Hfit.
  pose proof (written_entries capacity lines tb Hnul Hbuild Hfit) as Hw.
  assert (Hgen : forall es rs,
            Forall2 (fun e r => SearchCli.term (loaded_entry r) = IndexBuilder.term e)
              es rs ->
            map SearchCli.term (map loaded_entry rs) = map IndexBuilder.term es).
  { induction 1 as [|e r es rs Her _ IH]; [reflexivity |].
    cbn [map]. rewrite Her, IH. reflexivity. }
  apply Hgen. eapply Forall2_impl_elem; [exact Hw |].
  intros e r He (Hterm & _). cbn [loaded_entry SearchCli.term].
  destruct (sorted_entry_content capacity lines tb e Hnul Hbuild He)
    as (_ & _ & Hfree).
  rewrite Hterm, (sorted_entry_short capacity lines tb e Hshort Hbuild He).
  apply c_str_nul_free, Hfree.
Qed.

(** The posting list that the evaluator pushes for a term, on the index
    loaded from the files of a built index. *)
Lemma built_term_postings (capacity : nat) (lines : list Line) (tb : Table)
    (idx : IndexData) (t : cstring) :
  bodies_nul_free lines -> tokens_short lines ->
  build_table capacity lines = Some tb ->
  4 * Z.of_nat (length (posting_ids (write_index tb).1)) < 2 ^ 64 ->
  lexicon idx = map loaded_entry (lexicon_records (write_index tb).2) ->
  postings_data idx = posting_ids (write_index tb).1 ->
  nul_free t ->
  term_postings idx t = Some (dedup_adjacent (occurrences t lines)).
Proof.
  intros Hnul Hshort Hbuild Hfit Hlex Hdata Ht.
  pose proof (written_entries capacity lines tb Hnul Hbuild Hfit) as Hw.
  pose proof (loaded_terms capacity lines tb Hnul Hshort Hbuild Hfit) as Hterms.
  rewrite <- Hlex in Hterms.
  pose proof (build_table_ok nul_free lines tb capacity
                (tokens_Forall _ lines Hnul) Hbuild) as Hok.
  pose proof (sorted_terms_Forall nul_free capacity tb Hok) as Hfree.
  pose proof (sorted_terms_NoDup nul_free capacity tb Hok) as Hdup.
  pose proof (sorted_distinct_strict _ Hfree Hdup (sorted_terms_sorted tb))
    as Hstrict.
  rewrite <- Hterms in Hstrict, Hfree.
  assert (Hfree' : Forall (fun e => nul_free (SearchCli.term e)) (lexicon idx)).
  { rewrite Forall_forall in Hfree. apply Forall_forall. intros e He.
    apply Hfree, list_elem_of_fmap. exists e. auto. }
  destruct (lexicon_find_of_sorted idx t Hstrict Hfree' Ht) as [Hfound Hmissing].
  unfold term_postings.
  destruct (decide (t ∈ map IndexBuilder.term (sorted_terms tb))) as [Hin | Hout].
  - apply list_elem_of_fmap in Hin as (e & -> & He).
    destruct (Forall2_elem_of_l _ _ _ e Hw He)
      as (r & Hr & Hbytes & Hreg & Hcnt & Hoff & Hroom & _).
    destruct (sorted_entry_content capacity lines tb e Hnul Hbuild He)
      as (Hp & _ & Hefree).
    assert (Hterm : SearchCli.term (loaded_entry r) = IndexBuilder.term e).
    { cbn [loaded_entry SearchCli.term].
      rewrite Hbytes, (sorted_entry_short capacity lines tb e Hshort Hbuild He).
      apply c_str_nul_free, Hefree. }
    rewrite (Hfound (loaded_entry r)); [| |exact Hterm].
    + cbn [loaded_entry postings_offset postings_count].
      unfold postings_total. rewrite Hdata.
      destruct (Z.gtb_spec (lex_postings_offset_bytes r / 4 + lex_postings_count r)
                  (Z.of_nat (length (posting_ids (write_index tb).1))))
        as [Hgt | _]; [lia |].
      f_equal. rewrite <- Hp, <- Hreg. unfold clone_postings, region.
      reflexivity.
    + rewrite Hlex. apply list_elem_of_fmap. exists r. auto.
  - rewrite Hmissing.
    + f_equal. unfold occurrences, occurrences_in.
      destruct (filter (fun p => p.2 = t) (stream lines)) as [|[d t'] ps] eqn:E;
        [reflexivity |].
      exfalso. apply Hout.
      assert (Hp : (d, t') ∈ filter (fun p => p.2 = t) (stream lines))
        by (rewrite E; left).
      apply list_elem_of_filter in Hp as [Heq Hp]. cbn in Heq. subst t'.
      destruct (token_sorted capacity lines tb d t Hnul Hbuild Hp) as (e & He & <-).
      apply list_elem_of_fmap. exists e. auto.
    + intros e He Hterm. apply Hout. rewrite <- Hterms, <- Hterm.
      apply list_elem_of_fmap. exists e. auto.
Qed.

Lemma tokenize_query_word (w : list ascii) :
  is_term w -> tokenize_query w = [term_token w].
Proof.
  intros [Hne Hw]. unfold tokenize_query.
  rewrite <- (app_nil_r w) at 1.
  rewrite (tokenize_raw_term w []) by (assumption || reflexivity).
  reflexivity.
Qed.

Lemma word_stem_nul_free (w : list ascii) :
  forallb isalnum w = true -> nul_free (stem_term_inplace (map tolower w)).
Proof.
  intros Hw. apply (stem_token_Forall (fun c => c <> Ascii.zero)); [|discriminate].
  apply Forall_forall. intros c (c0 & -> & Hc0)%list_elem_of_fmap.
  rewrite forallb_forall in Hw. apply list_elem_of_In, Hw in Hc0.
  destruct (tolower_clean c0 Hc0) as [Hal _]. intros Hz. rewrite Hz in Hal.
  discriminate Hal.
Qed.

(** X25. From the stream to the answer.  On the index that the search
    program loads from the two files of a built index, the query made of
    one word is answered with the doc_ids of the lines that have the stem
    of the lowercased word among their tokens: in the order of the stream,
    consecutive repetitions removed. *)
Theorem search_word_finds_documents (capacity : nat) (lines : list Line)
    (pf : PostingsFile) (lf : LexiconFile) (idx : IndexData) (w : list ascii) :
  bodies_nul_free lines -> tokens_short lines -> doc_ids_u32 lines ->
  Z.of_nat capacity < 2 ^ 32 ->
  build_index capacity lines = Some (pf, lf) ->
  4 * Z.of_nat (length (posting_ids pf)) < 2 ^ 64 ->
  load_lexicon (lexicon_bytes lf) = Some (lexicon idx) ->
  load_postings (postings_bytes pf) = Some (postings_data idx) ->
  is_term w ->
  evaluate idx w
  = Some (dedup_adjacent
            (occurrences (Stemmer.stem_token (map tolower w)) lines))
  /\ forall d,
       d ∈ dedup_adjacent (occurrences (Stemmer.stem_token (map tolower w)) lines)
       <-> exists l, l ∈ lines /\ doc_id l = d
                     /\ Stemmer.stem_token (map tolower w) ∈ body_tokens (body l).
Proof.
  intros Hnul Hshort Hids Hcap Hbuild Hfit Hlex Hdata Hw.
  split; [|intros d; rewrite elem_of_dedup_adjacent; apply elem_of_occurrences].
  apply build_index_files in Hbuild as (tb & Hbuild & -> & ->).
  rewrite (built_lexicon_load capacity lines tb Hnul Hbuild Hcap Hfit) in Hlex.
  rewrite (built_postings_load capacity lines tb Hnul Hids Hbuild Hfit) in Hdata.
  injection Hlex as Hlex. injection Hdata as Hdata.
  unfold evaluate. rewrite (tokenize_query_word w Hw).
  cbn [length Nat.eqb].
  change (to_rpn [term_token w]) with (Some [term_token w]).
  unfold eval_rpn. rewrite eval_loop_term_token.
  rewrite (built_term_postings capacity lines tb idx _ Hnul Hshort Hbuild Hfit
             (eq_sym Hlex) (eq_sym Hdata) (word_stem_nul_free w (proj2 Hw))).
  reflexivity.
Qed.

End end_to_end.

(** ** [strtoul] and [parse_u32] *)

Section parse_facts.
Import CLib SearchCli CParse ParseSpec.

Lemma digits_value_uint (d : Decimal.uint) (acc : Z) (rest : list ascii) :
  no_digit_ahead rest ->
  digits_value acc (lit (NilEmpty.string_of_uint d) ++ rest) = uint_value acc d.
Proof.
  intros Hrest. revert acc.
  induction d as [|d IH|d IH|d IH|d IH|d IH|d IH|d IH|d IH|d IH|d IH]; intros acc;
    cbn [NilEmpty.string_of_uint lit list_ascii_of_string app uint_value];
    try (cbn [digits_value]; rewrite <- IH; reflexivity).
  destruct rest as [|c rest]; [reflexivity |].
  unfold no_digit_ahead in Hrest. cbn in Hrest. cbn [digits_value].
  rewrite Hrest. reflexivity.
Qed.

Lemma pos_of_uint_acc_value (d : Decimal.uint) (acc : positive) :
  Z.pos (Pos.of_uint_acc d acc) = uint_value (Z.pos acc) d.
Proof.
  revert acc.
  induction d as [|d IH|d IH|d IH|d IH|d IH|d IH|d IH|d IH|d IH|d IH]; intros acc;
    cbn [Pos.of_uint_acc uint_value]; [reflexivity | ..];
    rewrite IH; f_equal; lia.
Qed.

Lemma n_of_uint_value (d : Decimal.uint) :
  Z.of_N (Pos.of_uint d) = uint_value 0 d.
Proof.
  induction d as [|d IH|d IH|d IH|d IH|d IH|d IH|d IH|d IH|d IH|d IH];
    cbn [Pos.of_uint uint_value]; [reflexivity | exact IH | ..];
    cbn [Z.of_N]; rewrite pos_of_uint_acc_value; reflexivity.
Qed.

Lemma uint_value_to_uint (n : N) : uint_value 0 (N.to_uint n) = Z.of_N n.
Proof.
  rewrite <- n_of_uint_value. f_equal. apply DecimalN.Unsigned.of_to.
Qed.

Lemma to_uint_not_nil (n : N) : N.to_uint n <> Decimal.Nil.
Proof.
  intros H. pose proof (DecimalN.Unsigned.of_to n) as Hn.
  rewrite H in Hn. cbn in Hn. subst n. discriminate H.
Qed.

Lemma uint_string_head (d : Decimal.uint) :
  d <> Decimal.Nil ->
  NilZero.string_of_uint d = NilEmpty.string_of_uint d
  /\ exists c s, lit (NilEmpty.string_of_uint d) = c :: s
       /\ isdigit c = true /\ isspace c = false
       /\ c <> "-"%char /\ c <> "+"%char.
Proof.
  intros Hd. destruct d; [congruence | ..];
    (split; [reflexivity |]);
    cbn [NilEmpty.string_of_uint lit list_ascii_of_string];
    eexists _, _; (split; [reflexivity |]); repeat split; discriminate.
Qed.

Lemma strtoul_decimal (n : Z) (rest : list ascii) :
  0 <= n -> no_digit_ahead rest ->
  strtoul (decimal n ++ rest) = if n >? ULONG_MAX then ULONG_MAX else n.
Proof.
  intros Hn Hrest. unfold decimal.
  destruct (uint_string_head (N.to_uint (Z.to_N n)) (to_uint_not_nil _))
    as (-> & c & s & Hs & Hdigit & Hspace & Hminus & Hplus).
  pose proof (digits_value_uint (N.to_uint (Z.to_N n)) 0 rest Hrest) as Hval.
  rewrite uint_value_to_uint, Z2N.id in Hval by exact Hn.
  unfold strtoul. rewrite Hs in *. cbn [app skip_space]. rewrite Hspace.
  rewrite !bool_decide_eq_false_2 by assumption. cbn [orb].
  cbn [app] in Hval. rewrite Hval. reflexivity.
Qed.

(** X26. [parse_u32] reads a decimal number back: the digits that
    [printf] writes for a value below [2^32], followed by a byte that is
    not a digit or by nothing, give this value.  A number that is not
    below [2^32] does not fail: it is reduced modulo [2^32], and gives
    4294967295 from [2^64] on.  A string that starts with a byte that is
    neither white space, a sign nor a digit gives 0, as the empty string
    does. *)
Theorem parse_u32_decimal (n : Z) (rest : list ascii) :
  0 <= n -> no_digit_ahead rest ->
  parse_u32 (decimal n ++ rest)
  = (if n >? ULONG_MAX then 4294967295 else n mod 2 ^ 32)
  /\ (n < 2 ^ 32 -> parse_u32 (decimal n ++ rest) = n)
  /\ parse_u32 [] = 0
  /\ forall c s, isspace c = false -> isdigit c = false ->
       c <> "-"%char -> c <> "+"%char -> parse_u32 (c :: s) = 0.
Proof.
  intros Hn Hrest.
  assert (Hparse : parse_u32 (decimal n ++ rest)
                   = if n >? ULONG_MAX then 4294967295 else n mod 2 ^ 32).
  { unfold parse_u32. rewrite (strtoul_decimal n rest Hn Hrest).
    destruct (n >? ULONG_MAX); reflexivity. }
  split; [exact Hparse |]. split; [|split; [reflexivity |]].
  - intros Hsmall. rewrite Hparse.
    destruct (Z.gtb_spec n ULONG_MAX) as [Hbig | _];
      [unfold ULONG_MAX in Hbig; lia |].
    apply Z.mod_small. lia.
  - intros c s Hspace Hdigit Hminus Hplus. unfold parse_u32, strtoul.
    cbn [skip_space]. rewrite Hspace.
    rewrite !bool_decide_eq_false_2 by assumption. cbn [orb digits_value].
    rewrite Hdigit. reflexivity.
Qed.

Lemma parse_u32_decimal_witness :
  parse_u32 (decimal 4294967297 ++ ("009"%char :: lit "x"))
  = (if 4294967297 >? ULONG_MAX then 4294967295 else 4294967297 mod 2 ^ 32)
  /\ (4294967297 < 2 ^ 32 -> parse_u32 (decimal 4294967297 ++ ("009"%char :: lit "x")) = 4294967297)
  /\ parse_u32 [] = 0
  /\ forall c s, isspace c = false -> isdigit c = false ->
       c <> "-"%char -> c <> "+"%char -> parse_u32 (c :: s) = 0.
Proof. apply (parse_u32_decimal 4294967297 (("009"%char :: lit "x"))); [lia | reflexivity]. Defined.

End parse_facts.

(** ** The index builder: the scan of [raw_text.tsv] *)

Section forward_builder_facts.
Import CLib CStd CParse LineReader BinaryIO IndexFiles.
Import ForwardBuilder ForwardSpec ForwardAux.

Lemma cap_shape_bound (n : Z) : cap_shape n -> 0 <= n <= 2 ^ 31.
Proof.
  intros [-> | (k & Hk & ->)]; [lia |].
  assert (0 < 2 ^ k) by (apply Z.pow_pos_nonneg; lia).
  assert (2 ^ k <= 2 ^ 21) by (apply Z.pow_le_mono_r; lia).
  lia.
Qed.

Lemma cap_shape_double (n : Z) :
  cap_shape n -> 0 < n <= 2147483647 -> cap_shape (n * 2).
Proof.
  intros [-> | (k & Hk & ->)] Hn; [lia |].
  right. exists (k + 1). rewrite Z.pow_add_r by lia.
  split; [|lia].
  destruct (decide (k = 21)) as [-> | Hne]; [|lia].
  exfalso. change (1024 * 2 ^ 21) with 2147483648 in Hn. lia.
Qed.

Lemma grow_meta_cap_bounds (fuel : nat) (new_cap need cap : Z) :
  cap_shape new_cap -> 0 < new_cap ->
  grow_meta_cap fuel new_cap need = Some (Some cap) ->
  need < cap /\ new_cap <= cap /\ cap_shape cap.
Proof.
  revert new_cap. induction fuel as [|fuel IH]; intros new_cap Hc Hpos; [discriminate |].
  cbn [grow_meta_cap]. destruct (Z.leb_spec new_cap need) as [Hle | Hgt].
  - destruct (Z.gtb_spec new_cap 2147483647) as [Hbig | Hsmall]; [discriminate |].
    unfold wrap32. rewrite Z.mod_small by lia.
    intros H. apply IH in H as (H1 & H2 & H3).
    + split; [exact H1 |]. split; [lia | exact H3].
    + apply cap_shape_double; [exact Hc | lia].
    + lia.
  - intros [= <-]. split; [lia |]. split; [lia | exact Hc].
Qed.

Lemma grow_meta_cap_returns (fuel : nat) (new_cap need : Z) :
  0 < new_cap -> need < 2 ^ 31 -> need < new_cap * 2 ^ (Z.of_nat fuel - 1) ->
  (0 < fuel)%nat ->
  exists cap, grow_meta_cap fuel new_cap need = Some (Some cap).
Proof.
  revert new_cap. induction fuel as [|fuel IH]; intros new_cap Hc Hneed Hfuel Hpos;
    [lia |].
  cbn [grow_meta_cap]. destruct (Z.leb_spec new_cap need) as [Hle | Hgt].
  - destruct (Z.gtb_spec new_cap 2147483647) as [Hbig | Hsmall]; [lia |].
    unfold wrap32. rewrite Z.mod_small by lia.
    destruct fuel as [|fuel'].
    + cbn in Hfuel. lia.
    + apply IH; [lia | lia | | lia].
      replace (Z.of_nat (S (S fuel')) - 1) with (Z.succ (Z.of_nat (S fuel') - 1)) in Hfuel
        by lia.
      rewrite Z.pow_succ_r in Hfuel by lia. lia.
  - eexists. reflexivity.
Qed.

Lemma cap_shape_first : cap_shape 1024.
Proof. right. exists 0. split; [lia | reflexivity]. Qed.

Lemma ensure_doc_meta_cap_spec (ms ms' : list DocMeta) (need : Z) :
  cap_shape (Z.of_nat (length ms)) ->
  ensure_doc_meta_cap ms need = Some ms' ->
  exists k, ms' = ms ++ replicate k zero_meta
            /\ need < Z.of_nat (length ms')
            /\ cap_shape (Z.of_nat (length ms')).
Proof.
  intros Hlen. unfold ensure_doc_meta_cap.
  destruct (Z.gtb_spec (Z.of_nat (length ms)) need) as [Hgt | Hle].
  - intros [= <-]. exists 0%nat. rewrite app_nil_r. auto.
  - destruct (grow_meta_cap 33 _ need) as [[cap|]|] eqn:Hgrow; try discriminate.
    intros [= <-]. apply grow_meta_cap_bounds in Hgrow as (Hneed & Hcap & Hshape).
    + eexists. split; [reflexivity |].
      rewrite length_app, length_replicate.
      replace (Z.of_nat (length ms + Z.to_nat (cap - Z.of_nat (length ms)))) with cap
        by (destruct (Z.eqb_spec (Z.of_nat (length ms)) 0); lia).
      auto.
    + destruct (Z.eqb_spec (Z.of_nat (length ms)) 0);
        [apply cap_shape_first | exact Hlen].
    + destruct (Z.eqb_spec (Z.of_nat (length ms)) 0); lia.
Qed.

Lemma ensure_doc_meta_cap_returns (ms : list DocMeta) (need : Z) :
  need < 2 ^ 31 -> is_Some (ensure_doc_meta_cap ms need).
Proof.
  intros Hneed. unfold ensure_doc_meta_cap.
  destruct (Z.gtb_spec (Z.of_nat (length ms)) need) as [Hgt | Hle]; [eexists; reflexivity |].
  destruct (grow_meta_cap_returns 33
              (if Z.of_nat (length ms) =? 0 then 1024 else Z.of_nat (length ms))
              need) as [cap ->].
  - destruct (Z.eqb_spec (Z.of_nat (length ms)) 0); lia.
  - exact Hneed.
  - change (Z.of_nat 33 - 1) with 32.
    destruct (Z.eqb_spec (Z.of_nat (length ms)) 0); lia.
  - lia.
  - eexists. reflexivity.
Qed.

Lemma filter_length_insert {A} (P : A -> Prop) `{!forall x, Decision (P x)}
    (l : list A) (i : nat) (x y : A) :
  l !! i = Some x -> ~ P x -> P y ->
  length (filter P (<[i := y]> l)) = S (length (filter P l)).
Proof.
  revert i. induction l as [|a l IH]; intros i Hi Hx Hy; [discriminate |].
  destruct i as [|i].
  - injection Hi as ->.
    change (<[0%nat := y]> (x :: l)) with (y :: l).
    rewrite filter_cons_True, filter_cons_False by assumption. reflexivity.
  - change (<[S i := y]> (a :: l)) with (a :: <[i := y]> l).
    cbn in Hi. rewrite !filter_cons. specialize (IH i Hi Hx Hy).
    destruct (decide (P a)); cbn [length]; rewrite IH; reflexivity.
Qed.

Lemma filter_set_replicate (ms : list DocMeta) (k : nat) :
  filter (fun m => doc_id m <> 0) (ms ++ replicate k zero_meta)
  = filter (fun m => doc_id m <> 0) ms.
Proof.
  rewrite filter_app. rewrite <- (app_nil_r (filter _ ms)) at 2. f_equal.
  induction k as [|k IH]; [reflexivity |].
  cbn [replicate]. rewrite filter_cons_False; [exact IH |].
  cbn. intros H. apply H. reflexivity.
Qed.

(** What [add_doc_meta] does to the array. *)
Lemma add_doc_meta_spec (st st' : Metas) (d : RawDoc) :
  cap_shape (Z.of_nat (length (metas st))) ->
  0 <= raw_doc_id d ->
  add_doc_meta st d = Some st' ->
  (raw_doc_id d = 0 /\ st' = st)
  \/ (raw_doc_id d <> 0
      /\ exists k m,
           let ms := metas st ++ replicate k zero_meta in
           raw_doc_id d < Z.of_nat (length ms)
           /\ cap_shape (Z.of_nat (length ms))
           /\ ms !! Z.to_nat (raw_doc_id d) = Some m
           /\ ((doc_id m = 0
                /\ st' = {| metas :=
                              <[Z.to_nat (raw_doc_id d) :=
                                  {| doc_id := raw_doc_id d;
                                     title := Some (raw_title d);
                                     url := Some (raw_url d) |}]> ms;
                            docs_with_meta := wrap32 (docs_with_meta st + 1);
                            max_doc_id := Z.max (raw_doc_id d) (max_doc_id st) |})
               \/ (doc_id m <> 0
                   /\ st' = {| metas := ms; docs_with_meta := docs_with_meta st;
                               max_doc_id := max_doc_id st |}))).
Proof.
  intros Hlen Hid. unfold add_doc_meta.
  destruct (Z.eqb_spec (raw_doc_id d) 0) as [Hz | Hnz].
  - intros [= <-]. left. auto.
  - destruct (ensure_doc_meta_cap (metas st) (raw_doc_id d)) as [ms|] eqn:Hens;
      [|discriminate].
    apply ensure_doc_meta_cap_spec in Hens as (k & -> & Hcap & Hshape);
      [|exact Hlen].
    destruct ((metas st ++ replicate k zero_meta) !! Z.to_nat (raw_doc_id d))
      as [m|] eqn:Hm; [|discriminate].
    intros Hst. right. split; [exact Hnz |]. exists k, m. cbn zeta.
    split; [exact Hcap |]. split; [exact Hshape |]. split; [exact Hm |].
    destruct (Z.eqb_spec (doc_id m) 0) as [Hmz | Hmnz].
    + left. split; [exact Hmz |]. injection Hst as <-. f_equal.
      destruct (Z.gtb_spec (raw_doc_id d) (max_doc_id st)); lia.
    + right. split; [exact Hmnz |]. injection Hst as <-. reflexivity.
Qed.

Lemma lookup_app_replicate (ms : list DocMeta) (k i : nat) (m : DocMeta) :
  (ms ++ replicate k zero_meta) !! i = Some m ->
  ms !! i = Some m \/ ((length ms <= i)%nat /\ m = zero_meta).
Proof.
  intros H. apply lookup_app_Some in H as [H | [Hge H]]; [left; exact H |].
  right. split; [exact Hge |]. apply lookup_replicate in H as [-> _]. reflexivity.
Qed.

Lemma metas_ok_zero (st : Metas) (i : nat) (m : DocMeta) :
  metas_ok st -> metas st !! i = Some m -> doc_id m = 0 -> m = zero_meta.
Proof.
  intros Hok Hi Hz. destruct (metas_elements st Hok i m Hi) as [-> | (_ & Hnz & _)];
    [reflexivity | congruence].
Qed.

Lemma add_doc_meta_ok (st st' : Metas) (d : RawDoc) :
  metas_ok st -> 0 <= raw_doc_id d ->
  add_doc_meta st d = Some st' -> metas_ok st'.
Proof.
  intros Hok Hid Hadd.
  destruct (add_doc_meta_spec st st' d (metas_length st Hok) Hid Hadd)
    as [[_ ->] | (Hnz & k & m & Hcap & Hshape & Hm & Hcase)]; [exact Hok |].
  cbn zeta in *.
  pose proof (cap_shape_bound _ Hshape) as Hbound.
  destruct Hok as [Hel Hlen [Hmax0 Hmax] Hbelow Hcount].
  assert (Hel' : forall i m0, (metas st ++ replicate k zero_meta) !! i = Some m0 ->
                              meta_ok i m0).
  { intros i m0 [H | [_ ->]]%lookup_app_replicate; [eauto | left; reflexivity]. }
  assert (Hbelow' : forall i m0, (metas st ++ replicate k zero_meta) !! i = Some m0 ->
                      doc_id m0 <> 0 -> Z.of_nat i <= max_doc_id st).
  { intros i m0 [H | [_ ->]]%lookup_app_replicate Hm0; [eauto |].
    exfalso. apply Hm0. reflexivity. }
  assert (Hgrow : Z.of_nat (length (metas st))
                  <= Z.of_nat (length (metas st ++ replicate k zero_meta)))
    by (rewrite length_app; lia).
  destruct Hcase as [[Hmz ->] | [Hmnz ->]]; constructor; cbn [metas docs_with_meta max_doc_id].
  - intros i m0 Hi. apply list_lookup_insert_Some in Hi as [(<- & <- & _) | [Hne Hi]].
    + right. cbn [doc_id title url]. rewrite Z2Nat.id by lia.
      repeat split; try assumption; eexists; reflexivity.
    + apply Hel', Hi.
  - rewrite length_insert. exact Hshape.
  - rewrite length_insert. lia.
  - intros i m0 Hi Hm0. apply list_lookup_insert_Some in Hi as [(<- & <- & _) | [Hne Hi]].
    + lia.
    + specialize (Hbelow' i m0 Hi Hm0). lia.
  - rewrite (filter_length_insert _ _ _ m) by (cbn; congruence || exact Hm).
    rewrite filter_set_replicate, Hcount.
    pose proof (length_filter (fun m0 => doc_id m0 <> 0) (metas st)) as Hfl.
    unfold wrap32. rewrite Z.mod_small; lia.
  - exact Hel'.
  - exact Hshape.
  - lia.
  - exact Hbelow'.
  - rewrite filter_set_replicate. exact Hcount.
Qed.

Lemma first_doc_snoc (docs : list RawDoc) (d : RawDoc) (i : Z) :
  first_doc (docs ++ [d]) i
  = match first_doc docs i with
    | Some r => Some r
    | None => if decide (raw_doc_id d = i) then Some d else None
    end.
Proof.
  unfold first_doc. rewrite filter_app.
  destruct (filter (fun r => raw_doc_id r = i) docs) as [|r rs]; [|reflexivity].
  cbn [app head]. rewrite filter_cons, filter_nil.
  destruct (decide (raw_doc_id d = i)); reflexivity.
Qed.

Lemma first_doc_Some (docs : list RawDoc) (i : Z) (r : RawDoc) :
  first_doc docs i = Some r -> r ∈ docs /\ raw_doc_id r = i.
Proof.
  unfold first_doc. intros H.
  assert (Hin : r ∈ filter (fun r0 => raw_doc_id r0 = i) docs).
  { destruct (filter _ docs) as [|r0 rs]; [discriminate |].
    injection H as ->. left. }
  apply list_elem_of_filter in Hin as [Hid Hin]. auto.
Qed.

Lemma first_doc_None (docs : list RawDoc) (i : Z) (r : RawDoc) :
  first_doc docs i = None -> r ∈ docs -> raw_doc_id r <> i.
Proof.
  unfold first_doc. intros H Hin Hid.
  assert (Hf : r ∈ filter (fun r0 => raw_doc_id r0 = i) docs)
    by (apply list_elem_of_filter; auto).
  destruct (filter _ docs); [inversion Hf | discriminate].
Qed.

Lemma add_doc_meta_content (docs : list RawDoc) (st st' : Metas) (d : RawDoc) :
  metas_ok st -> metas_content docs st -> 0 <= raw_doc_id d ->
  add_doc_meta st d = Some st' -> metas_content (docs ++ [d]) st'.
Proof.
  intros Hok [Hset Hall] Hid Hadd.
  destruct (add_doc_meta_spec st st' d (metas_length st Hok) Hid Hadd)
    as [[Hz ->] | (Hnz & k & m & Hcap & _ & Hm & Hcase)].
  { constructor.
    - intros i m Hi Hm. destruct (Hset i m Hi Hm) as (r & Hr & Ht & Hu).
      exists r. rewrite first_doc_snoc, Hr. auto.
    - intros r [Hr | ->%list_elem_of_singleton]%elem_of_app Hrnz; [eauto | congruence]. }
  cbn zeta in *.
  assert (Hset' : forall i m0, (metas st ++ replicate k zero_meta) !! i = Some m0 ->
            doc_id m0 <> 0 ->
            exists r, first_doc (docs ++ [d]) (Z.of_nat i) = Some r
                      /\ title m0 = Some (raw_title r) /\ url m0 = Some (raw_url r)).
  { intros i m0 [Hi | [_ ->]]%lookup_app_replicate Hm0.
    - destruct (Hset i m0 Hi Hm0) as (r & Hr & Ht & Hu).
      exists r. rewrite first_doc_snoc, Hr. auto.
    - exfalso. apply Hm0. reflexivity. }
  assert (Hall' : forall r, r ∈ docs -> raw_doc_id r <> 0 ->
            exists m0, (metas st ++ replicate k zero_meta) !! Z.to_nat (raw_doc_id r)
                       = Some m0 /\ doc_id m0 <> 0).
  { intros r Hr Hrnz. destruct (Hall r Hr Hrnz) as (m0 & Hm0 & Hnz0).
    exists m0. split; [|exact Hnz0]. apply lookup_app_l_Some, Hm0. }
  destruct Hcase as [[Hmz ->] | [Hmnz ->]]; constructor; cbn [metas].
  - intros i m0 Hi Hm0.
    apply list_lookup_insert_Some in Hi as [(<- & <- & _) | [Hne Hi]]; [|eauto].
    exists d. cbn [title url]. rewrite first_doc_snoc, Z2Nat.id by lia.
    destruct (first_doc docs (raw_doc_id d)) as [r|] eqn:Hr.
    + exfalso. apply first_doc_Some in Hr as [Hr Hrid].
      destruct (Hall' r Hr ltac:(congruence)) as (m0 & Hm0' & Hnz0).
      rewrite Hrid, Hm in Hm0'. congruence.
    + rewrite decide_True by reflexivity. auto.
  - intros r Hr Hrnz.
    assert (Hex : exists m0, (metas st ++ replicate k zero_meta)
                             !! Z.to_nat (raw_doc_id r) = Some m0).
    { apply elem_of_app in Hr as [Hr | ->%list_elem_of_singleton].
      - destruct (Hall' r Hr Hrnz) as (m0 & Hm0 & _). eauto.
      - eauto. }
    destruct Hex as [m0 Hm0].
    destruct (decide (Z.to_nat (raw_doc_id d) = Z.to_nat (raw_doc_id r))) as [Heq | Hne].
    + eexists. split.
      * rewrite <- Heq. apply list_lookup_insert_eq. apply lookup_lt_Some in Hm. exact Hm.
      * cbn [doc_id]. exact Hnz.
    + apply elem_of_app in Hr as [Hr | ->%list_elem_of_singleton]; [|congruence].
      destruct (Hall' r Hr Hrnz) as (m1 & Hm1 & Hnz1).
      exists m1. split; [|exact Hnz1].
      rewrite list_lookup_insert_ne by exact Hne. exact Hm1.
  - exact Hset'.
  - intros r [Hr | ->%list_elem_of_singleton]%elem_of_app Hrnz; [eauto |].
    exists m. auto.
Qed.

Lemma add_docs_ok (docs0 docs : list RawDoc) (st st' : Metas) :
  metas_ok st -> metas_content docs0 st ->
  Forall (fun d => 0 <= raw_doc_id d) docs ->
  add_docs st docs = Some st' ->
  metas_ok st' /\ metas_content (docs0 ++ docs) st'.
Proof.
  intros Hok Hcontent Hids. revert docs0 st Hok Hcontent.
  induction Hids as [|d docs Hd Hids IH]; intros docs0 st Hok Hcontent.
  - intros [= <-]. rewrite app_nil_r. auto.
  - cbn [add_docs]. destruct (add_doc_meta st d) as [st1|] eqn:Hadd; [|discriminate].
    intros Hrest.
    replace (docs0 ++ d :: docs) with ((docs0 ++ [d]) ++ docs)
      by (rewrite <- app_assoc; reflexivity).
    apply (IH (docs0 ++ [d]) st1); [| |exact Hrest].
    + apply (add_doc_meta_ok st st1 d); assumption.
    + apply (add_doc_meta_content docs0 st st1 d); assumption.
Qed.

Lemma metas_ok_empty :
  metas_ok {| metas := []; docs_with_meta := 0; max_doc_id := 0 |}.
Proof.
  constructor; cbn [metas docs_with_meta max_doc_id].
  - intros i m H. discriminate H.
  - left. reflexivity.
  - lia.
  - intros i m H. discriminate H.
  - reflexivity.
Qed.

Lemma metas_content_empty :
  metas_content [] {| metas := []; docs_with_meta := 0; max_doc_id := 0 |}.
Proof.
  constructor; cbn [metas].
  - intros i m H. discriminate H.
  - intros d Hd. inversion Hd.
Qed.

End forward_builder_facts.

(** ** The forward index written and loaded *)

Section forward_file_facts.
Import CLib CStd CParse LineReader BinaryIO IndexFiles SearchCli SearchCliLoad.
Import StemmerSpec StemmerMainSpec LexiconSpec PostingSpec.
Import ForwardBuilder SearchCliForward ForwardSpec ForwardAux.

Lemma raw_loop_docs (fuel : nat) (input : list ascii) (st : Metas) :
  (length input < fuel)%nat -> lines_fit_int input ->
  raw_loop fuel input st = Some (add_docs st (raw_docs input)).
Proof.
  revert input st. induction fuel as [|fuel IH]; intros input st Hfuel Hfit; [lia |].
  cbn [raw_loop]. unfold read_line, raw_docs, lines_fit_int in *.
  rewrite (read_line_loop_file_lines input []) in *.
  pose proof (read_line_loop_rest input []) as Hrest.
  pose proof (read_line_loop_spec input []) as Hspec.
  destruct (read_line_loop input []) as [[buffer input']|]; [|reflexivity].
  destruct (Hrest _ _ eq_refl) as [Hlen Hcase].
  destruct Hspec as (l & _ & _ & Hne & _).
  assert (Hpos : (0 < length buffer)%nat)
    by (destruct buffer; [congruence | cbn; lia]).
  inversion Hfit as [|? ? Hb Hfit']; subst.
  rewrite to_int_small by lia.
  destruct (Z.ltb_spec (Z.of_nat (length buffer)) 0); [lia |].
  cbn [omap list_omap].
  fold (omap (fun l => raw_line (c_str l)) (file_lines [] input')).
  cbn [length] in Hlen.
  destruct (raw_line (c_str buffer)) as [d|]; cbn [add_docs].
  - destruct (add_doc_meta st d) as [st1|]; [|reflexivity].
    apply IH; [lia | exact Hfit'].
  - apply IH; [lia | exact Hfit'].
Qed.

Lemma nul_free_drop (n : nat) (s : list ascii) : nul_free s -> nul_free (drop n s).
Proof. apply Forall_drop. Qed.

Lemma raw_line_fields (line : cstring) (d : RawDoc) :
  nul_free line -> raw_line line = Some d ->
  0 <= raw_doc_id d < 2 ^ 32 /\ nul_free (raw_title d) /\ nul_free (raw_url d).
Proof.
  intros Hline. unfold raw_line.
  destruct (strchr line _) as [i1|]; [|discriminate].
  destruct (strchr (drop (S i1) line) _) as [i2|]; [|discriminate].
  destruct (strchr (drop (S i2) _) _) as [i3|]; [|discriminate].
  destruct (strchr (drop (S i3) _) _) as [i4|]; [|discriminate].
  intros [= <-]. cbn [raw_doc_id raw_title raw_url].
  split; [unfold parse_u32, wrap32; apply Z.mod_pos_bound; lia |].
  split; repeat (apply nul_free_take || apply nul_free_drop); exact Hline.
Qed.

Lemma raw_docs_fields (input : list ascii) :
  Forall (fun d => 0 <= raw_doc_id d < 2 ^ 32
                   /\ nul_free (raw_title d) /\ nul_free (raw_url d))
    (raw_docs input).
Proof.
  unfold raw_docs. apply Forall_forall. intros d Hd.
  apply list_elem_of_omap in Hd as (l & _ & Hl).
  apply (raw_line_fields (c_str l)); [apply c_str_is_nul_free | exact Hl].
Qed.

(** The set elements of the array, in the order of the array. *)
Lemma forward_loop_filter (k : nat) (i : nat) (ms : list DocMeta) :
  forward_loop k (Z.of_nat i) ms
  = flat_map forward_record
      (filter (fun m => doc_id m <> 0) (take k (drop i ms))).
Proof.
  revert i. induction k as [|k IH]; intros i; [reflexivity |].
  cbn [forward_loop]. rewrite Nat2Z.id.
  replace (Z.of_nat i + 1) with (Z.of_nat (S i)) by lia. rewrite IH.
  destruct (ms !! i) as [m|] eqn:Hm.
  - rewrite (drop_S ms m i Hm). cbn [take]. rewrite filter_cons.
    destruct (Z.eqb_spec (doc_id m) 0) as [Hz | Hnz].
    + rewrite decide_False by (intros H; apply H, Hz). reflexivity.
    + rewrite decide_True by exact Hnz. reflexivity.
  - apply lookup_ge_None in Hm.
    rewrite !drop_ge by lia. rewrite !take_nil. reflexivity.
Qed.

Lemma filter_unset (ms : list DocMeta) :
  Forall (fun m => doc_id m = 0) ms -> filter (fun m => doc_id m <> 0) ms = [].
Proof.
  induction 1 as [|m ms Hm Hms IH]; [reflexivity |].
  rewrite filter_cons_False by (intros H; apply H, Hm). exact IH.
Qed.

Lemma metas_ok_first (st : Metas) (m : DocMeta) :
  metas_ok st -> metas st !! 0%nat = Some m -> doc_id m = 0.
Proof.
  intros Hok Hm. destruct (metas_elements st Hok 0%nat m Hm) as [-> | (H1 & H2 & _)];
    [reflexivity | exact H1].
Qed.

(** The loop over the array writes every set element. *)
Lemma forward_loop_written (st : Metas) :
  metas_ok st ->
  forward_loop (Z.to_nat (max_doc_id st)) 1 (metas st)
  = flat_map forward_record (filter (fun m => doc_id m <> 0) (metas st)).
Proof.
  intros Hok. rewrite (forward_loop_filter _ 1%nat). f_equal.
  rewrite <- (take_drop 1 (metas st)) at 2.
  rewrite <- (take_drop (Z.to_nat (max_doc_id st)) (drop 1 (metas st))) at 2.
  rewrite !filter_app.
  rewrite (filter_unset (take 1 (metas st))), (filter_unset (drop _ (drop 1 _))).
  - rewrite app_nil_r. reflexivity.
  - apply Forall_forall. intros m Hm.
    apply list_elem_of_lookup_1 in Hm as [j Hj].
    rewrite !lookup_drop in Hj.
    destruct (Z.eq_dec (doc_id m) 0) as [Hz | Hnz]; [exact Hz |].
    pose proof (metas_below_max st Hok _ m Hj Hnz). lia.
  - apply Forall_forall. intros m Hm.
    apply list_elem_of_lookup_1 in Hm as [j Hj].
    apply lookup_take_Some in Hj as [Hj Hlt].
    assert (j = 0%nat) as -> by lia.
    apply (metas_ok_first st m Hok Hj).
Qed.

Lemma grow_meta_cap_same (fuel : nat) (new_cap need : Z) :
  SearchCliForward.grow_meta_cap fuel new_cap need
  = ForwardBuilder.grow_meta_cap fuel new_cap need.
Proof. reflexivity. Qed.

Lemma ensure_meta_cap_enough (lm : list SearchCli.DocMeta) (need : Z) :
  need < Z.of_nat (length lm) -> ensure_meta_cap lm need = Some lm.
Proof.
  intros H. unfold ensure_meta_cap.
  destruct (Z.gtb_spec (Z.of_nat (length lm)) need); [reflexivity | lia].
Qed.

Lemma ensure_meta_cap_first (need : Z) :
  0 <= need < 2 ^ 31 ->
  exists cap, ensure_meta_cap [] need = Some (replicate cap null_meta)
              /\ need < Z.of_nat cap.
Proof.
  intros Hneed. unfold ensure_meta_cap. cbn [length].
  destruct (Z.gtb_spec (Z.of_nat 0) need) as [Hgt | _]; [lia |].
  change (Z.of_nat 0 =? 0) with true. cbn iota. rewrite grow_meta_cap_same.
  destruct (grow_meta_cap_returns 33 1024 need) as [cap Hcap]; try lia.
  rewrite Hcap.
  apply grow_meta_cap_bounds in Hcap as (Hlt & Hge & _);
    [|apply cap_shape_first | lia].
  exists (Z.to_nat (cap - Z.of_nat 0)). split; [reflexivity | lia].
Qed.

Lemma load_forward_loop_records (rs : list DocMeta)
    (lm : list SearchCli.DocMeta) (universe : list Z) (rest : list ascii) :
  Forall (fun m => 0 <= doc_id m < 2 ^ 32
                   /\ doc_id m < Z.of_nat (length lm)) rs ->
  load_forward_loop (length rs) (flat_map forward_record rs ++ rest) lm universe
  = Some (fold_left load_meta rs lm, universe ++ map doc_id rs).
Proof.
  intros Hall. revert lm universe Hall.
  induction rs as [|m rs IH]; intros lm universe Hall.
  - cbn. rewrite app_nil_r. reflexivity.
  - apply Forall_cons in Hall as [[Hid Hcap] Hall].
    cbn [length flat_map load_forward_loop map fold_left].
    unfold forward_record at 1. cbn zeta. rewrite <- !app_assoc.
    set (t := default [] (title m)). set (u := default [] (url m)).
    set (tl := Z.of_nat (length t) mod 2 ^ 16).
    set (ul := Z.of_nat (length u) mod 2 ^ 16).
    assert (Htl : 0 <= tl < 2 ^ 16) by (apply Z.mod_pos_bound; lia).
    assert (Hul : 0 <= ul < 2 ^ 16) by (apply Z.mod_pos_bound; lia).
    assert (Htl' : tl <= Z.of_nat (length t)) by (apply Z.mod_le; lia).
    assert (Hul' : ul <= Z.of_nat (length u)) by (apply Z.mod_le; lia).
    rewrite read_u32_write, read_u16_write, read_u16_write.
    rewrite (Z.mod_small (doc_id m)), (Z.mod_small tl), (Z.mod_small ul) by lia.
    assert (Hread : forall (n : Z) (bs more : list ascii),
              0 <= n <= Z.of_nat (length bs) ->
              (if n >? 0 then fread n (take (Z.to_nat n) bs ++ more)
               else Some ([], take (Z.to_nat n) bs ++ more))
              = Some (take (Z.to_nat n) bs, more)).
    { intros n bs more Hn. destruct (Z.gtb_spec n 0) as [Hpos | Hzero].
      - apply fread_app. rewrite length_take. lia.
      - replace n with 0 by lia. reflexivity. }
    rewrite (Hread tl t) by lia. rewrite (Hread ul u) by lia.
    rewrite ensure_meta_cap_enough by exact Hcap.
    rewrite IH.
    + rewrite <- app_assoc. reflexivity.
    + eapply Forall_impl; [exact Hall |]. intros m' [H1 H2].
      rewrite length_insert. auto.
Qed.

Lemma fold_load_length (rs : list DocMeta) (lm : list SearchCli.DocMeta) :
  length (fold_left load_meta rs lm) = length lm.
Proof.
  revert lm. induction rs as [|m rs IH]; intros lm; [reflexivity |].
  cbn [fold_left]. rewrite IH. apply length_insert.
Qed.

Lemma fold_load_stable (rs : list DocMeta) (lm : list SearchCli.DocMeta)
    (i : nat) (v : SearchCli.DocMeta) :
  lm !! i = Some v ->
  (forall m, m ∈ rs -> Z.to_nat (doc_id m) = i -> loaded_meta m = v) ->
  fold_left load_meta rs lm !! i = Some v.
Proof.
  revert lm. induction rs as [|m rs IH]; intros lm Hi Hsame; [exact Hi |].
  cbn [fold_left]. apply IH.
  - unfold load_meta.
    destruct (decide (Z.to_nat (doc_id m) = i)) as [Heq | Hne].
    + rewrite Heq, list_lookup_insert_eq by (eapply lookup_lt_Some, Hi).
      f_equal. apply Hsame; [left | exact Heq].
    + rewrite list_lookup_insert_ne by exact Hne. exact Hi.
  - intros m' Hm'. apply Hsame. right. exact Hm'.
Qed.

Lemma fold_load_lookup (rs : list DocMeta) (lm : list SearchCli.DocMeta)
    (m : DocMeta) :
  m ∈ rs -> (Z.to_nat (doc_id m) < length lm)%nat ->
  (forall m', m' ∈ rs -> Z.to_nat (doc_id m') = Z.to_nat (doc_id m) ->
              loaded_meta m' = loaded_meta m) ->
  fold_left load_meta rs lm !! Z.to_nat (doc_id m) = Some (loaded_meta m).
Proof.
  revert lm. induction rs as [|m0 rs IH]; intros lm Hm Hlen Hsame;
    [inversion Hm |].
  cbn [fold_left]. apply elem_of_cons in Hm as [-> | Hm].
  - apply fold_load_stable.
    + unfold load_meta. apply list_lookup_insert_eq. exact Hlen.
    + intros m' Hm'. apply Hsame. right. exact Hm'.
  - apply IH; [exact Hm | unfold load_meta; rewrite length_insert; exact Hlen |].
    intros m' Hm'. apply Hsame. right. exact Hm'.
Qed.

(** The doc_ids of the set elements, in the order of the array, are
    strictly ascending. *)
Lemma set_ids_ascending (ms : list DocMeta) (first : Z) :
  (forall i m, ms !! i = Some m -> doc_id m <> 0 ->
               doc_id m = first + Z.of_nat i) ->
  ascending (map doc_id (filter (fun m => doc_id m <> 0) ms)).
Proof.
  revert first. induction ms as [|m ms IH]; intros first Hidx; [constructor |].
  assert (Hrest : forall i m', ms !! i = Some m' -> doc_id m' <> 0 ->
                    doc_id m' = (first + 1) + Z.of_nat i).
  { intros i m' Hi Hnz. rewrite (Hidx (S i) m' Hi Hnz). lia. }
  rewrite filter_cons. destruct (decide (doc_id m <> 0)) as [Hnz | _];
    [|apply (IH (first + 1)), Hrest].
  cbn [map]. constructor; [apply (IH (first + 1)), Hrest |].
  apply Forall_forall. intros d Hd.
  apply list_elem_of_fmap in Hd as (m' & -> & Hm').
  apply list_elem_of_filter in Hm' as [Hnz' Hm'].
  apply list_elem_of_lookup_1 in Hm' as [i Hi].
  rewrite (Hrest i m' Hi Hnz'), (Hidx 0%nat m eq_refl Hnz). lia.
Qed.

End forward_file_facts.

Section forward_claims.
Import CLib CStd CParse LineReader BinaryIO IndexFiles SearchCli SearchCliLoad.
Import StemmerSpec StemmerMainSpec LexiconSpec PostingSpec.
Import ForwardBuilder SearchCliForward ForwardSpec ForwardAux ForwardExamples.

Lemma scan_raw_docs (input : list ascii) :
  lines_fit_int input ->
  scan_raw input
  = Some (add_docs {| metas := []; docs_with_meta := 0; max_doc_id := 0 |}
            (raw_docs input)).
Proof. intros Hfit. apply raw_loop_docs; [lia | exact Hfit]. Qed.

Lemma raw_docs_nonneg (input : list ascii) :
  Forall (fun d => 0 <= raw_doc_id d) (raw_docs input).
Proof.
  eapply Forall_impl; [apply raw_docs_fields |]. cbn. intros d H. lia.
Qed.

Lemma scan_raw_ok (input : list ascii) (st : Metas) :
  lines_fit_int input -> scan_raw input = Some (Some st) ->
  metas_ok st /\ metas_content (raw_docs input) st.
Proof.
  intros Hfit Hscan. rewrite (scan_raw_docs input Hfit) in Hscan.
  injection Hscan as Hscan.
  apply (add_docs_ok [] (raw_docs input) _ st metas_ok_empty metas_content_empty
           (raw_docs_nonneg input) Hscan).
Qed.

Lemma set_meta_index (st : Metas) (m : DocMeta) :
  metas_ok st -> m ∈ filter (fun m0 => doc_id m0 <> 0) (metas st) ->
  metas st !! Z.to_nat (doc_id m) = Some m
  /\ 0 < doc_id m <= max_doc_id st
  /\ is_Some (title m) /\ is_Some (url m).
Proof.
  intros Hok [Hnz Hm]%list_elem_of_filter.
  apply list_elem_of_lookup_1 in Hm as [i Hi].
  pose proof (metas_below_max st Hok i m Hi Hnz) as Hmax.
  destruct (metas_elements st Hok i m Hi) as [-> | (Hid & _ & Ht & Hu)];
    [exfalso; apply Hnz; reflexivity |].
  rewrite Hid, Nat2Z.id. split; [exact Hi |]. split; [lia | auto].
Qed.

Lemma max_doc_id_bound (st : Metas) :
  metas_ok st -> 0 <= max_doc_id st < 2 ^ 31.
Proof.
  intros Hok. destruct (metas_max st Hok) as [H0 Hmax].
  pose proof (cap_shape_bound _ (metas_length st Hok)). lia.
Qed.

Lemma load_forward_built (input : list ascii) (st : Metas) :
  lines_fit_int input ->
  scan_raw input = Some (Some st) ->
  exists ms universe,
    load_forward (forward_bytes st) = Some (ms, max_doc_id st, universe)
    /\ ascending universe
    /\ (forall d, d ∈ universe
          <-> d <> 0 /\ exists r, r ∈ raw_docs input /\ raw_doc_id r = d)
    /\ (forall d, d ∈ universe -> 0 < d <= max_doc_id st)
    /\ (forall d r, d <> 0 -> first_doc (raw_docs input) d = Some r ->
          ms !! Z.to_nat d
          = Some {| SearchCli.title := Some (cut16 (raw_title r));
                    SearchCli.url := Some (cut16 (raw_url r)) |}).
Proof.
  intros Hfit Hscan.
  destruct (scan_raw_ok input st Hfit Hscan) as [Hok [Hset Hall]].
  pose proof (max_doc_id_bound st Hok) as Hmax.
  set (rs := filter (fun m => doc_id m <> 0) (metas st)).
  destruct (ensure_meta_cap_first (max_doc_id st) Hmax) as (cap & Hcap & Hcapgt).
  assert (Hcount : docs_with_meta st = Z.of_nat (length rs))
    by apply (metas_count st Hok).
  assert (Hcount' : Z.of_nat (length rs) < 2 ^ 32).
  { pose proof (length_filter (fun m => doc_id m <> 0) (metas st)).
    pose proof (cap_shape_bound _ (metas_length st Hok)). subst rs. lia. }
  exists (fold_left load_meta rs (replicate cap null_meta)), (map doc_id rs).
  split; [|split; [|split; [|split]]].
  - unfold load_forward, forward_bytes.
    rewrite !read_u32_write, (forward_loop_written st Hok). fold rs.
    change (negb (1180127812 mod 2 ^ 32 =? 1180127812) || negb (1 mod 2 ^ 32 =? 1))
      with false. cbn iota.
    rewrite (Z.mod_small (max_doc_id st)) by lia. rewrite Hcap.
    rewrite Hcount, (Z.mod_small (Z.of_nat _)) by lia. rewrite Nat2Z.id.
    rewrite <- (app_nil_r (flat_map forward_record rs)).
    rewrite load_forward_loop_records; [reflexivity |].
    apply Forall_forall. intros m Hm.
    destruct (set_meta_index st m Hok Hm) as (_ & Hid & _).
    rewrite length_replicate. lia.
  - apply (set_ids_ascending _ 0). intros i m Hi Hnz.
    destruct (metas_elements st Hok i m Hi) as [-> | (Hid & _)];
      [exfalso; apply Hnz; reflexivity | lia].
  - intros d. rewrite list_elem_of_fmap. split.
    + intros (m & -> & Hm).
      destruct (set_meta_index st m Hok Hm) as (Hi & Hid & _).
      split; [lia |].
      destruct (Hset _ m Hi ltac:(lia)) as (r & Hr & _).
      apply first_doc_Some in Hr as [Hr Hrid]. exists r. split; [exact Hr |].
      rewrite Hrid. lia.
    + intros (Hnz & r & Hr & <-).
      destruct (Hall r Hr Hnz) as (m & Hm & Hmnz). exists m.
      destruct (metas_elements st Hok _ m Hm) as [-> | (Hid & _)];
        [exfalso; apply Hmnz; reflexivity |].
      pose proof (raw_docs_nonneg input) as Hnn. rewrite Forall_forall in Hnn.
      specialize (Hnn r Hr). cbn beta in Hnn.
      split; [lia |]. apply list_elem_of_filter. split; [exact Hmnz |].
      eapply list_elem_of_lookup_2, Hm.
  - intros d (m & -> & Hm)%list_elem_of_fmap.
    apply (set_meta_index st m Hok Hm).
  - intros d r Hnz Hfirst.
    destruct (first_doc_Some _ _ _ Hfirst) as [Hr Hrid].
    pose proof (raw_docs_fields input) as Hfields. rewrite Forall_forall in Hfields.
    destruct (Hfields r Hr) as (Hrange & Htfree & Hufree).
    destruct (Hall r Hr ltac:(lia)) as (m & Hm & Hmnz).
    destruct (Hset _ m Hm Hmnz) as (r' & Hr' & Ht & Hu).
    rewrite Hrid, Z2Nat.id, Hfirst in Hr' by lia. injection Hr' as <-.
    destruct (metas_elements st Hok _ m Hm) as [-> | (Hid & _)];
      [exfalso; apply Hmnz; reflexivity |].
    rewrite Hrid, Z2Nat.id in Hid by lia.
    assert (Hin : m ∈ rs).
    { apply list_elem_of_filter. split; [exact Hmnz |].
      eapply list_elem_of_lookup_2, Hm. }
    destruct (set_meta_index st m Hok Hin) as (Hi & Hbound & _).
    rewrite <- Hid.
    rewrite (fold_load_lookup rs _ m Hin).
    + unfold loaded_meta. rewrite Ht, Hu. cbn [default].
      unfold cut16. rewrite !c_str_nul_free by (apply nul_free_take; assumption).
      reflexivity.
    + rewrite length_replicate. lia.
    + intros m' Hm' Hsame.
      destruct (set_meta_index st m' Hok Hm') as (Hi' & _).
      rewrite Hsame, Hi in Hi'. injection Hi' as <-. reflexivity.
Qed.

(** X27. [forward.bin] is read back as written.  For a file
    [raw_text.tsv] that the builder scans to its end, the search program
    loads from the bytes of [forward.bin] the same [max_doc_id]; a
    universe that is strictly ascending and holds the doc_ids, other than
    0, of the lines that have four tabs; and for each of them the title
    and the url of the first of its lines, each cut to its length modulo
    [2^16]. *)
Theorem forward_index_read_back (input : list ascii) (st : Metas) :
  lines_fit_int input ->
  scan_raw input = Some (Some st) ->
  exists ms universe,
    load_forward (forward_bytes st) = Some (ms, max_doc_id st, universe)
    /\ ascending universe
    /\ (forall d, d ∈ universe
          <-> d <> 0 /\ exists r, r ∈ raw_docs input /\ raw_doc_id r = d)
    /\ (forall d, d ∈ universe -> 0 < d <= max_doc_id st)
    /\ (forall d r, d <> 0 -> first_doc (raw_docs input) d = Some r ->
          ms !! Z.to_nat d
          = Some {| SearchCli.title := Some (cut16 (raw_title r));
                    SearchCli.url := Some (cut16 (raw_url r)) |}).
Proof. apply load_forward_built. Qed.

Lemma add_doc_meta_fails (st : Metas) (d : RawDoc) :
  metas_ok st -> 0 <= raw_doc_id d ->
  (add_doc_meta st d = None <-> 2 ^ 31 <= raw_doc_id d).
Proof.
  intros Hok Hid. split.
  - intros Hnone.
    destruct (Z.lt_ge_cases (raw_doc_id d) (2 ^ 31)) as [Hlt | Hge]; [|exact Hge].
    exfalso. revert Hnone. unfold add_doc_meta.
    destruct (Z.eqb_spec (raw_doc_id d) 0); [discriminate |].
    destruct (ensure_doc_meta_cap_returns (metas st) (raw_doc_id d) Hlt) as [ms Hms].
    rewrite Hms.
    apply ensure_doc_meta_cap_spec in Hms as (k & -> & Hcap & _);
      [|apply (metas_length st Hok)].
    destruct (lookup_lt_is_Some_2 (metas st ++ replicate k zero_meta)
                (Z.to_nat (raw_doc_id d)) ltac:(lia)) as [m ->].
    destruct (doc_id m =? 0); discriminate.
  - intros Hge. destruct (add_doc_meta st d) as [st'|] eqn:Hadd; [|reflexivity].
    exfalso.
    destruct (add_doc_meta_spec st st' d (metas_length st Hok) Hid Hadd)
      as [[Hz _] | (_ & k & m & Hcap & Hshape & _)]; [lia |].
    cbn zeta in *. apply cap_shape_bound in Hshape. lia.
Qed.

Lemma add_docs_fails (st : Metas) (docs : list RawDoc) :
  metas_ok st -> Forall (fun d => 0 <= raw_doc_id d) docs ->
  (add_docs st docs = None <-> exists r, r ∈ docs /\ 2 ^ 31 <= raw_doc_id r).
Proof.
  intros Hok Hids. revert st Hok.
  induction Hids as [|d docs Hd Hids IH]; intros st Hok.
  - split; [discriminate |]. intros (r & Hr & _). inversion Hr.
  - cbn [add_docs]. pose proof (add_doc_meta_fails st d Hok Hd) as Hfail.
    destruct (add_doc_meta st d) as [st1|] eqn:Hadd.
    + rewrite (IH st1 (add_doc_meta_ok st st1 d Hok Hd Hadd)). split.
      * intros (r & Hr & Hbig). exists r. split; [right |]; assumption.
      * intros (r & [-> | Hr]%elem_of_cons & Hbig).
        -- apply Hfail in Hbig. discriminate Hbig.
        -- exists r. auto.
    + split; [|reflexivity]. intros _. exists d. split; [left |].
      apply Hfail. reflexivity.
Qed.

(** X28. The scan of [raw_text.tsv] fails on a doc_id from [2^31] on,
    and on nothing else: the builder exits with status 1, after it has
    written [postings.bin] and [lexicon.bin] and before it writes
    [forward.bin], exactly when a line with four tabs has such a doc_id
    (the array of the metadata is doubled up to [2^31] elements only). *)
Theorem raw_scan_fails_on_large_id (input : list ascii) :
  lines_fit_int input ->
  (scan_raw input = Some None
   <-> exists r, r ∈ raw_docs input /\ 2 ^ 31 <= raw_doc_id r)
  /\ (is_Some (scan_raw input)).
Proof.
  intros Hfit. rewrite (scan_raw_docs input Hfit). split; [|eexists; reflexivity].
  rewrite <- (add_docs_fails _ (raw_docs input) metas_ok_empty (raw_docs_nonneg input)).
  split; [intros [= ->]; reflexivity | intros ->; reflexivity].
Qed.

Lemma example_raw_fits : lines_fit_int example_raw.
Proof.
  apply (Forall_forallb _ (fun l => Z.of_nat (length l) <? 2 ^ 31));
    [intros l Hl; apply Z.ltb_lt, Hl | vm_compute; reflexivity].
Qed.

Lemma example_raw_scanned : scan_raw example_raw = Some (Some example_metas).
Proof. vm_compute. reflexivity. Qed.

Lemma forward_index_read_back_witness :
  exists ms universe,
    load_forward (forward_bytes example_metas)
    = Some (ms, max_doc_id example_metas, universe)
    /\ ascending universe
    /\ (forall d, d ∈ universe
          <-> d <> 0 /\ exists r, r ∈ raw_docs example_raw /\ raw_doc_id r = d)
    /\ (forall d, d ∈ universe -> 0 < d <= max_doc_id example_metas)
    /\ (forall d r, d <> 0 -> first_doc (raw_docs example_raw) d = Some r ->
          ms !! Z.to_nat d
          = Some {| SearchCli.title := Some (cut16 (raw_title r));
                    SearchCli.url := Some (cut16 (raw_url r)) |}).
Proof.
  apply (forward_index_read_back example_raw example_metas
           example_raw_fits example_raw_scanned).
Defined.

Lemma raw_scan_fails_on_large_id_witness :
  (scan_raw example_raw = Some None
   <-> exists r, r ∈ raw_docs example_raw /\ 2 ^ 31 <= raw_doc_id r)
  /\ (is_Some (scan_raw example_raw)).
Proof. apply (raw_scan_fails_on_large_id example_raw example_raw_fits). Defined.

End forward_claims.

(** ** The index builder: the scan of [stemmed.txt] *)

Section scan_facts.
Import CLib CStd CParse LineReader IndexBuilder IndexBuilderScan.
Import StemmerSpec StemmerMainSpec LineSpec LexiconSpec BuilderSpec ScanSpec FilesSpec.

Lemma stemmed_loop_lines (fuel : nat) (input : list ascii) (tb : Table)
    (capacity : nat) :
  (length input < fuel)%nat -> lines_fit_int input ->
  stemmed_loop fuel input tb capacity
  = Some (index_lines tb capacity (stemmed_lines input)).
Proof.
  revert input tb. induction fuel as [|fuel IH]; intros input tb Hfuel Hfit; [lia |].
  cbn [stemmed_loop]. unfold read_line, stemmed_lines, lines_fit_int in *.
  rewrite (read_line_loop_file_lines input []) in *.
  pose proof (read_line_loop_rest input []) as Hrest.
  pose proof (read_line_loop_spec input []) as Hspec.
  destruct (read_line_loop input []) as [[buffer input']|]; [|reflexivity].
  destruct (Hrest _ _ eq_refl) as [Hlen Hcase].
  destruct Hspec as (l & _ & _ & Hne & _).
  assert (Hpos : (0 < length buffer)%nat)
    by (destruct buffer; [congruence | cbn; lia]).
  inversion Hfit as [|? ? Hb Hfit']; subst.
  rewrite to_int_small by lia.
  destruct (Z.ltb_spec (Z.of_nat (length buffer)) 0); [lia |].
  cbn [omap list_omap].
  fold (omap (fun l => stemmed_line (c_str l)) (file_lines [] input')).
  cbn [length] in Hlen.
  destruct (stemmed_line (c_str buffer)) as [ln|]; cbn [index_lines].
  - destruct (index_body tb capacity (doc_id ln) (body ln)) as [tb1|]; [|reflexivity].
    apply IH; [lia | exact Hfit'].
  - apply IH; [lia | exact Hfit'].
Qed.

Lemma scan_stemmed_lines (input : list ascii) (capacity : nat) :
  lines_fit_int input ->
  scan_stemmed input capacity = Some (build_table capacity (stemmed_lines input)).
Proof. intros Hfit. apply stemmed_loop_lines; [lia | exact Hfit]. Qed.

Lemma stemmed_lines_fields (input : list ascii) :
  bodies_nul_free (stemmed_lines input) /\ doc_ids_u32 (stemmed_lines input).
Proof.
  assert (H : Forall (fun l => nul_free (body l) /\ 0 <= doc_id l < 2 ^ 32)
                (stemmed_lines input)).
  { apply Forall_forall. intros l Hl.
    apply list_elem_of_omap in Hl as (raw & _ & Hl). unfold stemmed_line in Hl.
    destruct (strchr (c_str raw) _) as [i|]; [|discriminate].
    injection Hl as <-. cbn [body doc_id]. split.
    - apply Forall_drop, c_str_is_nul_free.
    - unfold parse_u32, wrap32. apply Z.mod_pos_bound. lia. }
  split; (eapply Forall_impl; [exact H |]); cbn; intros l [H1 H2]; assumption.
Qed.

End scan_facts.

(** ** The index that the search program loads *)

Section loaded_index.
Import CLib CStd CParse LineReader IndexBuilder SearchCli IndexBuilderScan.
Import BinaryIO IndexFiles SearchCliLoad ForwardBuilder SearchCliForward.
Import StemmerSpec StemmerMainSpec LineSpec LexiconSpec BuilderSpec BuilderAux.
Import PostingSpec IndexSpec QuerySpec ContentSpec ContentAux.
Import ScanSpec FilesSpec FilesAux ForwardSpec ForwardAux.

Lemma length_postings_bytes (pf : PostingsFile) :
  Z.of_nat (length (postings_bytes pf))
  = 16 + 4 * Z.of_nat (length (posting_ids pf)).
Proof.
  unfold postings_bytes, write_u32, write_u64.
  rewrite !length_app, !length_le_bytes, length_flat_map_write_u32. lia.
Qed.

(** X29. The index that the search program loads from the files of the
    builder satisfies the invariants of the data model.  When the builder
    scans [stemmed.txt] and [raw_text.tsv] to their ends, the lines of
    [stemmed.txt] are in ascending order of doc_id with no token longer
    than 65535 bytes, and every line that has a token has a doc_id other
    than 0 that has a line in [raw_text.tsv], then the three files load,
    the universe is strictly ascending, and the posting list of every
    lexicon entry is strictly ascending and within the universe. *)
Theorem built_index_well_formed (stemmed raw : list ascii) (capacity : nat)
    (tb : Table) (st : Metas) :
  lines_fit_int stemmed -> lines_fit_int raw ->
  Z.of_nat capacity < 2 ^ 32 ->
  scan_stemmed stemmed capacity = Some (Some tb) ->
  scan_raw raw = Some (Some st) ->
  tokens_short (stemmed_lines stemmed) ->
  doc_ids_ascending (stemmed_lines stemmed) ->
  (forall l, l ∈ stemmed_lines stemmed -> body_tokens (IndexBuilder.body l) <> [] ->
     IndexBuilder.doc_id l <> 0
     /\ exists r, r ∈ raw_docs raw /\ raw_doc_id r = IndexBuilder.doc_id l) ->
  Z.of_nat (length (postings_bytes (write_index tb).1)) < 2 ^ 64 ->
  exists idx,
    load_index (postings_bytes (write_index tb).1)
      (lexicon_bytes (write_index tb).2) (forward_bytes st) = Some idx
    /\ well_formed idx.
Proof.
  intros Hfit1 Hfit2 Hcap Hscan1 Hscan2 Hshort Hsorted Hdocs Hsize.
  rewrite (scan_stemmed_lines stemmed capacity Hfit1) in Hscan1.
  injection Hscan1 as Hbuild.
  destruct (stemmed_lines_fields stemmed) as [Hnul Hu32].
  set (lines := stemmed_lines stemmed) in *.
  rewrite length_postings_bytes in Hsize.
  assert (Hfit : 4 * Z.of_nat (length (posting_ids (write_index tb).1)) < 2 ^ 64)
    by lia.
  pose proof (built_postings_load capacity lines tb Hnul Hu32 Hbuild Hfit) as Hp.
  pose proof (built_lexicon_load capacity lines tb Hnul Hbuild Hcap Hfit) as Hl.
  destruct (load_forward_built raw st Hfit2 Hscan2)
    as (ms & universe & Hf & Hasc & Huni & _).
  eexists. split.
  { unfold load_index. rewrite Hp, Hl, Hf. reflexivity. }
  pose proof (written_entries capacity lines tb Hnul Hbuild Hfit) as Hw.
  assert (Hentry : forall e, e ∈ map loaded_entry (lexicon_records (write_index tb).2) ->
            exists e0, e0 ∈ sorted_terms tb
              /\ clone_postings (posting_ids (write_index tb).1)
                   (postings_offset e / 4) (postings_count e)
                 = postings e0).
  { intros e (r & -> & Hr)%list_elem_of_fmap.
    destruct (Forall2_elem_of_r _ _ _ r Hw Hr) as (e0 & He0 & _ & Hreg & _).
    exists e0. split; [exact He0 |]. rewrite <- Hreg. reflexivity. }
  constructor; cbn [universe_ids lexicon].
  - exact Hasc.
  - intros e He. unfold entry_postings. cbn [postings_data].
    destruct (Hentry e He) as (e0 & He0 & ->).
    pose proof (build_table_ascending capacity lines tb Hsorted Hbuild) as Hall.
    rewrite Forall_forall in Hall. apply Hall.
    apply sorted_terms_slots in He0 as [He0 _]. exact He0.
  - intros e d He. unfold entry_postings. cbn [postings_data].
    destruct (Hentry e He) as (e0 & He0 & ->).
    destruct (sorted_entry_content capacity lines tb e0 Hnul Hbuild He0) as (-> & _).
    intros (l & Hl0 & <- & Ht)%elem_of_dedup_adjacent%elem_of_occurrences.
    apply Huni. apply Hdocs; [exact Hl0 |].
    intros Hnil. rewrite Hnil in Ht. inversion Ht.
Qed.

End loaded_index.

(** ** From the text of a document to the terms indexed *)

Section pipeline_claims.
Import CLib CStd CParse Tokenizer TokenizerSpec TokenizerAux StemmerMain StemmerSpec.
Import LineSpec LexiconSpec IndexBuilder IndexBuilderScan BuilderSpec.

Lemma put_stems_nul_free (first : bool) (stems : list cstring) :
  Forall nul_free stems -> nul_free (put_stems first stems).
Proof.
  intros Hall. revert first. induction Hall as [|s stems Hs Hall IH]; intros first;
    [constructor |].
  cbn [put_stems]. apply Forall_app. split.
  - destruct first; repeat constructor. discriminate.
  - apply Forall_app. split; [exact Hs | apply IH].
Qed.

(** X30. From the text of a document to the terms indexed.  For an
    input line that the tokenizer writes, with a doc_id column that holds
    no NUL, the stemmer reads the line written by the tokenizer and
    writes a line with the same doc_id column; the index builder reads
    from the line written by the stemmer the doc_id that [parse_u32]
    gives for this column and a body whose tokens are the stems of the
    tokens of the text column, in order, and it adds these to the table
    and nothing else. *)
Theorem document_terms_indexed (line doc_id : list ascii)
    (tokens : list (list ascii)) :
  line_tokens line = Some (doc_id, tokens) ->
  nul_free doc_id ->
  exists body',
    stem_line (c_str (line_bytes doc_id tokens))
    = Some (doc_id ++ "009"%char :: body', Z.of_nat (length tokens))
    /\ stemmed_line (c_str (doc_id ++ "009"%char :: body'))
       = Some {| IndexBuilder.doc_id := parse_u32 doc_id; body := body' |}
    /\ body_tokens body'
       = map Stemmer.stem_token (tokenize_text (c5 (split_tsv_5 line)))
    /\ forall tb capacity id,
         index_body tb capacity id body'
         = add_tokens tb capacity id
             (map Stemmer.stem_token (tokenize_text (c5 (split_tsv_5 line)))).
Proof.
  intros Hline Hnul.
  apply line_tokens_Some in Hline as (-> & -> & _ & _ & H5).
  set (tokens := tokenize_text (c5 (split_tsv_5 line))) in *.
  pose proof (tokenize_text_tokens_clean (c5 (split_tsv_5 line))) as Hclean.
  fold tokens in Hclean.
  destruct (split_tsv_5_text line H5) as [_ Htab].
  set (doc_id := c1 (split_tsv_5 line)) in *.
  set (body' := put_stems true (map Stemmer.stem_token tokens) ++ ["010"%char]).
  assert (Hstems : Forall spaceless (map Stemmer.stem_token tokens)).
  { apply Forall_map. eapply Forall_impl; [exact Hclean |].
    intros t Ht. apply stem_token_spaceless, clean_token_spaceless, Ht. }
  assert (Hbody : body_tokens body' = map Stemmer.stem_token tokens)
    by apply (body_tokens_put_stems _ Hstems).
  assert (Hfree : nul_free body').
  { apply Forall_app. split; [|repeat constructor; discriminate].
    apply put_stems_nul_free, Forall_map.
    eapply Forall_impl; [exact Hclean |].
    intros t Ht. apply (stem_token_Forall (fun c => c <> Ascii.zero));
      [apply clean_token_nul_free, Ht | discriminate]. }
  assert (Hdrop : forall rest : list ascii,
            drop (S (length doc_id)) (doc_id ++ "009"%char :: rest) = rest).
  { intros rest.
    change (doc_id ++ "009"%char :: rest) with (doc_id ++ ["009"%char] ++ rest).
    rewrite app_assoc. apply drop_app_length'.
    rewrite length_app. cbn [length]. lia. }
  exists body'. split; [|split; [|split]].
  - rewrite c_str_nul_free.
    + unfold stem_line, line_bytes. cbn [app].
      rewrite (strchr_app _ doc_id _ Htab).
      rewrite take_app_length, Hdrop.
      rewrite stem_body_all_tokens, (body_tokens_put_tokens tokens Hclean).
      rewrite length_map. reflexivity.
    + unfold line_bytes. apply Forall_app. split; [exact Hnul |].
      apply Forall_app. split; [repeat constructor; discriminate |].
      apply Forall_app. split; [apply put_tokens_nul_free, Hclean |].
      repeat constructor. discriminate.
  - rewrite c_str_nul_free.
    + unfold stemmed_line. rewrite (strchr_app _ doc_id _ Htab).
      rewrite take_app_length, Hdrop. reflexivity.
    + apply Forall_app. split; [exact Hnul |].
      constructor; [discriminate | exact Hfree].
  - exact Hbody.
  - intros tb capacity id. rewrite index_body_tokens, Hbody. reflexivity.
Qed.

Lemma document_terms_indexed_witness :
  line_tokens (lit "7" ++ "009"%char :: lit "wiki" ++ "009"%char
                 :: lit "http://u/7" ++ "009"%char :: lit "On Foxes" ++ "009"%char
                 :: lit "The quick-fox, 2 Foxes!")
  = Some (lit "7", [lit "the"; lit "quick"; lit "fox"; lit "2"; lit "foxes"])
  /\ nul_free (lit "7")
  /\ exists body',
       stem_line (c_str (line_bytes (lit "7")
                           [lit "the"; lit "quick"; lit "fox"; lit "2"; lit "foxes"]))
       = Some (lit "7" ++ "009"%char :: body', 5)
       /\ stemmed_line (c_str (lit "7" ++ "009"%char :: body'))
          = Some {| IndexBuilder.doc_id := 7; body := body' |}
       /\ body_tokens body' = [lit "the"; lit "quick"; lit "fox"; lit "2"; lit "fox"].
Proof.
  assert (H : line_tokens (lit "7" ++ "009"%char :: lit "wiki" ++ "009"%char
                 :: lit "http://u/7" ++ "009"%char :: lit "On Foxes" ++ "009"%char
                 :: lit "The quick-fox, 2 Foxes!")
              = Some (lit "7", [lit "the"; lit "quick"; lit "fox"; lit "2"; lit "foxes"]))
    by (vm_compute; reflexivity).
  assert (Hnul : nul_free (lit "7")) by (repeat constructor; discriminate).
  split; [exact H |]. split; [exact Hnul |].
  destruct (document_terms_indexed _ _ _ H Hnul) as (body' & H1 & H2 & H3 & _).
  exists body'. split; [exact H1 |]. split; [exact H2 |].
  rewrite H3. vm_compute. reflexivity.
Defined.

End pipeline_claims.

(** ** The files of the three documents *)

Section files_witnesses.
Import CLib CStd CParse IndexBuilder SearchCli IndexBuilderScan.
Import BinaryIO IndexFiles SearchCliLoad ForwardBuilder SearchCliForward.
Import StemmerSpec StemmerMainSpec LineSpec LexiconSpec BuilderSpec PostingSpec.
Import IndexSpec QuerySpec ContentSpec ScanSpec FilesSpec ForwardSpec.
Import BuilderExamples ForwardExamples PipelineExamples.

Lemma example_lines_u32 : doc_ids_u32 example_lines.
Proof.
  apply (Forall_forallb _
           (fun l => (0 <=? IndexBuilder.doc_id l) && (IndexBuilder.doc_id l <? 2 ^ 32))).
  - intros l [H1%Z.leb_le H2%Z.ltb_lt]%andb_prop. auto.
  - vm_compute. reflexivity.
Qed.

Lemma example_postings_fit :
  4 * Z.of_nat (length (posting_ids (write_index example_table).1)) < 2 ^ 64.
Proof. vm_compute. reflexivity. Qed.

Lemma index_files_round_trip_witness :
  load_postings (postings_bytes (write_index example_table).1)
  = Some (posting_ids (write_index example_table).1)
  /\ load_lexicon (lexicon_bytes (write_index example_table).2)
     = Some (map loaded_entry (lexicon_records (write_index example_table).2))
  /\ Forall (fun r => SearchCli.term (loaded_entry r) = term_bytes r)
       (lexicon_records (write_index example_table).2).
Proof.
  apply (index_files_round_trip 1024 example_lines _ _
           example_lines_nul_free example_lines_u32 example_index_built);
    [vm_compute; reflexivity | exact example_postings_fit].
Defined.

Lemma search_word_finds_documents_witness :
  evaluate example_loaded (lit "Foxes") = Some [1; 2; 3]
  /\ forall d,
       d ∈ dedup_adjacent
             (occurrences (Stemmer.stem_token (map tolower (lit "Foxes")))
                example_lines)
       <-> exists l, l ∈ example_lines /\ IndexBuilder.doc_id l = d
                     /\ Stemmer.stem_token (map tolower (lit "Foxes"))
                          ∈ body_tokens (IndexBuilder.body l).
Proof.
  assert (Hterm : is_term (lit "Foxes")) by (split; [discriminate | reflexivity]).
  assert (Hlex : load_lexicon (lexicon_bytes (write_index example_table).2)
                 = Some (lexicon example_loaded)) by (vm_compute; reflexivity).
  assert (Hdata : load_postings (postings_bytes (write_index example_table).1)
                  = Some (postings_data example_loaded)) by (vm_compute; reflexivity).
  assert (Hcap : Z.of_nat 1024 < 2 ^ 32) by (vm_compute; reflexivity).
  destruct (search_word_finds_documents 1024 example_lines _ _ example_loaded
              (lit "Foxes") example_lines_nul_free example_lines_short
              example_lines_u32 Hcap example_index_built example_postings_fit
              Hlex Hdata Hterm) as [Heval Hmem].
  split; [|exact Hmem]. rewrite Heval. vm_compute. reflexivity.
Defined.

Lemma example_stemmed_fits : lines_fit_int example_stemmed.
Proof.
  apply (Forall_forallb _ (fun l => Z.of_nat (length l) <? 2 ^ 31));
    [intros l Hl; apply Z.ltb_lt, Hl | vm_compute; reflexivity].
Qed.

Lemma example_stemmed_scanned :
  scan_stemmed example_stemmed 1024 = Some (Some example_scanned).
Proof. vm_compute. reflexivity. Qed.

Lemma example_stemmed_short : tokens_short (stemmed_lines example_stemmed).
Proof.
  apply (Forall_forallb _
           (fun l => forallb (fun t => Z.of_nat (length t) <=? 65535)
                       (body_tokens (IndexBuilder.body l)))).
  - intros l Hl. revert Hl. apply Forall_forallb.
    intros t Ht. apply Z.leb_le, Ht.
  - vm_compute. reflexivity.
Qed.

Lemma example_stemmed_ascending : doc_ids_ascending (stemmed_lines example_stemmed).
Proof.
  unfold doc_ids_ascending.
  replace (map IndexBuilder.doc_id (stemmed_lines example_stemmed)) with [1; 2; 3]
    by (vm_compute; reflexivity).
  repeat (constructor; try lia).
Qed.

Lemma example_stemmed_documented (l : Line) :
  l ∈ stemmed_lines example_stemmed ->
  body_tokens (IndexBuilder.body l) <> [] ->
  IndexBuilder.doc_id l <> 0
  /\ exists r, r ∈ raw_docs example_raw /\ raw_doc_id r = IndexBuilder.doc_id l.
Proof.
  intros Hl _.
  assert (H : Forall (fun l0 => IndexBuilder.doc_id l0 <> 0
                        /\ exists r, r ∈ raw_docs example_raw
                                     /\ raw_doc_id r = IndexBuilder.doc_id l0)
                (stemmed_lines example_stemmed)).
  { apply (Forall_forallb _
             (fun l0 => negb (IndexBuilder.doc_id l0 =? 0)
                        && existsb (fun r => raw_doc_id r =? IndexBuilder.doc_id l0)
                             (raw_docs example_raw))).
    - intros l0 [H1 H2]%andb_prop. split.
      + intros Hz. rewrite Hz in H1. discriminate H1.
      + apply existsb_exists in H2 as (r & Hr & Heq%Z.eqb_eq).
        exists r. split; [apply list_elem_of_In, Hr | exact Heq].
    - vm_compute. reflexivity. }
  rewrite Forall_forall in H. apply H, Hl.
Qed.

Lemma built_index_well_formed_witness :
  exists idx,
    load_index (postings_bytes (write_index example_scanned).1)
      (lexicon_bytes (write_index example_scanned).2)
      (forward_bytes example_metas) = Some idx
    /\ well_formed idx.
Proof.
  apply (built_index_well_formed example_stemmed example_raw 1024
           example_scanned example_metas
           example_stemmed_fits example_raw_fits);
    [vm_compute; reflexivity | exact example_stemmed_scanned
    | exact example_raw_scanned | exact example_stemmed_short
    | exact example_stemmed_ascending | exact example_stemmed_documented
    | vm_compute; reflexivity].
Defined.

End files_witnesses.
